(** * The variable eliminator of [tools/eliminator.js]

    A shallow embedding of the eliminator script: the generic syntax-tree
    walker [traverse], the analysis passes of the [Eliminator] class, its
    rewriting passes and the [ExpressionOptimizer]; and of the helpers
    [set] and [isGenerated] and the loop of [main] that takes the blank
    lines out of the generated code.

    The script works on UglifyJS syntax trees, which are plain nested
    JavaScript arrays such as [['binary', '+', ['name', 'x'], ['num', 1]]].
    The walker never looks at the grammar: it only asks whether a value is
    a non-empty array and whether its first element is a string.  The
    embedding keeps that view: a tree is a [jsval], and every pass is
    written over [jsval] the way the script is written over arrays.

    Conventions of the embedding:
    - a JavaScript object used as a table ([isLocal], [affects], [isLive],
      ...) is an association list in insertion order, which is the order in
      which [for (k in o)] enumerates the keys of such a table (names are
      identifiers, never array indices); a [for (k in o)] loop runs over
      the keys that [o] has when the loop starts, also when its body adds
      keys to [o];
    - numbers are integers ([Z]); the script only tests them and adds them.
      Its numbers are doubles: the sums of the expression optimizer are
      the sums of integers as long as they stay within 2^53 of 0
      ([chain_exact]);
    - a [TypeError] (reading a property of [undefined] or [null], calling a
      method that a value does not have) is the result [None]; so is a
      [while] loop that has not ended when its fuel is used up, and a
      chain that the expression optimizer rebuilds around a constant that
      is not an integer;
    - the in-place update [node[index] = subresult] is a functional update
      of the tree: a walk returns the tree it leaves behind.  Trees are
      values: where the script stores one array in two places (an initial
      value put into [toReplace], a value put into the slot of a use), the
      embedding has two equal trees.  The one pass that goes on writing to
      arrays it has stored twice is [collapseValues]: it is embedded a
      second time over a store of arrays, [collapseValues_at], with the
      sharing of the script, and the two are shown to leave the same
      table;
    - the function body given to a pass is the statement list [func[3]];
      its first element is a statement, not a string, so that no callback
      is called on the body itself;
    - a table made by [{}] inherits the members of [Object.prototype]:
      [o[k]] and [k in o] find such a member where the table has no entry
      of its own, [o.hasOwnProperty] is no longer the method once the
      table has an entry of that name, and [o['__proto__'] = v] makes no
      entry.  [isGenerated] and [calculateTransitiveDependencies] are
      embedded with these members ([inherited], [lookup]).  The other
      passes are embedded with the lookups [get], [has] and [test], which
      find what the table holds itself: they are the script on the trees
      of [plain_names], in which no value names such a member, and for the
      variables that are not named so; the theorems that depend on this
      say it.  [Object.prototype] is the one of the engine, to which
      nothing has been added;
    - a string is a list of characters of one byte, as the script sees the
      code that it prints with [ascii_only]. *)

Set Warnings "-register-all".
From Stdlib Require Import ZArith String Ascii List Bool Arith Lia DecimalString.
From Stdlib Require Import Relations.
Import ListNotations.
Open Scope string_scope.
Open Scope list_scope.

(** ** JavaScript values *)

Inductive jsval : Type :=
| JUndef
| JNull
| JBool (b : bool)
| JNum (n : Z)
| JStr (s : string)
| JArr (l : list jsval).

(** [if (v)]: the truth value of [v]. *)
Definition truthy (v : jsval) : bool :=
  match v with
  | JUndef | JNull => false
  | JBool b => b
  | JNum n => negb (n =? 0)%Z
  | JStr s => negb (s =? "")
  | JArr _ => true
  end.

(** [v === false]. *)
Definition is_false (v : jsval) : bool :=
  match v with
  | JBool false => true
  | _ => false
  end.

(** [String(v)], the conversion that turns a value into a property key.
    Inside [Array.prototype.join], [undefined] and [null] print as the
    empty string. *)
Fixpoint to_key (v : jsval) : string :=
  match v with
  | JUndef => "undefined"
  | JNull => "null"
  | JBool true => "true"
  | JBool false => "false"
  | JNum n => NilZero.string_of_int (Z.to_int n)
  | JStr s => s
  | JArr l =>
      String.concat ","
        (map (fun x => match x with
                       | JUndef | JNull => ""
                       | _ => to_key x
                       end) l)
  end.

(** [v == s] for a string [s] that is not a numeric literal (all the
    strings the script compares with are tags, operators or identifiers):
    a string compares by value, an array through its string conversion,
    and every other value is different. *)
Definition loose_eq (v : jsval) (s : string) : bool :=
  match v with
  | JStr t => t =? s
  | JArr _ => to_key v =? s
  | _ => false
  end.

Fixpoint chars (s : string) : list jsval :=
  match s with
  | EmptyString => []
  | String c r => JStr (String c EmptyString) :: chars r
  end.

(** The indexed elements of a value, as [v.length] and [v[i]] show them.
    [None] stands for the [TypeError] of [undefined.length]. *)
Definition elems (v : jsval) : option (list jsval) :=
  match v with
  | JArr l => Some l
  | JStr s => Some (chars s)
  | JBool _ | JNum _ => Some []
  | JUndef | JNull => None
  end.

(** [v[i]] on a value whose elements are [l]. *)
Definition at_ (l : list jsval) (i : nat) : jsval := nth i l JUndef.

(** [v[i]], failing on [undefined] and [null]. *)
Definition idx (v : jsval) (i : nat) : option jsval :=
  match elems v with
  | Some l => Some (at_ l i)
  | None => None
  end.

(** [subnode[0]] of a value known to be an array. *)
Definition at_head (v : jsval) : jsval :=
  match v with
  | JArr l => at_ l 0
  | _ => JUndef
  end.

(** [v && typeof v == 'object' && v.length]: a non-empty array. *)
Definition is_subnode (v : jsval) : bool :=
  match v with
  | JArr (_ :: _) => true
  | _ => false
  end.

(** ** Tables *)

(** A JavaScript object used as a table from names to [V]. *)
Definition obj (V : Type) : Type := list (string * V).

Section Tables.
Context {V : Type}.

Fixpoint get (k : string) (o : obj V) : option V :=
  match o with
  | [] => None
  | (k', v) :: r => if k' =? k then Some v else get k r
  end.

(** [o.hasOwnProperty(k)]. *)
Definition has (k : string) (o : obj V) : bool :=
  match get k o with
  | Some _ => true
  | None => false
  end.

(** [o[k] = v]: an existing key keeps its place, a new key goes last. *)
Fixpoint set (k : string) (v : V) (o : obj V) : obj V :=
  match o with
  | [] => [(k, v)]
  | (k', v') :: r => if k' =? k then (k', v) :: r else (k', v') :: set k v r
  end.

(** The keys in the order of [for (k in o)]. *)
Definition keys (o : obj V) : list string := map fst o.
End Tables.

(** [o[k]] used as a condition, for a table of booleans and a key that
    is the table's own or that no object inherits. *)
Definition test (k : string) (o : obj bool) : bool :=
  match get k o with
  | Some b => b
  | None => false
  end.

(** The properties that an object made by [{}] inherits from
    [Object.prototype]: those of the standard and the accessors of V8. *)
Definition Object_prototype : list string :=
  ["constructor"; "toString"; "toLocaleString"; "valueOf"; "hasOwnProperty";
   "isPrototypeOf"; "propertyIsEnumerable"; "__proto__"; "__defineGetter__";
   "__defineSetter__"; "__lookupGetter__"; "__lookupSetter__"].

(** [k] names a member that every object inherits. *)
Definition inherited (k : string) : bool :=
  existsb (String.eqb k) Object_prototype.

(** [o[k]] used as a condition, for any key: the entry of the table when
    it has one, and otherwise the inherited member, a function or an
    object, which counts as true. *)
Definition lookup (k : string) (o : obj bool) : bool :=
  match get k o with
  | Some b => b
  | None => inherited k
  end.

(** ** The walker *)

Section Traverse.
Context {St : Type}.

(** The callback gets the node, its type and the state of the pass; it
    returns its result together with the new state. *)
Variable callback : jsval -> string -> St -> option (jsval * St).

(** [traverse node callback].  The answer is the value returned, the
    tree left behind and the state. *)
Fixpoint traverse (node : jsval) (s : St) {struct node}
  : option (jsval * jsval * St) :=
  match node with
  | JArr l =>
      let type := at_ l 0 in
      match (match type with
             | JStr t => callback node t s
             | _ => Some (JUndef, s)
             end) with
      | None => None
      | Some (result, s1) =>
          if truthy result then Some (result, node, s1)
          else
            let children :=
              (fix loop (subs : list jsval) (s : St) {struct subs}
                 : option (jsval * list jsval * St) :=
                 match subs with
                 | [] => Some (JUndef, [], s)
                 | subnode :: rest =>
                     if is_subnode subnode
                        && negb (loose_eq type "for-in"
                                 && loose_eq (at_head subnode) "var")
                     then
                       match traverse subnode s with
                       | None => None
                       | Some (subresult, subnode', s') =>
                           if is_false subresult then
                             Some (JBool false, subnode' :: rest, s')
                           else
                             match loop rest s' with
                             | None => None
                             | Some (r, rest', s'') =>
                                 Some (r,
                                       (if truthy subresult then subresult
                                        else subnode') :: rest', s'')
                             end
                       end
                     else
                       match loop rest s with
                       | None => None
                       | Some (r, rest', s') => Some (r, subnode :: rest', s')
                       end
                 end) l s1 in
            match children with
            | None => None
            | Some (r, l', s') => Some (r, JArr l', s')
            end
      end
  | JStr (String c _) =>
      match callback node (String c EmptyString) s with
      | None => None
      | Some (result, s1) =>
          Some (if truthy result then result else JUndef, node, s1)
      end
  | JStr EmptyString | JBool _ | JNum _ => Some (JUndef, node, s)
  | JUndef | JNull => None
  end.

(** The loop of [traverse] over the elements [subs] of a node of type
    [type], from the state [s]. *)
Fixpoint traverse_children (type : jsval) (subs : list jsval) (s : St)
  {struct subs} : option (jsval * list jsval * St) :=
  match subs with
  | [] => Some (JUndef, [], s)
  | subnode :: rest =>
      if is_subnode subnode
         && negb (loose_eq type "for-in"
                  && loose_eq (at_head subnode) "var")
      then
        match traverse subnode s with
        | None => None
        | Some (subresult, subnode', s') =>
            if is_false subresult then
              Some (JBool false, subnode' :: rest, s')
            else
              match traverse_children type rest s' with
              | None => None
              | Some (r, rest', s'') =>
                  Some (r,
                        (if truthy subresult then subresult
                         else subnode') :: rest', s'')
              end
        end
      else
        match traverse_children type rest s with
        | None => None
        | Some (r, rest', s') => Some (r, subnode :: rest', s')
        end
  end.
End Traverse.

(** [node[i]] for the node a callback receives, which is never
    [undefined] or [null]. *)
Definition sub (node : jsval) (i : nat) : jsval :=
  match elems node with
  | Some l => at_ l i
  | None => JUndef
  end.

(** ** Constants of the script *)

Definition MAX_USES : Z := 1.

(** [type in NODES_WITHOUT_SIDE_EFFECTS]. *)
Definition NODES_WITHOUT_SIDE_EFFECTS (type : string) : bool :=
  (type =? "name") || (type =? "num") || (type =? "string")
  || (type =? "binary") || (type =? "sub") || (type =? "unary-prefix").

(** [type in CONTROL_FLOW_NODES]. *)
Definition CONTROL_FLOW_NODES (type : string) : bool :=
  (type =? "new") || (type =? "throw") || (type =? "call")
  || (type =? "label") || (type =? "debugger").

(** [type in ANALYZE_BLOCK_TYPES]. *)
Definition ANALYZE_BLOCK_TYPES (type : string) : bool :=
  (type =? "switch") || (type =? "if") || (type =? "try")
  || (type =? "do") || (type =? "while") || (type =? "for")
  || (type =? "for-in").

(** ** The state of an [Eliminator] *)

Record Eliminator : Type := mkEliminator {
  isLocal : obj bool;
  isSingleDef : obj bool;
  useCount : obj Z;
  usesOnlySimpleNodes : obj bool;
  dependsOnAGlobal : obj bool;
  depsMutatedInLiveRange : obj bool;
  initialValue : obj jsval;
  affects : obj (obj bool)
}.

(** The tables as the constructor leaves them. *)
Definition new_Eliminator : Eliminator :=
  mkEliminator [] [] [] [] [] [] [] [].

Definition with_isSingleDef (f : obj bool) (e : Eliminator) : Eliminator :=
  mkEliminator (isLocal e) f (useCount e) (usesOnlySimpleNodes e)
    (dependsOnAGlobal e) (depsMutatedInLiveRange e) (initialValue e)
    (affects e).

Definition with_useCount (f : obj Z) (e : Eliminator) : Eliminator :=
  mkEliminator (isLocal e) (isSingleDef e) f (usesOnlySimpleNodes e)
    (dependsOnAGlobal e) (depsMutatedInLiveRange e) (initialValue e)
    (affects e).

Definition with_usesOnlySimpleNodes (f : obj bool) (e : Eliminator)
  : Eliminator :=
  mkEliminator (isLocal e) (isSingleDef e) (useCount e) f
    (dependsOnAGlobal e) (depsMutatedInLiveRange e) (initialValue e)
    (affects e).

Definition with_dependsOnAGlobal (f : obj bool) (e : Eliminator)
  : Eliminator :=
  mkEliminator (isLocal e) (isSingleDef e) (useCount e)
    (usesOnlySimpleNodes e) f (depsMutatedInLiveRange e) (initialValue e)
    (affects e).

Definition with_depsMutatedInLiveRange (f : obj bool) (e : Eliminator)
  : Eliminator :=
  mkEliminator (isLocal e) (isSingleDef e) (useCount e)
    (usesOnlySimpleNodes e) (dependsOnAGlobal e) f (initialValue e)
    (affects e).

Definition with_affects (f : obj (obj bool)) (e : Eliminator) : Eliminator :=
  mkEliminator (isLocal e) (isSingleDef e) (useCount e)
    (usesOnlySimpleNodes e) (dependsOnAGlobal e) (depsMutatedInLiveRange e)
    (initialValue e) f.

(** ** calculateBasicVarStats *)

(** The body of the loop over the declarations of a [var] node. *)
Definition declare (node1i : jsval) (that : Eliminator) : option Eliminator :=
  match idx node1i 0, idx node1i 1 with
  | Some n, Some v =>
      let varName := to_key n in
      let varValue :=
        if truthy v then v else JArr [JStr "name"; JStr "undefined"] in
      Some (mkEliminator
              (set varName true (isLocal that))
              (set varName (negb (has varName (isSingleDef that)))
                 (isSingleDef that))
              (set varName 0%Z (useCount that))
              (usesOnlySimpleNodes that)
              (dependsOnAGlobal that)
              (depsMutatedInLiveRange that)
              (set varName varValue (initialValue that))
              (affects that))
  | _, _ => None
  end.

Fixpoint declare_all (node1 : list jsval) (that : Eliminator)
  : option Eliminator :=
  match node1 with
  | [] => Some that
  | node1i :: rest =>
      match declare node1i that with
      | Some that' => declare_all rest that'
      | None => None
      end
  end.

(** The callback of [calculateBasicVarStats]. *)
Definition basicVarStats (node : jsval) (type : string) (that : Eliminator)
  : option (jsval * Eliminator) :=
  if type =? "var" then
    match elems (sub node 1) with
    | Some node1 =>
        match declare_all node1 that with
        | Some that' => Some (JUndef, that')
        | None => None
        end
    | None => None
    end
  else if type =? "name" then
    let varName := to_key (sub node 1) in
    match get varName (useCount that) with
    | Some n => Some (JUndef, with_useCount (set varName (n + 1)%Z (useCount that)) that)
    | None => Some (JUndef, with_isSingleDef (set varName false (isSingleDef that)) that)
    end
  else if type =? "assign" then
    match idx (sub node 2) 1 with
    | Some n =>
        let varName := to_key n in
        if test varName (isSingleDef that) then
          Some (JUndef, with_isSingleDef (set varName false (isSingleDef that)) that)
        else Some (JUndef, that)
    | None => None
    end
  else Some (JUndef, that).

Definition calculateBasicVarStats (body : jsval) (that : Eliminator)
  : option Eliminator :=
  match traverse basicVarStats body that with
  | Some (_, _, that') => Some that'
  | None => None
  end.

(** ** analyzeInitialValues *)

(** The callback of [analyzeInitialValues] for the variable [varName]. *)
Definition initialValueNode (varName : string) (node : jsval) (type : string)
  (that : Eliminator) : option (jsval * Eliminator) :=
  if negb (NODES_WITHOUT_SIDE_EFFECTS type) then
    Some (JUndef,
          with_usesOnlySimpleNodes
            (set varName false (usesOnlySimpleNodes that)) that)
  else if type =? "name" then
    let reference := sub node 1 in
    if negb (loose_eq reference "undefined") then
      let r := to_key reference in
      let aff := match get r (affects that) with
                 | Some a => a
                 | None => []
                 end in
      let that1 :=
        if negb (test r (isLocal that)) then
          with_dependsOnAGlobal (set varName true (dependsOnAGlobal that)) that
        else that in
      Some (JUndef, with_affects (set r (set varName true aff) (affects that1)) that1)
    else Some (JUndef, that)
  else Some (JUndef, that).

(** The body of the loop of [analyzeInitialValues]. *)
Definition analyzeInitialValue (varName : string) (that : Eliminator)
  : option Eliminator :=
  if negb (test varName (isSingleDef that)) then Some that
  else
    let that1 :=
      with_usesOnlySimpleNodes (set varName true (usesOnlySimpleNodes that))
        that in
    match get varName (initialValue that1) with
    | Some value =>
        match traverse (initialValueNode varName) value that1 with
        | Some (_, _, that') => Some that'
        | None => None
        end
    | None => None
    end.

Fixpoint analyzeInitialValues_loop (names : list string) (that : Eliminator)
  : option Eliminator :=
  match names with
  | [] => Some that
  | varName :: rest =>
      match analyzeInitialValue varName that with
      | Some that' => analyzeInitialValues_loop rest that'
      | None => None
      end
  end.

Definition analyzeInitialValues (that : Eliminator) : option Eliminator :=
  analyzeInitialValues_loop (keys (isSingleDef that)) that.

(** ** calculateTransitiveDependencies *)

(** The variables of the [while] loop: the eliminator, [nextTodo] and
    [incomplete].  [todo[x] = 1] is kept as [true]. *)
Record Closure : Type := mkClosure {
  c_that : Eliminator;
  nextTodo : obj bool;
  incomplete : bool
}.

(** [this.affects[source]] as the loops over it see it: the table of the
    source, and nothing to enumerate when [affects] has no such entry (a
    member that every object inherits has no enumerable property). *)
Definition targets_of (source : string) (that : Eliminator) : obj bool :=
  match get source (affects that) with
  | Some targets => targets
  | None => []
  end.

(** The body of the innermost loop, for [source] and [target2]. *)
Definition addTarget (source target2 : string) (c : Closure) : Closure :=
  let that := c_that c in
  let targets := targets_of source that in
  if negb (lookup target2 targets) then
    let that1 :=
      if negb (lookup source (isLocal that)) then
        with_dependsOnAGlobal (set target2 true (dependsOnAGlobal that)) that
      else that in
    mkClosure
      (with_affects (set source (set target2 true targets) (affects that1))
         that1)
      (set source true (nextTodo c))
      true
  else c.

(** The body of the loop over the targets of [source]. *)
Definition expandTarget (todo : obj bool) (source target : string)
  (c : Closure) : Closure :=
  if lookup target todo then
    fold_left (fun c target2 => addTarget source target2 c)
      (keys (targets_of target (c_that c))) c
  else c.

(** The body of the loop over the sources. *)
Definition expandSource (todo : obj bool) (c : Closure) (source : string)
  : Closure :=
  fold_left (fun c target => expandTarget todo source target c)
    (keys (targets_of source (c_that c))) c.

(** One turn of the [while] loop. *)
Definition closureRound (todo : obj bool) (that : Eliminator) : Closure :=
  fold_left (expandSource todo) (keys (affects that))
    (mkClosure that [] false).

(** The [while (incomplete)] loop, for at most [fuel] turns. *)
Fixpoint closureLoop (fuel : nat) (todo : obj bool) (that : Eliminator)
  : option Eliminator :=
  match fuel with
  | O => None
  | S fuel' =>
      let c := closureRound todo that in
      if incomplete c then closureLoop fuel' (nextTodo c) (c_that c)
      else Some (c_that c)
  end.

(** Every name that occurs as a target in [affects]. *)
Definition all_targets (that : Eliminator) : list string :=
  flat_map (fun e => keys (snd e)) (affects that).

(** A number of turns that is always enough: each turn but the last adds
    an edge from a source to one of the targets. *)
Definition closureFuel (that : Eliminator) : nat :=
  S (length (affects that) * length (all_targets that)).

Definition calculateTransitiveDependencies (that : Eliminator)
  : option Eliminator :=
  closureLoop (closureFuel that)
    (fold_left (fun todo element => set element true todo)
       (keys (affects that)) [])
    that.

(** ** analyzeLiveRanges *)

(** The state of the pass: the eliminator and the variable [isLive]. *)
Record Live : Type := mkLive {
  l_that : Eliminator;
  isLive : obj bool
}.

(** [for (v in names) if (isLive[v]) isLive[v] = false]. *)
Definition kill_all (names : list string) (live : obj bool) : obj bool :=
  fold_left (fun live varName =>
               if test varName live then set varName false live else live)
    names live.

(** [for (v in isLive) if (cond(v)) isLive[v] = false]. *)
Definition kill_if (cond : string -> bool) (live : obj bool) : obj bool :=
  fold_left (fun live varName =>
               if cond varName then set varName false live else live)
    (keys live) live.

(** The callback that collects [usedInThisStatement]. *)
Definition collectUsed (node : jsval) (type : string) (used : obj bool)
  : option (jsval * obj bool) :=
  if type =? "name" then Some (JUndef, set (to_key (sub node 1)) true used)
  else Some (JUndef, used).

(** [node.slice(2, 4)]. *)
Definition slice_2_4 (node : jsval) : jsval :=
  match node with
  | JArr l => JArr (firstn 2 (skipn 2 l))
  | JStr s => JStr (substring 2 2 s)
  | _ => JUndef
  end.

(** The loop [while (reference[0] != 'name') reference = reference[1]]
    followed by [reference = reference[1]].  The walk ends with a
    [TypeError] when it runs out of tree. *)
Fixpoint base_name (reference : jsval) : option jsval :=
  match reference with
  | JArr (h :: n :: _) => if loose_eq h "name" then Some n else base_name n
  | JArr [h] => if loose_eq h "name" then Some JUndef else None
  | _ => None
  end.

Definition checkForMutations (node : jsval) (type : string) (st : Live)
  : option (jsval * Live) :=
  match (if (type =? "assign") || (type =? "call") then
           match traverse collectUsed (slice_2_4 node) [] with
           | Some (_, _, used) => Some used
           | None => None
           end
         else Some []) with
  | None => None
  | Some usedInThisStatement =>
      match (if ((type =? "assign") || (type =? "unary-prefix")
                 || (type =? "unary-postfix"))
                && ((type =? "assign") || loose_eq (sub node 1) "--"
                    || loose_eq (sub node 1) "++")
             then
               match base_name (sub node 2) with
               | Some reference =>
                   match get (to_key reference) (affects (l_that st)) with
                   | Some aff => Some (kill_all (keys aff) (isLive st))
                   | None => Some (isLive st)
                   end
               | None => None
               end
             else Some (isLive st)) with
      | None => None
      | Some live1 =>
          let that := l_that st in
          if CONTROL_FLOW_NODES type then
            Some (JUndef,
                  mkLive that
                    (kill_if (fun varName =>
                                test varName (dependsOnAGlobal that)
                                || negb (test varName usedInThisStatement))
                       live1))
          else if type =? "assign" then
            Some (JUndef,
                  mkLive that
                    (kill_if (fun varName =>
                                test varName (dependsOnAGlobal that)
                                && negb (test varName usedInThisStatement))
                       live1))
          else if type =? "name" then
            let reference := to_key (sub node 1) in
            if test reference (isSingleDef that)
               && negb (test reference live1)
            then
              Some (JUndef,
                    mkLive
                      (with_depsMutatedInLiveRange
                         (set reference true (depsMutatedInLiveRange that))
                         that)
                      live1)
            else Some (JUndef, mkLive that live1)
          else Some (JUndef, mkLive that live1)
      end
  end.

(** [for (var name in isLive) savedLive[name] = true]. *)
Definition saveLive (live : obj bool) : obj bool :=
  fold_left (fun saved name => set name true saved) (keys live) [].

(** [for (var name in isLive) if (!isLive[name]) savedLive[name] = false]. *)
Definition mergeLive (live savedLive : obj bool) : obj bool :=
  fold_left (fun saved name =>
               if negb (test name live) then set name false saved else saved)
    (keys live) savedLive.

(** The body of the loop over the declarations of a [var] node in
    [analyzeBlock]. *)
Definition analyzeDeclaration (node1i : jsval) (st : Live) : option Live :=
  match idx node1i 0, idx node1i 1 with
  | Some n, Some varValue =>
      let varName := to_key n in
      match (if truthy varValue then
               match traverse checkForMutations varValue st with
               | Some (_, _, st') => Some st'
               | None => None
               end
             else Some st) with
      | None => None
      | Some st1 =>
          let that := l_that st1 in
          let live1 :=
            if test varName (isSingleDef that)
            then set varName true (isLive st1) else isLive st1 in
          let live2 :=
            match get varName (affects that) with
            | Some aff => kill_all (keys aff) live1
            | None => live1
            end in
          Some (mkLive that live2)
      end
  | _, _ => None
  end.

Fixpoint analyzeDeclarations (node1 : list jsval) (st : Live) : option Live :=
  match node1 with
  | [] => Some st
  | node1i :: rest =>
      match analyzeDeclaration node1i st with
      | Some st' => analyzeDeclarations rest st'
      | None => None
      end
  end.

(** [traverseChild(child)], where [walk] is [traverse(_, analyzeBlock)]. *)
Definition traverseChild_with
  (walk : jsval -> Live -> option (jsval * jsval * Live))
  (child : jsval) (st : Live) : option Live :=
  if is_subnode child then
    let savedLive := saveLive (isLive st) in
    match walk child st with
    | Some (_, _, st') =>
        Some (mkLive (l_that st') (mergeLive (isLive st') savedLive))
    | None => None
    end
  else Some st.

Fixpoint analyzeBlock (node : jsval) (type : string) (st : Live)
  {struct node} : option (jsval * Live) :=
  if ANALYZE_BLOCK_TYPES type then
    match node with
    | JArr l =>
        let each :=
          (fix each (children : list jsval) (st : Live) {struct children}
             : option Live :=
             match children with
             | [] => Some st
             | child :: rest =>
                 match traverseChild_with (traverse analyzeBlock) child st with
                 | Some st' => each rest st'
                 | None => None
                 end
             end) in
        if type =? "switch" then
          match l with
          | _ :: node1 :: node2 :: _ =>
              match traverseChild_with (traverse analyzeBlock) node1 st with
              | Some st1 =>
                  match node2 with
                  | JArr cases =>
                      match each cases st1 with
                      | Some st2 => Some (node, st2)
                      | None => None
                      end
                  | JUndef | JNull => None
                  | _ => Some (node, st1)
                  end
              | None => None
              end
          | _ => None
          end
        else if (type =? "if") || (type =? "try") then
          match each l st with
          | Some st' => Some (node, st')
          | None => None
          end
        else
          match each l (mkLive (l_that st) []) with
          | Some st' => Some (node, mkLive (l_that st') [])
          | None => None
          end
    | _ => None
    end
  else if type =? "var" then
    match elems (sub node 1) with
    | Some node1 =>
        match analyzeDeclarations node1 st with
        | Some st' => Some (node, st')
        | None => None
        end
    | None => None
    end
  else checkForMutations node type st.

Definition analyzeLiveRanges (body : jsval) (that : Eliminator)
  : option Eliminator :=
  match traverse analyzeBlock body (mkLive that []) with
  | Some (_, _, st) => Some (l_that st)
  | None => None
  end.

(** ** isEliminateable and the rewriting passes *)

Definition isEliminateable (that : Eliminator) (varName : string) : bool :=
  if test varName (isSingleDef that)
     && test varName (usesOnlySimpleNodes that)
  then
    match get varName (useCount that) with
    | Some n =>
        if (n =? 0)%Z then true
        else if (n <=? MAX_USES)%Z
             then negb (test varName (depsMutatedInLiveRange that))
             else false
    | None => false
    end
  else false.

(** The loop of [run] that fills [toReplace] and counts [eliminated]. *)
Definition selectEliminated (that : Eliminator) : obj jsval * Z :=
  fold_left
    (fun acc varName =>
       if isEliminateable that varName then
         (set varName
            (match get varName (initialValue that) with
             | Some v => v
             | None => JUndef
             end) (fst acc),
          (snd acc + 1)%Z)
       else acc)
    (keys (isSingleDef that)) ([], 0%Z).

(** [node[1].filter(function(i) { return !toRemove.hasOwnProperty(i[0]) })]. *)
Fixpoint intact (toRemove : obj jsval) (vars : list jsval)
  : option (list jsval) :=
  match vars with
  | [] => Some []
  | i :: rest =>
      match idx i 0, intact toRemove rest with
      | Some n, Some rest' =>
          Some (if negb (has (to_key n) toRemove) then i :: rest' else rest')
      | _, _ => None
      end
  end.

(** The callback of [removeDeclarations]. *)
Definition removeDeclaration (toRemove : obj jsval) (node : jsval)
  (type : string) (u : unit) : option (jsval * unit) :=
  if type =? "var" then
    match node with
    | JArr (tag :: JArr vars :: rest) =>
        match intact toRemove vars with
        | Some [] => Some (JArr [JStr "toplevel"; JArr []], u)
        | Some intactVars => Some (JArr (tag :: JArr intactVars :: rest), u)
        | None => None
        end
    | _ => None
    end
  else Some (JUndef, u).

Definition removeDeclarations (toRemove : obj jsval) (body : jsval)
  : option jsval :=
  match traverse (removeDeclaration toRemove) body tt with
  | Some (_, body', _) => Some body'
  | None => None
  end.

(** The callback of [collapseValues] while it rewrites the value of
    [varName]; the state is the variable [incomplete]. *)
Definition collapseNode (values : obj jsval) (varName : string)
  (node : jsval) (type : string) (incomplete : bool)
  : option (jsval * bool) :=
  if (type =? "name") && has (to_key (sub node 1)) values
     && negb (loose_eq (sub node 1) varName)
  then
    Some (match get (to_key (sub node 1)) values with
          | Some v => v
          | None => JUndef
          end, true)
  else Some (JUndef, incomplete).

(** The body of the [for] loop of [collapseValues]. *)
Definition collapseValue (acc : option (obj jsval * bool)) (varName : string)
  : option (obj jsval * bool) :=
  match acc with
  | Some (values, incomplete) =>
      match get varName values with
      | Some varValue =>
          match traverse (collapseNode values varName) varValue incomplete with
          | Some (result, varValue', incomplete') =>
              Some (set varName
                      (if truthy result then result else varValue') values,
                    incomplete')
          | None => None
          end
      | None => None
      end
  | None => None
  end.

(** One turn of the [while] loop of [collapseValues]. *)
Definition collapsePass (values : obj jsval) : option (obj jsval * bool) :=
  fold_left collapseValue (keys values) (Some (values, false)).

(** [collapseValues], for at most [fuel] turns of its [while] loop. *)
Fixpoint collapseValues (fuel : nat) (values : obj jsval)
  : option (obj jsval) :=
  match fuel with
  | O => None
  | S fuel' =>
      match collapsePass values with
      | Some (values', true) => collapseValues fuel' values'
      | Some (values', false) => Some values'
      | None => None
      end
  end.

(** ** [collapseValues] over shared arrays

    [collapseValues] is the one pass whose arrays are shared while they
    are still written to: the callback answers [values[node[1]]], the very
    array that the table holds, and the walker stores it in the slot of
    the name; when the value of that other variable is rewritten later,
    the slot sees it.  Here the arrays live in a store and a slot holds
    either a value that is no array or the address of an array. *)

Inductive cell : Type :=
| Val (v : jsval)
| Ref (a : nat).

(** The arrays by address. *)
Definition store : Type := list (list cell).

Definition deref (h : store) (a : nat) : list cell := nth a h [].

Fixpoint update {A : Type} (i : nat) (x : A) (l : list A) : list A :=
  match l, i with
  | [], _ => []
  | _ :: r, O => x :: r
  | y :: r, S i' => y :: update i' x r
  end.

(** [node[index] = c] for the array [node] at address [a]. *)
Definition assign (h : store) (a index : nat) (c : cell) : store :=
  update a (update index c (deref h a)) h.

Definition truthy_cell (c : cell) : bool :=
  match c with
  | Val v => truthy v
  | Ref _ => true
  end.

Definition is_false_cell (c : cell) : bool :=
  match c with
  | Val v => is_false v
  | Ref _ => false
  end.

(** The tree that a slot shows, read to the depth [fuel]. *)
Fixpoint value_at (fuel : nat) (h : store) (c : cell) : option jsval :=
  match c with
  | Val v => Some v
  | Ref a =>
      match fuel with
      | O => None
      | S fuel' =>
          option_map JArr
            (fold_right
               (fun c acc =>
                  match value_at fuel' h c, acc with
                  | Some v, Some l => Some (v :: l)
                  | _, _ => None
                  end)
               (Some []) (deref h a))
      end
  end.

(** [c == s]. *)
Definition loose_eq_at (fuel : nat) (h : store) (c : cell) (s : string)
  : option bool :=
  option_map (fun v => loose_eq v s) (value_at fuel h c).

(** Whether the loop of [traverse] walks into the subnode at [b]:
    [subnode.length] is not 0, and not
    [type == 'for-in' && subnode[0] == 'var']. *)
Definition enters (fuel : nat) (h : store) (type : cell) (b : nat)
  : option bool :=
  match deref h b with
  | [] => Some false
  | head :: _ =>
      match loose_eq_at fuel h type "for-in" with
      | Some true => option_map negb (loose_eq_at fuel h head "var")
      | Some false => Some true
      | None => None
      end
  end.

Section Traverse_at.
Context {St : Type}.

(** The callback gets the store and the address of the node. *)
Variable callback : store -> nat -> string -> St -> option (cell * St).

(** The loop of [traverse] over the elements of the node at [a], from
    [index] on, for [n] elements; [walk] is [traverse] on a subnode. *)
Fixpoint traverse_children_at
  (walk : nat -> store -> St -> option (cell * store * St))
  (fuel : nat) (type : cell) (a n index : nat) (h : store) (s : St)
  {struct n} : option (cell * store * St) :=
  match n with
  | O => Some (Val JUndef, h, s)
  | S n' =>
      match nth index (deref h a) (Val JUndef) with
      | Ref b =>
          match enters fuel h type b with
          | Some true =>
              match walk b h s with
              | None => None
              | Some (subresult, h', s') =>
                  if is_false_cell subresult then
                    Some (Val (JBool false), h', s')
                  else
                    traverse_children_at walk fuel type a n' (S index)
                      (if truthy_cell subresult
                       then assign h' a index subresult else h') s'
              end
          | Some false =>
              traverse_children_at walk fuel type a n' (S index) h s
          | None => None
          end
      | Val _ => traverse_children_at walk fuel type a n' (S index) h s
      end
  end.

(** [traverse(node, callback)] for the array [node] at address [a], to
    the depth [fuel].  The answer is the value returned, the store and
    the state. *)
Fixpoint traverse_at (fuel : nat) (a : nat) (h : store) (s : St)
  {struct fuel} : option (cell * store * St) :=
  match fuel with
  | O => None
  | S fuel' =>
      let type := nth 0 (deref h a) (Val JUndef) in
      match (match type with
             | Val (JStr t) => callback h a t s
             | _ => Some (Val JUndef, s)
             end) with
      | None => None
      | Some (result, s1) =>
          if truthy_cell result then Some (result, h, s1)
          else
            traverse_children_at (traverse_at fuel') fuel' type a
              (length (deref h a)) 0 h s1
      end
  end.
End Traverse_at.

(** The callback of [collapseValues] while it rewrites the value of
    [varName]. *)
Definition collapseNode_at (fuel : nat) (values : obj cell)
  (varName : string) (h : store) (a : nat) (type : string)
  (incomplete : bool) : option (cell * bool) :=
  if type =? "name" then
    match value_at fuel h (nth 1 (deref h a) (Val JUndef)) with
    | Some name =>
        if has (to_key name) values && negb (loose_eq name varName)
        then Some (match get (to_key name) values with
                   | Some c => c
                   | None => Val JUndef
                   end, true)
        else Some (Val JUndef, incomplete)
    | None => None
    end
  else Some (Val JUndef, incomplete).

(** The body of the [for] loop of [collapseValues].  A value that is no
    array has no node of type [name]. *)
Definition collapseValue_at (depth : nat)
  (acc : option (obj cell * store * bool)) (varName : string)
  : option (obj cell * store * bool) :=
  match acc with
  | Some (values, h, incomplete) =>
      match get varName values with
      | Some (Ref a) =>
          match traverse_at (collapseNode_at depth values varName)
                  depth a h incomplete with
          | Some (result, h', incomplete') =>
              Some (if truthy_cell result then set varName result values
                    else values, h', incomplete')
          | None => None
          end
      | Some (Val v) =>
          match elems v with
          | Some _ => Some (values, h, incomplete)
          | None => None
          end
      | None => None
      end
  | None => None
  end.

(** One turn of the [while] loop of [collapseValues]. *)
Definition collapsePass_at (depth : nat) (values : obj cell) (h : store)
  : option (obj cell * store * bool) :=
  fold_left (collapseValue_at depth) (keys values) (Some (values, h, false)).

(** [collapseValues], for at most [fuel] turns of its [while] loop, with
    walks to the depth [depth]. *)
Fixpoint collapseValues_at (depth fuel : nat) (values : obj cell) (h : store)
  : option (obj cell * store) :=
  match fuel with
  | O => None
  | S fuel' =>
      match collapsePass_at depth values h with
      | Some (values', h', true) => collapseValues_at depth fuel' values' h'
      | Some (values', h', false) => Some (values', h')
      | None => None
      end
  end.

(** A tree put into the store: the arrays of its subnodes first, then its
    own. *)
Fixpoint alloc (v : jsval) (h : store) : cell * store :=
  match v with
  | JArr l =>
      let '(cs, h1) :=
        (fix alloc_list (l : list jsval) (h : store) : list cell * store :=
           match l with
           | [] => ([], h)
           | x :: r =>
               let '(c, h1) := alloc x h in
               let '(cs, h2) := alloc_list r h1 in
               (c :: cs, h2)
           end) l h in
      (Ref (length h1), h1 ++ [cs])
  | _ => (Val v, h)
  end.

(** A table of trees put into the store, each tree with arrays of its
    own. *)
Fixpoint alloc_values (values : obj jsval) (h : store) : obj cell * store :=
  match values with
  | [] => ([], h)
  | (x, v) :: rest =>
      let '(c, h1) := alloc v h in
      let '(cs, h2) := alloc_values rest h1 in
      ((x, c) :: cs, h2)
  end.

(** The table read back from the store. *)
Fixpoint read_values (fuel : nat) (h : store) (values : obj cell)
  : option (obj jsval) :=
  match values with
  | [] => Some []
  | (x, c) :: rest =>
      match value_at fuel h c, read_values fuel h rest with
      | Some v, Some vs => Some ((x, v) :: vs)
      | _, _ => None
      end
  end.

(** The callback of [updateUses]. *)
Definition updateUse (replacements : obj jsval) (node : jsval)
  (type : string) (u : unit) : option (jsval * unit) :=
  if (type =? "name") && has (to_key (sub node 1)) replacements then
    Some (match get (to_key (sub node 1)) replacements with
          | Some v => v
          | None => JUndef
          end, u)
  else Some (JUndef, u).

Definition updateUses (replacements : obj jsval) (body : jsval)
  : option jsval :=
  match traverse (updateUse replacements) body tt with
  | Some (_, body', _) => Some body'
  | None => None
  end.

(** The four analysis passes of [run], on the tables of a new
    [Eliminator]. *)
Definition analyze (body : jsval) : option Eliminator :=
  match calculateBasicVarStats body new_Eliminator with
  | Some that1 =>
      match analyzeInitialValues that1 with
      | Some that2 =>
          match calculateTransitiveDependencies that2 with
          | Some that3 => analyzeLiveRanges body that3
          | None => None
          end
      | None => None
      end
  | None => None
  end.

(** [new Eliminator(func).run()] on [body = func[3]]: the number returned
    and the body left behind.  [fuel] bounds the loop of [collapseValues]. *)
Definition run (fuel : nat) (body : jsval) : option (Z * jsval) :=
  match analyze body with
  | Some that =>
      let (toReplace, eliminated) := selectEliminated that in
      match removeDeclarations toReplace body with
      | Some body1 =>
          match collapseValues fuel toReplace with
          | Some values =>
              match updateUses values body1 with
              | Some body2 => Some (eliminated, body2)
              | None => None
              end
          | None => None
          end
      | None => None
      end
  | None => None
  end.

(** ** The ExpressionOptimizer *)

(** The variables of the outer callback.  [num] is followed while it is
    an integer; [odd] records that [num += subNode[1]] has added something
    else to it (a string, an array, [undefined]), which never throws and
    leaves a string or [NaN] in [num]. *)
Record Chain : Type := mkChain {
  names : list jsval;
  num : Z;
  has_num : bool;
  fail : bool;
  odd : bool
}.

(** The inner callback. *)
Definition chainNode (subNode : jsval) (subType : string) (c : Chain)
  : option (jsval * Chain) :=
  if subType =? "binary" then
    if negb (loose_eq (sub subNode 1) "+") then
      Some (JBool false, mkChain (names c) (num c) (has_num c) true (odd c))
    else Some (JUndef, c)
  else if subType =? "name" then
    Some (JUndef,
          mkChain (names c ++ [sub subNode 1]) (num c) (has_num c) (fail c)
            (odd c))
  else if subType =? "num" then
    match sub subNode 1 with
    | JNum n =>
        Some (JUndef, mkChain (names c) (num c + n)%Z true (fail c) (odd c))
    | _ => Some (JUndef, mkChain (names c) (num c) true (fail c) true)
    end
  else Some (JBool false, mkChain (names c) (num c) (has_num c) true (odd c)).

(** [for (i...) ret = ['binary', '+', ['name', names[i]], ret]]. *)
Definition rebuild (names : list jsval) (ret : jsval) : jsval :=
  fold_left (fun ret name =>
               JArr [JStr "binary"; JStr "+"; JArr [JStr "name"; name]; ret])
    names ret.

(** The outer callback.  A chain that is rebuilt around a constant that
    is not an integer has no tree here: the answer is [None]. *)
Definition foldAddition (node : jsval) (type : string) (u : unit)
  : option (jsval * unit) :=
  if (type =? "binary") && loose_eq (sub node 1) "+" then
    match traverse chainNode node (mkChain [] 0%Z false false false) with
    | Some (_, _, c) =>
        if negb (fail c) && has_num c then
          if odd c then None
          else Some (rebuild (names c) (JArr [JStr "num"; JNum (num c)]), u)
        else Some (JUndef, u)
    | None => None
    end
  else Some (JUndef, u).

(** [new ExpressionOptimizer(node).run()]: the tree left behind. *)
Definition fold_additions (node : jsval) : option jsval :=
  match traverse foldAddition node tt with
  | Some (_, node', _) => Some node'
  | None => None
  end.


(** ** The helpers of the script *)

(** [set()], called with the values [arguments]: the table whose keys are
    the elements of the first argument when that is an array, and the
    arguments themselves otherwise; every key maps to 0.  (The name [set]
    is the update of a table here.)  [typeof null] is ['object'] too, and
    [null.length] is a [TypeError]. *)
Definition set_of (arguments : list jsval) : option (obj Z) :=
  match (match at_ arguments 0 with
         | JArr l => Some l
         | JNull => None
         | _ => Some arguments
         end) with
  | Some args => Some (fold_left (fun ret arg => set (to_key arg) 0%Z ret) args [])
  | None => None
  end.

(** [isGenerated(ident)]: [ident in generatedFunctions], which also finds
    the inherited properties. *)
Definition isGenerated (generatedFunctions : obj Z) (ident : jsval) : bool :=
  has (to_key ident) generatedFunctions
  || existsb (String.eqb (to_key ident)) Object_prototype.

(** ** The blank lines of the output *)

Definition newline : ascii := "010"%char.
Definition space : ascii := " "%char.

(** [ *] at the start of [s]: what follows the spaces. *)
Fixpoint skip_spaces (s : string) : string :=
  match s with
  | String c r => if Ascii.eqb c space then skip_spaces r else s
  | EmptyString => s
  end.

(** [/\n *\n/] at the start of [s]: what follows the match.  After the
    longest run of spaces comes a space no more, so that giving spaces
    back cannot make the second newline match. *)
Definition match_blank (s : string) : option string :=
  match s with
  | String c r =>
      if Ascii.eqb c newline then
        match skip_spaces r with
        | String c' r' => if Ascii.eqb c' newline then Some r' else None
        | EmptyString => None
        end
      else None
  | EmptyString => None
  end.

(** [s.replace(/\n *\n/g, '\n')], for a string of at most [fuel]
    characters: where the expression matches, a newline is put and the
    search goes on behind the match; elsewhere the character is kept. *)
Fixpoint replace_blank_upto (fuel : nat) (s : string) : string :=
  match fuel with
  | O => s
  | S fuel' =>
      match match_blank s with
      | Some rest => String newline (replace_blank_upto fuel' rest)
      | None =>
          match s with
          | String c r => String c (replace_blank_upto fuel' r)
          | EmptyString => EmptyString
          end
      end
  end.

Definition replace_blank (s : string) : string :=
  replace_blank_upto (String.length s) s.

(** The loop [do { old = js; js = js.replace(/\n *\n/g, '\n'); }
    while (js != old)] of [main], for at most [fuel] turns. *)
Fixpoint remove_blank_lines (fuel : nat) (js : string) : option string :=
  match fuel with
  | O => None
  | S fuel' =>
      let old := js in
      let js := replace_blank old in
      if negb (js =? old) then remove_blank_lines fuel' js else Some js
  end.

(** ** Vocabulary of the properties *)

(** The nodes on which [traverse] calls a callback that never asks for a
    replacement, in the order of the calls. *)
Fixpoint visited (node : jsval) : list jsval :=
  match node with
  | JArr l =>
      (match at_ l 0 with
       | JStr _ => [node]
       | _ => []
       end)
      ++ (fix children (subs : list jsval) : list jsval :=
            match subs with
            | [] => []
            | subnode :: rest =>
                (if is_subnode subnode
                    && negb (loose_eq (at_ l 0) "for-in"
                             && loose_eq (at_head subnode) "var")
                 then visited subnode else [])
                ++ children rest
            end) l
  | JStr (String _ _) => [node]
  | _ => []
  end.

(** [visited] over the elements [subs] of a node of type [type]. *)
Fixpoint visited_children (type : jsval) (subs : list jsval) : list jsval :=
  match subs with
  | [] => []
  | subnode :: rest =>
      (if is_subnode subnode
          && negb (loose_eq type "for-in"
                   && loose_eq (at_head subnode) "var")
       then visited subnode else [])
      ++ visited_children type rest
  end.

(** A value and every value nested in it. *)
Fixpoint parts (v : jsval) : list jsval :=
  v :: match v with
       | JArr l =>
           (fix all (l : list jsval) : list jsval :=
              match l with
              | [] => []
              | x :: rest => parts x ++ all rest
              end) l
       | _ => []
       end.

(** No value in the tree, used as a key, names a member that every object
    inherits: no type of a node, no name, no declared variable, no
    operator and no property does.  The script reads its tables with
    [o[k]] and [k in o] under keys that it takes from the tree, so that on
    such a tree it finds what the tables hold themselves, and its calls of
    [o.hasOwnProperty] reach the method of [Object.prototype]. *)
Definition plain_names (body : jsval) : bool :=
  forallb (fun v => negb (inherited (to_key v))) (parts body).

(** The type with which a visited node is given to the callback. *)
Definition type_of (node : jsval) : string :=
  match node with
  | JArr (JStr t :: _) => t
  | JStr (String c _) => String c EmptyString
  | _ => ""
  end.

(** One call of the callback, with the state the calls so far have left. *)
Definition call_on {St : Type}
  (callback : jsval -> string -> St -> option (jsval * St))
  (acc : option St) (node : jsval) : option St :=
  match acc with
  | Some s =>
      match callback node (type_of node) s with
      | Some (_, s') => Some s'
      | None => None
      end
  | None => None
  end.

(** ** Syntax trees used as examples *)

Definition name_ (x : string) : jsval := JArr [JStr "name"; JStr x].
Definition num_ (n : Z) : jsval := JArr [JStr "num"; JNum n].
Definition var_ (x : string) (value : jsval) : jsval :=
  JArr [JStr "var"; JArr [JArr [JStr x; value]]].
Definition stat_ (e : jsval) : jsval := JArr [JStr "stat"; e].
Definition return_ (e : jsval) : jsval := JArr [JStr "return"; e].
Definition plus_ (a b : jsval) : jsval := JArr [JStr "binary"; JStr "+"; a; b].
Definition assign_ (a b : jsval) : jsval :=
  JArr [JStr "assign"; JBool true; a; b].
Definition dot_ (a : jsval) (p : string) : jsval :=
  JArr [JStr "dot"; a; JStr p].
Definition postfix_ (op : string) (e : jsval) : jsval :=
  JArr [JStr "unary-postfix"; JStr op; e].
Definition prefix_ (op : string) (e : jsval) : jsval :=
  JArr [JStr "unary-prefix"; JStr op; e].
Definition call_ (f : jsval) (args : list jsval) : jsval :=
  JArr [JStr "call"; f; JArr args].
Definition throw_ (e : jsval) : jsval := JArr [JStr "throw"; e].
Definition toplevel_ : jsval := JArr [JStr "toplevel"; JArr []].

(** An observer that writes down the types it sees and answers [false],
    the stop signal, on the nodes of type [stop]. *)
Definition stop_at (stop : string) (node : jsval) (type : string)
  (seen : list string) : option (jsval * list string) :=
  Some (if type =? stop then JBool false else JUndef, seen ++ [type]).

(** [['a', ['b', ['c']], ['d']]]. *)
Definition tree_abcd : jsval :=
  JArr [JStr "a"; JArr [JStr "b"; JArr [JStr "c"]]; JArr [JStr "d"]].

(** [var x = 0; x++;] *)
Definition body_increment : jsval :=
  JArr [var_ "x" (num_ 0); stat_ (postfix_ "++" (name_ "x"))].

(** [var x = y; x++; return y;] *)
Definition body_increment_global : jsval :=
  JArr [var_ "x" (name_ "y"); stat_ (postfix_ "++" (name_ "x"));
        return_ (name_ "y")].

(** [var a = x; x = 1; if (c) { while (d) {} } return a;] *)
Definition body_revived : jsval :=
  JArr [var_ "a" (name_ "x");
        stat_ (assign_ (name_ "x") (num_ 1));
        JArr [JStr "if"; name_ "c";
              JArr [JStr "block";
                    JArr [JArr [JStr "while"; name_ "d";
                                JArr [JStr "block"; JArr []]]]];
              JUndef];
        return_ (name_ "a")].


(** The names held by the [name] nodes that a walk of [node] visits. *)
Definition names_in (node : jsval) : list string :=
  map (fun n => to_key (sub n 1))
    (filter (fun n => type_of n =? "name") (visited node)).

(** [x] is one of [l]. *)
Definition mem (x : string) (l : list string) : bool :=
  existsb (String.eqb x) l.


(** [traverseChild(child)] inside [analyzeBlock]. *)
Definition traverseChild (child : jsval) (st : Live) : option Live :=
  traverseChild_with (traverse analyzeBlock) child st.

(** [children.forEach(traverseChild)], and the [for] loops of
    [analyzeBlock] that call [traverseChild] on every element. *)
Fixpoint forEach_traverseChild (children : list jsval) (st : Live)
  : option Live :=
  match children with
  | [] => Some st
  | child :: rest =>
      match traverseChild child st with
      | Some st' => forEach_traverseChild rest st'
      | None => None
      end
  end.


(** What the live-range analysis may change in the tables: it only adds
    entries to [depsMutatedInLiveRange]. *)
Definition live_frame (that that' : Eliminator) : Prop :=
  isLocal that' = isLocal that
  /\ isSingleDef that' = isSingleDef that
  /\ useCount that' = useCount that
  /\ usesOnlySimpleNodes that' = usesOnlySimpleNodes that
  /\ dependsOnAGlobal that' = dependsOnAGlobal that
  /\ initialValue that' = initialValue that
  /\ affects that' = affects that
  /\ forall x, test x (depsMutatedInLiveRange that) = true ->
               test x (depsMutatedInLiveRange that') = true.


(** The condition of elimination, in the words of the header comment:
    single-def, only side-effect-free nodes, and either unused, or used at
    most [MAX_USES] times with no dependency mutated in the live range. *)
Definition eliminable (that : Eliminator) (v : string) : Prop :=
  test v (isSingleDef that) = true
  /\ test v (usesOnlySimpleNodes that) = true
  /\ (get v (useCount that) = Some 0%Z
      \/ exists n,
           get v (useCount that) = Some n
           /\ (n <= MAX_USES)%Z
           /\ test v (depsMutatedInLiveRange that) = false).

(** What the analysis of the initial values and the closure of the
    dependencies leave alone. *)
Definition deps_frame (that that' : Eliminator) : Prop :=
  isLocal that' = isLocal that
  /\ isSingleDef that' = isSingleDef that
  /\ useCount that' = useCount that
  /\ depsMutatedInLiveRange that' = depsMutatedInLiveRange that
  /\ initialValue that' = initialValue that.


(** [var a = x + 1; return a;] *)
Definition body_inline : jsval :=
  JArr [var_ "a" (plus_ (name_ "x") (num_ 1)); return_ (name_ "a")].

(** A chain of additions over integer literals and names, as the
    specification of the expression optimizer describes it. *)
Inductive chain : Type :=
| Lit (n : Z)
| Name (x : string)
| Plus (a b : chain).

(** The syntax tree of a chain. *)
Fixpoint chain_js (c : chain) : jsval :=
  match c with
  | Lit n => num_ n
  | Name x => name_ x
  | Plus a b => plus_ (chain_js a) (chain_js b)
  end.

(** The names of a chain, in the order in which a walk meets them. *)
Fixpoint chain_names (c : chain) : list string :=
  match c with
  | Lit _ => []
  | Name x => [x]
  | Plus a b => chain_names a ++ chain_names b
  end.

(** The sum of the literals of a chain. *)
Fixpoint chain_sum (c : chain) : Z :=
  match c with
  | Lit n => n
  | Name _ => 0%Z
  | Plus a b => (chain_sum a + chain_sum b)%Z
  end.

Fixpoint chain_has_literal (c : chain) : bool :=
  match c with
  | Lit _ => true
  | Name _ => false
  | Plus a b => chain_has_literal a || chain_has_literal b
  end.

(** An integer that a double holds exactly, as it holds every integer
    between it and 0. *)
Definition safe (n : Z) : bool := (Z.abs n <=? 2 ^ 53)%Z.

(** The value of [num] after a walk of the chain that starts with [acc],
    when every literal met and every sum made is [safe]: the addition of
    doubles is then the addition of integers. *)
Fixpoint chain_run (acc : Z) (c : chain) : option Z :=
  match c with
  | Lit n => if safe n && safe (acc + n) then Some (acc + n)%Z else None
  | Name _ => Some acc
  | Plus a b =>
      match chain_run acc a with
      | Some acc' => chain_run acc' b
      | None => None
      end
  end.

(** The script adds the literals of the chain without rounding. *)
Definition chain_exact (c : chain) : bool :=
  match chain_run 0 c with
  | Some _ => true
  | None => false
  end.

(** [x1 + (x2 + (... + (xn + num)))]: the additions nest to the right and
    the constant is the innermost right operand. *)
Fixpoint right_nested (xs : list string) (n : Z) : jsval :=
  match xs with
  | [] => num_ n
  | x :: rest => plus_ (name_ x) (right_nested rest n)
  end.

(** The nodes on which the inner callback of the expression optimizer
    sets [fail]. *)
Definition disallowed (node : jsval) : bool :=
  if type_of node =? "binary" then negb (loose_eq (sub node 1) "+")
  else negb ((type_of node =? "name") || (type_of node =? "num")).


(** [affects[a][b]] as a condition: [a] affects [b]. *)
Definition edgeb (that : Eliminator) (a b : string) : bool :=
  test b (targets_of a that).

Definition edge (that : Eliminator) (a b : string) : Prop :=
  edgeb that a b = true.

(** The shape of [affects] as the script builds it: every source is
    listed once, and every entry of a table of targets is [true]. *)
Definition graph_ok (that : Eliminator) : Prop :=
  NoDup (keys (affects that))
  /\ forall a b, In b (keys (targets_of a that)) -> edge that a b.

(** A binding affected by a name that is not local depends on a global. *)
Definition globals_ok (that : Eliminator) : Prop :=
  forall a b,
    edge that a b -> test a (isLocal that) = false ->
    test b (dependsOnAGlobal that) = true.


(** The closure of the dependencies as it runs when no name in the graph
    is the name of an inherited member: every lookup finds the table's own
    entry or nothing. *)
Definition addTarget_own (source target2 : string) (c : Closure) : Closure :=
  let that := c_that c in
  let targets := targets_of source that in
  if negb (test target2 targets) then
    let that1 :=
      if negb (test source (isLocal that)) then
        with_dependsOnAGlobal (set target2 true (dependsOnAGlobal that)) that
      else that in
    mkClosure
      (with_affects (set source (set target2 true targets) (affects that1))
         that1)
      (set source true (nextTodo c))
      true
  else c.

Definition expandTarget_own (todo : obj bool) (source target : string)
  (c : Closure) : Closure :=
  if test target todo then
    fold_left (fun c target2 => addTarget_own source target2 c)
      (keys (targets_of target (c_that c))) c
  else c.

Definition expandSource_own (todo : obj bool) (c : Closure) (source : string)
  : Closure :=
  fold_left (fun c target => expandTarget_own todo source target c)
    (keys (targets_of source (c_that c))) c.

Definition closureRound_own (todo : obj bool) (that : Eliminator) : Closure :=
  fold_left (expandSource_own todo) (keys (affects that))
    (mkClosure that [] false).

Fixpoint closureLoop_own (fuel : nat) (todo : obj bool) (that : Eliminator)
  : option Eliminator :=
  match fuel with
  | O => None
  | S fuel' =>
      let c := closureRound_own todo that in
      if incomplete c then closureLoop_own fuel' (nextTodo c) (c_that c)
      else Some (c_that c)
  end.

Definition calculateTransitiveDependencies_own (that : Eliminator)
  : option Eliminator :=
  closureLoop_own (closureFuel that)
    (fold_left (fun todo element => set element true todo)
       (keys (affects that)) [])
    that.

(** No source and no target of the graph is the name of an inherited
    member. *)
Definition plain_graph (that : Eliminator) : bool :=
  forallb
    (fun e =>
       negb (inherited (fst e))
       && forallb (fun k => negb (inherited k)) (keys (snd e)))
    (affects that).

(** No target of the graph is the name of an inherited member. *)
Definition plain_targets (that : Eliminator) : bool :=
  forallb (fun e => forallb (fun k => negb (inherited k)) (keys (snd e)))
    (affects that).

(** The same, read off the tables. *)
Definition plain_tables (that : Eliminator) : Prop :=
  (forall a, In a (keys (affects that)) -> inherited a = false)
  /\ forall a b, In b (keys (targets_of a that)) -> inherited b = false.

(** What the loops keep while they run on a graph of plain names with the
    sources [ks]. *)
Definition plain_round (ks : list string) (c : Closure) : Prop :=
  plain_tables (c_that c) /\ keys (affects (c_that c)) = ks.

(** What the loops of a turn of the closure do to the variables of the
    turn: edges are only added, a source that gains an edge is put into
    [nextTodo] and sets [incomplete], and the target of a new edge from a
    name that is not local is marked in [dependsOnAGlobal]. *)
Definition progress (c c' : Closure) : Prop :=
  keys (affects (c_that c')) = keys (affects (c_that c))
  /\ isLocal (c_that c') = isLocal (c_that c)
  /\ (forall a b, edge (c_that c) a b -> edge (c_that c') a b)
  /\ (forall a, test a (nextTodo c) = true -> test a (nextTodo c') = true)
  /\ (forall a b,
         edge (c_that c') a b -> edgeb (c_that c) a b = false ->
         test a (nextTodo c') = true)
  /\ (incomplete c' = true <->
      incomplete c = true
      \/ exists a b,
           edge (c_that c') a b /\ edgeb (c_that c) a b = false)
  /\ (forall b, test b (dependsOnAGlobal (c_that c)) = true ->
                test b (dependsOnAGlobal (c_that c')) = true)
  /\ (forall a b,
         edge (c_that c') a b -> edgeb (c_that c) a b = false ->
         test a (isLocal (c_that c)) = false ->
         test b (dependsOnAGlobal (c_that c')) = true)
  /\ (graph_ok (c_that c) -> graph_ok (c_that c')).


(** The invariant of the [while] loop of the closure: what a name
    affects in two steps it affects in one step, or through a target that
    is in [todo]. *)
Definition pending (that : Eliminator) (todo : obj bool) : Prop :=
  forall s t w,
    edge that s t -> edge that t w ->
    edge that s w
    \/ exists u, edge that s u /\ test u todo = true /\ edge that u w.

(** The number of pairs of a source of [ks] and a target of [U] that are
    not yet an edge. *)
Definition missing (ks U : list string) (that : Eliminator) : nat :=
  length (filter (fun p => negb (edgeb that (fst p) (snd p)))
            (list_prod ks U)).


(** [var a = x + 1; var b = a + 2; return b;] *)
Definition body_chain : jsval :=
  JArr [var_ "a" (plus_ (name_ "x") (num_ 1));
        var_ "b" (plus_ (name_ "a") (num_ 2));
        return_ (name_ "b")].

(** The tables of [body_chain] after [analyzeInitialValues]. *)
Definition that_chain : Eliminator :=
  mkEliminator
    [("a", true); ("b", true)]
    [("a", true); ("x", false); ("b", true)]
    [("a", 1%Z); ("b", 1%Z)]
    [("a", true); ("b", true)]
    [("a", true)]
    []
    [("a", plus_ (name_ "x") (num_ 1)); ("b", plus_ (name_ "a") (num_ 2))]
    [("x", [("a", true)]); ("a", [("b", true)])].

(** [var a = x; var toString = a;] *)
Definition body_toString : jsval :=
  JArr [var_ "a" (name_ "x"); var_ "toString" (name_ "a")].

(** The tables of [body_toString] after [analyzeInitialValues]. *)
Definition that_toString : Eliminator :=
  mkEliminator
    [("a", true); ("toString", true)]
    [("a", true); ("x", false); ("toString", true)]
    [("a", 1%Z); ("toString", 0%Z)]
    [("a", true); ("toString", true)]
    [("a", true)]
    []
    [("a", name_ "x"); ("toString", name_ "a")]
    [("x", [("a", true)]); ("a", [("toString", true)])].

(** [function () { body }] *)
Definition function_ (body : list jsval) : jsval :=
  JArr [JStr "function"; JNull; JArr []; JArr body].

(** [var f = function () { var a = 1; };] *)
Definition body_nested : jsval :=
  JArr [var_ "f" (function_ [var_ "a" (num_ 1)])].

(** [while (c) { body }] *)
Definition while_ (c : jsval) (body : list jsval) : jsval :=
  JArr [JStr "while"; c; JArr [JStr "block"; JArr body]].

(** [var y = 1; var a = y + 1;
     var f = function () { while (c) { g(a); y = 5; } };] *)
Definition body_loop : jsval :=
  JArr [var_ "y" (num_ 1);
        var_ "a" (plus_ (name_ "y") (num_ 1));
        var_ "f"
          (function_
             [while_ (name_ "c")
                [stat_ (call_ (name_ "g") [name_ "a"]);
                 stat_ (assign_ (name_ "y") (num_ 5))]])].

(** [var y = 1; ;
     var f = function () { while (c) { g(y + 1); y = 5; } };] *)
Definition body_loop_inlined : jsval :=
  JArr [var_ "y" (num_ 1);
        toplevel_;
        var_ "f"
          (function_
             [while_ (name_ "c")
                [stat_ (call_ (name_ "g") [plus_ (name_ "y") (num_ 1)]);
                 stat_ (assign_ (name_ "y") (num_ 5))]])].


(** ** Initial values of eliminated variables *)

(** The condition under which the callback of [collapseValues] asks for
    a replacement of the node [n] while it rewrites [varName]. *)
Definition fires (values : obj jsval) (varName : string) (n : jsval) : bool :=
  (type_of n =? "name") && has (to_key (sub n 1)) values
  && negb (loose_eq (sub n 1) varName).

(** An initial value built from side-effect-free nodes, as the parser
    produces them. *)
Inductive pure : Type :=
| PName (x : string)
| PNum (n : Z)
| PString (s : string)
| PBinary (op : string) (a b : pure)
| PSub (a b : pure)
| PPrefix (op : string) (a : pure).

Fixpoint pure_js (p : pure) : jsval :=
  match p with
  | PName x => JArr [JStr "name"; JStr x]
  | PNum n => JArr [JStr "num"; JNum n]
  | PString s => JArr [JStr "string"; JStr s]
  | PBinary op a b => JArr [JStr "binary"; JStr op; pure_js a; pure_js b]
  | PSub a b => JArr [JStr "sub"; pure_js a; pure_js b]
  | PPrefix op a => JArr [JStr "unary-prefix"; JStr op; pure_js a]
  end.

Fixpoint pure_names (p : pure) : list string :=
  match p with
  | PName x => [x]
  | PNum _ | PString _ => []
  | PBinary _ a b | PSub a b => pure_names a ++ pure_names b
  | PPrefix _ a => pure_names a
  end.

(** A table of initial values as the script holds it. *)
Definition js_values (V : obj pure) : obj jsval :=
  map (fun e => (fst e, pure_js (snd e))) V.

(** [y] names another variable of the table than [x]. *)
Definition expands (V : obj pure) (x y : string) : bool :=
  has y V && negb (y =? x).

(** The value [p] of [x] after one walk of [collapseValues]: the names of
    other variables of the table are replaced by the values of these. *)
Fixpoint collapse_tree (V : obj pure) (x : string) (p : pure) : pure :=
  match p with
  | PName y =>
      if expands V x y then
        match get y V with
        | Some q => q
        | None => p
        end
      else p
  | PNum _ | PString _ => p
  | PBinary op a b => PBinary op (collapse_tree V x a) (collapse_tree V x b)
  | PSub a b => PSub (collapse_tree V x a) (collapse_tree V x b)
  | PPrefix op a => PPrefix op (collapse_tree V x a)
  end.

(** What the walk of [p] answers, and the tree it leaves behind. *)
Definition collapse_answer (V : obj pure) (x : string) (p : pure) : jsval :=
  match p with
  | PName y => if expands V x y then pure_js (collapse_tree V x p) else JUndef
  | _ => JUndef
  end.

Definition collapse_left (V : obj pure) (x : string) (p : pure) : jsval :=
  match p with
  | PName y => pure_js p
  | _ => pure_js (collapse_tree V x p)
  end.

(** The body of the [for] loop of [collapseValues] on such a table. *)
Definition collapse_step (acc : obj pure * bool) (x : string)
  : obj pure * bool :=
  match get x (fst acc) with
  | Some p =>
      (set x (collapse_tree (fst acc) x p) (fst acc),
       snd acc || existsb (expands (fst acc) x) (pure_names p))
  | None => acc
  end.

(** The names of the table that occur in its values have a rank below
    [N], which goes down from a variable to the variables in its value:
    the references between the values make no cycle. *)
Definition ranked (rk : string -> nat) (N : nat) (V : obj pure) : Prop :=
  forall x p,
    get x V = Some p ->
    forall y, In y (pure_names p) -> has y V = true ->
              rk y < rk x /\ rk y < N.


(** ** A reference evaluation of the statements of the examples

    The meaning in JavaScript of the few statements that the examples of
    changed behaviour are made of: declarations, expression statements and
    [return], over names, integer literals, additions, assignments to a
    name and [x++].  The variables hold integers. *)

Fixpoint eval_expr (e : jsval) (vars : obj Z) : option (Z * obj Z) :=
  match e with
  | JArr [JStr "num"; JNum n] => Some (n, vars)
  | JArr [JStr "name"; JStr x] =>
      match get x vars with
      | Some n => Some (n, vars)
      | None => None
      end
  | JArr [JStr "binary"; JStr "+"; a; b] =>
      match eval_expr a vars with
      | Some (m, vars1) =>
          match eval_expr b vars1 with
          | Some (n, vars2) => Some ((m + n)%Z, vars2)
          | None => None
          end
      | None => None
      end
  | JArr [JStr "assign"; JBool true; JArr [JStr "name"; JStr x]; b] =>
      match eval_expr b vars with
      | Some (n, vars1) => Some (n, set x n vars1)
      | None => None
      end
  | JArr [JStr "unary-postfix"; JStr "++"; JArr [JStr "name"; JStr x]] =>
      match get x vars with
      | Some n => Some (n, set x (n + 1)%Z vars)
      | None => None
      end
  | _ => None
  end.

(** The value returned by a list of statements, if one is, and the
    variables afterwards. *)
Fixpoint eval_stats (stats : list jsval) (vars : obj Z)
  : option (option Z * obj Z) :=
  match stats with
  | [] => Some (None, vars)
  | JArr [JStr "toplevel"; JArr []] :: rest => eval_stats rest vars
  | JArr [JStr "var"; JArr [JArr [JStr x; e]]] :: rest =>
      match eval_expr e vars with
      | Some (n, vars1) => eval_stats rest (set x n vars1)
      | None => None
      end
  | JArr [JStr "stat"; e] :: rest =>
      match eval_expr e vars with
      | Some (_, vars1) => eval_stats rest vars1
      | None => None
      end
  | JArr [JStr "return"; e] :: _ =>
      match eval_expr e vars with
      | Some (n, vars1) => Some (Some n, vars1)
      | None => None
      end
  | JArr [JStr "if"; c; _; JUndef] :: rest =>
      (* only the case of a condition that is 0: the branch is skipped *)
      match eval_expr c vars with
      | Some (0%Z, vars1) => eval_stats rest vars1
      | _ => None
      end
  | _ => None
  end.

(** The statements of a body, before and after [run]. *)
Definition eval_body (body : jsval) (vars : obj Z)
  : option (option Z * obj Z) :=
  match elems body with
  | Some stats => eval_stats stats vars
  | None => None
  end.

Definition eval_optimized (fuel : nat) (body : jsval) (vars : obj Z)
  : option (option Z * obj Z) :=
  match run fuel body with
  | Some (_, body') => eval_body body' vars
  | None => None
  end.


(** [a = b + 1], [b = c], [c = 2], and the ranks of the three names. *)
Definition values_abc : obj pure :=
  [("a", PBinary "+" (PName "b") (PNum 1)); ("b", PName "c"); ("c", PNum 2)].

Definition rank_abc (x : string) : nat :=
  if x =? "a" then 2 else if x =? "b" then 1 else 0.

(** ** Vocabulary for the shared arrays of [collapseValues] *)

(** The name held by a [name] node. *)
Definition name_of (node : list cell) : option string :=
  match node with
  | [Val (JStr t); Val (JStr y)] => if t =? "name" then Some y else None
  | _ => None
  end.

Definition name_at (h : store) (b : nat) : option string :=
  name_of (deref h b).

(** The arrays of side-effect-free nodes, in a store of [n] arrays. *)
Inductive pure_node (n : nat) : list cell -> Prop :=
| pn_name y : pure_node n [Val (JStr "name"); Val (JStr y)]
| pn_num z : pure_node n [Val (JStr "num"); Val (JNum z)]
| pn_string s : pure_node n [Val (JStr "string"); Val (JStr s)]
| pn_binary op b c :
    b < n -> c < n ->
    pure_node n [Val (JStr "binary"); Val (JStr op); Ref b; Ref c]
| pn_sub b c :
    b < n -> c < n -> pure_node n [Val (JStr "sub"); Ref b; Ref c]
| pn_prefix op b :
    b < n -> pure_node n [Val (JStr "unary-prefix"); Val (JStr op); Ref b].

(** The array at [a] shows the tree of [p]. *)
Inductive repr (h : store) : nat -> pure -> Prop :=
| repr_name a y :
    deref h a = [Val (JStr "name"); Val (JStr y)] -> repr h a (PName y)
| repr_num a z :
    deref h a = [Val (JStr "num"); Val (JNum z)] -> repr h a (PNum z)
| repr_string a s :
    deref h a = [Val (JStr "string"); Val (JStr s)] -> repr h a (PString s)
| repr_binary a op b c p q :
    deref h a = [Val (JStr "binary"); Val (JStr op); Ref b; Ref c] ->
    repr h b p -> repr h c q -> repr h a (PBinary op p q)
| repr_sub a b c p q :
    deref h a = [Val (JStr "sub"); Ref b; Ref c] ->
    repr h b p -> repr h c q -> repr h a (PSub p q)
| repr_prefix a op b p :
    deref h a = [Val (JStr "unary-prefix"); Val (JStr op); Ref b] ->
    repr h b p -> repr h a (PPrefix op p).

(** [p'] is [p] with some names of the table [V] replaced by their
    values, and names of these values replaced in turn. *)
Inductive expands_to (V : obj pure) : pure -> pure -> Prop :=
| ex_name y : expands_to V (PName y) (PName y)
| ex_value y q q' :
    get y V = Some q -> expands_to V q q' -> expands_to V (PName y) q'
| ex_num z : expands_to V (PNum z) (PNum z)
| ex_string s : expands_to V (PString s) (PString s)
| ex_binary op a b a' b' :
    expands_to V a a' -> expands_to V b b' ->
    expands_to V (PBinary op a b) (PBinary op a' b')
| ex_sub a b a' b' :
    expands_to V a a' -> expands_to V b b' ->
    expands_to V (PSub a b) (PSub a' b')
| ex_prefix op a a' :
    expands_to V a a' -> expands_to V (PPrefix op a) (PPrefix op a').

(** Every value of the table [cur] is a value of [V] with names
    replaced. *)
Definition expansion (V cur : obj pure) : Prop :=
  forall x p', get x cur = Some p' ->
    exists p, get x V = Some p /\ expands_to V p p'.

(** No value of the table names a variable of the table. *)
Definition collapsed (V : obj pure) : Prop :=
  forall x p y, get x V = Some p -> In y (pure_names p) -> has y V = false.

(** The number of arrays of a value. *)
Fixpoint psize (p : pure) : nat :=
  match p with
  | PName _ | PNum _ | PString _ => 1
  | PBinary _ a b | PSub a b => psize a + psize b + 1
  | PPrefix _ a => psize a + 1
  end.

(** The arrays from [lo] up to [hi] are nodes of a value with the names
    [names]: the subnodes of each come before it. *)
Definition nodes_at (h : store) (lo hi : nat) (names : list string) : Prop :=
  forall a, lo <= a < hi ->
    pure_node hi (deref h a)
    /\ (forall i b, nth i (deref h a) (Val JUndef) = Ref b ->
                    lo <= b < a /\ exists q, repr h b q)
    /\ (forall y, name_at h a = Some y -> In y names).

(** The rank of the variable whose value the array at [a] belongs to,
    for the values of [V] put into the store from [start] on. *)
Fixpoint own_of (rk : string -> nat) (V : obj pure) (start a : nat) : nat :=
  match V with
  | [] => 0
  | (x, p) :: rest =>
      if (a <? start + psize p)%nat then rk x
      else own_of rk rest (start + psize p) a
  end.

(** The store holds the values of [V] from [start] on, one after the
    other, and [values] are their roots. *)
Definition forest (rk : string -> nat) (V : obj pure) (start : nat)
  (h : store) (values : obj cell) : Prop :=
  (forall a, start <= a < length h ->
     exists x p,
       In (x, p) V /\ own_of rk V start a = rk x
       /\ pure_node (length h) (deref h a)
       /\ (forall i b, nth i (deref h a) (Val JUndef) = Ref b ->
                       (start <= b < a
                        /\ own_of rk V start b = own_of rk V start a)
                       /\ exists q, repr h b q)
       /\ (forall y, name_at h a = Some y -> In y (pure_names p)))
  /\ (forall x c, In (x, c) values ->
        exists p r,
          In (x, p) V /\ c = Ref r /\ start <= r < length h
          /\ own_of rk V start r = rk x /\ repr h r p
          /\ (forall y, name_at h r = Some y -> In y (pure_names p))).

(** What stays the same while the values are collapsed: the ranks of the
    variables, their initial values, the store these were put into, a
    level of the arrays that goes down from an array to its elements, and
    for each variable a bound on the levels of its value. *)
Record setting : Type := mkSetting {
  ranks : string -> nat;
  initial : obj pure;
  store0 : store;
  level : nat -> nat;
  bound : string -> nat
}.

(** The weight of a slot that holds a name of the table. *)
Definition wcell (st : setting) (c : cell) : nat :=
  match c with
  | Ref b =>
      match name_at (store0 st) b with
      | Some y => if has y (initial st) then S (ranks st y) else 0
      | None => 0
      end
  | Val _ => 0
  end.

Definition wnode (st : setting) (node : list cell) : nat :=
  list_sum (map (wcell st) node).
Definition wstore (st : setting) (h : store) : nat :=
  list_sum (map (wnode st) h).
Definition wtable (st : setting) (values : obj cell) : nat :=
  list_sum (map (fun e => wcell st (snd e)) values).
Definition wtot (st : setting) (h : store) (values : obj cell) : nat :=
  wstore st h + wtable st values.

(** The array at [b] was, when the values were put into the store, an
    expansion of what the array at [b0] was. *)
Definition linked (st : setting) (b0 b : nat) : Prop :=
  forall p0, repr (store0 st) b0 p0 ->
    exists p1, repr (store0 st) b p1 /\ expands_to (initial st) p0 p1.

(** A slot now, against the slot as it was at first. *)
Definition slot_ok (st : setting) (c0 c : cell) : Prop :=
  match c0, c with
  | Val v0, Val v => v = v0
  | Ref b0, Ref b => linked st b0 b
  | _, _ => False
  end.

(** What holds of the store and the table between two steps of
    [collapseValues]: the arrays are side-effect-free nodes; the [name]
    nodes are those of the beginning; an element is below its array; an
    array that holds a name of the table is above the bound of that name;
    a value of the table is below the bound of its variable; a name at the
    root of a value ranks below the variable; the table has the keys of
    the beginning; every slot holds an expansion of what it held at the
    beginning, and so does every entry of the table. *)
Record Inv (st : setting) (h : store) (values : obj cell) : Prop := mkInv {
  inv_shape : forall a, a < length h -> pure_node (length h) (deref h a);
  inv_names : forall b, name_at h b = name_at (store0 st) b;
  inv_down : forall a i b,
    nth i (deref h a) (Val JUndef) = Ref b -> level st b < level st a;
  inv_band : forall a i b y,
    nth i (deref h a) (Val JUndef) = Ref b ->
    name_at (store0 st) b = Some y -> has y (initial st) = true ->
    bound st y <= level st a;
  inv_tab : forall x c,
    get x values = Some c ->
    exists r, c = Ref r /\ r < length h /\ level st r < bound st x;
  inv_root : forall x r y,
    get x values = Some (Ref r) ->
    name_at (store0 st) r = Some y -> has y (initial st) = true ->
    ranks st y < ranks st x;
  inv_keys : forall y, has y values = has y (initial st);
  inv_slots : forall a, Forall2 (slot_ok st) (deref (store0 st) a) (deref h a);
  inv_vals : forall x r p,
    get x values = Some (Ref r) -> get x (initial st) = Some p ->
    exists p1, repr (store0 st) r p1 /\ expands_to (initial st) p p1
}.

(** The tree at [a] names no variable of the table. *)
Definition quiet (st : setting) (h : store) (a : nat) : Prop :=
  exists p,
    repr h a p /\ forall y, In y (pure_names p) -> has y (initial st) = false.

Definition quiet_entry (st : setting) (h : store) (values : obj cell)
  (x : string) : Prop :=
  exists r, get x values = Some (Ref r) /\ quiet st h r.

(** The walk found a name to replace at [a] itself. *)
Definition fired (st : setting) (values : obj cell) (a : nat) (h : store)
  (out : cell * store * bool) : Prop :=
  exists y r,
    name_at (store0 st) a = Some y /\ has y (initial st) = true
    /\ get y values = Some (Ref r) /\ out = (Ref r, h, true).

(** The walk went through the array at [a]. *)
Definition passed (st : setting) (values : obj cell) (a : nat) (h : store)
  (inc : bool) (out : cell * store * bool) : Prop :=
  exists h' inc',
    out = (Val JUndef, h', inc')
    /\ Inv st h' values /\ length h' = length h
    /\ (forall a', level st a < level st a' -> deref h' a' = deref h a')
    /\ ((h' = h /\ inc' = inc /\ quiet st h a)
        \/ (inc' = true /\ wstore st h' < wstore st h)).

Arguments inv_shape {st h values}.
Arguments inv_names {st h values}.
Arguments inv_down {st h values}.
Arguments inv_band {st h values}.
Arguments inv_tab {st h values}.
Arguments inv_root {st h values}.
Arguments inv_keys {st h values}.
Arguments inv_slots {st h values}.
Arguments inv_vals {st h values}.

(** The setting of a table put into an empty store. *)
Definition setting_of (rk : string -> nat) (V : obj pure) (h : store)
  : setting :=
  mkSetting rk V h (fun a => own_of rk V 0 a * length h + a)
    (fun y => (rk y + 1) * length h).

(** ** Vocabulary for the helpers and the blank lines *)

(** No value of the table is true: its keys can only be asked for with
    [in]. *)
Definition all_zero (t : obj Z) : Prop :=
  forall k v, get k t = Some v -> v = 0%Z.

(** [/\n *\n/] matches nowhere in [s]. *)
Fixpoint blank_free (s : string) : bool :=
  match s with
  | EmptyString => true
  | String c r =>
      match match_blank s with
      | Some _ => false
      | None => blank_free r
      end
  end.

(** [k] spaces. *)
Fixpoint spaces (k : nat) : string :=
  match k with
  | O => EmptyString
  | S k' => String space (spaces k')
  end.

(** The characters of [s] that are neither spaces nor newlines. *)
Fixpoint solid (s : string) : string :=
  match s with
  | EmptyString => EmptyString
  | String c r =>
      if Ascii.eqb c space || Ascii.eqb c newline then solid r
      else String c (solid r)
  end.

(** ** Vocabulary for the rewriting passes *)

(** What [updateUses] puts in the place of a subnode: the entry of
    [replacements] for a [name] node, when there is one and it counts as
    true. *)
Definition replacement (replacements : obj jsval) (node : jsval)
  : option jsval :=
  if (type_of node =? "name") && has (to_key (sub node 1)) replacements then
    match get (to_key (sub node 1)) replacements with
    | Some v => if truthy v then Some v else None
    | None => None
    end
  else None.

(** The tree with every use replaced, top down; what is put in is not
    looked into. *)
Fixpoint substitute (replacements : obj jsval) (node : jsval) : jsval :=
  match node with
  | JArr l =>
      JArr ((fix each (subs : list jsval) : list jsval :=
               match subs with
               | [] => []
               | subnode :: rest =>
                   (if is_subnode subnode
                       && negb (loose_eq (at_ l 0) "for-in"
                                && loose_eq (at_head subnode) "var")
                    then match replacement replacements subnode with
                         | Some v => v
                         | None => substitute replacements subnode
                         end
                    else subnode) :: each rest
               end) l)
  | _ => node
  end.

(** [substitute] over the elements [subs] of a node of type [type]. *)
Fixpoint substitute_children (replacements : obj jsval) (type : jsval)
  (subs : list jsval) : list jsval :=
  match subs with
  | [] => []
  | subnode :: rest =>
      (if is_subnode subnode
          && negb (loose_eq type "for-in" && loose_eq (at_head subnode) "var")
       then match replacement replacements subnode with
            | Some v => v
            | None => substitute replacements subnode
            end
       else subnode) :: substitute_children replacements type rest
  end.

(** No [var] node that a walk visits has an empty list of declarations. *)
Definition vars_declare (body : jsval) : Prop :=
  forall n, In n (visited body) -> type_of n = "var" -> sub n 1 <> JArr [].

(** ** Vocabulary for the scan *)

(** The declarations [node[1][i]] that the scan reads at a node. *)
Definition declarations_of (node : jsval) : list jsval :=
  if type_of node =? "var" then
    match elems (sub node 1) with
    | Some node1 => node1
    | None => []
    end
  else [].

(** The declarations that a walk of [body] comes by, in its order. *)
Definition declarations (body : jsval) : list jsval :=
  flat_map declarations_of (visited body).

(** The name and the initial value that a declaration gives. *)
Definition declared_name (d : jsval) : string := to_key (sub d 0).

Definition initial_of (d : jsval) : jsval :=
  if truthy (sub d 1) then sub d 1 else JArr [JStr "name"; JStr "undefined"].

(** The names declared in [body], once for each declaration. *)
Definition declared (body : jsval) : list string :=
  map declared_name (declarations body).

(** The name that the scan counts at a node. *)
Definition names_of (node : jsval) : list string :=
  if type_of node =? "name" then [to_key (sub node 1)] else [].

(** How often [x] is among [l]. *)
Definition occurrences (x : string) (l : list string) : nat :=
  count_occ string_dec l x.

(** The tables of the scan after the declarations [Ds] and the names [N]. *)
Record scan_inv (that : Eliminator) (Ds : list jsval) (N : list string)
  : Prop := {
  scan_local : forall x,
    has x (isLocal that) = true <-> In x (map declared_name Ds);
  scan_counts : keys (useCount that) = keys (isLocal that);
  scan_values : keys (initialValue that) = keys (isLocal that);
  scan_seen : forall x,
    has x (isSingleDef that) = true
    <-> In x (map declared_name Ds) \/ In x N;
  scan_single : forall x,
    test x (isSingleDef that) = true ->
    occurrences x (map declared_name Ds) = 1
    /\ get x (useCount that) = Some (Z.of_nat (occurrences x N));
  scan_local_true : forall x b, get x (isLocal that) = Some b -> b = true;
  scan_initial : forall x v,
    get x (initialValue that) = Some v ->
    exists d, In d Ds /\ declared_name d = x /\ v = initial_of d;
  scan_bounds : forall x n,
    get x (useCount that) = Some n ->
    (0 <= n <= Z.of_nat (occurrences x N))%Z
}.

(** In the list of nodes [P], a node that names [x] comes after a node
    that declares [x]. *)
Definition declared_before_use (x : string) (P : list jsval) : Prop :=
  forall pre n post,
    P = pre ++ n :: post -> In x (names_of n) ->
    In x (map declared_name (flat_map declarations_of pre)).

(** ** Vocabulary for the initial values *)

(** A walk of [value] visits only nodes of the types in
    [NODES_WITHOUT_SIDE_EFFECTS]. *)
Definition simple_value (value : jsval) : bool :=
  forallb (fun n => NODES_WITHOUT_SIDE_EFFECTS (type_of n)) (visited value).

(** A [name] node whose name is not ['undefined']. *)
Definition is_reference (node : jsval) : bool :=
  (type_of node =? "name") && negb (loose_eq (sub node 1) "undefined").

(** The names that a walk of [value] finds in such nodes. *)
Definition references (value : jsval) : list string :=
  map (fun n => to_key (sub n 1)) (filter is_reference (visited value)).

(** [this.initialValue[x]]. *)
Definition value_of (that : Eliminator) (x : string) : jsval :=
  match get x (initialValue that) with
  | Some v => v
  | None => JUndef
  end.

(** ** Vocabulary for the errors of the scan *)

(** [v] is neither [undefined] nor [null]: [v[i]] does not throw. *)
Definition defined (v : jsval) : bool :=
  match elems v with
  | Some _ => true
  | None => false
  end.

(** The callback of the scan does not throw on [node]. *)
Definition scannable (node : jsval) : bool :=
  if type_of node =? "var" then
    match elems (sub node 1) with
    | Some node1 => forallb defined node1
    | None => false
    end
  else if type_of node =? "name" then true
  else if type_of node =? "assign" then defined (sub node 2)
  else true.

(** The chain [x1 + (x2 + (... + (xn + num)))]. *)
Fixpoint chain_of (xs : list string) (n : Z) : chain :=
  match xs with
  | [] => Lit n
  | x :: rest => Plus (Name x) (chain_of rest n)
  end.

(** ** Vocabulary for the mutations *)

(** An assignment, an increment or a decrement. *)
Definition is_mutation (node : jsval) : bool :=
  ((type_of node =? "assign") || (type_of node =? "unary-prefix")
   || (type_of node =? "unary-postfix"))
  && ((type_of node =? "assign") || loose_eq (sub node 1) "--"
      || loose_eq (sub node 1) "++").

(** ** Vocabulary for the removal of declarations *)

(** The declarations of a [var] node that [toRemove] does not name. *)
Definition remaining (toRemove : obj jsval) (vars : list jsval)
  : list jsval :=
  filter (fun d => negb (has (declared_name d) toRemove)) vars.

(** A [var] node without the declarations that [toRemove] names; an empty
    [toplevel] node when none is left. *)
Definition stripped_var (toRemove : obj jsval) (node : jsval) : jsval :=
  match node with
  | JArr (tag :: JArr vars :: rest) =>
      match remaining toRemove vars with
      | [] => JArr [JStr "toplevel"; JArr []]
      | intactVars => JArr (tag :: JArr intactVars :: rest)
      end
  | _ => node
  end.

(** The tree with every [var] node that the walk reaches stripped; the
    walk does not go into a [var] node. *)
Fixpoint strip (toRemove : obj jsval) (node : jsval) : jsval :=
  match node with
  | JArr l =>
      JArr ((fix each (subs : list jsval) : list jsval :=
               match subs with
               | [] => []
               | subnode :: rest =>
                   (if is_subnode subnode
                       && negb (loose_eq (at_ l 0) "for-in"
                                && loose_eq (at_head subnode) "var")
                    then if type_of subnode =? "var"
                         then stripped_var toRemove subnode
                         else strip toRemove subnode
                    else subnode) :: each rest
               end) l)
  | _ => node
  end.

(** [strip] over the elements [subs] of a node of type [type]. *)
Fixpoint strip_children (toRemove : obj jsval) (type : jsval)
  (subs : list jsval) : list jsval :=
  match subs with
  | [] => []
  | subnode :: rest =>
      (if is_subnode subnode
          && negb (loose_eq type "for-in" && loose_eq (at_head subnode) "var")
       then if type_of subnode =? "var"
            then stripped_var toRemove subnode
            else strip toRemove subnode
       else subnode) :: strip_children toRemove type rest
  end.

(** A [var] node holds an array of declarations, none of them [undefined]
    or [null]. *)
Definition var_ok (node : jsval) : bool :=
  if type_of node =? "var" then
    match node with
    | JArr (_ :: JArr vars :: _) => forallb defined vars
    | _ => false
    end
  else true.

(** ** Vocabulary for the completeness of the scan *)

(** The name that the scan takes for the target of an assignment. *)
Definition assigned_name (node : jsval) : string :=
  to_key (sub (sub node 2) 1).

(** What the scan knows of [x] after the declarations [Ds]: nothing when
    none of them declares [x], and that [x] is single-def when one does. *)
Definition scan_knows (x : string) (that : Eliminator) (Ds : list jsval)
  : Prop :=
  (occurrences x (map declared_name Ds) = 0 ->
   has x (isSingleDef that) = false)
  /\ (occurrences x (map declared_name Ds) = 1 ->
      test x (isSingleDef that) = true).

(** * Properties *)

(** ** Induction over trees *)

Section Jsval_induction.
Variable P : jsval -> Prop.
Hypothesis HUndef : P JUndef.
Hypothesis HNull : P JNull.
Hypothesis HBool : forall b, P (JBool b).
Hypothesis HNum : forall n, P (JNum n).
Hypothesis HStr : forall s, P (JStr s).
Hypothesis HArr : forall l, Forall P l -> P (JArr l).

Fixpoint jsval_tree_ind (v : jsval) : P v :=
  match v with
  | JUndef => HUndef
  | JNull => HNull
  | JBool b => HBool b
  | JNum n => HNum n
  | JStr s => HStr s
  | JArr l =>
      HArr l
        ((fix all (l : list jsval) : Forall P l :=
            match l with
            | [] => Forall_nil P
            | x :: r => Forall_cons x (jsval_tree_ind x) (all r)
            end) l)
  end.
End Jsval_induction.

(** ** Tables *)

Section Table_facts.
Context {V : Type}.
Implicit Types (o : obj V) (k : string) (v : V).

Lemma get_set_eq k v o : get k (set k v o) = Some v.
Proof.
  induction o as [|[k' v'] r IH]; simpl.
  - now rewrite String.eqb_refl.
  - destruct (k' =? k) eqn:E; simpl; rewrite E; auto.
Qed.

Lemma get_set_neq k k' v o : k <> k' -> get k' (set k v o) = get k' o.
Proof.
  intros Hne. induction o as [|[k0 v0] r IH]; simpl.
  - destruct (k =? k') eqn:E; auto.
    apply String.eqb_eq in E. contradiction.
  - destruct (k0 =? k) eqn:E; simpl.
    + apply String.eqb_eq in E. subst k0.
      destruct (k =? k') eqn:E'; auto.
      apply String.eqb_eq in E'. contradiction.
    + destruct (k0 =? k'); auto.
Qed.

Lemma get_set k k' v o :
  get k' (set k v o) = if k =? k' then Some v else get k' o.
Proof.
  destruct (k =? k') eqn:E.
  - apply String.eqb_eq in E. subst. apply get_set_eq.
  - apply String.eqb_neq in E. now apply get_set_neq.
Qed.

Lemma has_set k k' v o : has k' (set k v o) = (k =? k') || has k' o.
Proof.
  unfold has. rewrite get_set. destruct (k =? k'); auto.
Qed.

Lemma has_In k o : has k o = true <-> In k (keys o).
Proof.
  unfold has, keys. induction o as [|[k' v'] r IH]; simpl.
  - split; [discriminate | tauto].
  - destruct (k' =? k) eqn:E.
    + apply String.eqb_eq in E. subst. tauto.
    + apply String.eqb_neq in E. rewrite IH. split; [tauto|].
      intros [H|H]; [contradiction | exact H].
Qed.

Lemma get_In k o : get k o <> None <-> In k (keys o).
Proof.
  rewrite <- has_In. unfold has. destruct (get k o); split; congruence.
Qed.

Lemma get_None_not_In k o : get k o = None <-> ~ In k (keys o).
Proof.
  rewrite <- get_In. destruct (get k o); intuition congruence.
Qed.

Lemma keys_set k v o :
  keys (set k v o) = if has k o then keys o else keys o ++ [k].
Proof.
  unfold has, keys. induction o as [|[k' v'] r IH]; simpl; auto.
  destruct (k' =? k) eqn:E; simpl; auto.
  rewrite IH. destruct (get k r); auto.
Qed.

Lemma In_keys_set k k' v o :
  In k' (keys (set k v o)) <-> k = k' \/ In k' (keys o).
Proof.
  rewrite <- !has_In, has_set, orb_true_iff, String.eqb_eq. tauto.
Qed.

Lemma length_set k v o :
  length (set k v o) = if has k o then length o else S (length o).
Proof.
  unfold has. induction o as [|[k' v'] r IH]; simpl; auto.
  destruct (k' =? k) eqn:E; simpl; auto.
  rewrite IH. destruct (get k r); auto.
Qed.

Lemma NoDup_keys_set k v o : NoDup (keys o) -> NoDup (keys (set k v o)).
Proof.
  intros H. rewrite keys_set. destruct (has k o) eqn:E; auto.
  apply NoDup_app; auto.
  - constructor; [simpl; tauto | constructor].
  - intros x Hx [Hk|[]]. subst x. apply has_In in Hx. congruence.
Qed.
End Table_facts.

Lemma test_set k k' b (o : obj bool) :
  test k' (set k b o) = if k =? k' then b else test k' o.
Proof.
  unfold test. rewrite get_set. destruct (k =? k'); auto.
Qed.

Lemma test_has k (o : obj bool) : test k o = true -> has k o = true.
Proof.
  unfold test, has. destruct (get k o); auto.
Qed.

(** ** The walker *)

Section Traverse_facts.
Context {St : Type}.
Variable callback : jsval -> string -> St -> option (jsval * St).

Lemma traverse_JArr l s :
  traverse callback (JArr l) s =
  match (match at_ l 0 with
         | JStr t => callback (JArr l) t s
         | _ => Some (JUndef, s)
         end) with
  | None => None
  | Some (result, s1) =>
      if truthy result then Some (result, JArr l, s1)
      else
        match traverse_children callback (at_ l 0) l s1 with
        | None => None
        | Some (r, l', s') => Some (r, JArr l', s')
        end
  end.
Proof.
  simpl. destruct (match at_ l 0 with JStr t => _ | _ => _ end)
    as [[result s1]|]; auto.
  destruct (truthy result); auto.
  generalize (at_ l 0) as type. intros type.
  match goal with
  | |- match ?a with _ => _ end = match ?b with _ => _ end =>
      assert (E : a = b); [|now rewrite E]
  end.
  generalize s1. clear. induction l as [|x r IH]; intros s1; simpl; auto.
  destruct (is_subnode x && _); [|now rewrite IH].
  destruct (traverse callback x s1) as [[[sr sn] s']|]; auto.
  destruct (is_false sr); auto. now rewrite IH.
Qed.

Lemma visited_JArr l :
  visited (JArr l) =
  (match at_ l 0 with JStr _ => [JArr l] | _ => [] end)
  ++ visited_children (at_ l 0) l.
Proof.
  simpl. f_equal. generalize (at_ l 0) as type. intros type.
  induction l as [|x r IH]; simpl; auto. now rewrite IH.
Qed.

(** The type given to the callback is the type of the node. *)
Lemma type_of_JArr l t : at_ l 0 = JStr t -> type_of (JArr l) = t.
Proof.
  destruct l as [|h r]; simpl; [discriminate|].
  unfold at_; simpl. now intros ->.
Qed.

(** A walk answers [undefined] or what the callback answered, and that
    only when it is a true value: never [false]. *)
Lemma traverse_answer node : forall s r n' s',
  traverse callback node s = Some (r, n', s') ->
  r = JUndef \/ truthy r = true.
Proof.
  induction node as [| | | |str|l IH] using jsval_tree_ind;
    intros s r n' s'; try (simpl; congruence).
  - simpl. intros H; inversion H; auto.
  - simpl. intros H; inversion H; auto.
  - destruct str as [|c str]; simpl; [intros H; inversion H; auto|].
    destruct (callback _ _ s) as [[res s1]|]; [|discriminate].
    intros H; inversion H; subst.
    destruct (truthy res) eqn:E; auto.
  - rewrite traverse_JArr.
    destruct (match at_ l 0 with JStr t => _ | _ => _ end)
      as [[res s1]|]; [|discriminate].
    destruct (truthy res) eqn:E.
    + intros H; inversion H; subst; auto.
    + generalize (at_ l 0) as type. intros type.
      destruct (traverse_children callback type l s1)
        as [[[r0 l0] s0]|] eqn:Hc; [|discriminate].
      intros H; inversion H; subst. left.
      clear H E. revert s1 r l0 s' Hc.
      induction IH as [|x rest Hx _ IHrest]; intros s1 r l0 s' Hc;
        simpl in Hc.
      * now inversion Hc.
      * destruct (is_subnode x && _).
        -- destruct (traverse callback x s1) as [[[sr sn] s2]|] eqn:Hx';
             [|discriminate].
           destruct (Hx _ _ _ _ Hx') as [->|Ht].
           ++ simpl in Hc.
              destruct (traverse_children callback type rest s2)
                as [[[r1 l1] s3]|] eqn:Hr; [|discriminate].
              inversion Hc; subst. eapply IHrest; eauto.
           ++ assert (is_false sr = false) as Ef
                by (destruct sr as [| |[]| | |]; simpl in *; congruence).
              rewrite Ef in Hc.
              destruct (traverse_children callback type rest s2)
                as [[[r1 l1] s3]|] eqn:Hr; [|discriminate].
              inversion Hc; subst. eapply IHrest; eauto.
        -- destruct (traverse_children callback type rest s1)
             as [[[r1 l1] s3]|] eqn:Hr; [|discriminate].
           inversion Hc; subst. eapply IHrest; eauto.
Qed.

(** The loop over the children always runs to its end. *)
Lemma traverse_children_answer type l : forall s r l' s',
  traverse_children callback type l s = Some (r, l', s') -> r = JUndef.
Proof.
  induction l as [|x rest IH]; intros s r l' s' H; simpl in H.
  - now inversion H.
  - destruct (is_subnode x && _).
    + destruct (traverse callback x s) as [[[sr sn] s2]|] eqn:Hx;
        [|discriminate].
      assert (is_false sr = false) as Ef.
      { destruct (traverse_answer _ _ _ _ _ Hx) as [->|Ht]; auto.
        destruct sr as [| |[]| | |]; simpl in *; congruence. }
      rewrite Ef in H.
      destruct (traverse_children callback type rest s2)
        as [[[r1 l1] s3]|] eqn:Hr; [|discriminate].
      inversion H; subst. eauto.
    + destruct (traverse_children callback type rest s)
        as [[[r1 l1] s3]|] eqn:Hr; [|discriminate].
      inversion H; subst. eauto.
Qed.

(** What holds of the state before a walk and is kept by every call of
    the callback holds after the walk. *)
Lemma traverse_invariant (P : St -> Prop) :
  (forall n t s r s', callback n t s = Some (r, s') -> P s -> P s') ->
  forall node s r n' s',
    traverse callback node s = Some (r, n', s') -> P s -> P s'.
Proof.
  intros Hcb.
  induction node as [| | | |str|l IH] using jsval_tree_ind;
    intros s r n' s'; try (simpl; congruence).
  - destruct str as [|c str]; simpl; [congruence|].
    destruct (callback _ _ s) as [[res s1]|] eqn:E; [|discriminate].
    intros H; inversion H; subst. eauto.
  - rewrite traverse_JArr.
    destruct (match at_ l 0 with JStr t => _ | _ => _ end)
      as [[res s1]|] eqn:E; [|discriminate].
    assert (P s -> P s1) as H1.
    { destruct (at_ l 0); try (inversion E; subst; now auto). eauto. }
    destruct (truthy res).
    + intros H; inversion H; subst; auto.
    + generalize (at_ l 0) as type. intros type.
      destruct (traverse_children callback type l s1)
        as [[[r0 l0] s0]|] eqn:Hc; [|discriminate].
      intros H Hs; inversion H; subst. apply H1 in Hs.
      clear H H1 E. revert s1 r l0 s' Hc Hs.
      induction IH as [|x rest Hx _ IHrest]; intros s1 r l0 s' Hc Hs;
        simpl in Hc.
      * now inversion Hc; subst.
      * destruct (is_subnode x && _).
        -- destruct (traverse callback x s1) as [[[sr sn] s2]|] eqn:Hx';
             [|discriminate].
           destruct (is_false sr).
           ++ inversion Hc; subst. eauto.
           ++ destruct (traverse_children callback type rest s2)
                as [[[r1 l1] s3]|] eqn:Hr; [|discriminate].
              inversion Hc; subst. eapply IHrest; eauto.
        -- destruct (traverse_children callback type rest s1)
             as [[[r1 l1] s3]|] eqn:Hr; [|discriminate].
           inversion Hc; subst. eapply IHrest; eauto.
Qed.

Lemma call_on_None l : fold_left (call_on callback) l None = None.
Proof. induction l; simpl; auto. Qed.

(** When the callback never answers a true value, the walk calls it on
    every visited node, in order, and leaves the tree as it was. *)
Hypothesis callback_falsy :
  forall n t s r s', callback n t s = Some (r, s') -> truthy r = false.

Lemma traverse_visits node : elems node <> None -> forall s,
  traverse callback node s =
  match fold_left (call_on callback) (visited node) (Some s) with
  | Some s' => Some (JUndef, node, s')
  | None => None
  end.
Proof.
  induction node as [| | | |str|l IH] using jsval_tree_ind;
    intros Hdef s; try reflexivity; try (now elim Hdef).
  - destruct str as [|c str]; simpl; auto.
    destruct (callback _ _ s) as [[res s1]|] eqn:E; auto.
    now rewrite (callback_falsy _ _ _ _ _ E).
  - clear Hdef. rewrite traverse_JArr, visited_JArr, fold_left_app.
    assert (forall s1,
               match traverse_children callback (at_ l 0) l s1 with
               | Some (r, l', s') => Some (r, JArr l', s')
               | None => None
               end =
               match fold_left (call_on callback)
                       (visited_children (at_ l 0) l) (Some s1) with
               | Some s' => Some (JUndef, JArr l, s')
               | None => None
               end) as Hchildren.
    { generalize (at_ l 0) as type. intros type.
      induction IH as [|x rest Hx _ IHrest]; intros s1; simpl; auto.
      destruct (is_subnode x && _) eqn:Ex.
      - apply andb_true_iff in Ex. destruct Ex as [Ex _].
        assert (elems x <> None) as Hd
          by (destruct x; simpl in *; congruence).
        rewrite fold_left_app, (Hx Hd).
        destruct (fold_left (call_on callback) (visited x) (Some s1))
          as [s2|]; [|now rewrite call_on_None].
        simpl. specialize (IHrest s2).
        destruct (traverse_children callback type rest s2)
          as [[[r1 l1] s3]|];
          destruct (fold_left (call_on callback)
                      (visited_children type rest) (Some s2));
          congruence.
      - simpl. specialize (IHrest s1).
        destruct (traverse_children callback type rest s1)
          as [[[r1 l1] s3]|];
          destruct (fold_left (call_on callback)
                      (visited_children type rest) (Some s1));
          congruence. }
    destruct (at_ l 0) eqn:Et; cbn [fold_left]; try apply Hchildren.
    replace (call_on callback (Some s) (JArr l))
      with (match callback (JArr l) s0 s with
            | Some (_, s') => Some s'
            | None => None
            end)
      by (unfold call_on; now rewrite (type_of_JArr _ _ Et)).
    destruct (callback (JArr l) s0 s) as [[res s1]|] eqn:E;
      [|now rewrite call_on_None].
    rewrite (callback_falsy _ _ _ _ _ E). apply Hchildren.
Qed.
End Traverse_facts.

(** A replacement ends the walk of the node: the callback is called
    once, on the node itself, and its answer is the answer of the walk. *)
Lemma traverse_replaced {St : Type}
  (callback : jsval -> string -> St -> option (jsval * St)) l t s r s1 :
  at_ l 0 = JStr t ->
  callback (JArr l) t s = Some (r, s1) ->
  truthy r = true ->
  traverse callback (JArr l) s = Some (r, JArr l, s1).
Proof.
  intros Et Hcb Hr. rewrite traverse_JArr, Et, Hcb. now rewrite Hr.
Qed.

(** The parent puts the replacement in the slot of the child. *)
Lemma traverse_children_replaced {St : Type}
  (callback : jsval -> string -> St -> option (jsval * St))
  type l t rest s r s1 r' rest' s' :
  loose_eq type "for-in" = false ->
  l <> [] ->
  at_ l 0 = JStr t ->
  callback (JArr l) t s = Some (r, s1) ->
  truthy r = true ->
  traverse_children callback type rest s1 = Some (r', rest', s') ->
  traverse_children callback type (JArr l :: rest) s
  = Some (r', r :: rest', s').
Proof.
  intros Hfor Hl Et Hcb Hr Hrest.
  cbn [traverse_children]. rewrite Hfor.
  assert (is_subnode (JArr l) = true) as -> by (destruct l; simpl; congruence).
  cbn [andb negb].
  rewrite (traverse_replaced callback l t s r s1 Et Hcb Hr).
  assert (is_false r = false) as ->
    by (destruct r as [| |[]| | |]; simpl in *; congruence).
  now rewrite Hrest, Hr.
Qed.

(** ** C8: the stop signal of the walker *)

(** C8 (defect): the observer answers [false] on the node of type [b] of
    [['a', ['b', ['c']], ['d']]].  The walk should end there and answer
    [false]; it goes on to the nodes [c] and [d] and answers [undefined],
    because [if (result) return result] lets a [false] through. *)
Theorem C8_stop_signal_is_ignored :
  traverse (stop_at "b") tree_abcd []
  = Some (JUndef, tree_abcd, ["a"; "b"; "c"; "d"]).
Proof. reflexivity. Qed.

(** ** C6 and C1: increments escape the single-definition test *)

(** C6 (defect): in [var x = 0; x++;] the variable [x] is incremented, yet
    the basic scan leaves it single-def, [isEliminateable] accepts it, and
    [run] removes its declaration and rewrites the statement to [0++]. *)
Theorem C6_incremented_binding_is_eliminated :
  option_map (fun that => test "x" (isSingleDef that))
    (calculateBasicVarStats body_increment new_Eliminator) = Some true
  /\ option_map (fun that => isEliminateable that "x")
       (analyze body_increment) = Some true
  /\ run 1 body_increment
     = Some (1%Z, JArr [toplevel_; stat_ (postfix_ "++" (num_ 0))]).
Proof. repeat split; reflexivity. Qed.

(** C1 (defect): [var x = y; x++; return y;] becomes [y++; return y;].
    The function returned [y] and left it alone; the optimized function
    increments [y] and returns the incremented value. *)
Theorem C1_optimized_body_differs :
  run 1 body_increment_global
  = Some (1%Z, JArr [toplevel_; stat_ (postfix_ "++" (name_ "y"));
                     return_ (name_ "y")]).
Proof. reflexivity. Qed.

(** A second way to the same failure: [a] is killed by [x = 1], comes
    back to life after the [if] whose branch holds a loop, and
    [var a = x; x = 1; if (c) { while (d) {} } return a;] becomes
    [x = 1; if (c) { while (d) {} } return x;]. *)
Lemma run_revives_killed_binding :
  run 1 body_revived
  = Some (1%Z,
          JArr [toplevel_;
                stat_ (assign_ (name_ "x") (num_ 1));
                JArr [JStr "if"; name_ "c";
                      JArr [JStr "block";
                            JArr [JArr [JStr "while"; name_ "d";
                                        JArr [JStr "block"; JArr []]]]];
                      JUndef];
                return_ (name_ "x")]).
Proof. reflexivity. Qed.

(** What the two rewritings do to the result.  With [y = 5],
    [var x = y; x++; return y;] returns 5 and leaves [y] at 5; the
    optimized body returns 6 and leaves [y] at 6. *)
Lemma increment_changes_result :
  eval_body body_increment_global [("y", 5%Z)]
  = Some (Some 5%Z, [("y", 5%Z); ("x", 6%Z)])
  /\ eval_optimized 1 body_increment_global [("y", 5%Z)]
     = Some (Some 6%Z, [("y", 6%Z)]).
Proof. split; reflexivity. Qed.

(** With [x = 5] and [c = 0], [var a = x; x = 1; if (c) ... return a;]
    returns 5; the optimized body returns 1. *)
Lemma revival_changes_result :
  eval_body body_revived [("x", 5%Z); ("c", 0%Z)]
  = Some (Some 5%Z, [("x", 1%Z); ("c", 0%Z); ("a", 5%Z)])
  /\ eval_optimized 1 body_revived [("x", 5%Z); ("c", 0%Z)]
     = Some (Some 1%Z, [("x", 1%Z); ("c", 0%Z)]).
Proof. split; reflexivity. Qed.

(** ** Killing live bindings *)

Lemma mem_In x l : mem x l = true <-> In x l.
Proof.
  unfold mem. rewrite existsb_exists. split.
  - intros [y [Hy E]]. apply String.eqb_eq in E. now subst.
  - intros H. exists x. split; auto. apply String.eqb_refl.
Qed.

Lemma mem_keys_has {V : Type} x (o : obj V) : mem x (keys o) = has x o.
Proof.
  destruct (has x o) eqn:E.
  - apply mem_In, has_In, E.
  - destruct (mem x (keys o)) eqn:E'; auto.
    apply mem_In, has_In in E'. congruence.
Qed.

(** Setting to [false] the keys among [ks] that satisfy [cond]. *)
Lemma kill_fold_test (cond : string -> bool) v ks : forall live,
  test v (fold_left (fun live k => if cond k then set k false live else live)
            ks live)
  = test v live && negb (cond v && mem v ks).
Proof.
  induction ks as [|k ks IH]; intros live; simpl.
  - now rewrite andb_false_r, andb_true_r.
  - rewrite IH. destruct (cond k) eqn:Ck.
    + rewrite test_set. destruct (k =? v) eqn:E.
      * apply String.eqb_eq in E. subst k.
        rewrite String.eqb_refl, Ck. simpl. now rewrite andb_false_r.
      * rewrite String.eqb_sym, E. reflexivity.
    + destruct (v =? k) eqn:E; auto.
      apply String.eqb_eq in E. subst k. rewrite Ck. reflexivity.
Qed.

Lemma kill_fold_keys (cond : string -> bool) ks : forall live,
  (forall k, In k ks -> In k (keys live)) ->
  keys (fold_left (fun live k => if cond k then set k false live else live)
          ks live)
  = keys live.
Proof.
  induction ks as [|k ks IH]; intros live Hks; simpl; auto.
  assert (has k live = true) as Hk by (apply has_In, Hks; now left).
  destruct (cond k).
  - rewrite IH; rewrite keys_set, Hk; auto.
    intros k' Hk'. apply Hks. now right.
  - apply IH. intros k' Hk'. apply Hks. now right.
Qed.

(** After [kill_if], a binding is live when it was and [cond] spares it. *)
Lemma kill_if_test cond v live :
  test v (kill_if cond live) = test v live && negb (cond v).
Proof.
  unfold kill_if. rewrite kill_fold_test, mem_keys_has.
  destruct (test v live) eqn:E; auto.
  rewrite (test_has _ _ E), andb_true_r. reflexivity.
Qed.

Lemma kill_if_keys cond live : keys (kill_if cond live) = keys live.
Proof. unfold kill_if. apply kill_fold_keys. auto. Qed.

(** After [kill_all], a binding is live when it was and is not named. *)
Lemma kill_all_test names v live :
  test v (kill_all names live) = test v live && negb (mem v names).
Proof.
  unfold kill_all. revert live.
  induction names as [|k ks IH]; intros live; simpl.
  - now rewrite andb_true_r.
  - rewrite IH. destruct (test k live) eqn:Tk.
    + rewrite test_set. destruct (k =? v) eqn:E.
      * apply String.eqb_eq in E. subst k.
        rewrite String.eqb_refl. simpl. now rewrite andb_false_r.
      * rewrite String.eqb_sym, E. reflexivity.
    + destruct (v =? k) eqn:E; auto.
      apply String.eqb_eq in E. subst k. rewrite Tk. reflexivity.
Qed.

(** ** The names used in a statement *)

Lemma collectUsed_falsy n t s r s' :
  collectUsed n t s = Some (r, s') -> truthy r = false.
Proof.
  unfold collectUsed. destruct (t =? "name"); intros H; now inversion H.
Qed.

Lemma collectUsed_fold l : forall used,
  exists used',
    fold_left (call_on collectUsed) l (Some used) = Some used'
    /\ forall v,
         test v used'
         = test v used
           || mem v (map (fun n => to_key (sub n 1))
                       (filter (fun n => type_of n =? "name") l)).
Proof.
  induction l as [|n l IH]; intros used; simpl.
  - exists used. split; auto. intros v. now rewrite orb_false_r.
  - unfold collectUsed at 2. destruct (type_of n =? "name").
    + destruct (IH (set (to_key (sub n 1)) true used)) as [u' [H1 H2]].
      exists u'. split; auto. intros v. rewrite H2, test_set. simpl.
      rewrite (String.eqb_sym v).
      destruct (to_key (sub n 1) =? v); simpl; auto.
      now rewrite orb_true_r.
    + destruct (IH used) as [u' [H1 H2]]. exists u'. split; auto.
Qed.

(** The walk that fills [usedInThisStatement] ends, and marks the names
    of the [name] nodes it visits. *)
Lemma collectUsed_names node :
  elems node <> None ->
  exists used,
    traverse collectUsed node [] = Some (JUndef, node, used)
    /\ forall v, test v used = mem v (names_in node).
Proof.
  intros Hdef.
  rewrite (traverse_visits collectUsed collectUsed_falsy node Hdef).
  destruct (collectUsed_fold (visited node) []) as [used [H1 H2]].
  exists used. rewrite H1. split; auto.
Qed.

(** ** C2: control-flow nodes *)

Lemma CONTROL_FLOW_NODES_cases type :
  CONTROL_FLOW_NODES type = true ->
  type = "new" \/ type = "throw" \/ type = "call" \/ type = "label"
  \/ type = "debugger".
Proof.
  unfold CONTROL_FLOW_NODES. rewrite !orb_true_iff, !String.eqb_eq. tauto.
Qed.

(** C2 (counterexample): [a] is live, depends on no global and is the
    operand of [throw a]; the node kills it all the same, since names are
    collected for [assign] and [call] nodes only. *)
Lemma C2_throw_kills_its_operand :
  names_in (throw_ (name_ "a")) = ["a"]
  /\ test "a" (dependsOnAGlobal new_Eliminator) = false
  /\ test "a" [("a", true)] = true
  /\ option_map (fun r => test "a" (isLive (snd r)))
       (checkForMutations (throw_ (name_ "a")) "throw"
          (mkLive new_Eliminator [("a", true)])) = Some false.
Proof. repeat split; reflexivity. Qed.

(** C2 (amended): on a control-flow node the analyzer keeps the keys of
    [isLive], and a binding whose name is not the name of a member that
    every object inherits is live afterwards exactly when it was live,
    does not depend on a global, the node is a [call], and the binding is
    named inside the arguments [node.slice(2, 4)] of the call.  After a
    [new], [throw], [label] or [debugger] node no such binding is live. *)
Theorem C2_control_flow_node (node : jsval) (st : Live) :
  CONTROL_FLOW_NODES (type_of node) = true ->
  exists live',
    checkForMutations node (type_of node) st
    = Some (JUndef, mkLive (l_that st) live')
    /\ keys live' = keys (isLive st)
    /\ forall v,
         inherited v = false ->
         test v live'
         = test v (isLive st)
           && negb (test v (dependsOnAGlobal (l_that st)))
           && ((type_of node =? "call")
               && mem v (names_in (slice_2_4 node))).
Proof.
  intros Hcf.
  assert (exists l, node = JArr l) as [l ->].
  { destruct node as [| | | |s|l]; try (now exists l);
      apply CONTROL_FLOW_NODES_cases in Hcf;
      try destruct s as [|c s]; simpl in Hcf;
      decompose [or] Hcf; discriminate. }
  destruct (collectUsed_names (slice_2_4 (JArr l))) as [used [Hu1 Hu2]];
    [discriminate|].
  unfold checkForMutations. rewrite Hcf.
  destruct (CONTROL_FLOW_NODES_cases _ Hcf) as [E|[E|[E|[E|E]]]];
    rewrite E; cbn [String.eqb Ascii.eqb Bool.eqb orb andb];
    try rewrite Hu1;
    eexists; (split; [reflexivity|]); (split; [apply kill_if_keys|]);
    intros v _; rewrite kill_if_test; try rewrite Hu2;
    rewrite ?andb_false_r, ?andb_true_l; cbn [test get];
    destruct (test v (isLive st)); destruct (test v (dependsOnAGlobal _));
    cbn [andb orb negb]; auto; now destruct (mem v _).
Qed.

(** C2 (witness): [f(a)] with [a] live. *)
Lemma C2_control_flow_node_witness :
  exists live',
    checkForMutations (call_ (name_ "f") [name_ "a"]) "call"
      (mkLive new_Eliminator [("a", true)])
    = Some (JUndef, mkLive new_Eliminator live')
    /\ keys live' = ["a"]
    /\ forall v,
         inherited v = false ->
         test v live'
         = test v [("a", true)]
           && negb (test v (dependsOnAGlobal new_Eliminator))
           && (("call" =? "call")
               && mem v (names_in
                           (slice_2_4 (call_ (name_ "f") [name_ "a"])))).
Proof.
  exact (C2_control_flow_node (call_ (name_ "f") [name_ "a"])
           (mkLive new_Eliminator [("a", true)]) eq_refl).
Defined.

(** ** C10: assignments through a subscript *)




(** ** The live-range analyzer *)

Lemma analyzeBlock_eq node type st :
  analyzeBlock node type st =
  if ANALYZE_BLOCK_TYPES type then
    match node with
    | JArr l =>
        if type =? "switch" then
          match l with
          | _ :: node1 :: node2 :: _ =>
              match traverseChild node1 st with
              | Some st1 =>
                  match node2 with
                  | JArr cases =>
                      match forEach_traverseChild cases st1 with
                      | Some st2 => Some (node, st2)
                      | None => None
                      end
                  | JUndef | JNull => None
                  | _ => Some (node, st1)
                  end
              | None => None
              end
          | _ => None
          end
        else if (type =? "if") || (type =? "try") then
          match forEach_traverseChild l st with
          | Some st' => Some (node, st')
          | None => None
          end
        else
          match forEach_traverseChild l (mkLive (l_that st) []) with
          | Some st' => Some (node, mkLive (l_that st') [])
          | None => None
          end
    | _ => None
    end
  else if type =? "var" then
    match elems (sub node 1) with
    | Some node1 =>
        match analyzeDeclarations node1 st with
        | Some st' => Some (node, st')
        | None => None
        end
    | None => None
    end
  else checkForMutations node type st.
Proof.
  destruct node; reflexivity.
Qed.

Ltac break_in H :=
  repeat match type of H with
         | context [match ?x with _ => _ end] => destruct x eqn:?
         end;
  try discriminate H.

Lemma live_frame_refl that : live_frame that that.
Proof. unfold live_frame. intuition. Qed.

Lemma live_frame_trans a b c :
  live_frame a b -> live_frame b c -> live_frame a c.
Proof.
  unfold live_frame. intros H1 H2.
  decompose [and] H1. decompose [and] H2. clear H1 H2.
  repeat split; try congruence. auto.
Qed.

Lemma checkForMutations_frame node type st r st' :
  checkForMutations node type st = Some (r, st') ->
  live_frame (l_that st) (l_that st').
Proof.
  unfold checkForMutations. intros H. break_in H;
    inversion H; subst; cbn [l_that]; try apply live_frame_refl.
  unfold live_frame; cbn.
  repeat split; auto. intros x Hx. rewrite test_set.
  destruct (_ =? x); auto.
Qed.

Lemma traverse_checkForMutations_frame that0 node st r n' st' :
  traverse checkForMutations node st = Some (r, n', st') ->
  live_frame that0 (l_that st) -> live_frame that0 (l_that st').
Proof.
  apply (traverse_invariant checkForMutations
           (fun s => live_frame that0 (l_that s))).
  intros n t s r0 s' H Hs.
  eapply live_frame_trans; [exact Hs|].
  eapply checkForMutations_frame; eauto.
Qed.

Lemma analyzeDeclarations_frame that0 node1 : forall st st',
  analyzeDeclarations node1 st = Some st' ->
  live_frame that0 (l_that st) -> live_frame that0 (l_that st').
Proof.
  induction node1 as [|d rest IH]; intros st st' H Hs; simpl in H.
  - now inversion H; subst.
  - destruct (analyzeDeclaration d st) as [st1|] eqn:Hd; [|discriminate].
    apply (IH _ _ H). clear H IH.
    unfold analyzeDeclaration in Hd.
    destruct (idx d 0); [|discriminate]. destruct (idx d 1); [|discriminate].
    destruct (truthy j0).
    + destruct (traverse checkForMutations j0 st) as [[[r n'] s1]|] eqn:Ht;
        [|discriminate].
      inversion Hd; subst; cbn [l_that].
      eapply traverse_checkForMutations_frame; eauto.
    + inversion Hd; subst; cbn [l_that]. exact Hs.
Qed.

Section AnalyzeBlock_frame.
Variable that0 : Eliminator.

Let kept (st : Live) : Prop := live_frame that0 (l_that st).

Let walk_keeps (node : jsval) : Prop :=
  forall st r n' st',
    traverse analyzeBlock node st = Some (r, n', st') ->
    kept st -> kept st'.

Lemma traverseChild_frame child :
  walk_keeps child ->
  forall st st', traverseChild child st = Some st' -> kept st -> kept st'.
Proof.
  intros Hw st st'. unfold traverseChild, traverseChild_with.
  destruct (is_subnode child); [|intros H; now inversion H; subst].
  destruct (traverse analyzeBlock child st) as [[[r n'] s1]|] eqn:Ht;
    [|discriminate].
  intros H Hs; inversion H; subst. unfold kept; cbn [l_that].
  eapply Hw; eauto.
Qed.

Lemma forEach_traverseChild_frame children :
  Forall walk_keeps children ->
  forall st st',
    forEach_traverseChild children st = Some st' -> kept st -> kept st'.
Proof.
  induction 1 as [|c rest Hc _ IH]; intros st st' H Hs; simpl in H.
  - now inversion H; subst.
  - destruct (traverseChild c st) as [s1|] eqn:E; [|discriminate].
    eapply IH; eauto. eapply traverseChild_frame; eauto.
Qed.

Lemma analyzeBlock_nonblock_frame node type st r st' :
  ANALYZE_BLOCK_TYPES type = false ->
  analyzeBlock node type st = Some (r, st') -> kept st -> kept st'.
Proof.
  intros Hb. rewrite analyzeBlock_eq, Hb. intros H Hs.
  destruct (type =? "var").
  - destruct (elems (sub node 1)) as [node1|]; [|discriminate].
    destruct (analyzeDeclarations node1 st) as [s1|] eqn:E;
      [|discriminate].
    inversion H; subst. eapply analyzeDeclarations_frame; eauto.
  - eapply checkForMutations_frame in H.
    eapply live_frame_trans; eauto.
Qed.

Lemma analyzeBlock_leaf_frame node type st r st' :
  (forall l, node <> JArr l) ->
  analyzeBlock node type st = Some (r, st') -> kept st -> kept st'.
Proof.
  intros Hleaf. destruct (ANALYZE_BLOCK_TYPES type) eqn:Hb.
  - rewrite analyzeBlock_eq, Hb.
    destruct node; try discriminate. now elim (Hleaf l).
  - now apply analyzeBlock_nonblock_frame.
Qed.

Lemma analyzeBlock_frame_all node :
  (forall type st r st',
      analyzeBlock node type st = Some (r, st') -> kept st -> kept st')
  /\ walk_keeps node
  /\ (forall l, node = JArr l -> Forall walk_keeps l).
Proof.
  induction node as [| | | |str|l IH] using jsval_tree_ind.
  1-5: split; [intros type st r st';
               apply analyzeBlock_leaf_frame; discriminate|];
    (split; [|discriminate]).
  1-4: intros st r n' st'; simpl; congruence.
  - intros st r n' st'. destruct str as [|c str]; cbn [traverse];
      [congruence|].
    destruct (analyzeBlock (JStr (String c str)) (String c "") st)
      as [[res s1]|] eqn:E; [|discriminate].
    intros H Hs; inversion H; subst.
    eapply analyzeBlock_leaf_frame; eauto. discriminate.
  - assert (Forall walk_keeps l) as Hl.
    { eapply Forall_impl; [|exact IH]. intros a Ha. apply Ha. }
    assert (forall type st r st',
               analyzeBlock (JArr l) type st = Some (r, st') ->
               kept st -> kept st') as Hcb.
    { intros type st r st'. rewrite analyzeBlock_eq. intros H Hs.
      destruct (ANALYZE_BLOCK_TYPES type).
      - destruct (type =? "switch").
        + destruct l as [|x0 [|node1 [|node2 rest]]]; try discriminate.
          destruct (traverseChild node1 st) as [st1|] eqn:E1;
            [|discriminate].
          assert (kept st1) as Hs1.
          { eapply traverseChild_frame; eauto.
            inversion Hl as [|? ? _ Hl']; subst.
            now inversion Hl'; subst. }
          destruct node2 as [| | | | |cases]; try discriminate;
            try (now inversion H; subst).
          destruct (forEach_traverseChild cases st1) as [st2|] eqn:E2;
            [|discriminate].
          inversion H; subst.
          eapply (forEach_traverseChild_frame cases);
            [|exact E2|exact Hs1].
          inversion IH as [|? ? _ IH']; subst.
          inversion IH' as [|? ? _ IH'']; subst.
          inversion IH'' as [|? ? Hn2 _]; subst.
          destruct Hn2 as [_ [_ Hn2]]. now apply Hn2.
        + destruct ((type =? "if") || (type =? "try")).
          * destruct (forEach_traverseChild l st) as [s1|] eqn:E;
              [|discriminate].
            inversion H; subst.
            eapply forEach_traverseChild_frame; eauto.
          * destruct (forEach_traverseChild l (mkLive (l_that st) []))
              as [s1|] eqn:E; [|discriminate].
            inversion H; subst. unfold kept; cbn [l_that].
            eapply (forEach_traverseChild_frame l Hl _ _ E). exact Hs.
      - destruct (type =? "var").
        + destruct (elems (sub (JArr l) 1)) as [node1|]; [|discriminate].
          destruct (analyzeDeclarations node1 st) as [s1|] eqn:E;
            [|discriminate].
          inversion H; subst. eapply analyzeDeclarations_frame; eauto.
        + eapply checkForMutations_frame in H.
          eapply live_frame_trans; eauto. }
    split; [exact Hcb|]. split; [|intros l' E; now inversion E; subst].
    intros st r n' st'. rewrite traverse_JArr.
    destruct (match at_ l 0 with JStr t => _ | _ => _ end)
      as [[res s1]|] eqn:E; [|discriminate].
    assert (kept st -> kept s1) as H1.
    { destruct (at_ l 0); try (inversion E; subst; now auto). eauto. }
    destruct (truthy res); [intros H; inversion H; subst; auto|].
    generalize (at_ l 0) as type. intros type.
    destruct (traverse_children analyzeBlock type l s1)
      as [[[r0 l0] s0]|] eqn:Hc; [|discriminate].
    intros H Hs; inversion H; subst. apply H1 in Hs.
    clear H H1 E Hcb IH. revert s1 r l0 st' Hc Hs.
    induction Hl as [|x rest Hx _ IHrest]; intros s1 r l0 st' Hc Hs;
      simpl in Hc.
    * now inversion Hc; subst.
    * destruct (is_subnode x && _).
      -- destruct (traverse analyzeBlock x s1) as [[[sr sn] s2]|] eqn:Hx';
           [|discriminate].
         destruct (is_false sr).
         ++ inversion Hc; subst. eauto.
         ++ destruct (traverse_children analyzeBlock type rest s2)
              as [[[r1 l1] s3]|] eqn:Hr; [|discriminate].
            inversion Hc; subst. eapply IHrest; eauto.
      -- destruct (traverse_children analyzeBlock type rest s1)
           as [[[r1 l1] s3]|] eqn:Hr; [|discriminate].
         inversion Hc; subst. eapply IHrest; eauto.
Qed.
End AnalyzeBlock_frame.

(** ** C4: loops *)


(** C4 (defect): in [body_loop] the variable [a] is declared before the
    function, and used inside the [while] loop of the function.  The
    analyzer walks the initial value of [f] with [checkForMutations],
    which does nothing at a loop: [a] is live when the walk comes to the
    loop and still live at [g(a)], [depsMutatedInLiveRange] is not set
    for it, and [run] puts [y + 1] for [a] inside the loop, where
    [y = 5] changes what it yields from the second turn on. *)
Theorem C4_inlined_into_a_loop :
  option_map (fun that => test "a" (depsMutatedInLiveRange that))
    (analyze body_loop)
  = Some false
  /\ run 1 body_loop = Some (1%Z, body_loop_inlined).
Proof. split; reflexivity. Qed.


(** ** What each pass leaves alone *)

Lemma fold_left_keeps {A B : Type} (P : A -> Prop) (f : A -> B -> A) l :
  (forall a b, P a -> P (f a b)) ->
  forall a, P a -> P (fold_left f l a).
Proof.
  intros Hf. induction l as [|b l IH]; intros a Ha; simpl; auto.
Qed.

Lemma deps_frame_refl that : deps_frame that that.
Proof. unfold deps_frame. intuition. Qed.

Lemma deps_frame_trans a b c :
  deps_frame a b -> deps_frame b c -> deps_frame a c.
Proof.
  unfold deps_frame. intros H1 H2.
  decompose [and] H1. decompose [and] H2. clear H1 H2.
  repeat split; congruence.
Qed.

Lemma declare_all_NoDup node1 : forall that that',
  declare_all node1 that = Some that' ->
  NoDup (keys (isSingleDef that)) -> NoDup (keys (isSingleDef that')).
Proof.
  induction node1 as [|d rest IH]; intros that that' H Hn; simpl in H.
  - now inversion H; subst.
  - destruct (declare d that) as [that1|] eqn:Hd; [|discriminate].
    apply (IH _ _ H). unfold declare in Hd.
    destruct (idx d 0); [|discriminate]. destruct (idx d 1); [|discriminate].
    inversion Hd; subst; cbn [isSingleDef]. now apply NoDup_keys_set.
Qed.

Lemma basicVarStats_NoDup n t that r that' :
  basicVarStats n t that = Some (r, that') ->
  NoDup (keys (isSingleDef that)) -> NoDup (keys (isSingleDef that')).
Proof.
  unfold basicVarStats. intros H Hn. break_in H; inversion H; subst;
    cbn [isSingleDef with_isSingleDef with_useCount]; auto;
    try (now apply NoDup_keys_set).
  eapply declare_all_NoDup; eauto.
Qed.

Lemma calculateBasicVarStats_NoDup body that that' :
  calculateBasicVarStats body that = Some that' ->
  NoDup (keys (isSingleDef that)) -> NoDup (keys (isSingleDef that')).
Proof.
  unfold calculateBasicVarStats.
  destruct (traverse basicVarStats body that) as [[[r n'] s]|] eqn:E;
    [|discriminate].
  intros H; inversion H; subst.
  eapply (traverse_invariant basicVarStats
            (fun s => NoDup (keys (isSingleDef s)))); eauto.
  intros. eapply basicVarStats_NoDup; eauto.
Qed.

Lemma initialValueNode_frame varName n t that r that' :
  initialValueNode varName n t that = Some (r, that') ->
  deps_frame that that'.
Proof.
  unfold initialValueNode. intros H. break_in H; inversion H; subst;
    unfold deps_frame; cbn; intuition.
Qed.

Lemma analyzeInitialValues_loop_frame names : forall that that',
  analyzeInitialValues_loop names that = Some that' ->
  deps_frame that that'.
Proof.
  induction names as [|v rest IH]; intros that that' H; simpl in H.
  - inversion H; subst. apply deps_frame_refl.
  - destruct (analyzeInitialValue v that) as [that1|] eqn:Hv;
      [|discriminate].
    eapply deps_frame_trans; [|eapply IH; eauto].
    unfold analyzeInitialValue in Hv.
    destruct (negb (test v (isSingleDef that)));
      [inversion Hv; subst; apply deps_frame_refl|].
    destruct (get v _) as [value|]; [|discriminate].
    destruct (traverse _ value _) as [[[r n'] s]|] eqn:Ht; [|discriminate].
    inversion Hv; subst.
    eapply (traverse_invariant (initialValueNode v)
              (fun s => deps_frame that s)); eauto.
    + intros n t s0 r0 s' Hcb Hs.
      eapply deps_frame_trans; [exact Hs|].
      eapply initialValueNode_frame; eauto.
    + unfold deps_frame; cbn; intuition.
Qed.

Lemma addTarget_frame that0 source target2 c :
  deps_frame that0 (c_that c) ->
  deps_frame that0 (c_that (addTarget source target2 c)).
Proof.
  unfold addTarget. intros H.
  destruct (negb (lookup target2 _)); auto.
  destruct (negb (lookup source _)); unfold deps_frame in *; cbn; exact H.
Qed.

Lemma expandSource_frame that0 todo c source :
  deps_frame that0 (c_that c) ->
  deps_frame that0 (c_that (expandSource todo c source)).
Proof.
  unfold expandSource.
  apply (fold_left_keeps (fun c => deps_frame that0 (c_that c))).
  intros c1 target H1. unfold expandTarget.
  destruct (lookup target todo); auto.
  apply (fold_left_keeps (fun c => deps_frame that0 (c_that c))); auto.
  intros c2 target2. apply addTarget_frame.
Qed.

Lemma closureRound_frame todo that :
  deps_frame that (c_that (closureRound todo that)).
Proof.
  unfold closureRound.
  apply (fold_left_keeps (fun c => deps_frame that (c_that c))).
  - intros c source. apply expandSource_frame.
  - apply deps_frame_refl.
Qed.

Lemma closureLoop_frame fuel : forall todo that that',
  closureLoop fuel todo that = Some that' -> deps_frame that that'.
Proof.
  induction fuel as [|fuel IH]; intros todo that that' H; simpl in H;
    [discriminate|].
  destruct (incomplete (closureRound todo that)).
  - eapply deps_frame_trans; [apply closureRound_frame|]. eapply IH; eauto.
  - inversion H; subst. apply closureRound_frame.
Qed.

Lemma addTarget_own_frame that0 source target2 c :
  deps_frame that0 (c_that c) ->
  deps_frame that0 (c_that (addTarget_own source target2 c)).
Proof.
  unfold addTarget_own. intros H.
  destruct (negb (test target2 _)); auto.
  destruct (negb (test source _)); unfold deps_frame in *; cbn; exact H.
Qed.

Lemma expandSource_own_frame that0 todo c source :
  deps_frame that0 (c_that c) ->
  deps_frame that0 (c_that (expandSource_own todo c source)).
Proof.
  unfold expandSource_own.
  apply (fold_left_keeps (fun c => deps_frame that0 (c_that c))).
  intros c1 target H1. unfold expandTarget_own.
  destruct (test target todo); auto.
  apply (fold_left_keeps (fun c => deps_frame that0 (c_that c))); auto.
  intros c2 target2. apply addTarget_own_frame.
Qed.

Lemma closureRound_own_frame todo that :
  deps_frame that (c_that (closureRound_own todo that)).
Proof.
  unfold closureRound_own.
  apply (fold_left_keeps (fun c => deps_frame that (c_that c))).
  - intros c source. apply expandSource_own_frame.
  - apply deps_frame_refl.
Qed.

Lemma closureLoop_own_frame fuel : forall todo that that',
  closureLoop_own fuel todo that = Some that' -> deps_frame that that'.
Proof.
  induction fuel as [|fuel IH]; intros todo that that' H; simpl in H;
    [discriminate|].
  destruct (incomplete (closureRound_own todo that)).
  - eapply deps_frame_trans; [apply closureRound_own_frame|]. eapply IH; eauto.
  - inversion H; subst. apply closureRound_own_frame.
Qed.

Lemma analyzeLiveRanges_frame body that that' :
  analyzeLiveRanges body that = Some that' -> live_frame that that'.
Proof.
  unfold analyzeLiveRanges.
  destruct (traverse analyzeBlock body _) as [[[r n'] st]|] eqn:E;
    [|discriminate].
  intros H; inversion H; subst.
  destruct (analyzeBlock_frame_all that body) as [_ [Hw _]].
  apply (Hw _ _ _ _ E). apply live_frame_refl.
Qed.

(** The tables of [analyze] name every variable once. *)
Lemma analyze_NoDup body that :
  analyze body = Some that -> NoDup (keys (isSingleDef that)).
Proof.
  unfold analyze.
  destruct (calculateBasicVarStats body new_Eliminator) as [that1|] eqn:E1;
    [|discriminate].
  destruct (analyzeInitialValues that1) as [that2|] eqn:E2; [|discriminate].
  destruct (calculateTransitiveDependencies that2) as [that3|] eqn:E3;
    [|discriminate].
  intros E4.
  apply calculateBasicVarStats_NoDup in E1; [|constructor].
  apply analyzeInitialValues_loop_frame in E2.
  apply closureLoop_frame in E3.
  apply analyzeLiveRanges_frame in E4.
  destruct E2 as [_ [E2 _]]. destruct E3 as [_ [E3 _]].
  destruct E4 as [_ [E4 _]]. congruence.
Qed.

(** ** C3: the bindings that are eliminated *)

Lemma isEliminateable_iff that v :
  isEliminateable that v = true <-> eliminable that v.
Proof.
  unfold isEliminateable, eliminable, MAX_USES.
  destruct (test v (isSingleDef that)); cbn [andb];
    [|split; [discriminate | intros [H _]; discriminate]].
  destruct (test v (usesOnlySimpleNodes that));
    [|split; [discriminate | intros [_ [H _]]; discriminate]].
  destruct (get v (useCount that)) as [n|].
  - destruct (n =? 0)%Z eqn:E0.
    + apply Z.eqb_eq in E0. subst. intuition.
    + apply Z.eqb_neq in E0. destruct (n <=? 1)%Z eqn:E1.
      * apply Z.leb_le in E1.
        destruct (test v (depsMutatedInLiveRange that)); cbn [negb].
        -- split; [discriminate|]. intros [_ [_ [H|[m [H [_ H']]]]]];
             [congruence | discriminate].
        -- split; auto. intros _. repeat split; auto.
           right. exists n. auto.
      * apply Z.leb_gt in E1.
        split; [discriminate|]. intros [_ [_ [H|[m [H [H' _]]]]]];
          inversion H; subst; lia.
  - split; [discriminate|]. intros [_ [_ [H|[m [H _]]]]]; discriminate.
Qed.

Lemma selectEliminated_fold that ks : forall acc,
  NoDup ks ->
  (forall k, In k ks -> ~ In k (keys (fst acc))) ->
  let r :=
    fold_left
      (fun acc varName =>
         if isEliminateable that varName then
           (set varName
              (match get varName (initialValue that) with
               | Some v => v
               | None => JUndef
               end) (fst acc),
            (snd acc + 1)%Z)
         else acc) ks acc in
  keys (fst r) = keys (fst acc) ++ filter (isEliminateable that) ks
  /\ snd r
     = (snd acc + Z.of_nat (length (filter (isEliminateable that) ks)))%Z.
Proof.
  induction ks as [|k ks IH]; intros acc Hnd Hfresh; cbn zeta.
  - simpl. rewrite app_nil_r. split; auto. lia.
  - inversion Hnd as [|? ? Hk Hnd']; subst.
    cbn [fold_left filter]. destruct (isEliminateable that k).
    + match goal with
      | |- context [fold_left _ ks ?a] => destruct (IH a Hnd') as [H1 H2]
      end.
      * intros k' Hk'. cbn [fst]. rewrite In_keys_set.
        intros [->|H]; [contradiction|].
        apply (Hfresh k'); [now right | exact H].
      * rewrite H1, H2. cbn [fst snd length].
        rewrite keys_set.
        assert (has k (fst acc) = false) as ->.
        { destruct (has k (fst acc)) eqn:E; auto.
          apply has_In in E. elim (Hfresh k); [now left | exact E]. }
        rewrite <- app_assoc. split; [reflexivity | lia].
    + apply IH; auto. intros k' Hk'. apply Hfresh. now right.
Qed.

(** [run] counts the names it puts into [toReplace]. *)
Lemma selectEliminated_spec that :
  NoDup (keys (isSingleDef that)) ->
  keys (fst (selectEliminated that))
  = filter (isEliminateable that) (keys (isSingleDef that))
  /\ snd (selectEliminated that)
     = Z.of_nat (length (keys (fst (selectEliminated that)))).
Proof.
  intros Hnd. unfold selectEliminated.
  destruct (selectEliminated_fold that (keys (isSingleDef that)) ([], 0%Z)
              Hnd) as [H1 H2]; [intros k _ []|].
  cbn zeta in H1, H2. rewrite H1, H2. cbn [fst snd keys map app].
  split; [reflexivity | lia].
Qed.

(** C3 (defect): in [var f = function () { var a = 1; };] the variable
    [a] is single-def, its initial value is a literal and it is never
    used: [isEliminateable] accepts it, and [run] puts it into [toReplace]
    and returns 1.  Yet [removeDeclarations] answers the [var] node of
    [f] to the walker, which then does not go into that node: the
    declaration of [a] is never reached, and [run] leaves the body as it
    was. *)
Theorem C3_counted_but_not_removed :
  option_map
    (fun that => (isEliminateable that "a", isEliminateable that "f"))
    (analyze body_nested)
  = Some (true, false)
  /\ option_map (fun that => keys (fst (selectEliminated that)))
       (analyze body_nested)
     = Some ["a"]
  /\ run 1 body_nested = Some (1%Z, body_nested).
Proof. repeat split; reflexivity. Qed.

(** ** C9: the expression optimizer *)

Lemma chainNode_falsy n t s r s' :
  chainNode n t s = Some (r, s') -> truthy r = false.
Proof.
  unfold chainNode. intros H. break_in H; now inversion H.
Qed.

(** The inner walk over the tree of a chain gathers its names, adds its
    literals and never fails. *)
Lemma traverse_chain c : forall st,
  traverse chainNode (chain_js c) st
  = Some (JUndef, chain_js c,
          mkChain (names st ++ map JStr (chain_names c))
            (num st + chain_sum c)%Z
            (has_num st || chain_has_literal c) (fail st) (odd st)).
Proof.
  induction c as [n|x|a IHa b IHb]; intros [ns k h f o].
  - cbn. now rewrite app_nil_r, orb_true_r.
  - cbn. now rewrite Z.add_0_r, orb_false_r.
  - change (chain_js (Plus a b))
      with (JArr [JStr "binary"; JStr "+"; chain_js a; chain_js b]).
    rewrite traverse_JArr.
    cbn [at_ nth chainNode String.eqb Ascii.eqb Bool.eqb sub elems loose_eq
           negb truthy traverse_children is_subnode andb].
    assert (forall c', is_subnode (chain_js c') = true) as Hsub
        by (now destruct c').
    rewrite !Hsub. cbn [andb negb].
    rewrite IHa. cbn [is_false truthy names num has_num fail odd].
    rewrite IHb. cbn [is_false truthy names num has_num fail odd
                        chain_names chain_sum chain_has_literal].
    now rewrite map_app, !app_assoc, Z.add_assoc, orb_assoc.
Qed.

Lemma rebuild_right_nested xs : forall n ys,
  rebuild (map JStr xs) (right_nested ys n)
  = right_nested (rev xs ++ ys) n.
Proof.
  unfold rebuild. induction xs as [|x xs IH]; intros n ys; simpl; auto.
  change (JArr [JStr "binary"; JStr "+"; JArr [JStr "name"; JStr x];
                right_nested ys n])
    with (right_nested (x :: ys) n).
  rewrite IH. now rewrite <- app_assoc.
Qed.

(** The outer callback on the tree of a chain. *)
Lemma foldAddition_chain a b :
  foldAddition (chain_js (Plus a b)) "binary" tt
  = Some (if chain_has_literal (Plus a b)
          then right_nested (rev (chain_names (Plus a b)))
                 (chain_sum (Plus a b))
          else JUndef, tt).
Proof.
  unfold foldAddition.
  cbn [chain_js plus_ String.eqb Ascii.eqb Bool.eqb sub elems at_ nth
         loose_eq andb].
  change (plus_ (chain_js a) (chain_js b)) with (chain_js (Plus a b)).
  rewrite traverse_chain.
  cbn [fail has_num names num odd negb andb orb app].
  destruct (chain_has_literal (Plus a b)); auto.
  change (JArr [JStr "num"; JNum (0 + chain_sum (Plus a b))])
    with (right_nested [] (0 + chain_sum (Plus a b))).
  now rewrite rebuild_right_nested, app_nil_r.
Qed.

(** A chain without a literal is walked and left as it is. *)
Lemma traverse_foldAddition_no_literal c :
  chain_has_literal c = false ->
  traverse foldAddition (chain_js c) tt = Some (JUndef, chain_js c, tt).
Proof.
  induction c as [n|x|a IHa b IHb]; intros Hc; try discriminate.
  - reflexivity.
  - cbn [chain_has_literal] in Hc. apply orb_false_iff in Hc.
    destruct Hc as [Ha Hb].
    change (chain_js (Plus a b))
      with (JArr [JStr "binary"; JStr "+"; chain_js a; chain_js b]).
    rewrite traverse_JArr. cbn [at_ nth].
    change (JArr [JStr "binary"; JStr "+"; chain_js a; chain_js b])
      with (chain_js (Plus a b)).
    rewrite foldAddition_chain. cbn [chain_has_literal].
    rewrite Ha, Hb. cbn [orb truthy traverse_children is_subnode andb].
    assert (forall c', is_subnode (chain_js c') = true) as Hsub
        by (now destruct c').
    rewrite !Hsub.
    cbn [loose_eq String.eqb Ascii.eqb Bool.eqb andb negb].
    rewrite (IHa Ha). cbn [is_false truthy].
    rewrite (IHb Hb). reflexivity.
Qed.

Lemma chainNode_fail_sticky l : forall st st',
  fold_left (call_on chainNode) l (Some st) = Some st' ->
  fail st = true -> fail st' = true.
Proof.
  induction l as [|n l IH]; intros st st' H Hf; simpl in H.
  - now inversion H; subst.
  - destruct (chainNode n (type_of n) st) as [[r s1]|] eqn:E;
      [|now rewrite call_on_None in H].
    apply (IH _ _ H). unfold chainNode in E.
    break_in E; inversion E; subst; auto.
Qed.

Lemma chainNode_fail l bad : forall st st',
  In bad l -> disallowed bad = true ->
  fold_left (call_on chainNode) l (Some st) = Some st' ->
  fail st' = true.
Proof.
  induction l as [|n l IH]; intros st st' Hin Hbad H; [contradiction|].
  simpl in H.
  destruct (chainNode n (type_of n) st) as [[r s1]|] eqn:E;
    [|now rewrite call_on_None in H].
  destruct Hin as [->|Hin]; [|eapply IH; eauto].
  apply (chainNode_fail_sticky _ _ _ H).
  unfold chainNode in E. unfold disallowed in Hbad.
  destruct (type_of bad =? "binary").
  - rewrite Hbad in E. now inversion E.
  - apply negb_true_iff, orb_false_iff in Hbad. destruct Hbad as [E1 E2].
    rewrite E1, E2 in E. now inversion E.
Qed.

(** The inner callback never throws. *)
Lemma chainNode_returns l : forall st,
  exists st', fold_left (call_on chainNode) l (Some st) = Some st'.
Proof.
  induction l as [|n l IH]; intros st; simpl; [now exists st|].
  assert (exists r s1, chainNode n (type_of n) st = Some (r, s1))
    as [r [s1 E]].
  { unfold chainNode.
    destruct (type_of n =? "binary");
      [destruct (negb (loose_eq (sub n 1) "+")); eauto|].
    destruct (type_of n =? "name"); eauto.
    destruct (type_of n =? "num"); eauto.
    destruct (sub n 1); eauto. }
  rewrite E. apply IH.
Qed.

Lemma truthy_right_nested xs n : truthy (right_nested xs n) = true.
Proof. now destruct xs. Qed.

Lemma visited_defined node bad : In bad (visited node) -> elems node <> None.
Proof. destruct node; simpl; try contradiction; discriminate. Qed.

(** A chain as a statement. *)
Lemma fold_additions_chain a b :
  fold_additions (stat_ (chain_js (Plus a b)))
  = Some (stat_ (if chain_has_literal (Plus a b)
                 then right_nested (rev (chain_names (Plus a b)))
                        (chain_sum (Plus a b))
                 else chain_js (Plus a b))).
Proof.
  unfold fold_additions, stat_.
  rewrite traverse_JArr.
  cbn [at_ nth foldAddition String.eqb Ascii.eqb Bool.eqb andb truthy
         traverse_children is_subnode].
  assert (is_subnode (chain_js (Plus a b)) = true) as -> by reflexivity.
  cbn [loose_eq String.eqb Ascii.eqb Bool.eqb andb negb].
  destruct (chain_has_literal (Plus a b)) eqn:Hl.
  + change (chain_js (Plus a b))
      with (JArr [JStr "binary"; JStr "+"; chain_js a; chain_js b])
      at 1.
    rewrite traverse_JArr. cbn [at_ nth].
    change (JArr [JStr "binary"; JStr "+"; chain_js a; chain_js b])
      with (chain_js (Plus a b)).
    rewrite foldAddition_chain, Hl, truthy_right_nested.
    assert (is_false (right_nested (rev (chain_names (Plus a b)))
                        (chain_sum (Plus a b))) = false) as ->
        by (now destruct (rev (chain_names (Plus a b)))).
    now rewrite truthy_right_nested.
  + now rewrite (traverse_foldAddition_no_literal _ Hl).
Qed.

(** C9 (counterexample): [1 + 2 + x] becomes [x + 3], not [3 + x], and
    [x + 1 + y] becomes [y + (x + 1)]; and in [1 + 2 + f()], a chain with
    a call in it, the inner chain [1 + 2] is still folded. *)
Lemma C9_constant_on_the_right :
  fold_additions (stat_ (plus_ (plus_ (num_ 1) (num_ 2)) (name_ "x")))
  = Some (stat_ (plus_ (name_ "x") (num_ 3)))
  /\ plus_ (name_ "x") (num_ 3) <> plus_ (num_ 3) (name_ "x")
  /\ fold_additions (stat_ (plus_ (plus_ (name_ "x") (num_ 1)) (name_ "y")))
     = Some (stat_ (plus_ (name_ "y") (plus_ (name_ "x") (num_ 1))))
  /\ fold_additions
       (stat_ (plus_ (plus_ (num_ 1) (num_ 2)) (call_ (name_ "f") [])))
     = Some (stat_ (plus_ (num_ 3) (call_ (name_ "f") []))).
Proof. repeat split; try reflexivity. discriminate. Qed.

(** C9 (amended): on a [binary '+'] node that is a chain of additions
    over integer literals and names, whose literals the script adds
    without rounding (every literal and every sum on the way within
    2^53 of 0), the callback answers [undefined] when the chain has no
    literal, and otherwise the tree [xn + (... + (x1 + num))]: the
    additions nest to the right, the sum of the literals is the innermost
    right operand, and the names follow from the inside out in the order
    in which they were met.  In a statement the chain is replaced by that
    tree, or left as it is when it has no literal.  When the walk of a
    node meets a node that is not a [name], a [num] or a [binary '+'],
    the callback returns and asks for no replacement of the node
    itself. *)
Theorem C9_fold_additions :
  (forall a b,
      chain_exact (Plus a b) = true ->
      foldAddition (chain_js (Plus a b)) "binary" tt
      = Some (if chain_has_literal (Plus a b)
              then right_nested (rev (chain_names (Plus a b)))
                     (chain_sum (Plus a b))
              else JUndef, tt))
  /\ (forall a b,
         chain_exact (Plus a b) = true ->
         fold_additions (stat_ (chain_js (Plus a b)))
         = Some (stat_ (if chain_has_literal (Plus a b)
                        then right_nested (rev (chain_names (Plus a b)))
                               (chain_sum (Plus a b))
                        else chain_js (Plus a b))))
  /\ (forall node bad,
         In bad (visited node) ->
         disallowed bad = true ->
         foldAddition node (type_of node) tt = Some (JUndef, tt)).
Proof.
  split; [intros a b _; apply foldAddition_chain|]. split.
  - intros a b _. apply fold_additions_chain.
  - intros node bad Hin Hbad. unfold foldAddition.
    destruct ((type_of node =? "binary") && _); [|reflexivity].
    rewrite (traverse_visits chainNode chainNode_falsy node
               (visited_defined _ _ Hin)).
    destruct (chainNode_returns (visited node)
                (mkChain [] 0%Z false false false)) as [c E].
    rewrite E.
    rewrite (chainNode_fail _ _ _ _ Hin Hbad E). reflexivity.
Qed.

(** C9 on [1 + 2 + x], which becomes [x + 3], and on [1 + f()]: the call
    is met under the addition, and the callback asks for no replacement
    of the addition. *)
Lemma C9_fold_additions_witness :
  (chain_exact (Plus (Plus (Lit 1) (Lit 2)) (Name "x")) = true
   /\ foldAddition (plus_ (plus_ (num_ 1) (num_ 2)) (name_ "x")) "binary" tt
      = Some (plus_ (name_ "x") (num_ 3), tt))
  /\ In (call_ (name_ "f") [])
       (visited (plus_ (num_ 1) (call_ (name_ "f") [])))
  /\ disallowed (call_ (name_ "f") []) = true
  /\ foldAddition (plus_ (num_ 1) (call_ (name_ "f") []))
       (type_of (plus_ (num_ 1) (call_ (name_ "f") []))) tt
     = Some (JUndef, tt).
Proof.
  split; [split; [reflexivity|]|split; [|split; [reflexivity|]]].
  - exact (proj1 C9_fold_additions (Plus (Lit 1) (Lit 2)) (Name "x")
             eq_refl).
  - simpl. auto.
  - apply (proj2 (proj2 C9_fold_additions)
             (plus_ (num_ 1) (call_ (name_ "f") []))
             (call_ (name_ "f") [])).
    + simpl. auto.
    + reflexivity.
Defined.

(** ** The closure of the dependencies: one step *)

Lemma targets_of_set s T a that aff :
  affects that = set s T aff ->
  targets_of a that
  = if s =? a then T
    else match get a aff with Some t => t | None => [] end.
Proof.
  unfold targets_of. intros ->. rewrite get_set. now destruct (s =? a).
Qed.

Lemma addTarget_own_edge s w c a b :
  edgeb (c_that (addTarget_own s w c)) a b
  = edgeb (c_that c) a b || ((s =? a) && (w =? b)).
Proof.
  unfold addTarget_own. destruct (test w (targets_of s (c_that c))) eqn:Ew;
    cbn [negb].
  - destruct (s =? a) eqn:Es; [|now rewrite orb_false_r].
    destruct (w =? b) eqn:Eb; [|now rewrite orb_false_r].
    apply String.eqb_eq in Es, Eb. subst. unfold edgeb.
    now rewrite Ew.
  - unfold edgeb at 1. cbn [c_that].
    rewrite (targets_of_set s (set w true (targets_of s (c_that c))) a _
               (affects (c_that c)))
      by (destruct (negb (test s (isLocal (c_that c)))); reflexivity).
    destruct (s =? a) eqn:Es.
    + apply String.eqb_eq in Es. subst a. rewrite test_set.
      unfold edgeb. destruct (w =? b) eqn:Eb; [now rewrite orb_true_r|].
      now rewrite orb_false_r.
    + now rewrite orb_false_r.
Qed.

Lemma addTarget_own_keys s w c a :
  In a (keys (affects (c_that (addTarget_own s w c))))
  <-> In a (keys (affects (c_that c)))
      \/ (a = s /\ edgeb (c_that c) s w = false).
Proof.
  unfold addTarget_own, edgeb. destruct (test w (targets_of s (c_that c)));
    cbn [negb c_that].
  - intuition discriminate.
  - destruct (negb (test s (isLocal (c_that c))));
      cbn [affects with_affects with_dependsOnAGlobal];
      rewrite In_keys_set; intuition.
Qed.

Lemma addTarget_own_keys_eq s w c :
  In s (keys (affects (c_that c))) ->
  keys (affects (c_that (addTarget_own s w c))) = keys (affects (c_that c)).
Proof.
  intros Hs. unfold addTarget_own.
  destruct (test w (targets_of s (c_that c))); cbn [negb c_that]; auto.
  apply has_In in Hs.
  destruct (negb (test s (isLocal (c_that c))));
    cbn [affects with_affects with_dependsOnAGlobal];
    now rewrite keys_set, Hs.
Qed.

Lemma addTarget_own_targets_keys s w c a b :
  In b (keys (targets_of a (c_that (addTarget_own s w c))))
  <-> In b (keys (targets_of a (c_that c)))
      \/ (a = s /\ b = w /\ edgeb (c_that c) s w = false).
Proof.
  unfold addTarget_own, edgeb. destruct (test w (targets_of s (c_that c)));
    cbn [negb c_that].
  - intuition discriminate.
  - rewrite (targets_of_set s (set w true (targets_of s (c_that c))) a _
               (affects (c_that c)))
      by (destruct (negb (test s (isLocal (c_that c)))); reflexivity).
    destruct (s =? a) eqn:Es.
    + apply String.eqb_eq in Es. subst a. rewrite In_keys_set.
      intuition.
    + apply String.eqb_neq in Es. fold (targets_of a (c_that c)).
      intuition. congruence.
Qed.

Lemma addTarget_own_isLocal s w c :
  isLocal (c_that (addTarget_own s w c)) = isLocal (c_that c).
Proof.
  unfold addTarget_own. destruct (negb (test w _)); auto.
  now destruct (negb (test s _)).
Qed.

Lemma addTarget_own_dependsOnAGlobal s w c b :
  test b (dependsOnAGlobal (c_that (addTarget_own s w c)))
  = test b (dependsOnAGlobal (c_that c))
    || (negb (edgeb (c_that c) s w) && negb (test s (isLocal (c_that c)))
        && (w =? b)).
Proof.
  unfold addTarget_own, edgeb. destruct (test w (targets_of s (c_that c)));
    cbn [negb andb c_that]; [now rewrite orb_false_r|].
  destruct (test s (isLocal (c_that c))); cbn [negb andb];
    cbn [dependsOnAGlobal with_affects with_dependsOnAGlobal];
    [now rewrite orb_false_r|].
  rewrite test_set. destruct (w =? b); [now rewrite orb_true_r|].
  now rewrite orb_false_r.
Qed.

Lemma addTarget_own_nextTodo s w c a :
  test a (nextTodo (addTarget_own s w c))
  = test a (nextTodo c) || (negb (edgeb (c_that c) s w) && (s =? a)).
Proof.
  unfold addTarget_own, edgeb. destruct (test w (targets_of s (c_that c)));
    cbn [negb andb nextTodo]; [now rewrite orb_false_r|].
  rewrite test_set. destruct (s =? a); [now rewrite orb_true_r|].
  now rewrite orb_false_r.
Qed.

Lemma addTarget_own_incomplete s w c :
  incomplete (addTarget_own s w c)
  = incomplete c || negb (edgeb (c_that c) s w).
Proof.
  unfold addTarget_own, edgeb. destruct (test w (targets_of s (c_that c)));
    cbn [negb incomplete]; [now rewrite orb_false_r|].
  now rewrite orb_true_r.
Qed.

Lemma progress_refl c : progress c c.
Proof.
  unfold progress, edge.
  split; [reflexivity|]. split; [reflexivity|]. split; [auto|].
  split; [auto|]. split; [intros a b H1 H2; congruence|].
  split; [|split; [auto|split; [intros a b H1 H2; congruence|auto]]].
  split; [auto|]. intros [H|[a [b [H1 H2]]]]; [auto | congruence].
Qed.

Lemma progress_trans c1 c2 c3 :
  progress c1 c2 -> progress c2 c3 -> progress c1 c3.
Proof.
  unfold progress, edge.
  intros (K1 & L1 & M1 & N1 & G1 & I1 & D1 & Q1 & W1)
         (K2 & L2 & M2 & N2 & G2 & I2 & D2 & Q2 & W2).
  split; [congruence|]. split; [congruence|]. split; [auto|].
  split; [auto|]. split.
  { intros a b H3 H1.
    destruct (edgeb (c_that c2) a b) eqn:E2; eauto. }
  split.
  { split.
    - intros H. apply I2 in H. destruct H as [H|[a [b [H3 H2]]]].
      + apply I1 in H. destruct H as [H|[a [b [H2 H1]]]]; auto.
        right. exists a, b. split; auto.
      + right. exists a, b. split; auto.
        destruct (edgeb (c_that c1) a b) eqn:E1; auto.
        apply M1 in E1. congruence.
    - intros [H|[a [b [H3 H1]]]].
      + apply I2. left. apply I1. now left.
      + apply I2. destruct (edgeb (c_that c2) a b) eqn:E2.
        * left. apply I1. right. now exists a, b.
        * right. now exists a, b. }
  split; [auto|]. split; [|auto].
  intros a b H3 H1 Hl.
  destruct (edgeb (c_that c2) a b) eqn:E2; eauto.
  apply (Q2 a b H3 E2). congruence.
Qed.

Lemma edge_source that a b : edge that a b -> In a (keys (affects that)).
Proof.
  unfold edge, edgeb, targets_of. intros H.
  apply get_In. destruct (get a (affects that)); [discriminate|].
  discriminate H.
Qed.

Lemma edge_target_key that a b :
  edge that a b -> In b (keys (targets_of a that)).
Proof. intros H. apply has_In, test_has, H. Qed.

Lemma addTarget_own_progress s w c :
  In s (keys (affects (c_that c))) -> progress c (addTarget_own s w c).
Proof.
  intros Hs. unfold progress, edge.
  split; [now apply addTarget_own_keys_eq|].
  split; [apply addTarget_own_isLocal|].
  split; [intros a b H; rewrite addTarget_own_edge, H; reflexivity|].
  split; [intros a H; rewrite addTarget_own_nextTodo, H; reflexivity|].
  split.
  { intros a b H1 H2. rewrite addTarget_own_edge, H2 in H1. cbn [orb] in H1.
    apply andb_true_iff in H1. destruct H1 as [Ea Eb].
    apply String.eqb_eq in Ea, Eb. subst.
    rewrite addTarget_own_nextTodo, H2, String.eqb_refl.
    now rewrite orb_true_r. }
  split.
  { rewrite addTarget_own_incomplete. rewrite orb_true_iff. split.
    - intros [H|H]; auto. right. exists s, w.
      apply negb_true_iff in H. split; auto.
      rewrite addTarget_own_edge, !String.eqb_refl. now rewrite orb_true_r.
    - intros [H|[a [b [H1 H2]]]]; auto.
      rewrite addTarget_own_edge, H2 in H1. cbn [orb] in H1.
      apply andb_true_iff in H1. destruct H1 as [Ea Eb].
      apply String.eqb_eq in Ea, Eb. subst. right. now rewrite H2. }
  split; [intros b H; rewrite addTarget_own_dependsOnAGlobal, H; reflexivity|].
  split.
  { intros a b H1 H2 Hl. rewrite addTarget_own_edge, H2 in H1.
    cbn [orb] in H1. apply andb_true_iff in H1. destruct H1 as [Ea Eb].
    apply String.eqb_eq in Ea, Eb. subst.
    rewrite addTarget_own_dependsOnAGlobal, H2, Hl, String.eqb_refl.
    now rewrite orb_true_r. }
  intros [Hn Ht]. split.
  - now rewrite addTarget_own_keys_eq.
  - intros a b Hb. unfold edge. rewrite addTarget_own_edge.
    apply addTarget_own_targets_keys in Hb.
    destruct Hb as [Hb|[-> [-> _]]].
    + apply Ht in Hb. unfold edge in Hb. now rewrite Hb.
    + rewrite !String.eqb_refl. now rewrite orb_true_r.
Qed.

Lemma fold_left_progress {B : Type} (f : Closure -> B -> Closure)
  (Q : Closure -> Prop) l :
  (forall c b, In b l -> Q c -> progress c (f c b) /\ Q (f c b)) ->
  forall c, Q c -> progress c (fold_left f l c) /\ Q (fold_left f l c).
Proof.
  induction l as [|b l IH]; intros Hf c Hc; simpl.
  - split; [apply progress_refl | exact Hc].
  - destruct (Hf c b (or_introl eq_refl) Hc) as [H1 H2].
    destruct (IH (fun c b H => Hf c b (or_intror H)) _ H2) as [H3 H4].
    split; [eapply progress_trans; eauto | exact H4].
Qed.

Lemma addTarget_own_source_kept s w c :
  In s (keys (affects (c_that c))) ->
  In s (keys (affects (c_that (addTarget_own s w c)))).
Proof. intros H. now rewrite addTarget_own_keys_eq. Qed.

Lemma fold_addTarget_progress s ws c :
  In s (keys (affects (c_that c))) ->
  progress c (fold_left (fun c w => addTarget_own s w c) ws c)
  /\ In s (keys (affects
                   (c_that (fold_left (fun c w => addTarget_own s w c) ws c)))).
Proof.
  apply (fold_left_progress (fun c w => addTarget_own s w c)
           (fun c => In s (keys (affects (c_that c))))).
  intros c1 w _ H. split; [now apply addTarget_own_progress|].
  now apply addTarget_own_source_kept.
Qed.

Lemma fold_addTarget_edge s a b ws : forall c,
  edgeb (c_that (fold_left (fun c w => addTarget_own s w c) ws c)) a b
  = edgeb (c_that c) a b || ((s =? a) && mem b ws).
Proof.
  induction ws as [|w ws IH]; intros c; simpl.
  - now rewrite andb_false_r, orb_false_r.
  - rewrite IH, addTarget_own_edge, (String.eqb_sym b w).
    destruct (edgeb (c_that c) a b), (s =? a), (w =? b); reflexivity.
Qed.

Lemma expandTarget_own_progress todo s u c :
  In s (keys (affects (c_that c))) ->
  progress c (expandTarget_own todo s u c)
  /\ In s (keys (affects (c_that (expandTarget_own todo s u c)))).
Proof.
  intros Hs. unfold expandTarget_own. destruct (test u todo).
  - now apply fold_addTarget_progress.
  - split; [apply progress_refl | exact Hs].
Qed.

Lemma expandTarget_own_edge todo s u c a b :
  edgeb (c_that (expandTarget_own todo s u c)) a b
  = edgeb (c_that c) a b
    || ((s =? a) && test u todo
        && mem b (keys (targets_of u (c_that c)))).
Proof.
  unfold expandTarget_own. destruct (test u todo).
  - rewrite fold_addTarget_edge. now rewrite andb_true_r.
  - now rewrite andb_false_r, orb_false_r.
Qed.

Lemma mem_targets_edge that u b :
  graph_ok that ->
  mem b (keys (targets_of u that)) = edgeb that u b.
Proof.
  intros [_ Hg]. rewrite mem_keys_has. unfold edgeb.
  destruct (has b (targets_of u that)) eqn:E.
  - symmetry. apply has_In, Hg in E. exact E.
  - destruct (test b (targets_of u that)) eqn:E'; auto.
    apply test_has in E'. congruence.
Qed.

Lemma expandTargets_progress todo s us c :
  In s (keys (affects (c_that c))) ->
  progress c (fold_left (fun c u => expandTarget_own todo s u c) us c)
  /\ In s (keys (affects
                   (c_that (fold_left (fun c u => expandTarget_own todo s u c)
                              us c)))).
Proof.
  apply (fold_left_progress (fun c u => expandTarget_own todo s u c)
           (fun c => In s (keys (affects (c_that c))))).
  intros c1 u _ H. now apply expandTarget_own_progress.
Qed.

Lemma expandTargets_edge todo s a b us : forall c,
  graph_ok (c_that c) ->
  In s (keys (affects (c_that c))) ->
  edge (c_that (fold_left (fun c u => expandTarget_own todo s u c) us c)) a b
  <-> edge (c_that c) a b
      \/ (a = s
          /\ exists u,
               In u us /\ test u todo = true /\ edge (c_that c) u b).
Proof.
  induction us as [|u us IH]; intros c Hg Hs; simpl.
  - split; auto. intros [H|[_ [u [[] _]]]]; auto.
  - destruct (expandTarget_own_progress todo s u c Hs) as [Hp Hs'].
    assert (graph_ok (c_that (expandTarget_own todo s u c))) as Hg'
        by (apply Hp, Hg).
    rewrite (IH _ Hg' Hs'). unfold edge.
    rewrite !expandTarget_own_edge, (mem_targets_edge _ _ _ Hg).
    split.
    + intros [H|[-> [u' [Hu' [Ht H]]]]].
      * apply orb_true_iff in H. destruct H as [H|H]; auto.
        apply andb_true_iff in H. destruct H as [H H3].
        apply andb_true_iff in H. destruct H as [H1 H2].
        apply String.eqb_eq in H1. subst. right. split; auto.
        exists u. auto.
      * rewrite expandTarget_own_edge, (mem_targets_edge _ _ _ Hg) in H.
        apply orb_true_iff in H. destruct H as [H|H].
        -- right. split; auto. exists u'. auto.
        -- apply andb_true_iff in H. destruct H as [H H3].
           apply andb_true_iff in H. destruct H as [H1 H2].
           right. split; auto. exists u. auto.
    + intros [H|[-> [u' [[->|Hu'] [Ht H]]]]].
      * left. now rewrite H.
      * left. rewrite String.eqb_refl, Ht, H. now rewrite orb_true_r.
      * right. split; auto. exists u'. split; auto. split; auto.
        rewrite expandTarget_own_edge, H. reflexivity.
Qed.

Lemma expandSource_own_progress todo c s :
  In s (keys (affects (c_that c))) ->
  progress c (expandSource_own todo c s).
Proof. intros Hs. now apply expandTargets_progress. Qed.

(** The edges after the loop over the targets of [source]. *)
Lemma expandSource_own_edge todo c s a b :
  graph_ok (c_that c) ->
  In s (keys (affects (c_that c))) ->
  edge (c_that (expandSource_own todo c s)) a b
  <-> edge (c_that c) a b
      \/ (a = s
          /\ exists u,
               edge (c_that c) s u /\ test u todo = true
               /\ edge (c_that c) u b).
Proof.
  intros Hg Hs. unfold expandSource_own.
  rewrite (expandTargets_edge todo s a b _ c Hg Hs).
  split; (intros [H|[-> [u [H1 H2]]]]; [now left | right]);
    (split; [reflexivity|]); exists u; (split; [|exact H2]).
  - apply Hg, H1.
  - apply edge_target_key, H1.
Qed.

(** ** The closure of the dependencies: one turn *)

Lemma expandSources_progress todo l c :
  incl l (keys (affects (c_that c))) ->
  progress c (fold_left (expandSource_own todo) l c)
  /\ incl l (keys (affects (c_that (fold_left (expandSource_own todo) l c)))).
Proof.
  apply (fold_left_progress (expandSource_own todo)
           (fun c => incl l (keys (affects (c_that c))))).
  intros c1 s Hs H.
  pose proof (expandSource_own_progress todo c1 s (H s Hs)) as Hp.
  split; [exact Hp|]. destruct Hp as [Hk _]. now rewrite Hk.
Qed.

(** The loop over the sources [l] changes the targets of those only. *)
Lemma expandSources_row todo a b l : forall c,
  graph_ok (c_that c) ->
  incl l (keys (affects (c_that c))) ->
  ~ In a l ->
  edge (c_that (fold_left (expandSource_own todo) l c)) a b
  <-> edge (c_that c) a b.
Proof.
  induction l as [|s l IH]; intros c Hg Hl Ha; simpl; [tauto|].
  assert (In s (keys (affects (c_that c)))) as Hs by (apply Hl; now left).
  pose proof (expandSource_own_progress todo c s Hs) as Hp.
  rewrite IH.
  - rewrite (expandSource_own_edge todo c s a b Hg Hs).
    split; auto. intros [H|[-> _]]; auto. elim Ha. now left.
  - apply Hp, Hg.
  - destruct Hp as [Hk _]. rewrite Hk. intros x Hx. apply Hl. now right.
  - intros H. apply Ha. now right.
Qed.

(** The targets of a source [s] after a turn: those it had, and the
    targets of each of its targets [u] that is in [todo], as [u] has them
    when [s] is reached: after the turn if [u] comes before [s], before
    the turn otherwise. *)
Lemma closureRound_own_row todo that P s Q t :
  graph_ok that ->
  keys (affects that) = P ++ s :: Q ->
  edge (c_that (closureRound_own todo that)) s t
  <-> edge that s t
      \/ exists u,
           edge that s u /\ test u todo = true
           /\ ((In u P /\ edge (c_that (closureRound_own todo that)) u t)
               \/ (~ In u P /\ edge that u t)).
Proof.
  intros Hg Hk. unfold closureRound_own. rewrite Hk, fold_left_app.
  cbn [fold_left].
  set (c0 := mkClosure that [] false).
  set (cP := fold_left (expandSource_own todo) P c0).
  set (cs := expandSource_own todo cP s).
  assert (NoDup (P ++ s :: Q)) as Hnd by (rewrite <- Hk; apply Hg).
  assert (~ In s P /\ ~ In s Q) as [HsP HsQ].
  { apply NoDup_remove_2 in Hnd. rewrite in_app_iff in Hnd. tauto. }
  assert (incl P (keys (affects (c_that c0)))) as HP.
  { cbn [c0 c_that]. rewrite Hk. intros x Hx. apply in_or_app. now left. }
  destruct (expandSources_progress todo P c0 HP) as [HpP _].
  fold cP in HpP.
  assert (graph_ok (c_that cP)) as HgP by (apply HpP, Hg).
  assert (keys (affects (c_that cP)) = P ++ s :: Q) as HkP
      by (destruct HpP as [-> _]; exact Hk).
  assert (In s (keys (affects (c_that cP)))) as HsP'
      by (rewrite HkP; apply in_or_app; right; now left).
  pose proof (expandSource_own_progress todo cP s HsP') as Hps. fold cs in Hps.
  assert (graph_ok (c_that cs)) as Hgs by (apply Hps, HgP).
  assert (incl Q (keys (affects (c_that cs)))) as HQ.
  { destruct Hps as [-> _]. rewrite HkP. intros x Hx.
    apply in_or_app. right. now right. }
  assert (forall a b, ~ In a P -> edge (c_that cP) a b <-> edge that a b)
    as HrowP.
  { intros a b Ha. apply (expandSources_row todo a b P c0 Hg HP Ha). }
  assert (forall a b,
             ~ In a Q ->
             edge (c_that (fold_left (expandSource_own todo) Q cs)) a b
             <-> edge (c_that cs) a b) as HrowQ.
  { intros a b Ha. apply (expandSources_row todo a b Q cs Hgs HQ Ha). }
  assert (forall u b,
             In u P ->
             edge (c_that (fold_left (expandSource_own todo) Q cs)) u b
             <-> edge (c_that cP) u b) as HrowU.
  { intros u b Hu.
    assert (u <> s) as Hus by (intros ->; contradiction).
    assert (~ In u Q) as HuQ.
    { intros HuQ. apply in_split in Hu. destruct Hu as [P1 [P2 ->]].
      rewrite <- app_assoc in Hnd. cbn [app] in Hnd.
      apply NoDup_remove_2 in Hnd. apply Hnd.
      apply in_or_app. right. apply in_or_app. right. now right. }
    rewrite (HrowQ u b HuQ). unfold cs.
    rewrite (expandSource_own_edge todo cP s u b HgP HsP').
    split; auto. intros [H|[E _]]; auto. contradiction. }
  rewrite (HrowQ s t HsQ). unfold cs.
  rewrite (expandSource_own_edge todo cP s s t HgP HsP'), (HrowP s t HsP).
  split.
  - intros [H|[_ [u [H1 [H2 H3]]]]]; auto. right. exists u.
    apply (HrowP s u HsP) in H1. split; auto. split; auto.
    destruct (in_dec string_dec u P) as [Hu|Hu].
    + left. split; auto. now apply HrowU.
    + right. split; auto. now apply HrowP.
  - intros [H|[u [H1 [H2 H3]]]]; auto. right. split; auto. exists u.
    split; [now apply HrowP|]. split; auto.
    destruct H3 as [[Hu H3]|[Hu H3]].
    + now apply HrowU.
    + now apply HrowP.
Qed.

(** ** The closure of the dependencies: the invariant of the loop *)

Section Turn.
Variable ks : list string.
Variables E E' : string -> string -> bool.
Variables todo todo' : string -> bool.

Hypothesis sources : forall a b, E a b = true -> In a ks.
Hypothesis sources' : forall a b, E' a b = true -> In a ks.
Hypothesis grows : forall a b, E a b = true -> E' a b = true.
Hypothesis gained :
  forall a b, E' a b = true -> E a b = false -> todo' a = true.
Hypothesis row :
  forall P s Q t,
    ks = P ++ s :: Q ->
    E' s t = true
    <-> E s t = true
        \/ exists u,
             E s u = true /\ todo u = true
             /\ ((In u P /\ E' u t = true) \/ (~ In u P /\ E u t = true)).

(** Before the turn, what a name affects in two steps it affects in one
    step, or through a target that is in [todo]. *)
Hypothesis pending :
  forall s t w,
    E s t = true -> E t w = true ->
    E s w = true
    \/ exists u, E s u = true /\ todo u = true /\ E u w = true.

Lemma row_old P s Q u t :
  ks = P ++ s :: Q ->
  E s u = true -> todo u = true -> E u t = true -> E' s t = true.
Proof.
  intros Hk H1 H2 H3. apply (row P s Q t Hk). right. exists u.
  split; auto. split; auto.
  destruct (in_dec string_dec u P) as [Hu|Hu]; auto.
Qed.

Lemma row_new P s Q u t :
  ks = P ++ s :: Q ->
  E s u = true -> todo u = true -> In u P -> E' u t = true ->
  E' s t = true.
Proof.
  intros Hk H1 H2 Hu H3. apply (row P s Q t Hk). right. exists u. auto.
Qed.

Lemma pending_kept_at n : forall P s Q,
  length P = n ->
  ks = P ++ s :: Q ->
  forall t w,
    E' s t = true -> E' t w = true ->
    E' s w = true
    \/ exists v, E' s v = true /\ todo' v = true /\ E' v w = true.
Proof.
  induction n as [n IH] using lt_wf_ind.
  intros P s Q Hn Hk t w Hst Htw.
  destruct (todo' t) eqn:Ht; [right; exists t; auto|].
  assert (E t w = true) as Htw0.
  { destruct (E t w) eqn:H; auto. rewrite (gained t w Htw H) in Ht.
    discriminate. }
  apply (row P s Q t Hk) in Hst.
  destruct Hst as [Hst|[u [Hsu [Hu [[HuP Hut]|[HuP Hut]]]]]].
  - destruct (pending s t w Hst Htw0) as [H|[u [H1 [H2 H3]]]].
    + left. now apply grows.
    + left. apply (row_old P s Q u w Hk H1 H2 H3).
  - destruct (in_split u P HuP) as [P1 [P2 HP]].
    assert (length P1 < n) as Hlt.
    { subst P n. rewrite length_app. simpl. lia. }
    assert (ks = P1 ++ u :: (P2 ++ s :: Q)) as Hk'.
    { rewrite Hk, HP, <- app_assoc. reflexivity. }
    destruct (IH _ Hlt P1 u _ eq_refl Hk' t w Hut Htw) as [H|[v [H1 [H2 H3]]]].
    + left. apply (row_new P s Q u w Hk Hsu Hu HuP H).
    + right. exists v. split; auto.
      apply (row_new P s Q u v Hk Hsu Hu HuP H1).
  - destruct (pending u t w Hut Htw0) as [H|[v [H1 [H2 H3]]]].
    + left. apply (row_old P s Q u w Hk Hsu Hu H).
    + destruct (in_split u ks (sources u v H1)) as [P1 [P2 Hk']].
      pose proof (row_old P1 u P2 v w Hk' H1 H2 H3) as Huw.
      destruct (E u w) eqn:Huw0.
      * left. apply (row_old P s Q u w Hk Hsu Hu Huw0).
      * right. exists u. split; [now apply grows|].
        split; [apply (gained u w Huw Huw0) | exact Huw].
Qed.

(** After the turn the same holds with [nextTodo]. *)
Lemma pending_kept s t w :
  E' s t = true -> E' t w = true ->
  E' s w = true
  \/ exists v, E' s v = true /\ todo' v = true /\ E' v w = true.
Proof.
  intros Hst Htw.
  destruct (in_split s ks (sources' s t Hst)) as [P [Q Hk]].
  apply (pending_kept_at (length P) P s Q eq_refl Hk t w Hst Htw).
Qed.

(** When the turn adds nothing, the graph is transitive. *)
Lemma pending_done s t w :
  (forall a b, E' a b = true -> E a b = true) ->
  E' s t = true -> E' t w = true -> E' s w = true.
Proof.
  intros Hsame Hst Htw.
  destruct (in_split s ks (sources' s t Hst)) as [P [Q Hk]].
  apply Hsame in Hst. apply Hsame in Htw.
  destruct (pending s t w Hst Htw) as [H|[u [H1 [H2 H3]]]].
  - now apply grows.
  - apply (row_old P s Q u w Hk H1 H2 H3).
Qed.
End Turn.

(** ** The closure of the dependencies: the loop *)

Lemma closureRound_own_progress todo that :
  progress (mkClosure that [] false) (closureRound_own todo that).
Proof.
  unfold closureRound_own.
  apply (expandSources_progress todo (keys (affects that))
           (mkClosure that [] false)).
  apply incl_refl.
Qed.

Lemma expandSources_sound (R : string -> string -> Prop) todo l : forall c,
  graph_ok (c_that c) ->
  incl l (keys (affects (c_that c))) ->
  (forall a b, edge (c_that c) a b -> clos_trans string R a b) ->
  forall a b,
    edge (c_that (fold_left (expandSource_own todo) l c)) a b ->
    clos_trans string R a b.
Proof.
  induction l as [|s l IH]; intros c Hg Hl Hc a b; simpl; [apply Hc|].
  assert (In s (keys (affects (c_that c)))) as Hs by (apply Hl; now left).
  pose proof (expandSource_own_progress todo c s Hs) as Hp.
  apply IH.
  - apply Hp, Hg.
  - destruct Hp as [-> _]. intros x Hx. apply Hl. now right.
  - intros a' b'. rewrite (expandSource_own_edge todo c s a' b' Hg Hs).
    intros [H|[-> [u [H1 [_ H2]]]]]; [now apply Hc|].
    eapply t_trans; apply Hc; eauto.
Qed.

Lemma closureRound_own_sound todo that a b :
  graph_ok that ->
  edge (c_that (closureRound_own todo that)) a b ->
  clos_trans string (edge that) a b.
Proof.
  intros Hg. unfold closureRound_own.
  apply (expandSources_sound (edge that) todo _ (mkClosure that [] false));
    auto.
  - apply incl_refl.
  - intros a' b' H. now apply t_step.
Qed.

Lemma clos_trans_target (R : string -> string -> Prop) a b :
  clos_trans string R a b -> exists u, R u b.
Proof. induction 1; eauto. Qed.

Lemma clos_trans_flatten (R R' : string -> string -> Prop) a b :
  (forall x y, R' x y -> clos_trans string R x y) ->
  clos_trans string R' a b -> clos_trans string R a b.
Proof.
  intros H. induction 1; [now apply H | eapply t_trans; eauto].
Qed.

Lemma closureRound_own_pending todo that :
  graph_ok that -> pending that todo ->
  pending (c_that (closureRound_own todo that))
    (nextTodo (closureRound_own todo that))
  /\ (incomplete (closureRound_own todo that) = false ->
      forall s t w,
        edge (c_that (closureRound_own todo that)) s t ->
        edge (c_that (closureRound_own todo that)) t w ->
        edge (c_that (closureRound_own todo that)) s w).
Proof.
  intros Hg Hp.
  destruct (closureRound_own_progress todo that)
    as (Hk & _ & Hm & _ & Hgain & Hinc & _ & _ & _).
  cbn [c_that nextTodo incomplete] in *.
  set (c := closureRound_own todo that) in *.
  assert (forall a b, edgeb that a b = true -> In a (keys (affects that)))
    as Hsrc by (intros a b; apply edge_source).
  assert (forall a b,
             edgeb (c_that c) a b = true -> In a (keys (affects that)))
    as Hsrc'.
  { intros a b H. rewrite <- Hk. eapply edge_source; eauto. }
  assert (forall P s Q t,
             keys (affects that) = P ++ s :: Q ->
             edgeb (c_that c) s t = true
             <-> edgeb that s t = true
                 \/ exists u,
                      edgeb that s u = true
                      /\ (fun a => test a todo) u = true
                      /\ ((In u P /\ edgeb (c_that c) u t = true)
                          \/ (~ In u P /\ edgeb that u t = true)))
    as Hrow.
  { intros P s Q t HP. apply (closureRound_own_row todo that P s Q t Hg HP). }
  split.
  - intros s t w.
    apply (pending_kept (keys (affects that)) (edgeb that)
             (edgeb (c_that c)) (fun a => test a todo)
             (fun a => test a (nextTodo c))
             Hsrc Hsrc' Hm Hgain Hrow Hp).
  - intros Hi s t w.
    apply (pending_done (keys (affects that)) (edgeb that)
             (edgeb (c_that c)) (fun a => test a todo)
             Hsrc' Hm Hrow Hp).
    intros a b H. destruct (edgeb that a b) eqn:E; auto.
    assert (incomplete c = true) as Hi'
        by (apply Hinc; right; now exists a, b).
    congruence.
Qed.

Lemma filter_length_lt {A : Type} (f g : A -> bool) (x : A) l :
  (forall y, g y = true -> f y = true) ->
  In x l -> f x = true -> g x = false ->
  length (filter g l) < length (filter f l).
Proof.
  intros Hfg. induction l as [|y l IH]; intros Hin Hf Hg; [contradiction|].
  assert (length (filter g l) <= length (filter f l)) as Hle.
  { clear IH Hin. induction l as [|z l IHl]; simpl; auto.
    destruct (g z) eqn:Ez.
    - rewrite (Hfg z Ez). simpl. lia.
    - destruct (f z); simpl; lia. }
  simpl. destruct Hin as [->|Hin].
  - rewrite Hf, Hg. simpl. lia.
  - specialize (IH Hin Hf Hg). destruct (g y) eqn:Ey.
    + rewrite (Hfg y Ey). simpl. lia.
    + destruct (f y); simpl; lia.
Qed.

Lemma missing_decreases ks U that that' a b :
  (forall x y, edge that x y -> edge that' x y) ->
  In a ks -> In b U ->
  edge that' a b -> edgeb that a b = false ->
  missing ks U that' < missing ks U that.
Proof.
  intros Hm Ha Hb H' H. unfold missing.
  apply (filter_length_lt _ _ (a, b)).
  - intros [x y]. cbn [fst snd]. rewrite !negb_true_iff.
    intros Hy. destruct (edgeb that x y) eqn:E; auto.
    apply Hm in E. congruence.
  - now apply in_prod.
  - cbn [fst snd]. now rewrite H.
  - cbn [fst snd]. unfold edge in H'. now rewrite H'.
Qed.

Lemma closureRound_own_globals todo that :
  globals_ok that -> globals_ok (c_that (closureRound_own todo that)).
Proof.
  intros Hgl.
  destruct (closureRound_own_progress todo that)
    as (_ & Hl & _ & _ & _ & _ & Hd & Hq & _).
  cbn [c_that] in *. intros a b H Ha. rewrite Hl in Ha.
  destruct (edgeb that a b) eqn:E.
  - apply Hd. now apply (Hgl a b).
  - now apply Hq with a.
Qed.

Lemma closureLoop_own_spec ks U fuel : forall todo that,
  graph_ok that -> pending that todo -> globals_ok that ->
  keys (affects that) = ks ->
  (forall a b, edge that a b -> In b U) ->
  missing ks U that < fuel ->
  exists that',
    closureLoop_own fuel todo that = Some that'
    /\ graph_ok that'
    /\ globals_ok that'
    /\ (forall a b, edge that a b -> edge that' a b)
    /\ (forall a b, edge that' a b -> clos_trans string (edge that) a b)
    /\ (forall s t w, edge that' s t -> edge that' t w -> edge that' s w).
Proof.
  induction fuel as [|fuel IH]; intros todo that Hg Hp Hgl Hk HU Hf;
    [lia|].
  cbn [closureLoop_own].
  pose proof (closureRound_own_progress todo that) as Hpr.
  destruct (closureRound_own_pending todo that Hg Hp) as [Hp' Hdone].
  pose proof (closureRound_own_globals todo that Hgl) as Hgl'.
  destruct Hpr as (Hk' & _ & Hm & _ & _ & Hinc & _ & _ & Hg').
  cbn [c_that nextTodo incomplete] in *.
  set (c := closureRound_own todo that) in *.
  specialize (Hg' Hg).
  destruct (incomplete c) eqn:Hi.
  - destruct Hinc as [Hinc _].
    destruct (Hinc eq_refl) as [H|[a [b [H1 H2]]]]; [discriminate|].
    assert (forall x y, edge (c_that c) x y -> In y U) as HU'.
    { intros x y H. apply (closureRound_own_sound todo that x y Hg) in H.
      apply clos_trans_target in H. destruct H as [u H]. eauto. }
    destruct (IH (nextTodo c) (c_that c) Hg' Hp' Hgl') as
      (that' & E & G1 & G2 & G3 & G4 & G5); auto.
    + congruence.
    + assert (missing ks U (c_that c) < missing ks U that); [|lia].
      apply (missing_decreases ks U that (c_that c) a b); auto.
      * rewrite <- Hk, <- Hk'. eapply edge_source; eauto.
      * eauto.
    + exists that'. split; [exact E|]. split; [exact G1|].
      split; [exact G2|]. split; [auto|]. split; [|exact G5].
      intros x y H. apply (clos_trans_flatten (edge that) (edge (c_that c))).
      * intros x' y'. apply closureRound_own_sound, Hg.
      * now apply G4.
  - exists (c_that c). split; [reflexivity|]. split; [exact Hg'|].
    split; [exact Hgl'|]. split; [exact Hm|].
    split; [intros x y; apply closureRound_own_sound, Hg|].
    now apply Hdone.
Qed.

Lemma todo_all ks a : forall todo,
  test a (fold_left (fun todo element => set element true todo) ks todo)
  = test a todo || mem a ks.
Proof.
  induction ks as [|k ks IH]; intros todo; simpl.
  - now rewrite orb_false_r.
  - rewrite IH, test_set, (String.eqb_sym a k).
    destruct (k =? a); [now rewrite orb_true_r | reflexivity].
Qed.

Lemma get_Some_In {V : Type} k (v : V) o : get k o = Some v -> In (k, v) o.
Proof.
  induction o as [|[k' v'] o IH]; simpl; [discriminate|].
  destruct (k' =? k) eqn:E.
  - apply String.eqb_eq in E. intros H; inversion H; subst. now left.
  - intros H. right. now apply IH.
Qed.

Lemma edge_all_targets that a b : edge that a b -> In b (all_targets that).
Proof.
  intros H. pose proof (edge_target_key _ _ _ H) as Hb.
  unfold targets_of in Hb. unfold all_targets.
  destruct (get a (affects that)) as [T|] eqn:E; [|contradiction].
  apply in_flat_map. exists (a, T). split; auto.
  now apply get_Some_In.
Qed.

Lemma clos_trans_grows (R : string -> string -> Prop) that' a b :
  (forall x y, R x y -> edge that' x y) ->
  (forall s t w, edge that' s t -> edge that' t w -> edge that' s w) ->
  clos_trans string R a b -> edge that' a b.
Proof.
  intros H1 H2. induction 1; eauto.
Qed.

(** The pass ends and leaves the transitive closure of the graph. *)
Lemma calculateTransitiveDependencies_own_spec that :
  graph_ok that -> globals_ok that ->
  exists that',
    calculateTransitiveDependencies_own that = Some that'
    /\ graph_ok that'
    /\ globals_ok that'
    /\ deps_frame that that'
    /\ forall a b, edge that' a b <-> clos_trans string (edge that) a b.
Proof.
  intros Hg Hgl. unfold calculateTransitiveDependencies_own.
  destruct (closureLoop_own_spec (keys (affects that)) (all_targets that)
              (closureFuel that)
              (fold_left (fun todo element => set element true todo)
                 (keys (affects that)) [])
              that Hg) as (that' & E & G1 & G2 & G3 & G4 & G5); auto.
  - intros s t w Hst Htw. right. exists t. split; auto. split; auto.
    rewrite todo_all. apply mem_In. eapply edge_source; eauto.
  - apply edge_all_targets.
  - unfold missing, closureFuel.
    pose proof (filter_length_le
                  (fun p => negb (edgeb that (fst p) (snd p)))
                  (list_prod (keys (affects that)) (all_targets that))) as H.
    rewrite length_prod in H.
    assert (length (keys (affects that)) = length (affects that)) as Hl
        by apply length_map.
    rewrite Hl in H. lia.
  - exists that'. split; auto. split; auto. split; auto.
    split; [eapply closureLoop_own_frame; eauto|].
    intros a b. split; [apply G4|].
    now apply clos_trans_grows.
Qed.

(** ** The closure of the dependencies: names that no object inherits *)

Lemma lookup_test k o : inherited k = false -> lookup k o = test k o.
Proof. unfold lookup, test. intros H. now destruct (get k o). Qed.

Lemma fold_left_same {A B : Type} (f g : A -> B -> A) (Q : A -> Prop) l :
  (forall c b, In b l -> Q c -> f c b = g c b /\ Q (g c b)) ->
  forall c, Q c -> fold_left f l c = fold_left g l c /\ Q (fold_left g l c).
Proof.
  induction l as [|b l IH]; intros Hf c Hc; simpl; [now split|].
  destruct (Hf c b (or_introl eq_refl) Hc) as [H1 H2]. rewrite H1.
  apply IH; auto. intros c1 b1 Hb. apply Hf. now right.
Qed.

Lemma plain_graph_tables that : plain_graph that = true -> plain_tables that.
Proof.
  unfold plain_graph. rewrite forallb_forall. intros H. split.
  - intros a Ha. apply in_map_iff in Ha. destruct Ha as ([a1 T] & <- & Hin).
    apply H in Hin. apply andb_true_iff in Hin. destruct Hin as [H1 _].
    now apply negb_true_iff in H1.
  - intros a b Hb. unfold targets_of in Hb.
    destruct (get a (affects that)) as [T|] eqn:E; [|destruct Hb].
    apply get_Some_In in E. apply H in E. apply andb_true_iff in E.
    destruct E as [_ H2]. rewrite forallb_forall in H2.
    apply H2 in Hb. now apply negb_true_iff in Hb.
Qed.

Lemma addTarget_plain ks s w c :
  In s ks -> inherited w = false -> plain_round ks c ->
  addTarget s w c = addTarget_own s w c
  /\ plain_round ks (addTarget_own s w c).
Proof.
  intros Hs Hw [[H1 H2] Hk]. subst ks. split.
  - unfold addTarget, addTarget_own.
    now rewrite !lookup_test by auto.
  - split; [split|].
    + intros a Ha. rewrite addTarget_own_keys_eq in Ha by exact Hs. auto.
    + intros a b Hb. apply addTarget_own_targets_keys in Hb.
      destruct Hb as [Hb|(_ & -> & _)]; eauto.
    + now apply addTarget_own_keys_eq.
Qed.

Lemma expandTarget_plain ks todo s u c :
  In s ks -> inherited u = false -> plain_round ks c ->
  expandTarget todo s u c = expandTarget_own todo s u c
  /\ plain_round ks (expandTarget_own todo s u c).
Proof.
  intros Hs Hu Hc. unfold expandTarget, expandTarget_own.
  rewrite lookup_test by exact Hu.
  destruct (test u todo); [|now split].
  apply (fold_left_same (fun c w => addTarget s w c)
           (fun c w => addTarget_own s w c) (plain_round ks)); auto.
  intros c1 w Hw Hc1. apply addTarget_plain; auto.
  destruct Hc as [[_ H2] _]. eauto.
Qed.

Lemma expandSource_plain ks todo c s :
  In s ks -> plain_round ks c ->
  expandSource todo c s = expandSource_own todo c s
  /\ plain_round ks (expandSource_own todo c s).
Proof.
  intros Hs Hc. unfold expandSource, expandSource_own.
  apply (fold_left_same (fun c u => expandTarget todo s u c)
           (fun c u => expandTarget_own todo s u c) (plain_round ks)); auto.
  intros c1 u Hu Hc1. apply expandTarget_plain; auto.
  destruct Hc as [[_ H2] _]. eauto.
Qed.

Lemma closureRound_plain todo that :
  plain_tables that ->
  closureRound todo that = closureRound_own todo that
  /\ plain_tables (c_that (closureRound_own todo that)).
Proof.
  intros H. unfold closureRound, closureRound_own.
  destruct (fold_left_same (expandSource todo) (expandSource_own todo)
              (plain_round (keys (affects that))) (keys (affects that)))
    with (c := mkClosure that [] false) as [E [P _]].
  - intros c s Hs Hc. now apply expandSource_plain.
  - now split.
  - now split.
Qed.

Lemma closureLoop_plain fuel : forall todo that,
  plain_tables that ->
  closureLoop fuel todo that = closureLoop_own fuel todo that.
Proof.
  induction fuel as [|fuel IH]; intros todo that H; simpl; auto.
  destruct (closureRound_plain todo that H) as [E P]. rewrite E.
  destruct (incomplete (closureRound_own todo that)); auto.
Qed.

Lemma calculateTransitiveDependencies_plain that :
  plain_tables that ->
  calculateTransitiveDependencies that
  = calculateTransitiveDependencies_own that.
Proof.
  intros H. unfold calculateTransitiveDependencies,
    calculateTransitiveDependencies_own. now apply closureLoop_plain.
Qed.

(** On a graph of plain names the pass ends and leaves the transitive
    closure of the graph. *)
Lemma calculateTransitiveDependencies_spec that :
  graph_ok that -> globals_ok that -> plain_graph that = true ->
  exists that',
    calculateTransitiveDependencies that = Some that'
    /\ graph_ok that'
    /\ globals_ok that'
    /\ deps_frame that that'
    /\ forall a b, edge that' a b <-> clos_trans string (edge that) a b.
Proof.
  intros Hg Hgl Hp.
  rewrite calculateTransitiveDependencies_plain
    by now apply plain_graph_tables.
  now apply calculateTransitiveDependencies_own_spec.
Qed.

(** ** The graph that the analysis of the initial values builds *)

Lemma initialValueNode_graph varName n t that r that' :
  initialValueNode varName n t that = Some (r, that') ->
  graph_ok that /\ globals_ok that ->
  graph_ok that' /\ globals_ok that'.
Proof.
  unfold initialValueNode. intros H [Hg Hgl].
  destruct (negb (NODES_WITHOUT_SIDE_EFFECTS t));
    [inversion H; subst; now split|].
  destruct (t =? "name"); [|inversion H; subst; now split].
  destruct (negb (loose_eq (sub n 1) "undefined"));
    [|inversion H; subst; now split].
  set (ref := to_key (sub n 1)) in *.
  set (aff := match get ref (affects that) with
              | Some a => a
              | None => []
              end) in *.
  assert (forall that1,
             affects that1 = affects that ->
             forall a b,
               edgeb (with_affects
                        (set ref (set varName true aff) (affects that1))
                        that1) a b
               = edgeb that a b || ((ref =? a) && (varName =? b)))
    as Hedge.
  { intros that1 E1 a b. unfold edgeb at 1.
    rewrite (targets_of_set ref (set varName true aff) a _ (affects that))
      by (cbn; now rewrite E1).
    destruct (ref =? a) eqn:Ea; [|now rewrite orb_false_r].
    apply String.eqb_eq in Ea. subst a. rewrite test_set.
    unfold edgeb, targets_of. fold aff.
    destruct (varName =? b); [now rewrite orb_true_r|].
    now rewrite orb_false_r. }
  assert (forall that1,
             affects that1 = affects that ->
             graph_ok (with_affects
                         (set ref (set varName true aff) (affects that1))
                         that1)) as Hgraph.
  { intros that1 E1. split.
    - cbn. rewrite E1. apply NoDup_keys_set, Hg.
    - intros a b Hb. unfold edge. rewrite (Hedge that1 E1).
      rewrite (targets_of_set ref (set varName true aff) a _ (affects that))
        in Hb by (cbn; now rewrite E1).
      destruct (ref =? a) eqn:Ea.
      + apply In_keys_set in Hb. destruct Hb as [->|Hb].
        * rewrite String.eqb_refl. now rewrite orb_true_r.
        * apply String.eqb_eq in Ea. subst a.
          destruct Hg as [_ Hg]. specialize (Hg ref b).
          unfold targets_of in Hg. fold aff in Hg.
          unfold edge in Hg. now rewrite (Hg Hb).
      + destruct Hg as [_ Hg]. specialize (Hg a b).
        unfold targets_of in Hg. unfold edge in Hg. now rewrite (Hg Hb). }
  destruct (test ref (isLocal that)) eqn:El; cbn [negb] in H;
    inversion H; subst; clear H.
  - split; [now apply Hgraph|].
    intros a b Hab Ha. unfold edge in Hab.
    rewrite (Hedge that eq_refl) in Hab. cbn in Ha |- *.
    apply orb_true_iff in Hab. destruct Hab as [Hab|Hab].
    + now apply (Hgl a b).
    + apply andb_true_iff in Hab. destruct Hab as [Hab _].
      apply String.eqb_eq in Hab. subst a. congruence.
  - pose (that1 := with_dependsOnAGlobal
                     (set varName true (dependsOnAGlobal that)) that).
    split; [exact (Hgraph that1 eq_refl)|].
    intros a b Hab Ha. unfold edge in Hab.
    assert (edgeb that a b || ((ref =? a) && (varName =? b)) = true)
      as Hab' by (rewrite <- (Hedge that1 eq_refl a b); exact Hab).
    clear Hab. rename Hab' into Hab. cbn in Ha |- *.
    rewrite test_set.
    apply orb_true_iff in Hab. destruct Hab as [Hab|Hab].
    + destruct (varName =? b); auto. now apply (Hgl a b).
    + apply andb_true_iff in Hab. destruct Hab as [_ Hab]. now rewrite Hab.
Qed.

Lemma analyzeInitialValues_loop_graph names : forall that that',
  analyzeInitialValues_loop names that = Some that' ->
  graph_ok that /\ globals_ok that ->
  graph_ok that' /\ globals_ok that'.
Proof.
  induction names as [|v rest IH]; intros that that' H Hg; simpl in H.
  - now inversion H; subst.
  - destruct (analyzeInitialValue v that) as [that1|] eqn:Hv;
      [|discriminate].
    apply (IH _ _ H). clear H IH.
    unfold analyzeInitialValue in Hv.
    destruct (negb (test v (isSingleDef that)));
      [now inversion Hv; subst|].
    destruct (get v _) as [value|]; [|discriminate].
    destruct (traverse _ value _) as [[[r n'] s]|] eqn:Ht; [|discriminate].
    inversion Hv; subst.
    eapply (traverse_invariant (initialValueNode v)
              (fun s => graph_ok s /\ globals_ok s)); eauto.
    intros. eapply initialValueNode_graph; eauto.
Qed.

(** From empty [affects], [analyzeInitialValues] builds a graph in the
    shape that the closure expects. *)
Lemma analyzeInitialValues_graph that that' :
  affects that = [] ->
  analyzeInitialValues that = Some that' ->
  graph_ok that' /\ globals_ok that'.
Proof.
  intros Ha H. eapply analyzeInitialValues_loop_graph; eauto.
  assert (forall a b, edgeb that a b = false) as Hno
      by (intros a b; unfold edgeb, targets_of; now rewrite Ha).
  split; [split|].
  - rewrite Ha. constructor.
  - intros a b. unfold targets_of. rewrite Ha. contradiction.
  - intros a b Hab. unfold edge in Hab. now rewrite Hno in Hab.
Qed.

(** ** C5: the transitive closure *)

(** C5 (defect): in [var a = x; var toString = a;] the global [x] affects
    [a] and [a] affects [toString].  The loop asks [!targets[target2]]
    for the targets of [x] and [toString]: the table has no such entry,
    yet the lookup finds the method that every object inherits, and the
    edge from [x] to [toString] is never added.  The pass returns the
    graph as it was: it is not closed, and [toString], which depends on
    the global [x], is not in [dependsOnAGlobal]. *)
Theorem C5_inherited_name_is_not_closed :
  option_map analyzeInitialValues
    (calculateBasicVarStats body_toString new_Eliminator)
  = Some (Some that_toString)
  /\ edgeb that_toString "x" "a" = true
  /\ edgeb that_toString "a" "toString" = true
  /\ test "x" (isLocal that_toString) = false
  /\ calculateTransitiveDependencies that_toString = Some that_toString
  /\ edgeb that_toString "x" "toString" = false
  /\ test "toString" (dependsOnAGlobal that_toString) = false.
Proof. repeat split; reflexivity. Qed.

(** ** Collapsing the initial values: one walk *)

Lemma get_js_values y V : get y (js_values V) = option_map pure_js (get y V).
Proof.
  induction V as [|[k p] V IH]; simpl; auto. destruct (k =? y); auto.
Qed.

Lemma has_js_values y V : has y (js_values V) = has y V.
Proof. unfold has. rewrite get_js_values. now destruct (get y V). Qed.

Lemma keys_js_values V : keys (js_values V) = keys V.
Proof. unfold keys, js_values. rewrite map_map. reflexivity. Qed.

Lemma set_js_values x p V :
  set x (pure_js p) (js_values V) = js_values (set x p V).
Proof.
  induction V as [|[k q] V IH]; simpl; auto.
  destruct (k =? x); simpl; auto. now rewrite IH.
Qed.

Lemma pure_js_subnode p : is_subnode (pure_js p) = true.
Proof. now destruct p. Qed.

Lemma pure_js_truthy p : truthy (pure_js p) = true.
Proof. now destruct p. Qed.

Lemma collapse_answer_not_false V x p :
  is_false (collapse_answer V x p) = false.
Proof.
  destruct p; try reflexivity. simpl.
  destruct (expands V x x0); auto.
  now destruct (match get x0 V with Some q => q | None => PName x0 end).
Qed.

(** The slot of a child after its walk. *)
Lemma collapse_slot V x p :
  (if truthy (collapse_answer V x p) then collapse_answer V x p
   else collapse_left V x p)
  = pure_js (collapse_tree V x p).
Proof.
  destruct p; try reflexivity. simpl.
  destruct (expands V x x0); auto. now rewrite pure_js_truthy.
Qed.

Lemma collapseNode_other values x node type inc :
  (type =? "name") = false ->
  collapseNode values x node type inc = Some (JUndef, inc).
Proof. unfold collapseNode. now intros ->. Qed.

Lemma traverse_children_skip {St : Type}
  (callback : jsval -> string -> St -> option (jsval * St)) type c rest s :
  is_subnode c = false ->
  traverse_children callback type (c :: rest) s
  = match traverse_children callback type rest s with
    | Some (r, rest', s') => Some (r, c :: rest', s')
    | None => None
    end.
Proof. intros H. cbn [traverse_children]. now rewrite H. Qed.

Section Collapse_walk.
Variable V : obj pure.
Variable x : string.

Let walk := traverse (collapseNode (js_values V) x).

Let fired (p : pure) : bool := existsb (expands V x) (pure_names p).

(** The loop over the children of a node that is not a [name]. *)
Lemma collapse_child type p rest inc :
  loose_eq type "for-in" = false ->
  walk (pure_js p) inc
  = Some (collapse_answer V x p, collapse_left V x p, inc || fired p) ->
  traverse_children (collapseNode (js_values V) x) type
    (pure_js p :: rest) inc
  = match traverse_children (collapseNode (js_values V) x) type rest
            (inc || fired p) with
    | Some (r, rest', s) =>
        Some (r, pure_js (collapse_tree V x p) :: rest', s)
    | None => None
    end.
Proof.
  intros Hfor Hp. cbn [traverse_children].
  rewrite pure_js_subnode, Hfor. cbn [andb negb].
  unfold walk in Hp. rewrite Hp, collapse_answer_not_false.
  destruct (traverse_children _ type rest _) as [[[r rest'] s]|]; auto.
  now rewrite collapse_slot.
Qed.

Lemma collapse_walk p : forall inc,
  walk (pure_js p) inc
  = Some (collapse_answer V x p, collapse_left V x p, inc || fired p).
Proof.
  induction p as [y|n|s|op a IHa b IHb|a IHa b IHb|op a IHa]; intros inc;
    unfold walk; cbn [pure_js]; rewrite traverse_JArr; cbn [at_ nth].
  - unfold collapseNode.
    cbn [String.eqb Ascii.eqb Bool.eqb andb sub elems at_ nth to_key
           loose_eq].
    rewrite has_js_values, get_js_values.
    unfold fired, collapse_answer, collapse_left.
    cbn [pure_names existsb collapse_tree]. unfold expands at 1 2 3.
    destruct (has y V && negb (y =? x)) eqn:E.
    + apply andb_true_iff in E. destruct E as [E _]. unfold has in E.
      destruct (get y V) as [q|]; [|discriminate]. cbn [option_map].
      rewrite pure_js_truthy. now rewrite !orb_true_r.
    + cbn [truthy traverse_children is_subnode andb].
      now rewrite !orb_false_r.
  - rewrite collapseNode_other by reflexivity.
    cbn. now rewrite orb_false_r.
  - rewrite collapseNode_other by reflexivity.
    cbn. now rewrite orb_false_r.
  - rewrite collapseNode_other by reflexivity. cbn [truthy].
    do 2 (rewrite traverse_children_skip by reflexivity).
    rewrite (collapse_child (JStr "binary") a _ _ eq_refl (IHa inc)).
    rewrite (collapse_child (JStr "binary") b _ _ eq_refl (IHb _)).
    cbn [traverse_children collapse_answer collapse_left collapse_tree
           pure_js].
    unfold fired. cbn [pure_names]. now rewrite existsb_app, orb_assoc.
  - rewrite collapseNode_other by reflexivity. cbn [truthy].
    rewrite traverse_children_skip by reflexivity.
    rewrite (collapse_child (JStr "sub") a _ _ eq_refl (IHa inc)).
    rewrite (collapse_child (JStr "sub") b _ _ eq_refl (IHb _)).
    cbn [traverse_children collapse_answer collapse_left collapse_tree
           pure_js].
    unfold fired. cbn [pure_names]. now rewrite existsb_app, orb_assoc.
  - rewrite collapseNode_other by reflexivity. cbn [truthy].
    do 2 (rewrite traverse_children_skip by reflexivity).
    rewrite (collapse_child (JStr "unary-prefix") a _ _ eq_refl (IHa inc)).
    cbn [traverse_children collapse_answer collapse_left collapse_tree
           pure_js].
    reflexivity.
Qed.
End Collapse_walk.

(** The body of the loop of [collapseValues] on a table of such values. *)
Lemma collapseValue_pure V inc x p :
  get x V = Some p ->
  collapseValue (Some (js_values V, inc)) x
  = Some (js_values (fst (collapse_step (V, inc) x)),
          snd (collapse_step (V, inc) x)).
Proof.
  intros Hx. unfold collapseValue, collapse_step. cbn [fst snd].
  rewrite get_js_values, Hx. cbn [option_map].
  rewrite collapse_walk, collapse_slot, set_js_values. reflexivity.
Qed.

(** ** Collapsing the initial values: one turn *)

Lemma collapse_step_has acc x y :
  has y (fst (collapse_step acc x)) = has y (fst acc).
Proof.
  unfold collapse_step. destruct (get x (fst acc)) as [p|] eqn:E; auto.
  cbn [fst]. rewrite has_set. destruct (x =? y) eqn:Exy; auto.
  apply String.eqb_eq in Exy. subst y. unfold has. now rewrite E.
Qed.

Lemma collapse_steps_has l y : forall acc,
  has y (fst (fold_left collapse_step l acc)) = has y (fst acc).
Proof.
  induction l as [|x l IH]; intros acc; simpl; auto.
  now rewrite IH, collapse_step_has.
Qed.

Lemma collapse_steps_js l : forall V inc,
  (forall x, In x l -> has x V = true) ->
  fold_left collapseValue l (Some (js_values V, inc))
  = Some (js_values (fst (fold_left collapse_step l (V, inc))),
          snd (fold_left collapse_step l (V, inc))).
Proof.
  induction l as [|x l IH]; intros V inc Hl; cbn [fold_left]; auto.
  assert (has x V = true) as Hx by (apply Hl; now left).
  unfold has in Hx. destruct (get x V) as [p|] eqn:E; [|discriminate].
  rewrite (collapseValue_pure V inc x p E).
  rewrite IH.
  - now destruct (collapse_step (V, inc) x).
  - intros y Hy. rewrite collapse_step_has. apply Hl. now right.
Qed.

(** A turn of [collapseValues] on a table of such values. *)
Lemma collapsePass_pure V :
  collapsePass (js_values V)
  = Some (js_values (fst (fold_left collapse_step (keys V) (V, false))),
          snd (fold_left collapse_step (keys V) (V, false))).
Proof.
  unfold collapsePass. rewrite keys_js_values.
  apply collapse_steps_js. intros x. apply has_In.
Qed.

Lemma names_collapse_tree V x z p :
  In z (pure_names (collapse_tree V x p)) ->
  (In z (pure_names p) /\ expands V x z = false)
  \/ exists y q,
       In y (pure_names p) /\ expands V x y = true
       /\ get y V = Some q /\ In z (pure_names q).
Proof.
  induction p as [y|n|s|op a IHa b IHb|a IHa b IHb|op a IHa];
    cbn [collapse_tree pure_names]; try contradiction.
  - destruct (expands V x y) eqn:E.
    + destruct (get y V) as [q|] eqn:Eq.
      * intros Hz. right. exists y, q. simpl. auto.
      * unfold expands, has in E. rewrite Eq in E. discriminate.
    + intros [->|[]]. left. simpl. auto.
  - rewrite !in_app_iff. intros [H|H]; [apply IHa in H | apply IHb in H];
      (destruct H as [[H1 H2]|[y [q [H1 H2]]]];
       [left; tauto | right; exists y, q; rewrite in_app_iff; tauto]).
  - rewrite !in_app_iff. intros [H|H]; [apply IHa in H | apply IHb in H];
      (destruct H as [[H1 H2]|[y [q [H1 H2]]]];
       [left; tauto | right; exists y, q; rewrite in_app_iff; tauto]).
  - exact IHa.
Qed.

Section Ranks.
Variable rk : string -> nat.

(** The names in the new value of [x] rank below those in the old one. *)
Lemma collapse_tree_ranks N V x p z :
  ranked rk N V -> get x V = Some p ->
  In z (pure_names (collapse_tree V x p)) -> has z V = true ->
  rk z < rk x /\ S (rk z) < N.
Proof.
  intros Hr Hx Hz Hh. apply names_collapse_tree in Hz.
  destruct Hz as [[Hz He]|[y [q [Hy [He [Hq Hz]]]]]].
  - unfold expands in He. rewrite Hh in He. cbn [andb] in He.
    apply negb_false_iff, String.eqb_eq in He. subst z.
    destruct (Hr x p Hx x Hz Hh). lia.
  - unfold expands in He. apply andb_true_iff in He. destruct He as [Hy' _].
    destruct (Hr x p Hx y Hy Hy'). destruct (Hr y q Hq z Hz Hh). lia.
Qed.

(** The values of the variables [done] have been rewritten in the
    current turn. *)
Let lowered (N : nat) (V : obj pure) (done : string -> Prop) : Prop :=
  forall x p,
    done x -> get x V = Some p ->
    forall y, In y (pure_names p) -> has y V = true -> S (rk y) < N.

Lemma collapse_step_ranked N acc x (done : string -> Prop) :
  ranked rk N (fst acc) -> lowered N (fst acc) done ->
  ranked rk N (fst (collapse_step acc x))
  /\ lowered N (fst (collapse_step acc x)) (fun y => done y \/ y = x).
Proof.
  intros Hr Hl. unfold collapse_step.
  destruct (get x (fst acc)) as [p|] eqn:E; cbn [fst].
  - assert (forall y, has y (set x (collapse_tree (fst acc) x p) (fst acc))
                      = has y (fst acc)) as Hhas.
    { intros y. rewrite has_set. destruct (x =? y) eqn:Exy; auto.
      apply String.eqb_eq in Exy. subst y. unfold has. now rewrite E. }
    split.
    + intros x' p' Hx' y Hy Hh. rewrite Hhas in Hh. rewrite get_set in Hx'.
      destruct (x =? x') eqn:Exx.
      * apply String.eqb_eq in Exx. subst x'. inversion Hx'; subst p'.
        destruct (collapse_tree_ranks N _ x p y Hr E Hy Hh). lia.
      * now apply (Hr x' p' Hx').
    + intros x' p' Hd Hx' y Hy Hh. rewrite Hhas in Hh. rewrite get_set in Hx'.
      destruct (x =? x') eqn:Exx.
      * apply String.eqb_eq in Exx. subst x'. inversion Hx'; subst p'.
        now destruct (collapse_tree_ranks N _ x p y Hr E Hy Hh).
      * destruct Hd as [Hd| ->];
          [now apply (Hl x' p' Hd Hx') | rewrite String.eqb_refl in Exx;
                                          discriminate].
  - split; auto. intros x' p' [Hd| ->] Hx'; [now apply (Hl x' p' Hd)|].
    congruence.
Qed.

Lemma collapse_steps_ranked N l : forall acc (done : string -> Prop),
  ranked rk N (fst acc) -> lowered N (fst acc) done ->
  ranked rk N (fst (fold_left collapse_step l acc))
  /\ lowered N (fst (fold_left collapse_step l acc))
       (fun y => done y \/ In y l).
Proof.
  induction l as [|x l IH]; intros acc done Hr Hl; simpl.
  - split; auto. intros x p [Hd|[]]. now apply Hl.
  - destruct (collapse_step_ranked N acc x done Hr Hl) as [Hr' Hl'].
    destruct (IH _ _ Hr' Hl') as [Hr'' Hl''].
    split; auto. intros x' p' Hd. apply Hl''.
    destruct Hd as [Hd|[->|Hd]]; auto.
Qed.

Lemma collapse_steps_idle l : forall acc,
  ranked rk 0 (fst acc) ->
  snd (fold_left collapse_step l acc) = snd acc.
Proof.
  induction l as [|x l IH]; intros acc Hr; simpl; auto.
  destruct (collapse_step_ranked 0 acc x (fun _ => False) Hr) as [Hr' _].
  { intros y p []. }
  rewrite (IH _ Hr'). unfold collapse_step.
  destruct (get x (fst acc)) as [p|] eqn:E; auto. cbn [snd].
  assert (existsb (expands (fst acc) x) (pure_names p) = false) as ->;
    [|now rewrite orb_false_r].
  destruct (existsb _ _) eqn:Ex; auto.
  apply existsb_exists in Ex. destruct Ex as [y [Hy He]].
  unfold expands in He. apply andb_true_iff in He. destruct He as [Hh _].
  destruct (Hr x p E y Hy Hh). lia.
Qed.

(** After a turn the ranks of the names in the values are one lower. *)
Lemma collapse_turn_ranked N V :
  ranked rk N V ->
  ranked rk (pred N) (fst (fold_left collapse_step (keys V) (V, false)))
  /\ (N = 0 ->
      snd (fold_left collapse_step (keys V) (V, false)) = false).
Proof.
  intros Hr. split.
  - destruct (collapse_steps_ranked N (keys V) (V, false) (fun _ => False)
                Hr) as [Hr' Hl'].
    { intros x p []. }
    intros x p Hx y Hy Hh.
    destruct (Hr' x p Hx y Hy Hh) as [H1 _]. split; auto.
    assert (S (rk y) < N); [|lia].
    apply (Hl' x p); auto. right.
    apply has_In.
    pose proof (collapse_steps_has (keys V) x (V, false)) as Eh.
    cbn [fst] in Eh. rewrite <- Eh. unfold has. now rewrite Hx.
  - intros ->. now rewrite collapse_steps_idle.
Qed.

Lemma ranked_weaken N N' V : ranked rk N V -> N <= N' -> ranked rk N' V.
Proof.
  intros Hr Hle x p Hx y Hy Hh. destruct (Hr x p Hx y Hy Hh). lia.
Qed.

(** With more turns than the highest rank, [collapseValues] ends. *)
Lemma collapseValues_ends N : forall fuel V,
  N < fuel -> ranked rk N V ->
  exists V',
    collapseValues fuel (js_values V) = Some (js_values V')
    /\ ranked rk N V'.
Proof.
  induction N as [|N IH]; intros fuel V Hf Hr;
    (destruct fuel as [|fuel]; [lia|]);
    cbn [collapseValues]; rewrite collapsePass_pure;
    destruct (collapse_turn_ranked _ V Hr) as [Hr' Hi].
  - rewrite (Hi eq_refl). eauto.
  - destruct (snd (fold_left collapse_step (keys V) (V, false))).
    + assert (N < fuel) as Hf' by lia.
      destruct (IH fuel _ Hf' Hr') as [V' [H1 H2]].
      exists V'. split; auto. apply (ranked_weaken N); auto.
    + eexists. split; [reflexivity|]. apply (ranked_weaken N); auto.
Qed.
End Ranks.

(** ** Collapsing the initial values: the last turn *)

Lemma set_same {V : Type} x (v : V) o : get x o = Some v -> set x v o = o.
Proof.
  induction o as [|[k w] o IH]; simpl; [discriminate|].
  destruct (k =? x) eqn:E.
  - apply String.eqb_eq in E. intros H; inversion H; now subst.
  - intros H. now rewrite (IH H).
Qed.

Lemma collapseValue_None l : fold_left collapseValue l None = None.
Proof. induction l; simpl; auto. Qed.

(** A call of the callback that leaves [incomplete] unset asked for no
    replacement. *)
Lemma collapseNode_idle values x n t inc r :
  collapseNode values x n t inc = Some (r, false) ->
  inc = false /\ r = JUndef
  /\ (t =? "name") && has (to_key (sub n 1)) values
     && negb (loose_eq (sub n 1) x) = false.
Proof.
  unfold collapseNode.
  destruct ((t =? "name") && has (to_key (sub n 1)) values
            && negb (loose_eq (sub n 1) x)); intros H; inversion H; auto.
Qed.

Section Collapse_idle.
Variable values : obj jsval.
Variable x : string.

Let idle (v : jsval) : Prop :=
  forall inc r v',
    traverse (collapseNode values x) v inc = Some (r, v', false) ->
    inc = false /\ truthy r = false /\ v' = v
    /\ forall n, In n (visited v) -> fires values x n = false.

Lemma collapse_children_idle type l :
  Forall idle l ->
  forall inc r l',
    traverse_children (collapseNode values x) type l inc
    = Some (r, l', false) ->
    inc = false /\ l' = l
    /\ forall n, In n (visited_children type l) -> fires values x n = false.
Proof.
  induction 1 as [|c rest Hc _ IH]; intros inc r l' H; simpl in H.
  - inversion H; subst. repeat split; auto. intros n [].
  - cbn [visited_children].
    destruct (is_subnode c && _).
    + destruct (traverse (collapseNode values x) c inc)
        as [[[sr sn] s2]|] eqn:Ec; [|discriminate].
      assert (is_false sr = false) as Ef.
      { destruct (traverse_answer _ _ _ _ _ _ Ec) as [->|Ht]; auto.
        destruct sr as [| |[]| | |]; simpl in *; congruence. }
      rewrite Ef in H.
      destruct (traverse_children _ type rest s2) as [[[r1 l1] s3]|] eqn:Er;
        [|discriminate].
      inversion H; subst.
      destruct (IH _ _ _ Er) as [-> [-> Hrest]].
      destruct (Hc _ _ _ Ec) as [-> [Ht [-> Hn]]].
      rewrite Ht. repeat split; auto.
      intros n Hin. apply in_app_iff in Hin. destruct Hin; auto.
    + destruct (traverse_children _ type rest inc) as [[[r1 l1] s3]|] eqn:Er;
        [|discriminate].
      inversion H; subst.
      destruct (IH _ _ _ Er) as [-> [-> Hrest]]. repeat split; auto.
Qed.

Lemma collapse_idle v : idle v.
Proof.
  induction v as [| | | |str|l IH] using jsval_tree_ind;
    intros inc r v'; try (simpl; congruence).
  - simpl. intros H; inversion H; subst. repeat split; auto. intros ? [].
  - simpl. intros H; inversion H; subst. repeat split; auto. intros ? [].
  - destruct str as [|c str]; cbn [traverse visited].
    + intros H; inversion H; subst. repeat split; auto. intros ? [].
    + destruct (collapseNode values x _ _ inc) as [[res s1]|] eqn:E;
        [|discriminate].
      intros H; inversion H; subst.
      destruct (collapseNode_idle _ _ _ _ _ _ E) as [-> [-> _]].
      repeat split; auto. intros ? [<-|[]].
      unfold fires. cbn [type_of].
      assert ((String c "" =? "name") = false) as ->; [|reflexivity].
      simpl. now destruct (Ascii.eqb c "n").
  - rewrite traverse_JArr, visited_JArr.
    destruct (match at_ l 0 with JStr t => _ | _ => _ end)
      as [[res s1]|] eqn:E; [|discriminate].
    destruct (truthy res) eqn:Et.
    + intros H; inversion H; subst.
      destruct (at_ l 0) eqn:Ea; try (inversion E; subst; discriminate).
      destruct (collapseNode_idle _ _ _ _ _ _ E) as [_ [-> _]].
      discriminate.
    + destruct (traverse_children _ (at_ l 0) l s1)
        as [[[r0 l0] s0]|] eqn:Ec; [|discriminate].
      intros H; inversion H; subst.
      pose proof (traverse_children_answer _ _ _ _ _ _ _ Ec) as ->.
      destruct (collapse_children_idle _ _ IH _ _ _ Ec) as [-> [-> Hch]].
      destruct (at_ l 0) eqn:Ea;
        try (inversion E; subst; repeat split; now auto).
      destruct (collapseNode_idle _ _ _ _ _ _ E) as [-> [_ Hroot]].
      repeat split; auto. intros m Hin. apply in_app_iff in Hin.
      destruct Hin as [[<-|[]]|Hin]; auto.
      unfold fires. now rewrite (type_of_JArr _ _ Ea).
Qed.

End Collapse_idle.

(** A turn that leaves [incomplete] unset has changed nothing and has
    found nothing to replace. *)
Lemma collapse_steps_untouched l : forall vals inc vals',
  fold_left collapseValue l (Some (vals, inc)) = Some (vals', false) ->
  inc = false /\ vals' = vals
  /\ forall x v n,
       In x l -> get x vals = Some v -> In n (visited v) ->
       fires vals x n = false.
Proof.
  induction l as [|x l IH]; intros vals inc vals' H; cbn [fold_left] in H.
  - inversion H; subst. repeat split; auto. intros x v n [].
  - destruct (collapseValue (Some (vals, inc)) x) as [[vals1 inc1]|] eqn:E;
      [|now rewrite collapseValue_None in H].
    destruct (IH _ _ _ H) as [-> [-> Hrest]].
    unfold collapseValue in E.
    destruct (get x vals) as [v|] eqn:Ex; [|discriminate].
    destruct (traverse (collapseNode vals x) v inc) as [[[r v'] i]|] eqn:Et;
      [|discriminate].
    inversion E; subst.
    destruct (collapse_idle vals x v _ _ _ Et) as [-> [Hr [-> Hn]]].
    rewrite Hr, (set_same _ _ _ Ex) in *.
    repeat split; auto.
    intros y w n [<-|Hy] Hw Hin; [|eauto].
    rewrite Ex in Hw. inversion Hw; subst. auto.
Qed.

(** The table that [collapseValues] returns is one on which a further
    turn finds nothing to replace. *)
Lemma collapseValues_fixed fuel : forall vals vals',
  collapseValues fuel vals = Some vals' ->
  forall x v n,
    get x vals' = Some v -> In n (visited v) -> fires vals' x n = false.
Proof.
  induction fuel as [|fuel IH]; intros vals vals' H; simpl in H;
    [discriminate|].
  destruct (collapsePass vals) as [[vals1 [|]]|] eqn:E; try discriminate.
  - eauto.
  - inversion H; subst. unfold collapsePass in E.
    destruct (collapse_steps_untouched _ _ _ _ E) as [_ [-> Hn]].
    intros x v n Hx Hin. apply (Hn x v n); auto.
    apply get_In. congruence.
Qed.

Lemma collapseValue_keys x acc vals inc :
  collapseValue acc x = Some (vals, inc) ->
  exists vals0 inc0, acc = Some (vals0, inc0) /\ keys vals = keys vals0.
Proof.
  unfold collapseValue. destruct acc as [[vals0 inc0]|]; [|discriminate].
  destruct (get x vals0) as [v|] eqn:Ex; [|discriminate].
  destruct (traverse _ v inc0) as [[[r v'] i]|]; [|discriminate].
  intros H; inversion H; subst. exists vals0, inc0. split; auto.
  rewrite keys_set. unfold has. now rewrite Ex.
Qed.

Lemma collapseValues_keys fuel : forall vals vals',
  collapseValues fuel vals = Some vals' -> keys vals' = keys vals.
Proof.
  assert (forall l acc vals inc,
             fold_left collapseValue l acc = Some (vals, inc) ->
             exists vals0 inc0,
               acc = Some (vals0, inc0) /\ keys vals = keys vals0) as Hfold.
  { induction l as [|x l IH]; intros acc vals inc H; cbn [fold_left] in H.
    - subst. eauto.
    - destruct (IH _ _ _ H) as [v1 [i1 [E1 K1]]].
      destruct (collapseValue_keys _ _ _ _ E1) as [v0 [i0 [E0 K0]]].
      exists v0, i0. split; auto. congruence. }
  induction fuel as [|fuel IH]; intros vals vals' H; simpl in H;
    [discriminate|].
  destruct (collapsePass vals) as [[vals1 inc]|] eqn:E; [|discriminate].
  unfold collapsePass in E.
  destruct (Hfold _ _ _ _ E) as [v0 [i0 [E0 K0]]]. inversion E0; subst.
  destruct inc.
  - rewrite (IH _ _ H). exact K0.
  - inversion H; subst. exact K0.
Qed.

(** The names of a value are met by a walk of it. *)
Lemma names_visited y p :
  In y (pure_names p) -> In (pure_js (PName y)) (visited (pure_js p)).
Proof.
  induction p as [z|n|s|op a IHa b IHb|a IHa b IHb|op a IHa];
    cbn [pure_names]; try contradiction.
  - intros [->|[]]. now left.
  - intros H. cbn [pure_js]. rewrite visited_JArr.
    cbn [at_ nth visited_children is_subnode andb app].
    rewrite !pure_js_subnode. cbn [loose_eq String.eqb Ascii.eqb andb negb].
    right. apply in_app_iff in H. rewrite !in_app_iff.
    destruct H; auto.
  - intros H. cbn [pure_js]. rewrite visited_JArr.
    cbn [at_ nth visited_children is_subnode andb app].
    rewrite !pure_js_subnode. cbn [loose_eq String.eqb Ascii.eqb andb negb].
    right. apply in_app_iff in H. rewrite !in_app_iff.
    destruct H; auto.
  - intros H. cbn [pure_js]. rewrite visited_JArr.
    cbn [at_ nth visited_children is_subnode andb app].
    rewrite !pure_js_subnode. cbn [loose_eq String.eqb Ascii.eqb andb negb].
    right. rewrite !in_app_iff. auto.
Qed.

(** ** Collapsing the initial values: the shared arrays *)

Lemma value_at_Val fuel h v : value_at fuel h (Val v) = Some v.
Proof. now destruct fuel. Qed.

Lemma update_length {A : Type} (l : list A) : forall i x,
  length (update i x l) = length l.
Proof. induction l; intros [|i] x; simpl; auto. Qed.

Lemma nth_update {A : Type} (d : A) (l : list A) : forall i j x,
  nth j (update i x l) d
  = if (j =? i)%nat && (i <? length l)%nat then x else nth j l d.
Proof.
  induction l as [|y l IH]; intros i j x.
  - simpl. rewrite andb_false_r. now destruct i.
  - destruct i as [|i], j as [|j]; simpl; auto.
Qed.

Lemma sum_update {A : Type} (f : A -> nat) (d : A) (l : list A) : forall i x,
  i < length l ->
  list_sum (map f (update i x l)) + f (nth i l d)
  = list_sum (map f l) + f x.
Proof.
  induction l as [|y l IH]; intros [|i] x Hi; simpl in *; try lia.
  specialize (IH i x ltac:(lia)). lia.
Qed.

Lemma Forall2_update {A B : Type} (R : A -> B -> Prop) (d : A) l0 :
  forall l i x,
    Forall2 R l0 l -> R (nth i l0 d) x -> Forall2 R l0 (update i x l).
Proof.
  induction l0 as [|y0 l0 IH]; intros l i x H Hx; inversion H; subst.
  - destruct i; constructor.
  - destruct i as [|i]; simpl in *; constructor; auto.
Qed.

Lemma Forall2_nth {A B : Type} (R : A -> B -> Prop) (d0 : A) (d : B) l0 :
  forall l i,
    Forall2 R l0 l -> i < length l -> R (nth i l0 d0) (nth i l d).
Proof.
  induction l0 as [|y0 l0 IH]; intros l i H Hi; inversion H; subst.
  - simpl in Hi. lia.
  - destruct i as [|i]; simpl in *; auto. apply IH; auto. lia.
Qed.

Lemma assign_length h a i c : length (assign h a i c) = length h.
Proof. apply update_length. Qed.

Lemma deref_assign h a i c b :
  deref (assign h a i c) b
  = if (b =? a)%nat && (a <? length h)%nat then update i c (deref h a)
    else deref h b.
Proof. unfold assign, deref. apply nth_update. Qed.

Lemma deref_outside h a : length h <= a -> deref h a = [].
Proof. intros H. unfold deref. now apply nth_overflow. Qed.

Lemma deref_app h more a : a < length h -> deref (h ++ more) a = deref h a.
Proof. intros H. unfold deref. now apply app_nth1. Qed.

Lemma deref_last h node : deref (h ++ [node]) (length h) = node.
Proof. unfold deref. rewrite app_nth2, Nat.sub_diag; auto. Qed.

Lemma pure_node_update n l i b r :
  pure_node n l -> nth i l (Val JUndef) = Ref b -> r < n ->
  pure_node n (update i (Ref r) l) /\ i < length l
  /\ name_of l = None /\ name_of (update i (Ref r) l) = None.
Proof.
  intros Hp Hi Hr.
  destruct Hp; repeat (destruct i as [|i]; try discriminate);
    simpl in *; repeat split; try lia; try reflexivity;
    constructor; assumption.
Qed.

Lemma pure_node_cons n l : pure_node n l -> l <> [].
Proof. now destruct 1. Qed.

Lemma pure_node_child n l i b :
  pure_node n l -> nth i l (Val JUndef) = Ref b -> b < n.
Proof.
  intros Hp Hi.
  destruct Hp; repeat (destruct i as [|i]; try discriminate);
    injection Hi as <-; assumption.
Qed.

Lemma pure_node_mono n n' l : pure_node n l -> n <= n' -> pure_node n' l.
Proof. intros H Hn. destruct H; constructor; lia. Qed.

Lemma repr_inside h a p : repr h a p -> a < length h.
Proof.
  intros H. destruct (Nat.lt_ge_cases a (length h)) as [|Hge]; auto.
  apply deref_outside in Hge. destruct H; congruence.
Qed.

Lemma repr_app h more a p : repr h a p -> repr (h ++ more) a p.
Proof.
  intros H. induction H;
    [ apply repr_name | apply repr_num | apply repr_string
    | eapply repr_binary | eapply repr_sub | eapply repr_prefix ];
    eauto;
    (rewrite deref_app; [eassumption|]);
    (match goal with E : deref ?h ?a = _ |- ?a < _ =>
       destruct (Nat.lt_ge_cases a (length h)) as [|Hge]; auto;
       apply deref_outside in Hge; congruence
     end).
Qed.

Lemma repr_functional h a p : repr h a p -> forall q, repr h a q -> p = q.
Proof.
  intros H. induction H; intros q' Hq; inversion Hq; subst;
    try congruence.
  - assert (b0 = b /\ c0 = c /\ op0 = op) as [-> [-> ->]]
        by (repeat split; congruence).
    f_equal; auto.
  - assert (b0 = b /\ c0 = c) as [-> ->] by (split; congruence).
    f_equal; auto.
  - assert (b0 = b /\ op0 = op) as [-> ->] by (split; congruence).
    f_equal; auto.
Qed.

Lemma repr_name_at h a p y : repr h a p -> name_at h a = Some y -> p = PName y.
Proof.
  unfold name_at. intros H Hn. destruct H as [a y' E|a ? E|a ? E|a ? ? ? ? ? E
                                             |a ? ? ? ? E|a ? ? ? E];
    rewrite E in Hn; cbn in Hn; congruence.
Qed.

(** ** Collapsing the initial values: expansions *)

Lemma expands_refl V p : expands_to V p p.
Proof. induction p; constructor; auto. Qed.

Lemma expands_trans V p q : expands_to V p q ->
  forall r, expands_to V q r -> expands_to V p r.
Proof.
  intros H. induction H; intros r Hr; auto.
  - eapply ex_value; eauto.
  - inversion Hr; subst. constructor; auto.
  - inversion Hr; subst. constructor; auto.
  - inversion Hr; subst. constructor; auto.
Qed.

(** Two expansions that name no variable of the table are the same. *)
Lemma expands_unique V p q : expands_to V p q ->
  forall q', expands_to V p q' ->
  (forall y, In y (pure_names q) -> has y V = false) ->
  (forall y, In y (pure_names q') -> has y V = false) ->
  q = q'.
Proof.
  intros H. induction H as [y|y q0 q1 Hy H IH|z|s|op a b a' b' Ha IHa Hb IHb
                           |a b a' b' Ha IHa Hb IHb|op a a' Ha IHa];
    intros q' Hq' Hc Hc'.
  - inversion Hq' as [|y' q2 q3 Hy2 H2| | | | |]; subst; auto.
    specialize (Hc y (or_introl eq_refl)). unfold has in Hc.
    now rewrite Hy2 in Hc.
  - inversion Hq' as [y'|y' q2 q3 Hy2 H2| | | | |]; subst.
    + specialize (Hc' y (or_introl eq_refl)). unfold has in Hc'.
      now rewrite Hy in Hc'.
    + rewrite Hy in Hy2. injection Hy2 as <-. now apply IH.
  - now inversion Hq'.
  - now inversion Hq'.
  - inversion Hq'; subst. cbn [pure_names] in Hc, Hc'.
    f_equal; [apply IHa|apply IHb]; auto; intros y Hy;
      [apply Hc|apply Hc'|apply Hc|apply Hc']; apply in_app_iff; auto.
  - inversion Hq'; subst. cbn [pure_names] in Hc, Hc'.
    f_equal; [apply IHa|apply IHb]; auto; intros y Hy;
      [apply Hc|apply Hc'|apply Hc|apply Hc']; apply in_app_iff; auto.
  - inversion Hq'; subst. f_equal. apply IHa; auto.
Qed.

Lemma In_get {V : Type} (o : obj V) k v :
  NoDup (keys o) -> In (k, v) o -> get k o = Some v.
Proof.
  induction o as [|[k' v'] o IH]; simpl; [tauto|].
  intros Hnd [E|Hin].
  - injection E as -> ->. now rewrite String.eqb_refl.
  - inversion Hnd as [|? ? Hni Hnd']; subst.
    destruct (k' =? k) eqn:E.
    + apply String.eqb_eq in E. subst k'. exfalso. apply Hni.
      change k with (fst (k, v)). now apply in_map.
    + now apply IH.
Qed.

Lemma has_keys {V W : Type} (o : obj V) (o' : obj W) y :
  keys o = keys o' -> has y o = has y o'.
Proof. intros E. now rewrite <- !mem_keys_has, E. Qed.

Section Shared.
Variable st : setting.
Local Abbreviation rk := (ranks st).
Local Abbreviation V := (initial st).
Local Abbreviation h0 := (store0 st).
Local Abbreviation lvl := (level st).
Local Abbreviation B := (bound st).
Hypothesis B_mono : forall x y, rk y < rk x -> B y <= B x.
Hypothesis h0_subnodes : forall a i b,
  nth i (deref h0 a) (Val JUndef) = Ref b -> exists p, repr h0 b p.

Lemma weight_drop h values b y r :
  Inv st h values ->
  name_at h0 b = Some y -> has y V = true -> get y values = Some (Ref r) ->
  wcell st (Ref r) < wcell st (Ref b).
Proof.
  intros HI Hb Hy Hr. unfold wcell. rewrite Hb, Hy.
  destruct (name_at h0 r) as [z|] eqn:Hz; [|lia].
  destruct (has z V) eqn:Hiz; [|lia].
  pose proof (inv_root HI y r z Hr Hz Hiz). lia.
Qed.

Lemma wstore_assign h a i c :
  a < length h -> i < length (deref h a) ->
  wstore st (assign h a i c) + wcell st (nth i (deref h a) (Val JUndef))
  = wstore st h + wcell st c.
Proof.
  intros Ha Hi. unfold wstore, assign.
  pose proof (sum_update (wnode st) [] h a (update i c (deref h a)) Ha) as H1.
  pose proof (sum_update (wcell st) (Val JUndef) (deref h a) i c Hi) as H2.
  fold (deref h a) in H1.
  change (wnode st (deref h a)) with (list_sum (map (wcell st) (deref h a))) in H1.
  change (wnode st (update i c (deref h a)))
    with (list_sum (map (wcell st) (update i c (deref h a)))) in H1.
  lia.
Qed.

(** The value of [y] in the table is an expansion of the name [y]. *)
Lemma linked_value h values b0 b y r :
  Inv st h values ->
  linked st b0 b -> name_at h0 b = Some y -> has y V = true ->
  get y values = Some (Ref r) -> linked st b0 r.
Proof.
  intros HI Hl Hb Hy Hr p0 Hp0.
  destruct (Hl p0 Hp0) as [p1 [Hp1 He]].
  rewrite (repr_name_at h0 b p1 y Hp1 Hb) in He.
  unfold has in Hy. destruct (get y V) as [q|] eqn:Hq; [|discriminate].
  destruct (inv_vals HI y r q Hr Hq) as [p2 [Hp2 He2]].
  exists p2. split; [exact Hp2|].
  apply (expands_trans V p0 (PName y) He). now apply ex_value with q.
Qed.

Lemma assign_Inv h values a i b y r :
  Inv st h values -> a < length h ->
  nth i (deref h a) (Val JUndef) = Ref b ->
  name_at h0 b = Some y -> has y V = true -> get y values = Some (Ref r) ->
  Inv st (assign h a i (Ref r)) values
  /\ wstore st (assign h a i (Ref r)) < wstore st h.
Proof.
  intros HI Ha Hi Hb Hy Hr.
  destruct (inv_tab HI y _ Hr) as [r' [E [Hrl Hrb]]].
  injection E as <-.
  destruct (pure_node_update _ _ i b r (inv_shape HI a Ha) Hi Hrl)
    as [Hp [Hil [Hn1 Hn2]]].
  assert (forall a', deref (assign h a i (Ref r)) a'
                     = if (a' =? a)%nat then update i (Ref r) (deref h a)
                       else deref h a') as Hd.
  { intros a'. rewrite deref_assign.
    apply Nat.ltb_lt in Ha. now rewrite Ha, andb_true_r. }
  split.
  - constructor.
    + intros a' Ha'. rewrite assign_length in *. rewrite Hd.
      destruct (a' =? a)%nat; [exact Hp|]. now apply (inv_shape HI).
    + intros b'. unfold name_at at 1. rewrite Hd.
      destruct (b' =? a)%nat eqn:E.
      * apply Nat.eqb_eq in E. subst b'. rewrite Hn2, <- Hn1.
        apply (inv_names HI).
      * apply (inv_names HI).
    + intros a' j b'. rewrite Hd.
      destruct (a' =? a)%nat eqn:E; [|apply (inv_down HI)].
      apply Nat.eqb_eq in E. subst a'. rewrite nth_update.
      destruct ((j =? i)%nat && _) eqn:Ej.
      * intros [= <-].
        pose proof (inv_band HI a i b y Hi Hb Hy). lia.
      * apply (inv_down HI).
    + intros a' j b' z. rewrite Hd.
      destruct (a' =? a)%nat eqn:E; [|apply (inv_band HI)].
      apply Nat.eqb_eq in E. subst a'. rewrite nth_update.
      destruct ((j =? i)%nat && _) eqn:Ej.
      * intros [= <-] Hz Hiz.
        pose proof (inv_band HI a i b y Hi Hb Hy).
        pose proof (inv_root HI y r z Hr Hz Hiz).
        pose proof (B_mono y z ltac:(lia)). lia.
      * apply (inv_band HI).
    + intros x c Hx. rewrite assign_length. apply (inv_tab HI x c Hx).
    + apply (inv_root HI).
    + apply (inv_keys HI).
    + intros a'. rewrite Hd.
      destruct (a' =? a)%nat eqn:E; [|apply (inv_slots HI)].
      apply Nat.eqb_eq in E. subst a'.
      apply (Forall2_update _ (Val JUndef)); [apply (inv_slots HI)|].
      pose proof (Forall2_nth _ (Val JUndef) (Val JUndef) _ _ i
                    (inv_slots HI a) Hil) as Hs.
      rewrite Hi in Hs. unfold slot_ok in *.
      destruct (nth i (deref h0 a) (Val JUndef)) as [v0|b0]; [exact Hs|].
      exact (linked_value h values b0 b y r HI Hs Hb Hy Hr).
    + apply (inv_vals HI).
  - pose proof (wstore_assign h a i (Ref r) Ha Hil) as Hw.
    rewrite Hi in Hw.
    pose proof (weight_drop h values b y r HI Hb Hy Hr). lia.
Qed.

Lemma slot_step values h inc a i b res h1 inc1 :
  Inv st h values -> a < length h ->
  nth i (deref h a) (Val JUndef) = Ref b ->
  fired st values b h (res, h1, inc1) \/ passed st values b h inc (res, h1, inc1) ->
  is_false_cell res = false
  /\ Inv st (if truthy_cell res then assign h1 a i res else h1) values
  /\ length (if truthy_cell res then assign h1 a i res else h1) = length h
  /\ (forall a', lvl a < lvl a' ->
       deref (if truthy_cell res then assign h1 a i res else h1) a'
       = deref h a')
  /\ (((if truthy_cell res then assign h1 a i res else h1) = h
       /\ inc1 = inc /\ quiet st h b)
      \/ (inc1 = true
          /\ wstore st (if truthy_cell res then assign h1 a i res else h1)
             < wstore st h)).
Proof.
  intros HI Ha Hi [[y [r [Hb [Hy [Hr E]]]]]|[h' [inc' [E [HI' [Hl [Hf Hq]]]]]]].
  - injection E as -> -> ->. cbn [truthy_cell is_false_cell].
    destruct (assign_Inv h values a i b y r HI Ha Hi Hb Hy Hr) as [HI2 Hw].
    split; [reflexivity|]. split; [exact HI2|].
    split; [apply assign_length|]. split.
    + intros a' Hl. rewrite deref_assign.
      destruct (a' =? a)%nat eqn:Ea; [|reflexivity].
      apply Nat.eqb_eq in Ea. subst. lia.
    + right. auto.
  - injection E as -> -> ->. cbn [truthy_cell truthy is_false_cell is_false].
    pose proof (inv_down HI a i b Hi) as Hlt.
    split; [reflexivity|]. split; [exact HI'|]. split; [exact Hl|].
    split; [|exact Hq].
    intros a' Hl'. apply Hf. lia.
Qed.

Lemma children_Val {St : Type}
  (walk : nat -> store -> St -> option (cell * store * St))
  fuel type a n index h s v :
  nth index (deref h a) (Val JUndef) = Val v ->
  traverse_children_at walk fuel type a (S n) index h s
  = traverse_children_at walk fuel type a n (S index) h s.
Proof. intros H. simpl. now rewrite H. Qed.

Lemma children_Ref {St : Type}
  (walk : nat -> store -> St -> option (cell * store * St))
  fuel type a n index h s b res h' s' :
  nth index (deref h a) (Val JUndef) = Ref b ->
  enters fuel h type b = Some true ->
  walk b h s = Some (res, h', s') ->
  is_false_cell res = false ->
  traverse_children_at walk fuel type a (S n) index h s
  = traverse_children_at walk fuel type a n (S index)
      (if truthy_cell res then assign h' a index res else h') s'.
Proof. intros H1 H2 H3 H4. simpl. now rewrite H1, H2, H3, H4. Qed.

Section Walk.
Variable depth : nat.
Variable values : obj cell.
Variable x : string.
Hypothesis x_in_table : has x V = true.

Lemma enters_pure fuel h t b :
  Inv st h values -> b < length h -> (t =? "for-in") = false ->
  enters fuel h (Val (JStr t)) b = Some true.
Proof.
  intros HI Hb Ht. unfold enters.
  pose proof (pure_node_cons _ _ (inv_shape HI b Hb)) as Hne.
  destruct (deref h b); [congruence|].
  unfold loose_eq_at. rewrite value_at_Val. cbn [option_map loose_eq].
  now rewrite Ht.
Qed.

Lemma notself_child h a i b :
  Inv st h values -> lvl a < B x ->
  nth i (deref h a) (Val JUndef) = Ref b ->
  forall y, name_at h0 b = Some y -> y <> x.
Proof.
  intros HI Ha Hi y Hy ->.
  pose proof (inv_band HI a i b x Hi Hy x_in_table). lia.
Qed.

Section Children.
Variable fuel : nat.
Hypothesis walk_fuel : forall b h inc,
  Inv st h values -> b < length h -> lvl b < fuel -> lvl b < B x ->
  (forall y, name_at h0 b = Some y -> y <> x) ->
  exists out,
    traverse_at (collapseNode_at depth values x) fuel b h inc = Some out
    /\ (fired st values b h out \/ passed st values b h inc out).

Lemma children_spec t a : forall n k h inc,
  Inv st h values -> a < length h -> lvl a <= fuel -> lvl a < B x ->
  (t =? "for-in") = false ->
  exists h' inc',
    traverse_children_at
      (traverse_at (collapseNode_at depth values x) fuel) fuel
      (Val (JStr t)) a n k h inc
    = Some (Val JUndef, h', inc')
    /\ Inv st h' values /\ length h' = length h
    /\ (forall a', lvl a < lvl a' -> deref h' a' = deref h a')
    /\ ((h' = h /\ inc' = inc
         /\ forall j b, k <= j < k + n ->
                        nth j (deref h a) (Val JUndef) = Ref b -> quiet st h b)
        \/ (inc' = true /\ wstore st h' < wstore st h)).
Proof.
  induction n as [|n IH]; intros k h inc HI Ha Hf HB Ht.
  - exists h, inc. simpl. split; [reflexivity|]. split; [exact HI|].
    split; [reflexivity|]. split; [reflexivity|]. left.
    split; [reflexivity|]. split; [reflexivity|]. intros j b Hj. lia.
  - destruct (nth k (deref h a) (Val JUndef)) as [v|b] eqn:Hk.
    + rewrite (children_Val _ _ _ _ _ _ _ _ v Hk).
      destruct (IH (S k) h inc HI Ha Hf HB Ht)
        as [h' [inc' [E [HI' [Hl [Hfr Hq]]]]]].
      exists h', inc'. split; [exact E|]. split; [exact HI'|].
      split; [exact Hl|]. split; [exact Hfr|].
      destruct Hq as [[-> [-> Hq]]|Hq]; [left|right; exact Hq].
      split; [reflexivity|]. split; [reflexivity|]. intros j b Hj Hjb.
      destruct (Nat.eq_dec j k) as [->|Hne]; [congruence|].
      apply (Hq j b); [lia|exact Hjb].
    + pose proof (pure_node_child _ _ k b (inv_shape HI a Ha) Hk) as Hb.
      pose proof (inv_down HI a k b Hk) as Hlt.
      destruct (walk_fuel b h inc HI Hb ltac:(lia) ltac:(lia)
                  (notself_child h a k b HI HB Hk))
        as [[[res h1] inc1] [Ew Hout]].
      destruct (slot_step values h inc a k b res h1 inc1 HI Ha Hk Hout)
        as [Hnf [HI2 [Hl2 [Hfr2 Hq2]]]].
      rewrite (children_Ref _ _ _ _ _ _ _ _ b res h1 inc1 Hk
                 (enters_pure fuel h t b HI Hb Ht) Ew Hnf).
      assert (a < length (if truthy_cell res then assign h1 a k res
                          else h1)) as Ha2 by (rewrite Hl2; exact Ha).
      destruct (IH (S k) _ inc1 HI2 Ha2 Hf HB Ht)
        as [h' [inc' [E [HI' [Hl [Hfr Hq]]]]]].
      exists h', inc'. split; [exact E|]. split; [exact HI'|].
      split; [exact (eq_trans Hl Hl2)|]. split.
      { intros a' Ha'. exact (eq_trans (Hfr a' Ha') (Hfr2 a' Ha')). }
      destruct Hq2 as [[E2 [-> Hqb]]|[-> Hw2]].
      * destruct Hq as [[-> [-> Hq]]|Hq].
        -- left. split; [exact E2|]. split; [reflexivity|].
           intros j b' Hj Hjb. rewrite E2 in Hq.
           destruct (Nat.eq_dec j k) as [->|Hne].
           ++ rewrite Hk in Hjb. injection Hjb as <-. exact Hqb.
           ++ apply (Hq j b'); [lia|exact Hjb].
        -- right. rewrite E2 in Hq. exact Hq.
      * right. destruct Hq as [[-> [-> _]]|[-> Hw]]; split; auto; lia.
Qed.
End Children.

Lemma walk_spec : forall fuel a h inc,
  Inv st h values -> a < length h -> lvl a < fuel -> lvl a < B x ->
  (forall y, name_at h0 a = Some y -> y <> x) ->
  exists out,
    traverse_at (collapseNode_at depth values x) fuel a h inc = Some out
    /\ (fired st values a h out \/ passed st values a h inc out).
Proof.
  induction fuel as [|fuel IH]; intros a h inc HI Ha Hf HB Hself; [lia|].
  assert (forall t,
             nth 0 (deref h a) (Val JUndef) = Val (JStr t) ->
             (t =? "for-in") = false ->
             collapseNode_at depth values x h a t inc
             = Some (Val JUndef, inc) ->
             ((forall j b, 0 <= j < 0 + length (deref h a) ->
                           nth j (deref h a) (Val JUndef) = Ref b ->
                           quiet st h b) -> quiet st h a) ->
             exists out,
               traverse_at (collapseNode_at depth values x) (S fuel) a h inc
               = Some out
               /\ (fired st values a h out \/ passed st values a h inc out))
    as Hgo.
  { intros t Ht Hfi Hcb Hq. cbn [traverse_at]. rewrite Ht, Hcb.
    cbn [truthy_cell truthy].
    destruct (children_spec fuel IH t a (length (deref h a)) 0 h inc
                HI Ha ltac:(lia) HB Hfi)
      as [h' [inc' [E [HI' [Hl [Hfr Hq']]]]]].
    rewrite E. eexists. split; [reflexivity|]. right.
    exists h', inc'. split; [reflexivity|]. split; [exact HI'|].
    split; [exact Hl|]. split; [exact Hfr|].
    destruct Hq' as [[-> [-> Hq']]|Hq']; [left|right; exact Hq'].
    split; [reflexivity|]. split; [reflexivity|]. now apply Hq. }
  pose proof (inv_shape HI a Ha) as Hp.
  pose proof (inv_names HI a) as Hn. unfold name_at at 1 in Hn.
  remember (deref h a) as l eqn:El.
  destruct Hp as [y|z|s|op b c Hb Hc|b c Hb Hc|op b Hb].
  - (* name *)
    cbn in Hn.
    destruct (has y V && negb (y =? x)) eqn:Hfire.
    + apply andb_true_iff in Hfire. destruct Hfire as [Hy Hne].
      pose proof (inv_keys HI y) as Hk. rewrite Hy in Hk.
      unfold has in Hk. destruct (get y values) as [c|] eqn:Hg;
        [|discriminate].
      destruct (inv_tab HI y c Hg) as [r [-> [Hr Hrl]]].
      eexists. split.
      * cbn [traverse_at]. rewrite <- El. cbn [nth].
        unfold collapseNode_at. rewrite <- El.
        cbn [nth String.eqb Ascii.eqb Bool.eqb].
        rewrite value_at_Val. cbn [to_key loose_eq].
        rewrite (inv_keys HI y), Hy, Hne, Hg. cbn [andb truthy_cell].
        reflexivity.
      * left. exists y, r. auto.
    + apply Hgo with (t := "name"); try reflexivity.
      * unfold collapseNode_at. rewrite <- El.
        cbn [nth String.eqb Ascii.eqb Bool.eqb].
        rewrite value_at_Val. cbn [to_key loose_eq].
        now rewrite (inv_keys HI y), Hfire.
      * intros _. exists (PName y). split; [constructor; auto|].
        intros y' [<-|[]].
        destruct (has y V) eqn:Hy; [|reflexivity].
        cbn in Hfire. apply negb_false_iff, String.eqb_eq in Hfire.
        exfalso. apply (Hself y); auto.
  - apply Hgo with (t := "num"); try reflexivity.
    intros _. exists (PNum z). split; [constructor; auto|]. intros y [].
  - apply Hgo with (t := "string"); try reflexivity.
    intros _. exists (PString s). split; [constructor; auto|]. intros y [].
  - apply Hgo with (t := "binary"); try reflexivity.
    intros Hq. destruct (Hq 2 b ltac:(simpl; lia) eq_refl) as [p [Hp1 Hp2]].
    destruct (Hq 3 c ltac:(simpl; lia) eq_refl) as [q [Hq1 Hq2]].
    exists (PBinary op p q). split; [econstructor; eauto|].
    intros y Hy. apply in_app_iff in Hy. destruct Hy; auto.
  - apply Hgo with (t := "sub"); try reflexivity.
    intros Hq. destruct (Hq 1 b ltac:(simpl; lia) eq_refl) as [p [Hp1 Hp2]].
    destruct (Hq 2 c ltac:(simpl; lia) eq_refl) as [q [Hq1 Hq2]].
    exists (PSub p q). split; [econstructor; eauto|].
    intros y Hy. apply in_app_iff in Hy. destruct Hy; auto.
  - apply Hgo with (t := "unary-prefix"); try reflexivity.
    intros Hq. destruct (Hq 2 b ltac:(simpl; lia) eq_refl) as [p [Hp1 Hp2]].
    exists (PPrefix op p). split; [econstructor; eauto|]. auto.
Qed.
End Walk.

Lemma wtable_set x c c' values :
  get x values = Some c ->
  wtable st (set x c' values) + wcell st c = wtable st values + wcell st c'.
Proof.
  unfold wtable.
  induction values as [|[k v] r IH]; simpl; [discriminate|].
  destruct (k =? x) eqn:E; simpl.
  - intros [= ->]. lia.
  - intros H. specialize (IH H). lia.
Qed.

Lemma set_Inv h values x a y r :
  Inv st h values -> get x values = Some (Ref a) ->
  name_at h0 a = Some y -> has y V = true -> get y values = Some (Ref r) ->
  Inv st h (set x (Ref r) values)
  /\ wtable st (set x (Ref r) values) < wtable st values.
Proof.
  intros HI Hx Ha Hy Hr.
  pose proof (inv_root HI x a y Hx Ha Hy) as Hrk.
  destruct (inv_tab HI y _ Hr) as [r' [E [Hrl Hrb]]]. injection E as <-.
  split.
  - constructor.
    + apply (inv_shape HI).
    + apply (inv_names HI).
    + apply (inv_down HI).
    + apply (inv_band HI).
    + intros x' c. rewrite get_set. destruct (x =? x') eqn:E.
      * apply String.eqb_eq in E. subst x'. intros [= <-].
        exists r. split; [reflexivity|]. split; [exact Hrl|].
        pose proof (B_mono x y Hrk). lia.
      * apply (inv_tab HI).
    + intros x' r' z. rewrite get_set. destruct (x =? x') eqn:E.
      * apply String.eqb_eq in E. subst x'. intros [= <-] Hz Hiz.
        pose proof (inv_root HI y r z Hr Hz Hiz). lia.
      * apply (inv_root HI).
    + intros y'. rewrite has_set. destruct (x =? y') eqn:E.
      * apply String.eqb_eq in E. subst y'. simpl.
        rewrite <- (inv_keys HI x). unfold has. now rewrite Hx.
      * apply (inv_keys HI).
    + apply (inv_slots HI).
    + intros x' r' p. rewrite get_set. destruct (x =? x') eqn:E.
      * apply String.eqb_eq in E. subst x'. intros [= <-] Hp.
        destruct (inv_vals HI x a p Hx Hp) as [p1 [Hp1 He]].
        rewrite (repr_name_at h0 a p1 y Hp1 Ha) in He.
        unfold has in Hy. destruct (get y V) as [q|] eqn:Hq; [|discriminate].
        destruct (inv_vals HI y r q Hr Hq) as [p2 [Hp2 He2]].
        exists p2. split; [exact Hp2|].
        apply (expands_trans V p (PName y) He). now apply ex_value with q.
      * apply (inv_vals HI).
  - pose proof (wtable_set x (Ref a) (Ref r) values Hx).
    pose proof (weight_drop h values a y r HI Ha Hy Hr). lia.
Qed.

Section Turns.
Variable depth : nat.

Lemma collapseValue_at_spec values h inc x :
  Inv st h values -> has x V = true ->
  (forall a, a < length h -> lvl a < depth) ->
  exists values' h' inc',
    collapseValue_at depth (Some (values, h, inc)) x
    = Some (values', h', inc')
    /\ Inv st h' values' /\ length h' = length h /\ keys values' = keys values
    /\ ((values' = values /\ h' = h /\ inc' = inc
         /\ quiet_entry st h values x)
        \/ (inc' = true /\ wtot st h' values' < wtot st h values)).
Proof.
  intros HI Hx Hd.
  pose proof (inv_keys HI x) as Hk. rewrite Hx in Hk. unfold has in Hk.
  destruct (get x values) as [c|] eqn:Hg; [|discriminate].
  destruct (inv_tab HI x c Hg) as [a [-> [Ha Hb]]].
  assert (forall y, name_at h0 a = Some y -> y <> x) as Hself.
  { intros y Hy ->. pose proof (inv_root HI x a x Hg Hy Hx). lia. }
  destruct (walk_spec depth values x Hx depth a h inc HI Ha (Hd a Ha) Hb Hself)
    as [[[res h1] inc1] [E Hout]].
  unfold collapseValue_at. rewrite Hg, E.
  destruct Hout as [[y [r [Hy1 [Hy2 [Hy3 Eo]]]]]
                   |[h' [inc' [Eo [HI' [Hl [Hfr Hq]]]]]]].
  - injection Eo as -> -> ->. cbn [truthy_cell].
    destruct (set_Inv h values x a y r HI Hg Hy1 Hy2 Hy3) as [HI2 Hw].
    exists (set x (Ref r) values), h, true.
    split; [reflexivity|]. split; [exact HI2|]. split; [reflexivity|].
    split.
    + rewrite keys_set. unfold has. now rewrite Hg.
    + right. split; [reflexivity|]. unfold wtot. lia.
  - injection Eo as -> -> ->. cbn [truthy_cell truthy].
    exists values, h', inc'.
    split; [reflexivity|]. split; [exact HI'|]. split; [exact Hl|].
    split; [reflexivity|].
    destruct Hq as [[-> [-> Hq]]|[-> Hw]].
    + left. repeat split; auto. exists a. auto.
    + right. split; [reflexivity|]. unfold wtot. lia.
Qed.

Lemma collapsePass_at_fold : forall l values h inc,
  Inv st h values -> (forall x, In x l -> has x V = true) ->
  (forall a, a < length h -> lvl a < depth) ->
  exists values' h' inc',
    fold_left (collapseValue_at depth) l (Some (values, h, inc))
    = Some (values', h', inc')
    /\ Inv st h' values' /\ length h' = length h /\ keys values' = keys values
    /\ ((values' = values /\ h' = h /\ inc' = inc
         /\ forall x, In x l -> quiet_entry st h values x)
        \/ (inc' = true /\ wtot st h' values' < wtot st h values)).
Proof.
  induction l as [|x l IH]; intros values h inc HI Hl Hd.
  - exists values, h, inc. simpl. split; [reflexivity|]. split; [exact HI|].
    split; [reflexivity|]. split; [reflexivity|]. left.
    repeat split; auto. intros x [].
  - destruct (collapseValue_at_spec values h inc x HI (Hl x (or_introl eq_refl))
                Hd) as [v1 [h1 [i1 [E1 [HI1 [Hl1 [Hk1 Hq1]]]]]]].
    assert (forall a, a < length h1 -> lvl a < depth) as Hd1.
    { intros a Ha. apply Hd. now rewrite <- Hl1. }
    destruct (IH v1 h1 i1 HI1 (fun y Hy => Hl y (or_intror Hy)) Hd1)
      as [v2 [h2 [i2 [E2 [HI2 [Hl2 [Hk2 Hq2]]]]]]].
    exists v2, h2, i2. cbn [fold_left]. rewrite E1.
    split; [exact E2|]. split; [exact HI2|]. split; [congruence|].
    split; [congruence|].
    destruct Hq1 as [[-> [-> [-> Hq1]]]|[-> Hw1]].
    + destruct Hq2 as [[-> [-> [-> Hq2]]]|Hq2]; [left|right; exact Hq2].
      repeat split; auto. intros y [<-|Hy]; auto.
    + right. destruct Hq2 as [[-> [-> [-> _]]]|[-> Hw2]];
        split; auto; lia.
Qed.

Lemma collapseValues_at_spec : forall fuel values h,
  Inv st h values -> (forall a, a < length h -> lvl a < depth) ->
  wtot st h values < fuel ->
  exists values' h',
    collapseValues_at depth fuel values h = Some (values', h')
    /\ Inv st h' values' /\ length h' = length h /\ keys values' = keys values
    /\ forall x, In x (keys values') -> quiet_entry st h' values' x.
Proof.
  induction fuel as [|fuel IH]; intros values h HI Hd Hw; [lia|].
  assert (forall x, In x (keys values) -> has x V = true) as Hin.
  { intros x Hx. rewrite <- (inv_keys HI x). now apply has_In. }
  destruct (collapsePass_at_fold (keys values) values h false HI Hin Hd)
    as [v1 [h1 [i1 [E1 [HI1 [Hl1 [Hk1 Hq1]]]]]]].
  cbn [collapseValues_at]. unfold collapsePass_at. rewrite E1.
  destruct Hq1 as [[-> [-> [-> Hq1]]]|[-> Hw1]].
  - exists values, h. split; [reflexivity|]. split; [exact HI|].
    split; [reflexivity|]. split; [reflexivity|]. exact Hq1.
  - assert (forall a, a < length h1 -> lvl a < depth) as Hd1.
    { intros a Ha. apply Hd. now rewrite <- Hl1. }
    destruct (IH v1 h1 HI1 Hd1 ltac:(lia))
      as [v2 [h2 [E2 [HI2 [Hl2 [Hk2 Hq2]]]]]].
    exists v2, h2. split; [exact E2|]. split; [exact HI2|].
    split; [congruence|]. split; [congruence|]. exact Hq2.
Qed.
End Turns.

(** Reading back the table. *)
Lemma repr_value_at h values :
  Inv st h values ->
  forall a p, repr h a p ->
  forall d, lvl a < d -> value_at d h (Ref a) = Some (pure_js p).
Proof.
  intros HI a p Hr.
  induction Hr as [a y E|a z E|a s E|a op b c p q E Hb IHb Hc IHc
                  |a b c p q E Hb IHb Hc IHc|a op b p E Hb IHb];
    intros [|d] Hd; try lia; cbn [value_at]; rewrite E;
    cbn [fold_right]; rewrite ?value_at_Val.
  - reflexivity.
  - reflexivity.
  - reflexivity.
  - pose proof (inv_down HI a 2 b) as H2.
    pose proof (inv_down HI a 3 c) as H3. rewrite E in H2, H3.
    rewrite (IHb d), (IHc d) by (specialize (H2 eq_refl);
                                   specialize (H3 eq_refl); lia).
    reflexivity.
  - pose proof (inv_down HI a 1 b) as H2.
    pose proof (inv_down HI a 2 c) as H3. rewrite E in H2, H3.
    rewrite (IHb d), (IHc d) by (specialize (H2 eq_refl);
                                   specialize (H3 eq_refl); lia).
    reflexivity.
  - pose proof (inv_down HI a 2 b) as H2. rewrite E in H2.
    rewrite (IHb d) by (specialize (H2 eq_refl); lia).
    reflexivity.
Qed.

(** What an array shows is an expansion of what it showed at first. *)
Lemma repr_expands h values :
  Inv st h values ->
  forall a p, repr h a p ->
  exists p0, repr h0 a p0 /\ expands_to V p0 p.
Proof.
  intros HI a p Hr.
  assert (forall b0 b q, linked st b0 b ->
             (exists q0, repr h0 b q0 /\ expands_to V q0 q) ->
             (exists i a0, nth i (deref h0 a0) (Val JUndef) = Ref b0) ->
             exists q0, repr h0 b0 q0 /\ expands_to V q0 q) as Hlink.
  { intros b0 b q Hl [q1 [Hq1 He1]] [i [a0 Hi]].
    destruct (h0_subnodes a0 i b0 Hi) as [q0 Hq0].
    destruct (Hl q0 Hq0) as [q2 [Hq2 He2]].
    rewrite (repr_functional h0 b q2 Hq2 q1 Hq1) in He2.
    exists q0. split; [exact Hq0|]. now apply (expands_trans V q0 q1). }
  induction Hr as [a y E|a z E|a s E|a op b c p q E Hb IHb Hc IHc
                  |a b c p q E Hb IHb Hc IHc|a op b p E Hb IHb];
    pose proof (inv_slots HI a) as Hs; rewrite E in Hs;
    unfold slot_ok in Hs.
  - inversion Hs as [|c0 ? l0 ? H0 Hs1 E0]; subst.
    inversion Hs1 as [|c1 ? l1 ? H1 Hs2 E1]; subst.
    inversion Hs2; subst. destruct c0, c1; try contradiction. subst.
    exists (PName y). split; [now constructor|constructor].
  - inversion Hs as [|c0 ? l0 ? H0 Hs1 E0]; subst.
    inversion Hs1 as [|c1 ? l1 ? H1 Hs2 E1]; subst.
    inversion Hs2; subst. destruct c0, c1; try contradiction. subst.
    exists (PNum z). split; [now constructor|constructor].
  - inversion Hs as [|c0 ? l0 ? H0 Hs1 E0]; subst.
    inversion Hs1 as [|c1 ? l1 ? H1 Hs2 E1]; subst.
    inversion Hs2; subst. destruct c0, c1; try contradiction. subst.
    exists (PString s). split; [now constructor|constructor].
  - inversion Hs as [|c0 ? l0 ? H0 Hs1 E0]; subst.
    inversion Hs1 as [|c1 ? l1 ? H1 Hs2 E1]; subst.
    inversion Hs2 as [|c2 ? l2 ? H2 Hs3 E2]; subst.
    inversion Hs3 as [|c3 ? l3 ? H3 Hs4 E3]; subst.
    inversion Hs4; subst.
    destruct c0, c1, c2 as [|b0], c3 as [|c0']; try contradiction. subst.
    destruct (Hlink b0 b p H2 IHb (ex_intro _ 2 (ex_intro _ a
                (f_equal (fun l => nth 2 l (Val JUndef)) (eq_sym E0)))))
      as [p0 [Hp0 Hep]].
    destruct (Hlink c0' c q H3 IHc (ex_intro _ 3 (ex_intro _ a
                (f_equal (fun l => nth 3 l (Val JUndef)) (eq_sym E0)))))
      as [q0 [Hq0 Heq]].
    exists (PBinary op p0 q0). split; [|now constructor].
    eapply repr_binary; eauto.
  - inversion Hs as [|c0 ? l0 ? H0 Hs1 E0]; subst.
    inversion Hs1 as [|c1 ? l1 ? H1 Hs2 E1]; subst.
    inversion Hs2 as [|c2 ? l2 ? H2 Hs3 E2]; subst.
    inversion Hs3; subst.
    destruct c0, c1 as [|b0], c2 as [|c0']; try contradiction. subst.
    destruct (Hlink b0 b p H1 IHb (ex_intro _ 1 (ex_intro _ a
                (f_equal (fun l => nth 1 l (Val JUndef)) (eq_sym E0)))))
      as [p0 [Hp0 Hep]].
    destruct (Hlink c0' c q H2 IHc (ex_intro _ 2 (ex_intro _ a
                (f_equal (fun l => nth 2 l (Val JUndef)) (eq_sym E0)))))
      as [q0 [Hq0 Heq]].
    exists (PSub p0 q0). split; [|now constructor].
    eapply repr_sub; eauto.
  - inversion Hs as [|c0 ? l0 ? H0 Hs1 E0]; subst.
    inversion Hs1 as [|c1 ? l1 ? H1 Hs2 E1]; subst.
    inversion Hs2 as [|c2 ? l2 ? H2 Hs3 E2]; subst.
    inversion Hs3; subst.
    destruct c0, c1, c2 as [|b0]; try contradiction. subst.
    destruct (Hlink b0 b p H2 IHb (ex_intro _ 2 (ex_intro _ a
                (f_equal (fun l => nth 2 l (Val JUndef)) (eq_sym E0)))))
      as [p0 [Hp0 Hep]].
    exists (PPrefix op p0). split; [|now constructor].
    eapply repr_prefix; eauto.
Qed.

Lemma read_values_quiet h values depth :
  Inv st h values -> (forall a, a < length h -> lvl a < depth) ->
  NoDup (keys values) ->
  (forall x, In x (keys values) -> quiet_entry st h values x) ->
  forall l, incl l values ->
    exists V',
      read_values depth h l = Some (js_values V')
      /\ keys V' = keys l
      /\ forall x p',
           In (x, p') V' ->
           (forall y, In y (pure_names p') -> has y V = false)
           /\ forall p, get x V = Some p -> expands_to V p p'.
Proof.
  intros HI Hd Hnd Hq. induction l as [|[x c] l IH]; intros Hl.
  - exists []. simpl. repeat split; auto; contradiction.
  - assert (In (x, c) values) as Hin by (apply Hl; now left).
    pose proof (In_get values x c Hnd Hin) as Hg.
    destruct (Hq x) as [r [Hg' [p' [Hp' Hn]]]].
    { change x with (fst (x, c)). now apply in_map. }
    rewrite Hg in Hg'. injection Hg' as ->.
    destruct (inv_tab HI x _ Hg) as [r' [E' [Hr' _]]]. injection E' as <-.
    destruct (IH (fun e H => Hl e (or_intror H))) as [V' [E [Hk Hv]]].
    exists ((x, p') :: V'). cbn [read_values].
    rewrite (repr_value_at h values HI r p' Hp' depth (Hd r Hr')), E.
    split; [reflexivity|]. split; [simpl; now rewrite Hk|].
    intros x' p'' [[= <- <-]|Hin']; [|now apply Hv].
    split; [exact Hn|]. intros p Hp.
    destruct (repr_expands h values HI r p' Hp') as [p0 [Hp0 He0]].
    destruct (inv_vals HI x r p Hg Hp) as [p1 [Hp1 He1]].
    rewrite (repr_functional h0 r p1 Hp1 p0 Hp0) in He1.
    now apply (expands_trans V p p0).
Qed.
End Shared.

(** ** Collapsing the initial values: the values put into the store *)

Lemma psize_pos p : 0 < psize p.
Proof. destruct p; simpl; lia. Qed.

Lemma nodes_at_app h more lo hi names :
  hi <= length h -> nodes_at h lo hi names ->
  nodes_at (h ++ more) lo hi names.
Proof.
  intros Hh Ht a Ha. unfold name_at. rewrite deref_app by lia.
  destruct (Ht a Ha) as [P1 [P2 P3]]. split; [exact P1|]. split; [|exact P3].
  intros i b Hi. destruct (P2 i b Hi) as [Hb [q Hq]].
  split; [exact Hb|]. exists q. now apply repr_app.
Qed.

Lemma nodes_at_empty h lo names : nodes_at h lo lo names.
Proof. intros a Ha. lia. Qed.

Lemma nodes_at_node h lo mid hi names1 names2 node :
  nodes_at h lo mid names1 -> nodes_at h mid hi names2 ->
  lo <= mid -> mid <= hi -> length h = hi ->
  pure_node (S hi) node ->
  (forall i b, nth i node (Val JUndef) = Ref b ->
               lo <= b < hi /\ exists q, repr h b q) ->
  (forall y, name_of node = Some y -> In y (names1 ++ names2)) ->
  nodes_at (h ++ [node]) lo (S hi) (names1 ++ names2).
Proof.
  intros T1 T2 Hlo Hmid Hh Hp Hc Hn a Ha. unfold name_at.
  destruct (Nat.lt_ge_cases a mid) as [Ham|Ham];
    [|destruct (Nat.lt_ge_cases a hi) as [Hah|Hah]].
  - rewrite deref_app by lia.
    destruct (T1 a ltac:(lia)) as [P1 [P2 P3]]. split; [|split].
    + eapply pure_node_mono; [exact P1|lia].
    + intros i b Hi. destruct (P2 i b Hi) as [Hb [q Hq]].
      split; [exact Hb|]. exists q. now apply repr_app.
    + intros y Hy. apply in_app_iff. left. now apply P3.
  - rewrite deref_app by lia.
    destruct (T2 a ltac:(lia)) as [P1 [P2 P3]]. split; [|split].
    + eapply pure_node_mono; [exact P1|lia].
    + intros i b Hi. destruct (P2 i b Hi) as [Hb [q Hq]].
      split; [lia|]. exists q. now apply repr_app.
    + intros y Hy. apply in_app_iff. right. now apply P3.
  - assert (a = length h) as -> by lia. rewrite deref_last.
    split; [exact Hp|]. split; [|exact Hn].
    intros i b Hi. destruct (Hc i b Hi) as [Hb [q Hq]].
    split; [lia|]. exists q. now apply repr_app.
Qed.

Lemma alloc_pure : forall p h,
  exists new,
    alloc (pure_js p) h = (Ref (length h + psize p - 1), h ++ new)
    /\ length new = psize p
    /\ nodes_at (h ++ new) (length h) (length h + psize p) (pure_names p)
    /\ repr (h ++ new) (length h + psize p - 1) p.
Proof.
  assert (forall h node names,
             pure_node (S (length h)) node ->
             (forall i b, nth i node (Val JUndef) = Ref b -> False) ->
             (forall y, name_of node = Some y -> In y names) ->
             nodes_at (h ++ [node]) (length h) (length h + 1) names) as Hleaf.
  { intros h node names Hp Hc Hn. rewrite Nat.add_1_r.
    apply (nodes_at_node h (length h) (length h) (length h) [] names);
      try apply nodes_at_empty; try lia; try assumption.
    intros i b Hi. destruct (Hc i b Hi). }
  induction p as [y|z|s|op p IHp q IHq|p IHp q IHq|op p IHp]; intros h.
  - exists [[Val (JStr "name"); Val (JStr y)]]. cbn.
    rewrite Nat.add_sub. split; [reflexivity|]. split; [reflexivity|].
    split.
    + apply Hleaf.
      * constructor.
      * intros [|[|[|i]]] b; discriminate.
      * cbn. intros y' [= <-]. now left.
    + apply repr_name. apply deref_last.
  - exists [[Val (JStr "num"); Val (JNum z)]]. cbn.
    rewrite Nat.add_sub. split; [reflexivity|]. split; [reflexivity|].
    split.
    + apply Hleaf.
      * constructor.
      * intros [|[|[|i]]] b; discriminate.
      * cbn. discriminate.
    + apply repr_num. apply deref_last.
  - exists [[Val (JStr "string"); Val (JStr s)]]. cbn.
    rewrite Nat.add_sub. split; [reflexivity|]. split; [reflexivity|].
    split.
    + apply Hleaf.
      * constructor.
      * intros [|[|[|i]]] b; discriminate.
      * cbn. discriminate.
    + apply repr_string. apply deref_last.
  - destruct (IHp h) as [n1 [E1 [L1 [T1 R1]]]].
    destruct (IHq (h ++ n1)) as [n2 [E2 [L2 [T2 R2]]]].
    pose proof (psize_pos p). pose proof (psize_pos q).
    assert (length ((h ++ n1) ++ n2) = length h + psize p + psize q) as Hl
        by (rewrite !length_app; lia).
    assert (length (h ++ n1) = length h + psize p) as Hl1
        by (rewrite !length_app; lia).
    exists (n1 ++ n2 ++ [[Val (JStr "binary"); Val (JStr op);
                          Ref (length h + psize p - 1);
                          Ref (length (h ++ n1) + psize q - 1)]]).
    cbn [pure_js alloc]. rewrite E1, E2. rewrite Hl.
    cbn [psize pure_names].
    replace (h ++ n1 ++ n2 ++ _)
      with (((h ++ n1) ++ n2)
              ++ [[Val (JStr "binary"); Val (JStr op);
                   Ref (length h + psize p - 1);
                   Ref (length (h ++ n1) + psize q - 1)]])
      by (now rewrite <- !app_assoc).
    apply (repr_app _ n2) in R1.
    split; [|split; [|split]].
    + f_equal. f_equal. lia.
    + rewrite !length_app. simpl. lia.
    + replace (length h + (psize p + psize q + 1))
        with (S (length h + psize p + psize q)) by lia.
      apply (nodes_at_node _ (length h) (length h + psize p)); try lia.
      * apply nodes_at_app; [lia|exact T1].
      * rewrite Hl1 in T2. exact T2.
      * constructor; lia.
      * intros [|[|[|[|[|i]]]]] b; try discriminate; intros [= <-];
          (split; [lia|eauto]).
      * cbn. discriminate.
    + replace (length h + (psize p + psize q + 1) - 1)
        with (length ((h ++ n1) ++ n2)) by lia.
      eapply repr_binary; [apply deref_last| |]; now apply repr_app.
  - destruct (IHp h) as [n1 [E1 [L1 [T1 R1]]]].
    destruct (IHq (h ++ n1)) as [n2 [E2 [L2 [T2 R2]]]].
    pose proof (psize_pos p). pose proof (psize_pos q).
    assert (length ((h ++ n1) ++ n2) = length h + psize p + psize q) as Hl
        by (rewrite !length_app; lia).
    assert (length (h ++ n1) = length h + psize p) as Hl1
        by (rewrite !length_app; lia).
    exists (n1 ++ n2 ++ [[Val (JStr "sub");
                          Ref (length h + psize p - 1);
                          Ref (length (h ++ n1) + psize q - 1)]]).
    cbn [pure_js alloc]. rewrite E1, E2. rewrite Hl.
    cbn [psize pure_names].
    replace (h ++ n1 ++ n2 ++ _)
      with (((h ++ n1) ++ n2)
              ++ [[Val (JStr "sub");
                   Ref (length h + psize p - 1);
                   Ref (length (h ++ n1) + psize q - 1)]])
      by (now rewrite <- !app_assoc).
    apply (repr_app _ n2) in R1.
    split; [|split; [|split]].
    + f_equal. f_equal. lia.
    + rewrite !length_app. simpl. lia.
    + replace (length h + (psize p + psize q + 1))
        with (S (length h + psize p + psize q)) by lia.
      apply (nodes_at_node _ (length h) (length h + psize p)); try lia.
      * apply nodes_at_app; [lia|exact T1].
      * rewrite Hl1 in T2. exact T2.
      * constructor; lia.
      * intros [|[|[|[|i]]]] b; try discriminate; intros [= <-];
          (split; [lia|eauto]).
      * cbn. discriminate.
    + replace (length h + (psize p + psize q + 1) - 1)
        with (length ((h ++ n1) ++ n2)) by lia.
      eapply repr_sub; [apply deref_last| |]; now apply repr_app.
  - destruct (IHp h) as [n1 [E1 [L1 [T1 R1]]]].
    pose proof (psize_pos p).
    assert (length (h ++ n1) = length h + psize p) as Hl1
        by (rewrite !length_app; lia).
    exists (n1 ++ [[Val (JStr "unary-prefix"); Val (JStr op);
                    Ref (length h + psize p - 1)]]).
    cbn [pure_js alloc]. rewrite E1. rewrite Hl1.
    cbn [psize pure_names]. rewrite app_assoc.
    split; [|split; [|split]].
    + f_equal. f_equal. lia.
    + rewrite !length_app. simpl. lia.
    + replace (length h + (psize p + 1)) with (S (length h + psize p))
        by lia.
      rewrite <- (app_nil_r (pure_names p)).
      apply (nodes_at_node _ (length h) (length h + psize p)); try lia.
      * exact T1.
      * apply nodes_at_empty.
      * constructor; lia.
      * intros [|[|[|[|i]]]] b; try discriminate; intros [= <-];
          (split; [lia|eauto]).
      * cbn. discriminate.
    + replace (length h + (psize p + 1) - 1) with (length (h ++ n1)) by lia.
      eapply repr_prefix; [apply deref_last|]; now apply repr_app.
Qed.

Lemma alloc_values_forest rk : forall V h,
  exists new values,
    alloc_values (js_values V) h = (values, h ++ new)
    /\ keys values = keys V
    /\ forest rk V (length h) (h ++ new) values.
Proof.
  induction V as [|[x p] V IH]; intros h.
  - exists [], []. simpl. rewrite app_nil_r. split; [reflexivity|].
    split; [reflexivity|]. split.
    + intros a Ha. lia.
    + intros x c [].
  - destruct (alloc_pure p h) as [n1 [E1 [L1 [T1 R1]]]].
    destruct (IH (h ++ n1)) as [n2 [vs [E2 [K2 [F1 F2]]]]].
    pose proof (psize_pos p) as Hpos.
    assert (length (h ++ n1) = length h + psize p) as Hl1
        by (rewrite length_app; lia).
    exists (n1 ++ n2), ((x, Ref (length h + psize p - 1)) :: vs).
    cbn [js_values map fst snd alloc_values]. fold (js_values V).
    rewrite E1, E2. rewrite app_assoc.
    split; [reflexivity|]. split; [simpl; now rewrite K2|].
    assert (forall a, a < length h + psize p ->
                      own_of rk ((x, p) :: V) (length h) a = rk x) as Hown1.
    { intros a Ha. simpl. apply Nat.ltb_lt in Ha. now rewrite Ha. }
    assert (forall a, length h + psize p <= a ->
                      own_of rk ((x, p) :: V) (length h) a
                      = own_of rk V (length (h ++ n1)) a) as Hown2.
    { intros a Ha. simpl. apply Nat.ltb_ge in Ha. now rewrite Ha, Hl1. }
    pose proof (nodes_at_app (h ++ n1) n2 (length h) (length h + psize p)
                  (pure_names p) ltac:(lia) T1) as T1'.
    apply (repr_app _ n2) in R1.
    split.
    + intros a Ha.
      destruct (Nat.lt_ge_cases a (length h + psize p)) as [Hap|Hap].
      * destruct (T1' a ltac:(lia)) as [P1 [P2 P3]].
        exists x, p. split; [now left|]. split; [now apply Hown1|].
        split; [|split].
        -- eapply pure_node_mono; [exact P1|].
           rewrite length_app. lia.
        -- intros i b Hi. destruct (P2 i b Hi) as [Hb Hq].
           split; [|exact Hq]. split; [lia|]. rewrite !Hown1; auto; lia.
        -- exact P3.
      * destruct (F1 a ltac:(lia)) as [x' [p' [Hin [Ho [P1 [P2 P3]]]]]].
        exists x', p'. split; [now right|].
        split; [now rewrite Hown2|]. split; [exact P1|]. split; [|exact P3].
        intros i b Hi. destruct (P2 i b Hi) as [[Hb1 Hb2] Hq].
        split; [|exact Hq]. split; [lia|]. rewrite !Hown2 by lia. exact Hb2.
    + intros x0 c [E|Hin].
      * injection E as <- <-. exists p, (length h + psize p - 1).
        split; [now left|]. split; [reflexivity|].
        split; [rewrite !length_app; lia|].
        split; [apply Hown1; lia|]. split; [exact R1|].
        destruct (T1' (length h + psize p - 1) ltac:(lia)) as [_ [_ P3]].
        exact P3.
      * destruct (F2 x0 c Hin) as [p' [r [Hin' [-> [Hr [Ho [Hrp Hn]]]]]]].
        exists p', r. split; [now right|]. split; [reflexivity|].
        split; [lia|]. split; [|split; [exact Hrp|exact Hn]].
        rewrite Hown2 by lia. exact Ho.
Qed.

Lemma Forall2_same {A : Type} (R : A -> A -> Prop) l :
  (forall x, In x l -> R x x) -> Forall2 R l l.
Proof.
  induction l as [|x l IH]; intros H; constructor.
  - apply H. now left.
  - apply IH. intros y Hy. apply H. now right.
Qed.

Lemma forest_subnodes rk V h values a i b :
  forest rk V 0 h values ->
  nth i (deref h a) (Val JUndef) = Ref b -> exists p, repr h b p.
Proof.
  intros [F1 _] Hi.
  destruct (Nat.lt_ge_cases a (length h)) as [Ha|Ha].
  - destruct (F1 a ltac:(lia)) as [x [p [_ [_ [_ [P2 _]]]]]].
    now destruct (P2 i b Hi).
  - rewrite deref_outside in Hi by lia. now destruct i.
Qed.

Lemma forest_Inv rk V h values N :
  forest rk V 0 h values -> keys values = keys V -> NoDup (keys V) ->
  ranked rk N V ->
  Inv (setting_of rk V h) h values.
Proof.
  intros HF Hk Hnd Hr. pose proof HF as [F1 F2].
  assert (forall a i b, nth i (deref h a) (Val JUndef) = Ref b ->
                        a < length h) as Hin.
  { intros a i b Hi. destruct (Nat.lt_ge_cases a (length h)); auto.
    rewrite deref_outside in Hi by lia. now destruct i. }
  constructor; cbn [setting_of ranks initial store0 level bound].
  - intros a Ha. destruct (F1 a ltac:(lia)) as [x [p [_ [_ [P1 _]]]]].
    exact P1.
  - reflexivity.
  - intros a i b Hi. pose proof (Hin a i b Hi) as Ha.
    destruct (F1 a ltac:(lia)) as [x [p [_ [_ [_ [P2 _]]]]]].
    destruct (P2 i b Hi) as [[Hb ->] _]. lia.
  - intros a i b y Hi Hy Hiy. pose proof (Hin a i b Hi) as Ha.
    destruct (F1 a ltac:(lia)) as [x [p [_ [_ [_ [P2 _]]]]]].
    destruct (P2 i b Hi) as [[Hb Ho] _].
    destruct (F1 b ltac:(lia)) as [x' [p' [Hxp [Ho' [_ [_ P3]]]]]].
    pose proof (Hr x' p' (In_get V x' p' Hnd Hxp) y (P3 y Hy) Hiy) as [Hlt _].
    rewrite <- Ho, Ho'. nia.
  - intros x c Hx. apply get_Some_In in Hx.
    destruct (F2 x c Hx) as [p [r [_ [-> [Hr' [Ho _]]]]]].
    exists r. split; [reflexivity|]. split; [lia|]. rewrite Ho. nia.
  - intros x r y Hx Hy Hiy. apply get_Some_In in Hx.
    destruct (F2 x _ Hx) as [p [r' [Hxp [E [_ [_ [_ P3]]]]]]].
    injection E as <-.
    now destruct (Hr x p (In_get V x p Hnd Hxp) y (P3 y Hy) Hiy).
  - intros y. now apply has_keys.
  - intros a. apply Forall2_same. intros [v|b] _; cbn; [reflexivity|].
    intros p0 Hp0. exists p0. split; [exact Hp0|apply expands_refl].
  - intros x r p Hx Hp. apply get_Some_In in Hx.
    destruct (F2 x _ Hx) as [p' [r' [Hxp [E [_ [_ [Hrp _]]]]]]].
    injection E as <-.
    rewrite (In_get V x p' Hnd Hxp) in Hp. injection Hp as ->.
    exists p. split; [exact Hrp|apply expands_refl].
Qed.

Lemma own_of_bound rk V : forall start a,
  own_of rk V start a <= list_max (map rk (keys V)).
Proof.
  induction V as [|[x p] V IH]; intros start a; simpl; [lia|].
  destruct (a <? start + psize p)%nat; [lia|].
  specialize (IH (start + psize p) a). lia.
Qed.

(** ** Collapsing the initial values: the two embeddings agree *)

Lemma pure_js_inj p : forall q, pure_js p = pure_js q -> p = q.
Proof.
  induction p as [y|z|s|op a IHa b IHb|a IHa b IHb|op a IHa];
    intros [y'|z'|s'|op' a' b'|a' b'|op' a']; cbn [pure_js];
    intros H; try discriminate; injection H; intros; subst;
    f_equal; auto.
Qed.

Lemma js_values_inj V : forall W, js_values V = js_values W -> V = W.
Proof.
  induction V as [|[x p] V IH]; intros [|[y q] W] H; try discriminate; auto.
  cbn in H. injection H as -> Hp HW. f_equal.
  - f_equal. now apply pure_js_inj.
  - now apply IH.
Qed.

Lemma collapse_tree_expands V0 cur x p :
  expansion V0 cur -> expands_to V0 p (collapse_tree cur x p).
Proof.
  intros He. induction p as [y|z|s|op a IHa b IHb|a IHa b IHb|op a IHa];
    cbn [collapse_tree]; try (constructor; auto).
  destruct (expands cur x y); [|constructor].
  destruct (get y cur) as [q|] eqn:Eq; [|constructor].
  destruct (He y q Eq) as [q0 [Hq0 Hex]]. now apply ex_value with q0.
Qed.

Lemma collapse_step_expansion V0 acc x :
  expansion V0 (fst acc) -> expansion V0 (fst (collapse_step acc x)).
Proof.
  intros He. unfold collapse_step.
  destruct (get x (fst acc)) as [p|] eqn:Ex; [|exact He]. cbn [fst].
  intros x' p'. rewrite get_set. destruct (x =? x') eqn:E; [|apply He].
  apply String.eqb_eq in E. subst x'. intros [= <-].
  destruct (He x p Ex) as [p0 [Hp0 Hex]]. exists p0. split; [exact Hp0|].
  apply (expands_trans V0 p0 p Hex). now apply collapse_tree_expands.
Qed.

Lemma collapse_steps_expansion V0 l : forall acc,
  expansion V0 (fst acc) -> expansion V0 (fst (fold_left collapse_step l acc)).
Proof.
  induction l as [|x l IH]; intros acc He; simpl; auto.
  apply IH. now apply collapse_step_expansion.
Qed.

Lemma collapseValues_expansion V0 : forall fuel V V',
  collapseValues fuel (js_values V) = Some (js_values V') ->
  expansion V0 V -> expansion V0 V'.
Proof.
  induction fuel as [|fuel IH]; intros V V' H He; cbn [collapseValues] in H;
    [discriminate|].
  rewrite collapsePass_pure in H.
  pose proof (collapse_steps_expansion V0 (keys V) (V, false) He) as He'.
  destruct (snd (fold_left collapse_step (keys V) (V, false))).
  - exact (IH _ _ H He').
  - injection H as H. apply js_values_inj in H. now subst.
Qed.

Lemma expansion_refl V : expansion V V.
Proof. intros x p Hx. exists p. split; [exact Hx|apply expands_refl]. Qed.

Lemma obj_ext {A : Type} (l1 : obj A) : forall l2,
  keys l1 = keys l2 ->
  (forall x v1 v2, In (x, v1) l1 -> In (x, v2) l2 -> v1 = v2) ->
  l1 = l2.
Proof.
  induction l1 as [|[k v] l1 IH]; intros [|[k' v'] l2] Hk H;
    try discriminate; auto.
  cbn in Hk. injection Hk as -> Hk. f_equal.
  - f_equal. apply (H k'); now left.
  - apply IH; auto. intros x v1 v2 H1 H2. apply (H x); now right.
Qed.

(** The table that [collapseValues] leaves is collapsed. *)
Lemma collapseValues_collapsed rk N fuel V V' :
  collapseValues fuel (js_values V) = Some (js_values V') ->
  ranked rk N V' -> collapsed V'.
Proof.
  intros H Hr x p y Hx Hy. destruct (has y V') eqn:Hh; auto.
  pose proof (collapseValues_fixed fuel _ _ H x (pure_js p)
                (pure_js (PName y))) as Hf.
  rewrite get_js_values, Hx in Hf.
  specialize (Hf eq_refl (names_visited y p Hy)).
  unfold fires in Hf. cbn [type_of pure_js sub elems at_ nth to_key] in Hf.
  rewrite has_js_values, Hh in Hf.
  cbn in Hf. apply negb_false_iff, String.eqb_eq in Hf. subst y.
  destruct (Hr x p Hx x Hy Hh). lia.
Qed.

(** With the values put into a store, and their arrays shared as the
    script shares them, [collapseValues] ends on values whose references
    make no cycle; the table it leaves is the one that the embedding over
    trees leaves, and it names no variable of the table. *)
Lemma collapseValues_at_ends rk N V :
  ranked rk N V -> NoDup (keys V) ->
  exists n, forall depth fuel,
    n <= depth -> n <= fuel ->
    exists values' h' V',
      collapseValues_at depth fuel
        (fst (alloc_values (js_values V) []))
        (snd (alloc_values (js_values V) []))
      = Some (values', h')
      /\ read_values depth h' values' = Some (js_values V')
      /\ collapseValues fuel (js_values V) = Some (js_values V')
      /\ keys V' = keys V
      /\ collapsed V'.
Proof.
  intros Hr Hnd.
  destruct (alloc_values_forest rk V []) as [h [values [E [Hk HF]]]].
  rewrite E. cbn [fst snd app length] in *.
  pose proof (forest_Inv rk V h values N HF Hk Hnd Hr) as HI.
  set (st := setting_of rk V h) in *.
  assert (forall x y, ranks st y < ranks st x -> bound st y <= bound st x)
    as B_mono.
  { intros x y Hxy. cbn in *. nia. }
  set (M := list_max (map rk (keys V))).
  exists ((M + 1) * length h + wtot st h values + N + 1).
  intros depth fuel Hd Hf.
  assert (forall a, a < length h -> level st a < depth) as Hdep.
  { intros a Ha. cbn. pose proof (own_of_bound rk V 0 a) as Hb.
    fold M in Hb. nia. }
  destruct (collapseValues_at_spec st B_mono depth fuel values h HI Hdep
              ltac:(lia))
    as [values' [h' [Ec [HI' [Hl [Hk' Hq]]]]]].
  assert (forall a, a < length h' -> level st a < depth) as Hdep'.
  { intros a Ha. apply Hdep. now rewrite <- Hl. }
  assert (NoDup (keys values')) as Hnd' by (now rewrite Hk', Hk).
  destruct (read_values_quiet st
              (fun a i b => forest_subnodes rk V h values a i b HF)
              h' values' depth HI' Hdep' Hnd' Hq values' (incl_refl _))
    as [V' [Er [Hkv Hv]]].
  destruct (collapseValues_ends rk N fuel V ltac:(lia) Hr) as [V2 [Et Hr2]].
  pose proof (collapseValues_collapsed rk N fuel V V2 Et Hr2) as Hc2.
  pose proof (collapseValues_expansion V fuel V V2 Et (expansion_refl V))
    as He2.
  assert (keys V2 = keys V) as Hk2.
  { rewrite <- (keys_js_values V2), <- (keys_js_values V).
    apply (collapseValues_keys fuel _ _ Et). }
  assert (V' = V2) as ->.
  { apply obj_ext; [congruence|].
    intros x p1 p2 H1 H2.
    assert (NoDup (keys V2)) as Hnd2 by (now rewrite Hk2).
    pose proof (In_get V2 x p2 Hnd2 H2) as Hg2.
    destruct (He2 x p2 Hg2) as [p [Hp Hex2]].
    destruct (Hv x p1 H1) as [Hn1 Hex1].
    apply (expands_unique V p p1 (Hex1 p Hp) p2 Hex2 Hn1).
    intros y Hy. rewrite <- (has_keys V2 V y Hk2). exact (Hc2 x p2 y Hg2 Hy). }
  exists values', h', V2. split; [exact Ec|]. split; [exact Er|].
  split; [exact Et|]. split; [exact Hk2|exact Hc2].
Qed.

(** The callback over the store asks for no replacement of a node that
    names [varName]. *)
Lemma collapseNode_at_guard depth values varName h a type incomplete name :
  value_at depth h (nth 1 (deref h a) (Val JUndef)) = Some name ->
  loose_eq name varName = true ->
  collapseNode_at depth values varName h a type incomplete
  = Some (Val JUndef, incomplete).
Proof.
  intros Hn He. unfold collapseNode_at. rewrite Hn, He.
  cbn [negb]. rewrite andb_false_r. now destruct (type =? "name").
Qed.

(** ** C7: collapseValues *)

(** C7: when the references between the initial values make no cycle (the
    names of the table that occur in a value rank below the variable of
    the value), [collapseValues] ends, with the arrays shared as the
    script shares them: from some depth of the walks and some number of
    turns on, it returns, the table it leaves is the one that the
    embedding over trees leaves, and no value in it names a variable of
    the table.  Over trees the loop ends within one turn more than the
    highest rank.  While the value of [varName] is rewritten, the
    callback asks for no replacement of a node that names [varName].  And
    whatever the table, when [collapseValues] returns, a [name] node that
    a walk finds in the value of [x] and that names a variable of the
    table names [x]. *)
Theorem C7_collapseValues :
  (forall (rk : string -> nat) (N : nat) (V : obj pure),
      ranked rk N V -> NoDup (keys V) ->
      exists n, forall depth fuel,
        n <= depth -> n <= fuel ->
        exists values' h' V',
          collapseValues_at depth fuel
            (fst (alloc_values (js_values V) []))
            (snd (alloc_values (js_values V) []))
          = Some (values', h')
          /\ read_values depth h' values' = Some (js_values V')
          /\ collapseValues fuel (js_values V) = Some (js_values V')
          /\ keys V' = keys V
          /\ collapsed V')
  /\ (forall (rk : string -> nat) (N fuel : nat) (V : obj pure),
         ranked rk N V -> N < fuel ->
         exists V',
           collapseValues fuel (js_values V) = Some (js_values V')
           /\ keys V' = keys V
           /\ collapsed V')
  /\ (forall depth values varName h a type incomplete name,
         value_at depth h (nth 1 (deref h a) (Val JUndef)) = Some name ->
         loose_eq name varName = true ->
         collapseNode_at depth values varName h a type incomplete
         = Some (Val JUndef, incomplete))
  /\ (forall values varName node type incomplete,
         loose_eq (sub node 1) varName = true ->
         collapseNode values varName node type incomplete
         = Some (JUndef, incomplete))
  /\ (forall fuel values values' x v n,
         collapseValues fuel values = Some values' ->
         get x values' = Some v ->
         In n (visited v) ->
         type_of n = "name" ->
         has (to_key (sub n 1)) values' = true ->
         loose_eq (sub n 1) x = true).
Proof.
  split; [exact collapseValues_at_ends|].
  split; [|split; [exact collapseNode_at_guard|split]].
  - intros rk N fuel V Hr Hf.
    destruct (collapseValues_ends rk N fuel V Hf Hr) as [V' [H1 H2]].
    exists V'. split; [exact H1|]. split.
    + rewrite <- (keys_js_values V'), <- (keys_js_values V).
      apply (collapseValues_keys fuel _ _ H1).
    + exact (collapseValues_collapsed rk N fuel V V' H1 H2).
  - intros values varName node type inc H. unfold collapseNode.
    rewrite H. cbn [negb]. now rewrite andb_false_r.
  - intros fuel values values' x v n H Hx Hin Ht Hh.
    pose proof (collapseValues_fixed fuel values values' H x v n Hx Hin)
      as Hf.
    unfold fires in Hf. rewrite Ht, Hh in Hf. cbn in Hf.
    now apply negb_false_iff in Hf.
Qed.

(** C7 on [values_abc], whose names rank as [rank_abc] says. *)
Lemma C7_collapseValues_witness :
  exists n, forall depth fuel,
    n <= depth -> n <= fuel ->
    exists values' h' V',
      collapseValues_at depth fuel
        (fst (alloc_values (js_values values_abc) []))
        (snd (alloc_values (js_values values_abc) []))
      = Some (values', h')
      /\ read_values depth h' values' = Some (js_values V')
      /\ collapseValues fuel (js_values values_abc) = Some (js_values V')
      /\ keys V' = keys values_abc
      /\ collapsed V'.
Proof.
  apply (proj1 C7_collapseValues rank_abc 2 values_abc).
  - intros x p H y Hy Hh. unfold values_abc in H. cbn [get] in H.
    destruct ("a" =? x) eqn:Ea.
    { apply String.eqb_eq in Ea. subst x. injection H as <-.
      cbn in Hy. destruct Hy as [<-|[]]. cbn. lia. }
    destruct ("b" =? x) eqn:Eb.
    { apply String.eqb_eq in Eb. subst x. injection H as <-.
      cbn in Hy. destruct Hy as [<-|[]]. cbn. lia. }
    destruct ("c" =? x) eqn:Ec; [|discriminate].
    injection H as <-. cbn in Hy. destruct Hy.
  - cbn. repeat constructor; cbn; intuition discriminate.
Defined.

(** The table that it leaves: [a = 2 + 1], [b = 2], [c = 2], after two
    turns and a last idle one. *)
Lemma collapseValues_example :
  collapseValues 3 (js_values values_abc)
  = Some (js_values [("a", PBinary "+" (PNum 2) (PNum 1));
                     ("b", PNum 2); ("c", PNum 2)]).
Proof. reflexivity. Qed.

(** On [values_abc]: walks to the depth 2 and three turns are enough. *)
Lemma collapseValues_at_example :
  match collapseValues_at 2 3 (fst (alloc_values (js_values values_abc) []))
          (snd (alloc_values (js_values values_abc) [])) with
  | Some (values', h') => read_values 2 h' values'
  | None => None
  end
  = collapseValues 3 (js_values values_abc).
Proof. reflexivity. Qed.

(** ** Assignments and the single-definition test *)

(** The nodes visited under a visited node are visited next to it. *)
Lemma visited_segment t : forall n,
  In n (visited t) ->
  exists pre post, visited t = pre ++ visited n ++ post.
Proof.
  induction t as [| | | |str|l IH] using jsval_tree_ind; intros m;
    try (simpl; contradiction).
  - destruct str as [|c str]; simpl; [contradiction|].
    intros [<-|[]]. exists [], []. reflexivity.
  - rewrite visited_JArr. intros Hin. apply in_app_iff in Hin.
    destruct Hin as [Hin|Hin].
    + destruct (at_ l 0) eqn:Ea; try contradiction.
      destruct Hin as [<-|[]].
      exists [], []. rewrite visited_JArr, Ea, app_nil_r. reflexivity.
    + assert (exists pre post,
                 visited_children (at_ l 0) l = pre ++ visited m ++ post)
        as [pre [post E]].
      { revert Hin. generalize (at_ l 0) as type. intros type.
        induction IH as [|c rest Hc _ IHrest]; simpl; [contradiction|].
        intros Hin. apply in_app_iff in Hin. destruct Hin as [Hin|Hin].
        - destruct (is_subnode c && _); [|contradiction].
          destruct (Hc m Hin) as [pre [post E]]. rewrite E.
          exists pre, (post ++ visited_children type rest).
          now rewrite <- !app_assoc.
        - destruct (IHrest Hin) as [pre [post E]]. rewrite E.
          match goal with
          | |- exists _ _, ?X ++ _ = _ => exists (X ++ pre), post
          end.
          now rewrite <- app_assoc. }
      rewrite E.
      match goal with
      | |- exists _ _, ?X ++ _ = _ => exists (X ++ pre), post
      end.
      now rewrite <- app_assoc.
Qed.

Lemma basicVarStats_falsy n t s r s' :
  basicVarStats n t s = Some (r, s') -> truthy r = false.
Proof.
  unfold basicVarStats. intros H. break_in H; now inversion H.
Qed.

Section Assigned.
Variable a : string.

(** [a] has been seen and is not single-def. *)
Let settled (that : Eliminator) : Prop :=
  get a (isSingleDef that) = Some false.

(** Every counted name has an entry in [isSingleDef]. *)
Let counted (that : Eliminator) : Prop :=
  forall k, has k (useCount that) = true -> has k (isSingleDef that) = true.

Lemma declare_all_counted node1 : forall that that',
  declare_all node1 that = Some that' ->
  (counted that -> counted that') /\ (settled that -> settled that').
Proof.
  induction node1 as [|d rest IH]; intros that that' H; simpl in H.
  - now inversion H; subst.
  - destruct (declare d that) as [that1|] eqn:Hd; [|discriminate].
    destruct (IH _ _ H) as [IH1 IH2]. unfold declare in Hd.
    destruct (idx d 0) as [n|]; [|discriminate].
    destruct (idx d 1); [|discriminate].
    inversion Hd; subst; clear Hd. split; intros Hc.
    + apply IH1. intros k. cbn. rewrite !has_set.
      destruct (to_key n =? k); cbn [orb]; auto.
    + apply IH2. unfold settled in *. cbn. rewrite get_set.
      destruct (to_key n =? a) eqn:E; auto.
      apply String.eqb_eq in E. rewrite E. unfold has. now rewrite Hc.
Qed.

Lemma basicVarStats_counted n t that r that' :
  basicVarStats n t that = Some (r, that') ->
  (counted that -> counted that') /\ (settled that -> settled that').
Proof.
  unfold basicVarStats. intros H. break_in H; inversion H; subst;
    try (split; now auto).
  - eapply declare_all_counted; eauto.
  - split; intros Hc; [|exact Hc].
    intros k. cbn. rewrite has_set. intros Hk.
    apply orb_true_iff in Hk. destruct Hk as [Hk|Hk]; auto.
    apply String.eqb_eq in Hk. subst k. apply Hc. unfold has.
    match goal with E : get _ (useCount that) = Some _ |- _ => now rewrite E
    end.
  - split; intros Hc.
    + intros k. cbn. rewrite has_set. intros Hk.
      rewrite (Hc k Hk). now rewrite orb_true_r.
    + unfold settled in *. cbn. rewrite get_set.
      match goal with |- context [?k =? a] => destruct (k =? a) end; auto.
  - split; intros Hc.
    + intros k. cbn. rewrite has_set. intros Hk.
      rewrite (Hc k Hk). now rewrite orb_true_r.
    + unfold settled in *. cbn. rewrite get_set.
      match goal with |- context [?k =? a] => destruct (k =? a) end; auto.
Qed.

Lemma scan_counted l : forall that that',
  fold_left (call_on basicVarStats) l (Some that) = Some that' ->
  (counted that -> counted that') /\ (settled that -> settled that').
Proof.
  induction l as [|n l IH]; intros that that' H; simpl in H.
  - now inversion H; subst.
  - destruct (basicVarStats n (type_of n) that) as [[r s1]|] eqn:E;
      [|now rewrite call_on_None in H].
    destruct (basicVarStats_counted _ _ _ _ _ E).
    destruct (IH _ _ H). split; auto.
Qed.

Lemma basicVarStats_assign op v that :
  basicVarStats (JArr [JStr "assign"; op; name_ a; v]) "assign" that
  = Some (JUndef,
          if test a (isSingleDef that)
          then with_isSingleDef (set a false (isSingleDef that)) that
          else that).
Proof.
  unfold basicVarStats.
  cbn [String.eqb Ascii.eqb Bool.eqb sub elems at_ nth idx to_key name_].
  now destruct (test a (isSingleDef that)).
Qed.

Lemma basicVarStats_name that :
  basicVarStats (name_ a) "name" that
  = Some (JUndef,
          match get a (useCount that) with
          | Some n => with_useCount (set a (n + 1)%Z (useCount that)) that
          | None => with_isSingleDef (set a false (isSingleDef that)) that
          end).
Proof.
  unfold basicVarStats.
  cbn [String.eqb Ascii.eqb Bool.eqb sub elems at_ nth idx to_key name_].
  now destruct (get a (useCount that)).
Qed.

(** After the scan has seen [a = v] and then its target, [a] is not
    single-def. *)
Lemma scan_assignment op v that that' :
  counted that ->
  fold_left (call_on basicVarStats)
    [JArr [JStr "assign"; op; name_ a; v]; name_ a] (Some that)
  = Some that' ->
  counted that' /\ settled that'.
Proof.
  intros Hc H. cbn [fold_left] in H. unfold call_on in H.
  change (type_of (JArr [JStr "assign"; op; name_ a; v])) with "assign" in H.
  change (type_of (name_ a)) with "name" in H.
  rewrite basicVarStats_assign, basicVarStats_name in H.
  set (that1 := if test a (isSingleDef that)
                then with_isSingleDef (set a false (isSingleDef that)) that
                else that) in *.
  assert (counted that1 /\ test a (isSingleDef that1) = false) as [Hc1 Ht1].
  { unfold that1. destruct (test a (isSingleDef that)) eqn:E; auto.
    split.
    - intros k. cbn. rewrite has_set. intros Hk. rewrite (Hc k Hk).
      now rewrite orb_true_r.
    - cbn. rewrite test_set. now rewrite String.eqb_refl. }
  destruct (get a (useCount that1)) as [n|] eqn:E;
    inversion H; subst; clear H.
  - split.
    + intros k. cbn. rewrite has_set. intros Hk.
      apply orb_true_iff in Hk. destruct Hk as [Hk|Hk]; auto.
      apply String.eqb_eq in Hk. subst k. apply Hc1. unfold has.
      now rewrite E.
    + unfold settled. cbn.
      assert (has a (isSingleDef that1) = true) as Hh
          by (apply Hc1; unfold has; now rewrite E).
      unfold has in Hh. unfold test in Ht1.
      destruct (get a (isSingleDef that1)) as [[|]|]; congruence.
  - split.
    + intros k. cbn. rewrite has_set. intros Hk.
      rewrite (Hc1 k Hk). now rewrite orb_true_r.
    + unfold settled. cbn. apply get_set_eq.
Qed.

(** A variable that is the target of an assignment which the scan sees
    is not single-def after the scan, and [isEliminateable] refuses it. *)
Lemma assigned_not_singleDef body op v :
  is_subnode op = false ->
  In (JArr [JStr "assign"; op; name_ a; v]) (visited body) ->
  (forall that,
      calculateBasicVarStats body new_Eliminator = Some that ->
      test a (isSingleDef that) = false)
  /\ (forall that,
         analyze body = Some that -> isEliminateable that a = false).
Proof.
  intros Hop Hin.
  assert (forall that,
             calculateBasicVarStats body new_Eliminator = Some that ->
             test a (isSingleDef that) = false) as Hscan.
  { intros that. unfold calculateBasicVarStats.
    rewrite (traverse_visits basicVarStats basicVarStats_falsy body
               (visited_defined _ _ Hin)).
    destruct (visited_segment body _ Hin) as [pre [post E]]. rewrite E.
    rewrite visited_JArr. cbn [at_ nth visited_children app].
    rewrite Hop. cbn [andb is_subnode name_ app].
    cbn [loose_eq String.eqb Ascii.eqb Bool.eqb andb negb visited at_ nth
           is_subnode app].
    rewrite !fold_left_app.
    destruct (fold_left (call_on basicVarStats) pre (Some new_Eliminator))
      as [s0|] eqn:E0; [|now rewrite !call_on_None].
    set (rest := if is_subnode v && true then visited v else []).
    change (JArr [JStr "assign"; op; name_ a; v]
            :: (visited (name_ a) ++ rest ++ []) ++ post)
      with ([JArr [JStr "assign"; op; name_ a; v]; name_ a]
              ++ ((rest ++ []) ++ post)).
    rewrite (fold_left_app _
               [JArr [JStr "assign"; op; name_ a; v]; name_ a]).
    destruct (fold_left (call_on basicVarStats)
                [JArr [JStr "assign"; op; name_ a; v]; name_ a] (Some s0))
      as [s1|] eqn:E1; [|now rewrite !call_on_None].
    destruct (scan_counted pre _ _ E0) as [Hc0 _].
    destruct (scan_assignment op v s0 s1) as [Hc1 Hs1]; auto.
    { apply Hc0. intros k Hk. discriminate Hk. }
    destruct (fold_left (call_on basicVarStats) _ (Some s1)) as [s2|] eqn:E2;
      [|discriminate].
    intros H; inversion H; subst.
    destruct (scan_counted _ _ _ E2) as [_ Hs2].
    unfold test. now rewrite (Hs2 Hs1). }
  split; [exact Hscan|].
  intros that. unfold analyze.
  destruct (calculateBasicVarStats body new_Eliminator) as [that1|] eqn:E1;
    [|discriminate].
  destruct (analyzeInitialValues that1) as [that2|] eqn:E2; [|discriminate].
  destruct (calculateTransitiveDependencies that2) as [that3|] eqn:E3;
    [|discriminate].
  intros E4.
  apply analyzeInitialValues_loop_frame in E2.
  apply closureLoop_frame in E3.
  apply analyzeLiveRanges_frame in E4.
  destruct E2 as [_ [E2 _]]. destruct E3 as [_ [E3 _]].
  destruct E4 as [_ [E4 _]].
  unfold isEliminateable. rewrite E4, E3, E2, (Hscan that1 eq_refl).
  reflexivity.
Qed.
End Assigned.

(** * Further properties *)

(** ** [set] and [isGenerated] *)

Lemma set_of_fold_has k l : forall acc,
  has k (fold_left (fun ret arg => set (to_key arg) 0%Z ret) l acc)
  = has k acc || mem k (map to_key l).
Proof.
  induction l as [|a l IH]; intros acc; cbn [fold_left map].
  - unfold mem. cbn. now rewrite orb_false_r.
  - rewrite IH, has_set. unfold mem. cbn [existsb].
    rewrite String.eqb_sym. now rewrite orb_assoc, (orb_comm (has k acc)).
Qed.

Lemma set_of_fold_zero l : forall acc,
  all_zero acc ->
  all_zero (fold_left (fun ret arg => set (to_key arg) 0%Z ret) l acc).
Proof.
  induction l as [|a l IH]; intros acc Hz; cbn [fold_left]; auto.
  apply IH. intros k v. rewrite get_set.
  destruct (to_key a =? k); [now intros [= <-]|apply Hz].
Qed.

Lemma set_of_fold_NoDup l : forall acc,
  NoDup (keys acc) ->
  NoDup (keys (fold_left (fun ret arg => set (to_key arg) 0%Z ret) l acc)).
Proof.
  induction l as [|a l IH]; intros acc Hn; cbn [fold_left]; auto.
  apply IH. now apply NoDup_keys_set.
Qed.

(** X1: [set] called with an array returns a table that holds exactly the
    elements of the array as keys, each once and each with the value 0,
    whatever else is passed behind the array; called with the elements
    themselves, the first of them neither an array nor [null], it returns
    the same table; called with [null] it throws.  [isGenerated] on the
    table answers whether the identifier is one of the elements, or the
    name of a property that every object inherits, such as
    ['constructor']. *)
Theorem set_holds_the_elements (l rest : list jsval) :
  (exists t,
      set_of (JArr l :: rest) = Some t
      /\ (forall ident,
            isGenerated t ident = true
            <-> In (to_key ident) (map to_key l)
                \/ In (to_key ident) Object_prototype)
      /\ NoDup (keys t)
      /\ all_zero t)
  /\ match at_ l 0 with
     | JArr _ => True
     | JNull => set_of l = None
     | _ => set_of l = set_of [JArr l]
     end.
Proof.
  split.
  - eexists. split; [reflexivity|]. split; [|split].
    + intros ident. unfold isGenerated.
      rewrite orb_true_iff, set_of_fold_has. cbn [has get orb].
      fold (mem (to_key ident) Object_prototype). now rewrite !mem_In.
    + apply set_of_fold_NoDup. constructor.
    + apply set_of_fold_zero. intros k v. discriminate.
  - destruct (at_ l 0) eqn:E; auto; unfold set_of; rewrite E; reflexivity.
Qed.

(** ** The blank lines of the output *)

Lemma skip_spaces_length s : String.length (skip_spaces s) <= String.length s.
Proof.
  induction s as [|c r IH]; simpl; auto.
  destruct (Ascii.eqb c space); simpl; lia.
Qed.

Lemma skip_spaces_solid s : solid (skip_spaces s) = solid s.
Proof.
  induction s as [|c r IH]; simpl; auto.
  destruct (Ascii.eqb c space) eqn:E; simpl; auto. now rewrite E.
Qed.

Lemma match_blank_length s rest :
  match_blank s = Some rest -> String.length rest + 2 <= String.length s.
Proof.
  destruct s as [|c r]; simpl; [discriminate|].
  destruct (Ascii.eqb c newline); [|discriminate].
  pose proof (skip_spaces_length r) as H.
  destruct (skip_spaces r) as [|c' r']; [discriminate|].
  destruct (Ascii.eqb c' newline); [|discriminate].
  intros [= <-]. simpl in H. lia.
Qed.

Lemma match_blank_solid s rest :
  match_blank s = Some rest -> solid rest = solid s.
Proof.
  destruct s as [|c r]; simpl; [discriminate|].
  destruct (Ascii.eqb c newline) eqn:Ec; [|discriminate].
  pose proof (skip_spaces_solid r) as H.
  destruct (skip_spaces r) as [|c' r']; [discriminate|].
  destruct (Ascii.eqb c' newline) eqn:Ec'; [|discriminate].
  intros [= <-]. rewrite orb_true_r. rewrite <- H. simpl.
  now rewrite Ec', orb_true_r.
Qed.

Lemma replace_blank_upto_free fuel : forall s,
  String.length s <= fuel -> blank_free s = true ->
  replace_blank_upto fuel s = s.
Proof.
  induction fuel as [|fuel IH]; intros s Hl Hf; [reflexivity|].
  destruct s as [|c r]; [reflexivity|].
  cbn [replace_blank_upto]. cbn [blank_free] in Hf.
  destruct (match_blank (String c r)); [discriminate|].
  rewrite IH; auto. simpl in Hl. lia.
Qed.

Lemma replace_blank_upto_shorter fuel : forall s,
  String.length s <= fuel ->
  String.length (replace_blank_upto fuel s) <= String.length s
  /\ (blank_free s = false ->
      String.length (replace_blank_upto fuel s) < String.length s).
Proof.
  induction fuel as [|fuel IH]; intros s Hl.
  - destruct s; [|simpl in Hl; lia]. split; [reflexivity|discriminate].
  - destruct s as [|c r]; [split; [reflexivity|discriminate]|].
    cbn [replace_blank_upto blank_free].
    destruct (match_blank (String c r)) as [rest|] eqn:Em.
    + pose proof (match_blank_length _ _ Em) as Hr.
      destruct (IH rest ltac:(lia)) as [H1 _].
      cbn [String.length] in *. split; [lia|intros _; lia].
    + destruct (IH r ltac:(simpl in Hl; lia)) as [H1 H2].
      cbn [String.length]. split; [lia|]. intros Hf. specialize (H2 Hf). lia.
Qed.

Lemma replace_blank_upto_solid fuel : forall s,
  String.length s <= fuel -> solid (replace_blank_upto fuel s) = solid s.
Proof.
  induction fuel as [|fuel IH]; intros s Hl; [reflexivity|].
  destruct s as [|c r]; [reflexivity|].
  cbn [replace_blank_upto].
  destruct (match_blank (String c r)) as [rest|] eqn:Em.
  - pose proof (match_blank_length _ _ Em) as Hr.
    rewrite <- (match_blank_solid _ _ Em).
    cbn [solid]. rewrite Ascii.eqb_refl, orb_true_r.
    apply IH. lia.
  - cbn [solid]. rewrite IH by (simpl in Hl; lia). reflexivity.
Qed.

Lemma blank_free_suffix pre : forall s,
  blank_free (pre ++ s) = true -> blank_free s = true.
Proof.
  induction pre as [|c pre IH]; intros s H; [exact H|].
  apply IH. cbn [append blank_free] in H.
  now destruct (match_blank (String c (pre ++ s))).
Qed.

Lemma skip_spaces_spaces k s :
  skip_spaces (spaces k ++ String newline s) = String newline s.
Proof. induction k as [|k IH]; simpl; auto. Qed.

Lemma remove_blank_lines_ends : forall n js,
  String.length js <= n ->
  exists r,
    (forall fuel, n < fuel -> remove_blank_lines fuel js = Some r)
    /\ blank_free r = true
    /\ String.length r <= String.length js
    /\ solid r = solid js
    /\ (blank_free js = true -> r = js).
Proof.
  induction n as [|n IH]; intros js Hl.
  - destruct js; [|simpl in Hl; lia]. exists EmptyString.
    split; [|repeat split; auto].
    intros [|fuel] Hf; [lia|]. reflexivity.
  - destruct (blank_free js) eqn:Hf.
    + exists js. split; [|repeat split; auto].
      intros [|fuel] Hfu; [lia|]. cbn [remove_blank_lines].
      unfold replace_blank.
      rewrite (replace_blank_upto_free _ js (le_n _) Hf).
      now rewrite String.eqb_refl.
    + destruct (replace_blank_upto_shorter _ js (le_n _)) as [_ Hs].
      specialize (Hs Hf). fold (replace_blank js) in Hs.
      destruct (IH (replace_blank js) ltac:(lia)) as [r [H1 [H2 [H3 [H4 _]]]]].
      exists r. split; [|split; [exact H2|split; [lia|split]]].
      * intros [|fuel] Hfu; [lia|]. cbn [remove_blank_lines].
        destruct (replace_blank js =? js) eqn:E.
        -- apply String.eqb_eq in E. rewrite E in Hs. lia.
        -- cbn [negb]. apply H1. lia.
      * rewrite H4. unfold replace_blank.
        now apply replace_blank_upto_solid.
      * discriminate.
Qed.

(** X2: the loop of [main] that removes the blank lines ends, within one
    turn more than the string has characters.  In the string it leaves,
    a newline is nowhere followed by spaces and another newline; the
    string is no longer than before; its characters other than spaces
    and newlines are those of before, in order; and a string without
    blank lines is returned as it is. *)
Theorem remove_blank_lines_result (js : string) :
  exists r,
    (forall fuel,
        String.length js < fuel -> remove_blank_lines fuel js = Some r)
    /\ blank_free r = true
    /\ (forall pre k post,
           r <> (pre ++ String newline (spaces k ++ String newline post))%string)
    /\ String.length r <= String.length js
    /\ solid r = solid js
    /\ (blank_free js = true -> r = js).
Proof.
  destruct (remove_blank_lines_ends (String.length js) js (le_n _))
    as [r [H1 [H2 [H3 [H4 H5]]]]].
  exists r. repeat split; auto.
  intros pre k post E. rewrite E in H2.
  apply blank_free_suffix in H2. cbn [blank_free match_blank] in H2.
  rewrite Ascii.eqb_refl, skip_spaces_spaces, Ascii.eqb_refl in H2.
  discriminate.
Qed.

(** ** The walker, again *)

Section Walker.
Context {St : Type}.
Variable callback : jsval -> string -> St -> option (jsval * St).

(** A true answer of a walk is the answer of the callback on the root. *)
Lemma traverse_true_answer node s r n' s' :
  traverse callback node s = Some (r, n', s') ->
  truthy r = true ->
  n' = node /\ callback node (type_of node) s = Some (r, s').
Proof.
  destruct node as [| | | |str|l]; try (simpl; congruence).
  - simpl. intros H; inversion H; subst. discriminate.
  - simpl. intros H; inversion H; subst. discriminate.
  - destruct str as [|c str]; simpl.
    + intros H; inversion H; subst. discriminate.
    + destruct (callback _ _ s) as [[res s1]|]; [|discriminate].
      intros H; inversion H; subst. destruct (truthy res) eqn:E.
      * auto.
      * discriminate.
  - rewrite traverse_JArr. destruct (at_ l 0) eqn:Ea.
    1-4, 6:
      cbn [truthy];
      destruct (traverse_children callback _ l s) as [[[r1 l1] s2]|] eqn:Ec;
      [|discriminate];
      intros H; inversion H; subst;
      rewrite (traverse_children_answer _ _ _ _ _ _ _ Ec); discriminate.
    destruct (callback (JArr l) s0 s) as [[res s1]|] eqn:Ecb; [|discriminate].
    destruct (truthy res) eqn:Et.
    + intros H; inversion H; subst. intros _. split; auto.
      now rewrite (type_of_JArr _ _ Ea).
    + destruct (traverse_children callback _ l s1) as [[[r1 l1] s2]|] eqn:Ec;
        [|discriminate].
      intros H; inversion H; subst.
      rewrite (traverse_children_answer _ _ _ _ _ _ _ Ec). discriminate.
Qed.

(** The true answers of the callback on [n] are [n] itself. *)
Let answers_itself (n : jsval) : Prop :=
  forall s r s',
    callback n (type_of n) s = Some (r, s') -> truthy r = true -> r = n.

(** When the callback, wherever it answers a true value, answers the node it
    was given, the walk leaves the tree as it was. *)
Lemma traverse_same_on node :
  (forall n, In n (visited node) -> answers_itself n) ->
  forall s r n' s', traverse callback node s = Some (r, n', s') -> n' = node.
Proof.
  induction node as [| | | |str|l IH] using jsval_tree_ind;
    intros Hq s r n' s'; try (simpl; congruence).
  - destruct str as [|c str]; simpl; [congruence|].
    destruct (callback _ _ s) as [[res s1]|]; [|discriminate]. congruence.
  - rewrite traverse_JArr.
    destruct (match at_ l 0 with JStr t => _ | _ => _ end)
      as [[res s1]|]; [|discriminate].
    destruct (truthy res); [congruence|].
    destruct (traverse_children callback (at_ l 0) l s1)
      as [[[r1 l1] s2]|] eqn:Ec; [|discriminate].
    intros H. assert (l1 = l) as Hl; [|congruence].
    assert (forall n, In n (visited_children (at_ l 0) l) -> answers_itself n)
      as Hq'.
    { intros n Hn. apply Hq. rewrite visited_JArr. apply in_or_app. now right. }
    clear Hq H. revert s1 r1 l1 s2 Ec Hq'. generalize (at_ l 0) as type.
    intros type.
    induction IH as [|c rest Hc _ IHrest]; intros s1 r1 l1 s2 Ec Hq;
      cbn [traverse_children] in Ec.
    + now inversion Ec.
    + cbn [visited_children] in Hq.
      destruct (is_subnode c && _) eqn:Eenter.
      * destruct (traverse callback c s1) as [[[sr sn] s3]|] eqn:Hx;
          [|discriminate].
        assert (forall n, In n (visited c) -> answers_itself n) as Hqc
            by (intros n Hn; apply Hq, in_or_app; now left).
        pose proof (Hc Hqc _ _ _ _ Hx) as ->.
        assert (is_false sr = false) as Ef.
        { destruct (traverse_answer _ _ _ _ _ _ Hx) as [->|Ht]; auto.
          destruct sr as [| |[]| | |]; simpl in *; congruence. }
        rewrite Ef in Ec.
        destruct (traverse_children callback type rest s3)
          as [[[r2 l2] s4]|] eqn:Hr; [|discriminate].
        inversion Ec; subst. f_equal.
        -- destruct (truthy sr) eqn:Et; auto.
           destruct (traverse_true_answer _ _ _ _ _ Hx Et) as [_ Hcb].
           eapply Hqc; eauto.
           destruct c as [| | | |str|lc]; try discriminate.
           destruct lc as [|h t]; [discriminate|].
           rewrite visited_JArr.
           rewrite traverse_JArr in Hx. cbn [at_ nth] in *.
           destruct h; try (left; reflexivity).
           all: destruct (traverse_children callback _ (_ :: t) s1)
               as [[[r3 l3] s5]|] eqn:Ec3; [|discriminate];
             inversion Hx; subst;
             rewrite (traverse_children_answer _ _ _ _ _ _ _ Ec3) in Et;
             discriminate.
        -- eapply IHrest; eauto.
           intros n Hn. apply Hq, in_or_app. now right.
      * destruct (traverse_children callback type rest s1)
          as [[[r2 l2] s4]|] eqn:Hr; [|discriminate].
        inversion Ec; subst. f_equal. eapply IHrest; eauto.
Qed.

Lemma traverse_same :
  (forall n t s r s',
      callback n t s = Some (r, s') -> truthy r = true -> r = n) ->
  forall node s r n' s', traverse callback node s = Some (r, n', s') ->
  n' = node.
Proof.
  intros H node. apply traverse_same_on. intros n _ s r s'. apply H.
Qed.

(** X3: a walk whose callback never answers a true value calls it once on
    every node of [visited], parents before children and children from
    left to right, each call from the state the call before has left; it
    answers [undefined] and leaves the tree as it was; it fails when a call
    fails. *)
Theorem traverse_falsy_callback :
  (forall n t s r s', callback n t s = Some (r, s') -> truthy r = false) ->
  forall node, elems node <> None -> forall s,
    traverse callback node s
    = match fold_left (call_on callback) (visited node) (Some s) with
      | Some s' => Some (JUndef, node, s')
      | None => None
      end.
Proof.
  intros Hfalsy node Hdef s. now apply traverse_visits.
Qed.

(** X4: the answer of a walk is [undefined], or else it is the true value
    that the callback answered on the root itself: then the callback was
    called once, no subnode was walked and the tree is as it was.  What the
    callback answers below the root never reaches the caller. *)
Theorem traverse_answer_of_the_root node s r n' s' :
  traverse callback node s = Some (r, n', s') ->
  r = JUndef
  \/ (truthy r = true /\ n' = node
      /\ callback node (type_of node) s = Some (r, s')).
Proof.
  intros H. destruct (traverse_answer _ _ _ _ _ _ H) as [->|Ht]; auto.
  right. split; auto. eapply traverse_true_answer; eauto.
Qed.
End Walker.

(** X3 on [x + y], walked to collect the names. *)
Lemma traverse_falsy_callback_witness :
  elems (plus_ (name_ "x") (name_ "y")) <> None
  /\ forall used,
       traverse collectUsed (plus_ (name_ "x") (name_ "y")) used
       = match fold_left (call_on collectUsed)
                 (visited (plus_ (name_ "x") (name_ "y"))) (Some used) with
         | Some used' => Some (JUndef, plus_ (name_ "x") (name_ "y"), used')
         | None => None
         end.
Proof.
  split; [discriminate|].
  apply (traverse_falsy_callback collectUsed collectUsed_falsy).
  discriminate.
Defined.

(** X4 on the node [x], with [1] to be put for [x]. *)
Lemma traverse_answer_of_the_root_witness :
  num_ 1 = JUndef
  \/ (truthy (num_ 1) = true /\ name_ "x" = name_ "x"
      /\ updateUse [("x", num_ 1)] (name_ "x") (type_of (name_ "x")) tt
         = Some (num_ 1, tt)).
Proof.
  apply (traverse_answer_of_the_root (updateUse [("x", num_ 1)])
           (name_ "x") tt (num_ 1) (name_ "x") tt).
  reflexivity.
Defined.

(** ** The analysis passes leave the tree alone *)

Lemma checkForMutations_answer node type st r st' :
  checkForMutations node type st = Some (r, st') -> r = JUndef.
Proof.
  unfold checkForMutations. intros H. break_in H; now inversion H.
Qed.

Lemma analyzeBlock_answer node type st r st' :
  analyzeBlock node type st = Some (r, st') -> r = node \/ r = JUndef.
Proof.
  rewrite analyzeBlock_eq. intros H.
  destruct (ANALYZE_BLOCK_TYPES type).
  - break_in H; inversion H; subst; auto.
  - destruct (type =? "var").
    + break_in H; inversion H; subst; auto.
    + right. eapply checkForMutations_answer; eauto.
Qed.

Lemma initialValueNode_answer varName node type that r that' :
  initialValueNode varName node type that = Some (r, that') -> r = JUndef.
Proof.
  unfold initialValueNode. intros H. break_in H; now inversion H.
Qed.

Lemma basicVarStats_answer node type that r that' :
  basicVarStats node type that = Some (r, that') -> r = JUndef.
Proof.
  unfold basicVarStats. intros H. break_in H; now inversion H.
Qed.

(** X5: the four analysis passes never change the tree they walk: the
    callbacks of the scan, of the initial values and of the mutations answer
    nothing, and [analyzeBlock] answers the node it was given (so that the
    walker does not go into blocks and declarations by itself), which the
    walker stores back in the same slot. *)
Theorem analysis_keeps_the_tree :
  (forall body that r body' that',
      traverse basicVarStats body that = Some (r, body', that') ->
      body' = body /\ r = JUndef)
  /\ (forall varName value that r value' that',
         traverse (initialValueNode varName) value that
         = Some (r, value', that') ->
         value' = value /\ r = JUndef)
  /\ (forall node st r node' st',
         traverse checkForMutations node st = Some (r, node', st') ->
         node' = node /\ r = JUndef)
  /\ (forall body st r body' st',
         traverse analyzeBlock body st = Some (r, body', st') ->
         body' = body /\ (r = JUndef \/ r = body)).
Proof.
  assert (forall St (cb : jsval -> string -> St -> option (jsval * St)),
             (forall n t s r s', cb n t s = Some (r, s') -> r = JUndef) ->
             forall node s r n' s',
               traverse cb node s = Some (r, n', s') ->
               n' = node /\ r = JUndef) as Hquiet.
  { intros St cb Hcb node s r n' s' H. split.
    - eapply (traverse_same cb); eauto.
      intros n t s0 r0 s0' H0 Ht. rewrite (Hcb _ _ _ _ _ H0) in Ht.
      discriminate.
    - destruct (traverse_answer _ _ _ _ _ _ H) as [->|Ht]; auto.
      destruct (traverse_true_answer _ _ _ _ _ _ H Ht) as [_ H0].
      eapply Hcb; eauto. }
  split; [|split; [|split]].
  - apply Hquiet. apply basicVarStats_answer.
  - intros varName. apply Hquiet. apply initialValueNode_answer.
  - apply Hquiet. apply checkForMutations_answer.
  - intros body st r body' st' H.
    assert (body' = body) as ->.
    { eapply (traverse_same analyzeBlock); eauto.
      intros n t s0 r0 s0' H0 Ht.
      destruct (analyzeBlock_answer _ _ _ _ _ H0) as [->| ->]; auto.
      discriminate. }
    split; auto.
    destruct (traverse_answer _ _ _ _ _ _ H) as [->|Ht]; auto.
    destruct (traverse_true_answer _ _ _ _ _ _ H Ht) as [_ H0].
    destruct (analyzeBlock_answer _ _ _ _ _ H0); auto.
Qed.

(** ** The rewriting passes *)

Lemma substitute_JArr replacements l :
  substitute replacements (JArr l)
  = JArr (substitute_children replacements (at_ l 0) l).
Proof.
  simpl. f_equal. generalize (at_ l 0) as type. intros type.
  induction l as [|x r IH]; simpl; auto. now rewrite IH.
Qed.

Lemma replacement_true replacements node v :
  replacement replacements node = Some v -> truthy v = true.
Proof.
  unfold replacement. intros H. break_in H. now inversion H; subst.
Qed.

Lemma updateUse_replacement replacements node u :
  updateUse replacements node (type_of node) u
  = Some (match get (to_key (sub node 1)) replacements with
          | Some v =>
              if (type_of node =? "name") then v else JUndef
          | None => JUndef
          end, u).
Proof.
  unfold updateUse, has.
  destruct (type_of node =? "name"); cbn [andb];
    destruct (get _ replacements); auto.
Qed.

Lemma traverse_updateUse replacements node :
  elems node <> None ->
  forall u,
    traverse (updateUse replacements) node u
    = Some (match replacement replacements node with
            | Some v => v
            | None => JUndef
            end,
            match replacement replacements node with
            | Some _ => node
            | None => substitute replacements node
            end, u).
Proof.
  induction node as [| | | |str|l IH] using jsval_tree_ind;
    intros Hdef u; try reflexivity; try (now elim Hdef).
  - destruct str as [|c str]; [reflexivity|].
    cbn [traverse]. unfold updateUse.
    assert ((String c "" =? "name") = false) as ->
        by (cbn; destruct (Ascii.eqb c "n"); reflexivity).
    cbn [andb truthy]. unfold replacement. cbn [type_of].
    assert ((String c "" =? "name") = false) as ->
        by (cbn; destruct (Ascii.eqb c "n"); reflexivity).
    reflexivity.
  - clear Hdef. rewrite traverse_JArr, substitute_JArr.
    assert (forall u,
               traverse_children (updateUse replacements) (at_ l 0) l u
               = Some (JUndef,
                       substitute_children replacements (at_ l 0) l, u))
      as Hchildren.
    { generalize (at_ l 0) as type. intros type.
      induction IH as [|c rest Hc _ IHrest]; intros u1;
        cbn [traverse_children substitute_children]; auto.
      destruct (is_subnode c && _) eqn:Eenter.
      - rewrite Hc
          by (destruct c as [| | | |?|[|? ?]]; try discriminate).
        rewrite IHrest.
        destruct (replacement replacements c) as [v|] eqn:Er.
        + pose proof (replacement_true _ _ _ Er) as Ht. rewrite Ht.
          destruct v as [| |[]| | |]; try discriminate; reflexivity.
        + reflexivity.
      - now rewrite IHrest. }
    destruct (at_ l 0) as [| | | |t|] eqn:Ea.
    1-4, 6:
      rewrite Hchildren; unfold replacement;
      assert (type_of (JArr l) = "") as ->
          by (destruct l as [|[] ?]; try reflexivity; discriminate);
      reflexivity.
    pose proof (type_of_JArr _ _ Ea) as Et.
    pose proof (updateUse_replacement replacements (JArr l) u) as Hu.
    rewrite Et in Hu. rewrite Hu. unfold replacement. rewrite Et.
    unfold has.
    destruct (t =? "name"); cbn [andb].
    + destruct (get _ replacements) as [v|].
      * destruct (truthy v); [reflexivity|]. now rewrite Hchildren.
      * cbn [truthy]. now rewrite Hchildren.
    + destruct (get _ replacements); cbn [truthy]; now rewrite Hchildren.
Qed.

Lemma substitute_nil node : substitute [] node = node.
Proof.
  induction node as [| | | |str|l IH] using jsval_tree_ind; try reflexivity.
  rewrite substitute_JArr. f_equal.
  generalize (at_ l 0) as type. intros type.
  induction IH as [|c rest Hc _ IHrest]; cbn [substitute_children]; auto.
  rewrite IHrest, Hc. unfold replacement, has. cbn [get].
  rewrite andb_false_r. now destruct (is_subnode c && _).
Qed.

Lemma updateUses_nil body :
  elems body <> None -> updateUses [] body = Some body.
Proof.
  intros Hdef. unfold updateUses. rewrite traverse_updateUse by assumption.
  unfold replacement, has. cbn [get]. rewrite andb_false_r.
  now rewrite substitute_nil.
Qed.

(** X6: [updateUses] leaves the body with every subnode that the walk
    reaches and that is a [name] node with an entry in [replacements] (one
    that counts as true) replaced by that entry; nothing else changes, and
    the walk does not go into what it has put in.  The root itself is never
    replaced: when it is such a [name] node the body stays as it is.  With
    an empty table the body stays as it is. *)
Theorem updateUses_substitutes replacements body :
  elems body <> None ->
  updateUses replacements body
  = Some (match replacement replacements body with
          | Some _ => body
          | None => substitute replacements body
          end)
  /\ updateUses [] body = Some body.
Proof.
  intros Hdef. split; [|now apply updateUses_nil].
  unfold updateUses. now rewrite traverse_updateUse by assumption.
Qed.

(** X6 on [return a + b], with [b] for [a] and [1] for [b]: the [b] put
    for [a] is not replaced. *)
Lemma updateUses_substitutes_witness :
  elems (JArr [return_ (plus_ (name_ "a") (name_ "b"))]) <> None
  /\ updateUses [("a", name_ "b"); ("b", num_ 1)]
       (JArr [return_ (plus_ (name_ "a") (name_ "b"))])
     = Some (JArr [return_ (plus_ (name_ "b") (num_ 1))]).
Proof.
  split; [discriminate|].
  apply (updateUses_substitutes [("a", name_ "b"); ("b", num_ 1)]
           (JArr [return_ (plus_ (name_ "a") (name_ "b"))])).
  discriminate.
Defined.

(** ** A run that eliminates nothing *)

Lemma intact_nil vars : forall vars',
  intact [] vars = Some vars' -> vars' = vars.
Proof.
  induction vars as [|i rest IH]; intros vars' H; simpl in H.
  - now inversion H.
  - destruct (idx i 0); [|discriminate].
    destruct (intact [] rest) as [rest'|]; [|discriminate].
    inversion H; subst. cbn. f_equal. now apply IH.
Qed.

Lemma removeDeclarations_nil body body' :
  vars_declare body ->
  removeDeclarations [] body = Some body' -> body' = body.
Proof.
  intros Hv. unfold removeDeclarations.
  destruct (traverse (removeDeclaration []) body tt) as [[[r n'] u]|] eqn:E;
    [|discriminate].
  intros H; inversion H; subst.
  eapply (traverse_same_on (removeDeclaration [])); eauto.
  intros n Hn s r0 s' H0 Ht. unfold removeDeclaration in H0.
  destruct (type_of n =? "var") eqn:Etype;
    [|inversion H0; subst; discriminate].
  apply String.eqb_eq in Etype.
  destruct n as [| | | |?|[|tag [|[| | | |?|vars] rest]]]; try discriminate.
  destruct (intact [] vars) as [vars'|] eqn:Ei; [|discriminate].
  apply intact_nil in Ei. subst vars'.
  destruct vars as [|d vars].
  - elim (Hv _ Hn Etype). reflexivity.
  - now inversion H0.
Qed.

Lemma collapseValues_nil fuel values :
  collapseValues fuel [] = Some values -> values = [].
Proof.
  destruct fuel; simpl; [discriminate|]. intros H. now inversion H.
Qed.

(** X7: when [run] returns 0 it has left the body as it was, on a body in
    which every [var] node declares something; a [var] node without
    declarations is rewritten to an empty [toplevel] node even then. *)
Theorem run_without_eliminations fuel body body' :
  vars_declare body ->
  run fuel body = Some (0%Z, body') ->
  body' = body.
Proof.
  intros Hv. unfold run.
  destruct (analyze body) as [that|] eqn:Ea; [|discriminate].
  destruct (selectEliminated that) as [toReplace eliminated] eqn:Es.
  destruct (removeDeclarations toReplace body) as [body1|] eqn:E1;
    [|discriminate].
  destruct (collapseValues fuel toReplace) as [values|] eqn:E2;
    [|discriminate].
  destruct (updateUses values body1) as [body2|] eqn:E3; [|discriminate].
  intros H; inversion H; subst. clear H.
  destruct (selectEliminated_spec that (analyze_NoDup _ _ Ea)) as [_ Hn].
  rewrite Es in Hn. cbn [fst snd] in Hn.
  assert (toReplace = []) as ->.
  { destruct toReplace; auto. cbn in Hn. lia. }
  apply collapseValues_nil in E2. subst values.
  apply removeDeclarations_nil in E1; auto. subst body1.
  assert (elems body <> None) as Hdef.
  { unfold analyze, calculateBasicVarStats in Ea.
    destruct body; try discriminate; simpl in Ea; discriminate. }
  rewrite (updateUses_nil body Hdef) in E3. congruence.
Qed.

(** X7 on [var x = f(); return x;]. *)
Lemma run_without_eliminations_witness :
  vars_declare (JArr [var_ "x" (call_ (name_ "f") []); return_ (name_ "x")])
  /\ run 1 (JArr [var_ "x" (call_ (name_ "f") []); return_ (name_ "x")])
     = Some (0%Z, JArr [var_ "x" (call_ (name_ "f") []); return_ (name_ "x")]).
Proof.
  assert (vars_declare
            (JArr [var_ "x" (call_ (name_ "f") []); return_ (name_ "x")]))
    as Hv.
  { intros n Hn Ht. cbn in Hn.
    repeat (destruct Hn as [<-|Hn]; [try discriminate|]);
      try contradiction. }
  split; [exact Hv|].
  assert (exists body',
             run 1 (JArr [var_ "x" (call_ (name_ "f") []);
                          return_ (name_ "x")]) = Some (0%Z, body'))
    as [body' H] by (eexists; reflexivity).
  rewrite H. f_equal. f_equal.
  exact (run_without_eliminations 1 _ body' Hv H).
Defined.

(** ** The scan *)

Lemma idx_sub d i v : idx d i = Some v -> sub d i = v.
Proof.
  unfold idx, sub. destruct (elems d); [|discriminate]. congruence.
Qed.

Lemma occurrences_app x l1 l2 :
  occurrences x (l1 ++ l2) = occurrences x l1 + occurrences x l2.
Proof. apply count_occ_app. Qed.

Lemma occurrences_one x y :
  occurrences x [y] = if y =? x then 1 else 0.
Proof.
  unfold occurrences. simpl. destruct (string_dec y x) as [->|Hne].
  - now rewrite String.eqb_refl.
  - apply String.eqb_neq in Hne. now rewrite Hne.
Qed.

Lemma occurrences_none x l : ~ In x l -> occurrences x l = 0.
Proof. apply count_occ_not_In. Qed.

Lemma occurrences_In x l : In x l <-> 0 < occurrences x l.
Proof. unfold occurrences. rewrite (count_occ_In string_dec). lia. Qed.

Lemma names_in_flat_map body :
  names_in body = flat_map names_of (visited body).
Proof.
  unfold names_in. induction (visited body) as [|n l IH]; simpl; auto.
  unfold names_of at 1. destruct (type_of n =? "name"); simpl; now rewrite IH.
Qed.

Lemma scan_inv_new : scan_inv new_Eliminator [] [].
Proof.
  constructor; cbn; try reflexivity; try discriminate;
    intros; split; try discriminate; tauto.
Qed.

Lemma declare_inv d that that' Ds N :
  declare d that = Some that' ->
  scan_inv that Ds N -> scan_inv that' (Ds ++ [d]) N.
Proof.
  unfold declare. intros H I.
  destruct (idx d 0) as [n0|] eqn:E0; [|discriminate].
  destruct (idx d 1) as [v0|] eqn:E1; [|discriminate].
  inversion H; subst; clear H.
  pose proof (idx_sub _ _ _ E0) as S0. pose proof (idx_sub _ _ _ E1) as S1.
  assert (declared_name d = to_key n0) as Hd
      by (unfold declared_name; now rewrite S0).
  destruct I as [I1 I2 I3 I4 I5 I6 I7 I8].
  constructor; cbn [isLocal isSingleDef useCount initialValue].
  - intros x. rewrite has_set, orb_true_iff, String.eqb_eq, I1, map_app,
      in_app_iff. cbn. rewrite Hd. tauto.
  - rewrite !keys_set, I2. now rewrite (has_keys _ _ _ I2).
  - rewrite !keys_set, I3. now rewrite (has_keys _ _ _ I3).
  - intros x. rewrite has_set, orb_true_iff, String.eqb_eq, I4, map_app,
      in_app_iff. cbn. rewrite Hd. tauto.
  - intros x. rewrite test_set, get_set, map_app, occurrences_app.
    cbn [map]. rewrite occurrences_one, Hd.
    destruct (to_key n0 =? x) eqn:E.
    + apply String.eqb_eq in E. subst x. intros Hn.
      apply negb_true_iff in Hn.
      assert (~ (In (to_key n0) (map declared_name Ds) \/ In (to_key n0) N))
        as Hno by (rewrite <- I4; congruence).
      rewrite !occurrences_none by tauto. auto.
    + intros Ht. destruct (I5 x Ht) as [Hc Hu]. rewrite Hc, Hu. auto.
  - intros x b. rewrite get_set. destruct (to_key n0 =? x); [congruence|].
    apply I6.
  - intros x v. rewrite get_set. destruct (to_key n0 =? x) eqn:E.
    + apply String.eqb_eq in E. intros Hv. inversion Hv; subst.
      exists d. split; [apply in_or_app; right; now left|].
      split; auto.
    + intros Hv. destruct (I7 x v Hv) as [d' [Hin Hd']].
      exists d'. split; auto. apply in_or_app. now left.
  - intros x n. rewrite get_set. destruct (to_key n0 =? x).
    + intros Hn; inversion Hn; lia.
    + apply I8.
Qed.

Lemma declare_all_inv node1 : forall that that' Ds N,
  declare_all node1 that = Some that' ->
  scan_inv that Ds N -> scan_inv that' (Ds ++ node1) N.
Proof.
  induction node1 as [|d rest IH]; intros that that' Ds N H I; simpl in H.
  - inversion H; subst. now rewrite app_nil_r.
  - destruct (declare d that) as [that1|] eqn:Hd; [|discriminate].
    change (d :: rest) with ([d] ++ rest). rewrite app_assoc.
    eapply IH; eauto. eapply declare_inv; eauto.
Qed.

Lemma basicVarStats_inv n that r that' Ds N :
  basicVarStats n (type_of n) that = Some (r, that') ->
  scan_inv that Ds N ->
  scan_inv that' (Ds ++ declarations_of n) (N ++ names_of n).
Proof.
  unfold basicVarStats, declarations_of, names_of. intros H I.
  destruct (type_of n =? "var") eqn:Evar.
  { apply String.eqb_eq in Evar. rewrite Evar. cbn [String.eqb Ascii.eqb Bool.eqb].
    rewrite app_nil_r.
    destruct (elems (sub n 1)) as [node1|]; [|discriminate].
    destruct (declare_all node1 that) as [that1|] eqn:Hd; [|discriminate].
    inversion H; subst. eapply declare_all_inv; eauto. }
  rewrite app_nil_r.
  destruct (type_of n =? "name") eqn:Ename.
  { set (x' := to_key (sub n 1)) in *.
    destruct I as [I1 I2 I3 I4 I5 I6 I7 I8].
    destruct (get x' (useCount that)) as [c|] eqn:Ec;
      inversion H; subst; clear H;
      constructor;
      cbn [isLocal isSingleDef useCount initialValue with_useCount
             with_isSingleDef]; auto.
    - rewrite keys_set. unfold has. now rewrite Ec.
    - intros x. rewrite I4, in_app_iff. cbn.
      assert (In x' (map declared_name Ds)) as Hx'.
      { apply I1. rewrite <- (has_keys _ _ _ I2). unfold has. now rewrite Ec. }
      split; [tauto|]. intros [?|[?|[<-|[]]]]; auto.
    - intros x Ht. destruct (I5 x Ht) as [Hc Hu]. split; auto.
      rewrite get_set, occurrences_app, occurrences_one.
      destruct (x' =? x) eqn:E.
      + apply String.eqb_eq in E. subst x. rewrite Hu in Ec.
        inversion Ec; subst. f_equal. lia.
      + now rewrite Nat.add_0_r.
    - intros x m. rewrite get_set, occurrences_app, occurrences_one.
      destruct (x' =? x) eqn:E.
      + apply String.eqb_eq in E. subst x.
        intros Hm; inversion Hm; subst. pose proof (I8 _ _ Ec). lia.
      + intros Hm. pose proof (I8 _ _ Hm). lia.
    - intros x. rewrite has_set, orb_true_iff, String.eqb_eq, I4, in_app_iff.
      cbn. tauto.
    - intros x. rewrite test_set, occurrences_app, occurrences_one.
      destruct (x' =? x); [discriminate|]. rewrite Nat.add_0_r. apply I5.
    - intros x m Hm. rewrite occurrences_app. pose proof (I8 _ _ Hm). lia. }
  rewrite app_nil_r.
  destruct (type_of n =? "assign").
  { destruct (idx (sub n 2) 1) as [n1|]; [|discriminate].
    destruct (test (to_key n1) (isSingleDef that)) eqn:Et;
      inversion H; subst; clear H; auto.
    destruct I as [I1 I2 I3 I4 I5 I6 I7 I8].
    constructor;
      cbn [isLocal isSingleDef useCount initialValue with_isSingleDef]; auto.
    - intros x. rewrite has_set, orb_true_iff, String.eqb_eq, <- I4.
      split; [|tauto]. intros [<-|?]; auto. now apply test_has.
    - intros x. rewrite test_set.
      destruct (to_key n1 =? x); [discriminate|]. apply I5. }
  inversion H; subst. exact I.
Qed.

Lemma scan_fold_inv l : forall that that' Ds N,
  fold_left (call_on basicVarStats) l (Some that) = Some that' ->
  scan_inv that Ds N ->
  scan_inv that' (Ds ++ flat_map declarations_of l)
    (N ++ flat_map names_of l).
Proof.
  induction l as [|n l IH]; intros that that' Ds N H I; simpl in H.
  - inversion H; subst. cbn. now rewrite !app_nil_r.
  - destruct (basicVarStats n (type_of n) that) as [[r s1]|] eqn:E;
      [|now rewrite call_on_None in H].
    cbn [flat_map]. rewrite !app_assoc.
    eapply IH; eauto. eapply basicVarStats_inv; eauto.
Qed.

Lemma scan_defined body that that' :
  calculateBasicVarStats body that = Some that' -> elems body <> None.
Proof.
  unfold calculateBasicVarStats. destruct body; simpl; discriminate.
Qed.

Lemma calculateBasicVarStats_fold body that that' :
  calculateBasicVarStats body that = Some that' ->
  fold_left (call_on basicVarStats) (visited body) (Some that) = Some that'.
Proof.
  intros H. pose proof (scan_defined _ _ _ H) as Hdef. revert H.
  unfold calculateBasicVarStats.
  rewrite (traverse_visits basicVarStats basicVarStats_falsy body Hdef).
  destruct (fold_left _ _ _); congruence.
Qed.

Lemma calculateBasicVarStats_inv body that :
  calculateBasicVarStats body new_Eliminator = Some that ->
  scan_inv that (declarations body) (names_in body).
Proof.
  intros H. apply calculateBasicVarStats_fold in H.
  rewrite names_in_flat_map.
  apply (scan_fold_inv _ _ _ [] [] H scan_inv_new).
Qed.

Lemma flat_map_snoc {A B : Type} (f : A -> list B) l a :
  flat_map f (l ++ [a]) = flat_map f l ++ f a.
Proof. rewrite flat_map_app. cbn. now rewrite app_nil_r. Qed.

Lemma scan_step_before n that r that' P x :
  basicVarStats n (type_of n) that = Some (r, that') ->
  scan_inv that (flat_map declarations_of P) (flat_map names_of P) ->
  (test x (isSingleDef that) = true -> declared_before_use x P) ->
  test x (isSingleDef that') = true ->
  declared_before_use x (P ++ [n]).
Proof.
  intros H I IH Ht pre m post Hsplit Hm.
  destruct (@exists_last _ (m :: post)) as [l' [a Hl]]; [discriminate|].
  change (pre ++ m :: post) with (pre ++ (m :: post)) in Hsplit.
  rewrite Hl, app_assoc in Hsplit.
  apply app_inj_tail in Hsplit. destruct Hsplit as [HP Hn]. subst a.
  destruct l' as [|m' l''].
  - cbn in Hl. inversion Hl; subst. rewrite app_nil_r in I.
    unfold names_of in Hm.
    destruct (type_of n =? "name") eqn:En; [|contradiction].
    destruct Hm as [Hx|[]].
    apply String.eqb_eq in En. unfold basicVarStats in H. rewrite En in H.
    cbn [String.eqb Ascii.eqb Bool.eqb] in H. rewrite Hx in H.
    destruct (get x (useCount that)) as [c|] eqn:Ec.
    + apply (scan_local _ _ _ I).
      rewrite <- (has_keys _ _ _ (scan_counts _ _ _ I)).
      unfold has. now rewrite Ec.
    + inversion H; subst. cbn in Ht. rewrite test_set, String.eqb_refl in Ht.
      discriminate.
  - cbn in Hl. inversion Hl; subst.
    destruct (get x (isSingleDef that)) as [[|]|] eqn:Eg.
    + apply (IH ltac:(unfold test; now rewrite Eg) pre m' l''); auto.
    + destruct (basicVarStats_counted x _ _ _ _ _ H) as [_ Hs].
      unfold test in Ht. rewrite (Hs Eg) in Ht. discriminate.
    + assert (has x (isSingleDef that) = true) as Hh.
      { apply (scan_seen _ _ _ I). right. apply in_flat_map.
        exists m'. split; auto. apply in_or_app. right. now left. }
      unfold has in Hh. rewrite Eg in Hh. discriminate.
Qed.

Lemma scan_fold_before x l : forall that that' P,
  fold_left (call_on basicVarStats) l (Some that) = Some that' ->
  scan_inv that (flat_map declarations_of P) (flat_map names_of P) ->
  (test x (isSingleDef that) = true -> declared_before_use x P) ->
  test x (isSingleDef that') = true ->
  declared_before_use x (P ++ l).
Proof.
  induction l as [|n l IH]; intros that that' P H I Hb Ht; simpl in H.
  - inversion H; subst. rewrite app_nil_r. auto.
  - destruct (basicVarStats n (type_of n) that) as [[r s1]|] eqn:E;
      [|now rewrite call_on_None in H].
    change (n :: l) with ([n] ++ l). rewrite app_assoc.
    eapply IH; eauto.
    + rewrite !flat_map_snoc. eapply basicVarStats_inv; eauto.
    + eapply scan_step_before; eauto.
Qed.

Lemma initial_of_true d : truthy (initial_of d) = true.
Proof.
  unfold initial_of. destruct (truthy (sub d 1)) eqn:E; auto.
Qed.

(** What the scan has found of a single-def variable. *)
Lemma scan_single_def body that x :
  calculateBasicVarStats body new_Eliminator = Some that ->
  test x (isSingleDef that) = true ->
  occurrences x (declared body) = 1
  /\ get x (useCount that) = Some (Z.of_nat (occurrences x (names_in body)))
  /\ declared_before_use x (visited body)
  /\ exists d,
       In d (declarations body) /\ declared_name d = x
       /\ get x (initialValue that) = Some (initial_of d).
Proof.
  intros H Ht. pose proof (calculateBasicVarStats_inv _ _ H) as I.
  destruct (scan_single _ _ _ I x Ht) as [Hc Hu].
  split; [exact Hc|]. split; [exact Hu|]. split.
  - apply calculateBasicVarStats_fold in H.
    apply (scan_fold_before x _ _ _ [] H scan_inv_new); auto.
    intros Hf. discriminate Hf.
  - assert (has x (initialValue that) = true) as Hh.
    { rewrite (has_keys _ _ _ (scan_values _ _ _ I)).
      apply (scan_local _ _ _ I). apply occurrences_In.
      unfold declared in Hc. lia. }
    unfold has in Hh.
    destruct (get x (initialValue that)) as [v|] eqn:Ev; [|discriminate].
    destruct (scan_initial _ _ _ I x v Ev) as [d [Hin [Hd Hv]]].
    exists d. subst v. auto.
Qed.

(** X8: the tables that the scan fills, on a body of plain names.
    [isLocal], [useCount] and [initialValue] have the same keys, the names
    declared by the [var] nodes that the walk visits; [isSingleDef] has
    these and the names of the [name] nodes.  Every entry of [isLocal] is
    [true]; an initial value is the value of one of the declarations of
    the name, or [['name', 'undefined']] where that declaration has none,
    and counts as true; a use count lies between 0 and the number of
    [name] nodes that name the variable. *)
Theorem scan_tables body that :
  plain_names body = true ->
  calculateBasicVarStats body new_Eliminator = Some that ->
  (forall x, has x (isLocal that) = true <-> In x (declared body))
  /\ keys (useCount that) = keys (isLocal that)
  /\ keys (initialValue that) = keys (isLocal that)
  /\ (forall x,
        has x (isSingleDef that) = true
        <-> In x (declared body) \/ In x (names_in body))
  /\ (forall x b, get x (isLocal that) = Some b -> b = true)
  /\ (forall x v,
        get x (initialValue that) = Some v ->
        truthy v = true
        /\ exists d,
             In d (declarations body) /\ declared_name d = x
             /\ v = initial_of d)
  /\ (forall x n,
        get x (useCount that) = Some n ->
        (0 <= n <= Z.of_nat (occurrences x (names_in body)))%Z).
Proof.
  intros _ H. destruct (calculateBasicVarStats_inv _ _ H)
    as [I1 I2 I3 I4 I5 I6 I7 I8].
  split; [exact I1|]. split; [exact I2|]. split; [exact I3|].
  split; [exact I4|]. split; [exact I6|]. split; [|exact I8].
  intros x v Hv. destruct (I7 x v Hv) as [d [Hin [Hd ->]]].
  split; [apply initial_of_true|]. exists d. auto.
Qed.

(** X9: a variable is single-def after the scan only if exactly one of the
    declarations that the walk visits declares it, no [name] node names it
    before that declaration has been seen, and no assignment that the walk
    visits has it as its target.  Then its use count is the number of the
    [name] nodes that name it, and its initial value is the one of that
    declaration. *)
Theorem single_definition body that x :
  calculateBasicVarStats body new_Eliminator = Some that ->
  test x (isSingleDef that) = true ->
  occurrences x (declared body) = 1
  /\ get x (useCount that) = Some (Z.of_nat (occurrences x (names_in body)))
  /\ declared_before_use x (visited body)
  /\ (exists d,
        In d (declarations body) /\ declared_name d = x
        /\ get x (initialValue that) = Some (initial_of d))
  /\ (forall op v,
        is_subnode op = false ->
        ~ In (JArr [JStr "assign"; op; name_ x; v]) (visited body)).
Proof.
  intros H Ht.
  destruct (scan_single_def _ _ _ H Ht) as [H1 [H2 [H3 H4]]].
  split; [exact H1|]. split; [exact H2|]. split; [exact H3|].
  split; [exact H4|].
  intros op v Hop Hin.
  destruct (assigned_not_singleDef x body op v Hop Hin) as [Hs _].
  rewrite (Hs that H) in Ht. discriminate.
Qed.

(** X8 on [var a = x + 1; return a;]. *)
Lemma scan_tables_witness :
  calculateBasicVarStats body_inline new_Eliminator
  = Some (mkEliminator [("a", true)] [("a", true); ("x", false)]
            [("a", 1%Z)] [] [] []
            [("a", plus_ (name_ "x") (num_ 1))] [])
  /\ forall x,
       has x [("a", true)] = true <-> In x (declared body_inline).
Proof.
  split; [reflexivity|].
  apply (scan_tables body_inline
           (mkEliminator [("a", true)] [("a", true); ("x", false)]
              [("a", 1%Z)] [] [] []
              [("a", plus_ (name_ "x") (num_ 1))] [])).
  - reflexivity.
  - reflexivity.
Defined.

(** X9 on [var a = x + 1; return a;] and [a]. *)
Lemma single_definition_witness :
  occurrences "a" (declared body_inline) = 1
  /\ declared_before_use "a" (visited body_inline).
Proof.
  pose proof (single_definition body_inline
                (mkEliminator [("a", true)] [("a", true); ("x", false)]
                   [("a", 1%Z)] [] [] []
                   [("a", plus_ (name_ "x") (num_ 1))] [])
                "a" eq_refl eq_refl) as H.
  split; [exact (proj1 H) | exact (proj1 (proj2 (proj2 H)))].
Defined.

(** ** What [run] eliminates *)

(** The analysis passes after the scan leave the tables of the scan as
    they are. *)
Lemma analyze_scan body that :
  analyze body = Some that ->
  exists that1,
    calculateBasicVarStats body new_Eliminator = Some that1
    /\ isLocal that = isLocal that1
    /\ isSingleDef that = isSingleDef that1
    /\ useCount that = useCount that1
    /\ initialValue that = initialValue that1.
Proof.
  unfold analyze.
  destruct (calculateBasicVarStats body new_Eliminator) as [that1|] eqn:E1;
    [|discriminate].
  destruct (analyzeInitialValues that1) as [that2|] eqn:E2; [|discriminate].
  destruct (calculateTransitiveDependencies that2) as [that3|] eqn:E3;
    [|discriminate].
  intros E4. exists that1. split; auto.
  apply analyzeInitialValues_loop_frame in E2.
  apply closureLoop_frame in E3.
  apply analyzeLiveRanges_frame in E4.
  unfold deps_frame in E2, E3. unfold live_frame in E4.
  decompose [and] E2. decompose [and] E3. decompose [and] E4.
  repeat split; congruence.
Qed.

Lemma selectEliminated_values that x ks : forall acc,
  get x
    (fst (fold_left
            (fun acc varName =>
               if isEliminateable that varName then
                 (set varName
                    (match get varName (initialValue that) with
                     | Some v => v
                     | None => JUndef
                     end) (fst acc),
                  (snd acc + 1)%Z)
               else acc) ks acc))
  = if mem x ks && isEliminateable that x
    then Some (match get x (initialValue that) with
               | Some v => v
               | None => JUndef
               end)
    else get x (fst acc).
Proof.
  induction ks as [|k ks IH]; intros acc; cbn [fold_left mem existsb].
  - reflexivity.
  - rewrite IH. fold (mem x ks).
    destruct (x =? k) eqn:E.
    + apply String.eqb_eq in E. subst k. cbn [orb andb].
      destruct (isEliminateable that x) eqn:Ex.
      * rewrite andb_true_r. cbn [fst]. rewrite get_set_eq.
        now destruct (mem x ks).
      * rewrite andb_false_r. reflexivity.
    + cbn [orb]. destruct (mem x ks && isEliminateable that x); auto.
      destruct (isEliminateable that k); auto. cbn [fst].
      rewrite get_set. rewrite String.eqb_sym in E. now rewrite E.
Qed.

Lemma isEliminateable_singleDef that x :
  isEliminateable that x = true -> test x (isSingleDef that) = true.
Proof.
  unfold isEliminateable. destruct (test x (isSingleDef that)); auto.
Qed.

(** X10: what [run] puts into [toReplace].  A variable that
    [isEliminateable] accepts is declared by exactly one of the
    declarations that the walk of the body visits, is named only after that
    declaration, and [toReplace] holds for it the initial value of that
    declaration; so a parameter, a global, the variable of a [for-in] loop
    or a variable declared twice is never eliminated.  The number that
    [run] returns is at most the number of declarations. *)
Theorem eliminated_are_declared_once body that :
  analyze body = Some that ->
  (forall x,
      isEliminateable that x = true ->
      occurrences x (declared body) = 1
      /\ declared_before_use x (visited body)
      /\ exists d,
           In d (declarations body) /\ declared_name d = x
           /\ get x (fst (selectEliminated that)) = Some (initial_of d))
  /\ (0 <= snd (selectEliminated that)
      <= Z.of_nat (length (declared body)))%Z.
Proof.
  intros Ha. destruct (analyze_scan _ _ Ha) as [that1 [Hs [E1 [E2 [E3 E4]]]]].
  assert (forall x,
             isEliminateable that x = true ->
             occurrences x (declared body) = 1) as Honce.
  { intros x Hx. apply isEliminateable_singleDef in Hx. rewrite E2 in Hx.
    apply (scan_single_def _ _ _ Hs Hx). }
  split.
  - intros x Hx. pose proof (isEliminateable_singleDef _ _ Hx) as Ht.
    rewrite E2 in Ht.
    destruct (scan_single_def _ _ _ Hs Ht) as [H1 [_ [H3 [d [Hin [Hd Hv]]]]]].
    split; [exact H1|]. split; [exact H3|].
    exists d. split; [exact Hin|]. split; [exact Hd|].
    unfold selectEliminated. rewrite selectEliminated_values.
    rewrite mem_keys_has, E2, (test_has _ _ Ht), Hx. cbn [andb].
    now rewrite E4, Hv.
  - destruct (selectEliminated_spec that (analyze_NoDup _ _ Ha)) as [Hk ->].
    split; [lia|]. apply inj_le. rewrite Hk.
    apply NoDup_incl_length.
    + apply NoDup_filter. apply (analyze_NoDup _ _ Ha).
    + intros x Hx. apply filter_In in Hx. destruct Hx as [_ Hx].
      apply occurrences_In. rewrite (Honce x Hx). lia.
Qed.

(** X10 on [var a = x + 1; return a;]. *)
Lemma eliminated_are_declared_once_witness :
  (forall x,
      isEliminateable
        (mkEliminator [("a", true)] [("a", true); ("x", false)]
           [("a", 1%Z)] [("a", true)] [("a", true)] []
           [("a", plus_ (name_ "x") (num_ 1))] [("x", [("a", true)])]) x
      = true ->
      occurrences x (declared body_inline) = 1)
  /\ analyze body_inline
     = Some (mkEliminator [("a", true)] [("a", true); ("x", false)]
               [("a", 1%Z)] [("a", true)] [("a", true)] []
               [("a", plus_ (name_ "x") (num_ 1))] [("x", [("a", true)])]).
Proof.
  split; [|reflexivity].
  intros x Hx.
  apply (proj1 (eliminated_are_declared_once body_inline _ eq_refl) x Hx).
Defined.

(** ** The analysis of the initial values *)

Lemma truthy_defined v : truthy v = true -> elems v <> None.
Proof. destruct v; simpl; discriminate. Qed.

Lemma initialValueNode_falsy varName n t s r s' :
  initialValueNode varName n t s = Some (r, s') -> truthy r = false.
Proof.
  intros H. now rewrite (initialValueNode_answer _ _ _ _ _ _ H).
Qed.

Lemma negb_existsb_negb {A : Type} (f : A -> bool) l :
  negb (existsb (fun n => negb (f n)) l) = forallb f l.
Proof.
  induction l as [|a l IH]; cbn; auto.
  rewrite negb_orb, negb_involutive. now rewrite IH.
Qed.

Lemma existsb_references (f : string -> bool) l :
  existsb (fun n => is_reference n && f (to_key (sub n 1))) l
  = existsb f (map (fun n => to_key (sub n 1)) (filter is_reference l)).
Proof.
  induction l as [|n l IH]; cbn; auto.
  destruct (is_reference n); cbn; now rewrite IH.
Qed.

Lemma existsb_references_mem a l :
  existsb (fun n => is_reference n && (to_key (sub n 1) =? a)) l
  = mem a (map (fun n => to_key (sub n 1)) (filter is_reference l)).
Proof.
  unfold mem. rewrite <- existsb_references.
  induction l as [|n l IH]; cbn; auto.
  now rewrite IH, (String.eqb_sym a).
Qed.

Section Initial_values.
Variable x : string.

(** The tables [that'], when the callback for [x] has been called on the
    nodes [l] from the tables [that]. *)
Let walked (that that' : Eliminator) (l : list jsval) : Prop :=
  deps_frame that that'
  /\ (forall y,
         test y (usesOnlySimpleNodes that')
         = test y (usesOnlySimpleNodes that)
           && negb ((x =? y)
                    && existsb
                         (fun n => negb (NODES_WITHOUT_SIDE_EFFECTS (type_of n)))
                         l))
  /\ (forall a y,
         edgeb that' a y
         = edgeb that a y
           || ((x =? y)
               && existsb
                    (fun n => is_reference n && (to_key (sub n 1) =? a)) l))
  /\ (forall y,
         test y (dependsOnAGlobal that')
         = test y (dependsOnAGlobal that)
           || ((x =? y)
               && existsb
                    (fun n => is_reference n
                              && negb (test (to_key (sub n 1)) (isLocal that)))
                    l)).

Lemma initialValueNode_walked n that :
  exists that',
    initialValueNode x n (type_of n) that = Some (JUndef, that')
    /\ walked that that' [n].
Proof.
  unfold initialValueNode, walked, is_reference. cbn [existsb].
  destruct (NODES_WITHOUT_SIDE_EFFECTS (type_of n)) eqn:Es; cbn [negb].
  - destruct (type_of n =? "name") eqn:En; cbn [andb].
    + destruct (loose_eq (sub n 1) "undefined") eqn:Eu; cbn [negb].
      * exists that. split; auto. split; [apply deps_frame_refl|].
        cbn [orb andb]. repeat split; intros;
          rewrite ?andb_false_r, ?orb_false_r, ?andb_true_r; auto.
      * eexists. split; [reflexivity|].
        split; [destruct (test _ (isLocal that));
                unfold deps_frame; cbn; intuition|].
        split; [|split].
        -- intros y. rewrite orb_false_r, andb_false_r. cbn [negb].
           rewrite andb_true_r.
           now destruct (test _ (isLocal that)).
        -- intros a y. unfold edgeb, targets_of. cbn [affects with_affects].
           rewrite get_set, orb_false_r. cbn [andb].
           assert (affects
                     (if negb (test (to_key (sub n 1)) (isLocal that))
                      then with_dependsOnAGlobal
                             (set x true (dependsOnAGlobal that)) that
                      else that) = affects that) as ->
               by now destruct (test _ (isLocal that)).
           destruct (to_key (sub n 1) =? a) eqn:Ea.
           ++ apply String.eqb_eq in Ea. subst a. rewrite test_set.
              rewrite andb_true_r.
              destruct (x =? y); [now rewrite orb_true_r|].
              now rewrite orb_false_r.
           ++ now rewrite andb_false_r, orb_false_r.
        -- intros y. rewrite orb_false_r. cbn [andb].
           destruct (test _ (isLocal that)); cbn [negb dependsOnAGlobal
                                                    with_affects
                                                    with_dependsOnAGlobal].
           ++ now rewrite andb_false_r, orb_false_r.
           ++ rewrite test_set, andb_true_r.
              destruct (x =? y); [now rewrite orb_true_r|].
              now rewrite orb_false_r.
    + exists that. split; auto. split; [apply deps_frame_refl|].
      cbn [orb andb]. repeat split; intros;
        rewrite ?andb_false_r, ?orb_false_r, ?andb_true_r; auto.
  - assert ((type_of n =? "name") = false) as En.
    { destruct (type_of n =? "name") eqn:En; auto.
      apply String.eqb_eq in En. rewrite En in Es. discriminate. }
    rewrite En. cbn [andb orb].
    eexists. split; [reflexivity|].
    split; [unfold deps_frame; cbn; intuition|].
    split; [|split]; intros; cbn [usesOnlySimpleNodes with_usesOnlySimpleNodes
                                    dependsOnAGlobal];
      rewrite ?andb_false_r, ?orb_false_r, ?andb_true_r; auto.
    rewrite test_set. destruct (x =? y); cbn [negb];
      now rewrite ?andb_false_r, ?andb_true_r.
Qed.

Lemma walked_app that1 that2 that3 l1 l2 :
  walked that1 that2 l1 -> walked that2 that3 l2 ->
  walked that1 that3 (l1 ++ l2).
Proof.
  intros [F1 [U1 [E1 G1]]] [F2 [U2 [E2 G2]]].
  split; [eapply deps_frame_trans; eauto|].
  assert (isLocal that2 = isLocal that1) as HL by apply F1.
  split; [|split].
  - intros y. rewrite U2, U1, existsb_app.
    destruct (test y (usesOnlySimpleNodes that1)), (x =? y),
      (existsb _ l1), (existsb _ l2); reflexivity.
  - intros a y. rewrite E2, E1, existsb_app.
    destruct (edgeb that1 a y), (x =? y), (existsb _ l1), (existsb _ l2);
      reflexivity.
  - intros y. rewrite G2, G1, existsb_app, HL.
    destruct (test y (dependsOnAGlobal that1)), (x =? y),
      (existsb _ l1), (existsb _ l2); reflexivity.
Qed.

Lemma walked_nil that : walked that that [].
Proof.
  split; [apply deps_frame_refl|]. cbn [existsb].
  repeat split; intros; now rewrite andb_false_r, ?andb_true_r, ?orb_false_r.
Qed.

Lemma initialValueNode_fold l : forall that,
  exists that',
    fold_left (call_on (initialValueNode x)) l (Some that) = Some that'
    /\ walked that that' l.
Proof.
  induction l as [|n l IH]; intros that.
  - exists that. split; [reflexivity | apply walked_nil].
  - destruct (initialValueNode_walked n that) as [that1 [H1 W1]].
    destruct (IH that1) as [that' [H W]].
    exists that'. cbn [fold_left call_on]. rewrite H1. split; [exact H|].
    change (n :: l) with ([n] ++ l). eapply walked_app; eauto.
Qed.
End Initial_values.

(** The tables after the loop of [analyzeInitialValues] over [ks]. *)
Lemma analyzeInitialValues_loop_tables ks : forall that,
  (forall y,
      In y ks -> test y (isSingleDef that) = true ->
      truthy (value_of that y) = true) ->
  exists that',
    analyzeInitialValues_loop ks that = Some that'
    /\ deps_frame that that'
    /\ (forall y,
           test y (usesOnlySimpleNodes that')
           = if mem y ks && test y (isSingleDef that)
             then simple_value (value_of that y)
             else test y (usesOnlySimpleNodes that))
    /\ (forall a y,
           edgeb that' a y
           = edgeb that a y
             || (mem y ks && test y (isSingleDef that)
                 && mem a (references (value_of that y))))
    /\ (forall y,
           test y (dependsOnAGlobal that')
           = test y (dependsOnAGlobal that)
             || (mem y ks && test y (isSingleDef that)
                 && existsb (fun a => negb (test a (isLocal that)))
                      (references (value_of that y)))).
Proof.
  induction ks as [|k ks IH]; intros that Hiv.
  - exists that. split; [reflexivity|]. split; [apply deps_frame_refl|].
    cbn [mem existsb andb]. repeat split; intros; now rewrite ?orb_false_r.
  - cbn [analyzeInitialValues_loop]. unfold analyzeInitialValue.
    destruct (test k (isSingleDef that)) eqn:Ek; cbn [negb].
    + pose proof (Hiv k (or_introl eq_refl) Ek) as Hv.
      unfold value_of in Hv.
      cbn [initialValue with_usesOnlySimpleNodes].
      destruct (get k (initialValue that)) as [value|] eqn:Eg;
        [|discriminate].
      rewrite (traverse_visits _ (initialValueNode_falsy k) value
                 (truthy_defined _ Hv)).
      set (that1 := with_usesOnlySimpleNodes
                      (set k true (usesOnlySimpleNodes that)) that).
      destruct (initialValueNode_fold k (visited value) that1)
        as [that2 [H2 [F2 [U2 [E2 G2]]]]].
      rewrite H2.
      assert (deps_frame that that2) as F12.
      { eapply deps_frame_trans; [|exact F2].
        unfold deps_frame, that1; cbn; intuition. }
      assert (isSingleDef that2 = isSingleDef that) as Hsd by apply F12.
      assert (initialValue that2 = initialValue that) as Hi by apply F12.
      assert (isLocal that2 = isLocal that) as Hl by apply F12.
      destruct (IH that2) as [that' [H [F [U [E G]]]]].
      { intros y Hy. unfold value_of. rewrite Hsd, Hi.
        apply Hiv. now right. }
      exists that'. split; [exact H|].
      split; [eapply deps_frame_trans; eauto|].
      assert (forall y, (k =? y) = true -> value_of that y = value) as Hval.
      { intros y Ey. apply String.eqb_eq in Ey. subst y.
        unfold value_of. now rewrite Eg. }
      split; [|split].
      * intros y. rewrite U, U2. unfold value_of. rewrite Hsd, Hi.
        fold (value_of that y). cbn [mem existsb].
        fold (mem y ks). rewrite (String.eqb_sym y k).
        destruct (mem y ks && test y (isSingleDef that)) eqn:Em.
        -- apply andb_prop in Em. destruct Em as [Em1 Em2].
           now rewrite Em1, Em2, orb_true_r.
        -- unfold that1. cbn [usesOnlySimpleNodes with_usesOnlySimpleNodes].
           rewrite test_set. destruct (k =? y) eqn:Ey; cbn [orb andb].
           ++ rewrite (Hval y Ey).
              apply String.eqb_eq in Ey. subst y. rewrite Ek.
              unfold simple_value. now rewrite negb_existsb_negb.
           ++ now rewrite Em, andb_true_r.
      * intros a y. rewrite E, E2. unfold value_of. rewrite Hsd, Hi.
        fold (value_of that y). cbn [mem existsb]. fold (mem y ks).
        rewrite (String.eqb_sym y k).
        assert (edgeb that1 a y = edgeb that a y) as -> by reflexivity.
        destruct (k =? y) eqn:Ey; cbn [orb andb].
        -- rewrite (Hval y Ey). apply String.eqb_eq in Ey. subst y.
           rewrite Ek. cbn [andb].
           assert (existsb
                     (fun n => is_reference n && (to_key (sub n 1) =? a))
                     (visited value)
                   = mem a (references value)) as ->.
           { unfold references. apply existsb_references_mem. }
           destruct (edgeb that a k), (mem a (references value)),
             (mem k ks); reflexivity.
        -- now rewrite orb_false_r.
      * intros y. rewrite G, G2. unfold value_of. rewrite Hsd, Hi, Hl.
        fold (value_of that y). cbn [mem existsb]. fold (mem y ks).
        rewrite (String.eqb_sym y k).
        assert (test y (dependsOnAGlobal that1)
                = test y (dependsOnAGlobal that)) as -> by reflexivity.
        assert (isLocal that1 = isLocal that) as -> by reflexivity.
        destruct (k =? y) eqn:Ey; cbn [orb andb].
        -- rewrite (Hval y Ey). apply String.eqb_eq in Ey. subst y.
           rewrite Ek. cbn [andb].
           assert (existsb
                     (fun n => is_reference n
                               && negb (test (to_key (sub n 1))
                                          (isLocal that)))
                     (visited value)
                   = existsb (fun a => negb (test a (isLocal that)))
                       (references value)) as ->.
           { unfold references.
             apply (existsb_references
                      (fun a => negb (test a (isLocal that)))). }
           destruct (test k (dependsOnAGlobal that)), (mem k ks),
             (existsb (fun a => negb (test a (isLocal that)))
                (references value)); reflexivity.
        -- now rewrite orb_false_r.
    + destruct (IH that) as [that' [H [F [U [E G]]]]].
      { intros y Hy. apply Hiv. now right. }
      exists that'. split; [exact H|]. split; [exact F|].
      split; [|split].
      * intros y. rewrite U. cbn [mem existsb]. fold (mem y ks).
        destruct (y =? k) eqn:Ey; auto.
        apply String.eqb_eq in Ey. subst y. rewrite Ek.
        now rewrite !andb_false_r.
      * intros a y. rewrite E. cbn [mem existsb]. fold (mem y ks).
        destruct (y =? k) eqn:Ey; auto.
        apply String.eqb_eq in Ey. subst y. rewrite Ek.
        now rewrite !andb_false_r.
      * intros y. rewrite G. cbn [mem existsb]. fold (mem y ks).
        destruct (y =? k) eqn:Ey; auto.
        apply String.eqb_eq in Ey. subst y. rewrite Ek.
        now rewrite !andb_false_r.
Qed.

(** The scan leaves the tables of the later passes alone. *)
Lemma scan_frame body that that' :
  calculateBasicVarStats body that = Some that' ->
  usesOnlySimpleNodes that' = usesOnlySimpleNodes that
  /\ dependsOnAGlobal that' = dependsOnAGlobal that
  /\ depsMutatedInLiveRange that' = depsMutatedInLiveRange that
  /\ affects that' = affects that.
Proof.
  unfold calculateBasicVarStats.
  destruct (traverse basicVarStats body that) as [[[r n'] s]|] eqn:E;
    [|discriminate].
  intros H; inversion H; subst.
  apply (traverse_invariant basicVarStats
           (fun s =>
              usesOnlySimpleNodes s = usesOnlySimpleNodes that
              /\ dependsOnAGlobal s = dependsOnAGlobal that
              /\ depsMutatedInLiveRange s = depsMutatedInLiveRange that
              /\ affects s = affects that)) in E; auto.
  clear. intros n t s r s' H Hs.
  assert (forall node1 s s',
             declare_all node1 s = Some s' ->
             usesOnlySimpleNodes s' = usesOnlySimpleNodes s
             /\ dependsOnAGlobal s' = dependsOnAGlobal s
             /\ depsMutatedInLiveRange s' = depsMutatedInLiveRange s
             /\ affects s' = affects s) as Hd.
  { clear. induction node1 as [|d rest IH]; intros s s' H; simpl in H.
    - now inversion H.
    - destruct (declare d s) as [s1|] eqn:Hd; [|discriminate].
      destruct (IH _ _ H) as [H1 [H2 [H3 H4]]].
      unfold declare in Hd. destruct (idx d 0); [|discriminate].
      destruct (idx d 1); [|discriminate]. inversion Hd; subst.
      rewrite H1, H2, H3, H4. cbn. auto. }
  unfold basicVarStats in H. break_in H; inversion H; subst; auto.
  match goal with
  | E : declare_all _ _ = Some _ |- _ =>
      destruct (Hd _ _ _ E) as [H1 [H2 [H3 H4]]]
  end.
  rewrite H1, H2, H3, H4. exact Hs.
Qed.

(** X11: after the scan of a body of plain names, [analyzeInitialValues]
    returns, with these tables: [usesOnlySimpleNodes[x]] holds when [x] is single-def and the
    walk of its initial value visits only nodes of the types in
    [NODES_WITHOUT_SIDE_EFFECTS]; [affects[a][x]] holds when [x] is
    single-def and the walk of its initial value visits a [name] node for
    [a], other than ['undefined']; and [dependsOnAGlobal[x]] holds when one
    of these names is not in [isLocal]. *)
Theorem initial_values_analysis body that1 :
  plain_names body = true ->
  calculateBasicVarStats body new_Eliminator = Some that1 ->
  exists that2,
    analyzeInitialValues that1 = Some that2
    /\ (forall x,
           test x (usesOnlySimpleNodes that2)
           = test x (isSingleDef that1) && simple_value (value_of that1 x))
    /\ (forall a x,
           edge that2 a x
           <-> test x (isSingleDef that1) = true
               /\ In a (references (value_of that1 x)))
    /\ (forall x,
           test x (dependsOnAGlobal that2) = true
           <-> test x (isSingleDef that1) = true
               /\ exists a,
                    In a (references (value_of that1 x))
                    /\ test a (isLocal that1) = false).
Proof.
  intros _ Hs. destruct (scan_frame _ _ _ Hs) as [F1 [F2 [_ F4]]].
  cbn in F1, F2, F4.
  destruct (analyzeInitialValues_loop_tables (keys (isSingleDef that1)) that1)
    as [that2 [H [_ [U [E G]]]]].
  { intros y _ Hy.
    destruct (scan_single_def _ _ _ Hs Hy) as [_ [_ [_ [d [_ [_ Hv]]]]]].
    unfold value_of. rewrite Hv. apply initial_of_true. }
  exists that2. split; [exact H|].
  assert (forall y,
             mem y (keys (isSingleDef that1)) && test y (isSingleDef that1)
             = test y (isSingleDef that1)) as Hm.
  { intros y. rewrite mem_keys_has.
    destruct (test y (isSingleDef that1)) eqn:Et.
    - now rewrite (test_has _ _ Et).
    - apply andb_false_r. }
  split; [|split].
  - intros x. rewrite U, Hm, F1.
    now destruct (test x (isSingleDef that1)).
  - intros a x. unfold edge. rewrite E, Hm.
    assert (edgeb that1 a x = false) as ->
        by (unfold edgeb, targets_of; now rewrite F4).
    cbn [orb]. now rewrite andb_true_iff, mem_In.
  - intros x. rewrite G, Hm, F2. cbn [test get orb].
    rewrite andb_true_iff, existsb_exists.
    split; intros [H1 [a [H2 H3]]]; (split; [exact H1|]); exists a;
      (split; [exact H2|]).
    + now apply negb_true_iff.
    + now apply negb_true_iff.
Qed.

(** X11 on [var a = x + 1; return a;]: [x] affects [a]. *)
Lemma initial_values_analysis_witness :
  exists that2,
    analyzeInitialValues
      (mkEliminator [("a", true)] [("a", true); ("x", false)]
         [("a", 1%Z)] [] [] []
         [("a", plus_ (name_ "x") (num_ 1))] [])
    = Some that2
    /\ edge that2 "x" "a".
Proof.
  destruct (initial_values_analysis body_inline
              (mkEliminator [("a", true)] [("a", true); ("x", false)]
                 [("a", 1%Z)] [] [] []
                 [("a", plus_ (name_ "x") (num_ 1))] []) eq_refl eq_refl)
    as [that2 [H [_ [E _]]]].
  exists that2. split; [exact H|].
  apply E. split; [reflexivity|]. left. reflexivity.
Defined.

(** ** The errors of the scan *)

Lemma declare_all_defined node1 : forall that,
  declare_all node1 that <> None <-> forallb defined node1 = true.
Proof.
  induction node1 as [|d rest IH]; intros that; cbn [declare_all forallb].
  - split; [reflexivity | discriminate].
  - unfold declare at 1, defined at 1, idx.
    destruct (elems d) as [l|]; cbn [andb].
    + apply IH.
    + split; [intros H; now elim H | discriminate].
Qed.

Lemma basicVarStats_scannable n that :
  basicVarStats n (type_of n) that <> None <-> scannable n = true.
Proof.
  unfold basicVarStats, scannable.
  destruct (type_of n =? "var").
  - destruct (elems (sub n 1)) as [node1|];
      [|split; [intros H; now elim H | discriminate]].
    rewrite <- (declare_all_defined node1 that).
    destruct (declare_all node1 that); split; congruence.
  - destruct (type_of n =? "name").
    + destruct (get _ (useCount that)); split; congruence.
    + destruct (type_of n =? "assign"); [|split; congruence].
      unfold defined, idx. destruct (elems (sub n 2)).
      * destruct (test _ _); split; congruence.
      * split; [intros H; now elim H | discriminate].
Qed.

Lemma scan_fold_scannable l : forall that,
  fold_left (call_on basicVarStats) l (Some that) <> None
  <-> forallb scannable l = true.
Proof.
  induction l as [|n l IH]; intros that; cbn [fold_left forallb call_on].
  - split; [reflexivity | discriminate].
  - rewrite andb_true_iff, <- (basicVarStats_scannable n that).
    destruct (basicVarStats n (type_of n) that) as [[r s1]|].
    + rewrite (IH s1). split; [intros H; split; [discriminate | exact H]|].
      tauto.
    + rewrite call_on_None. split; [intros H; now elim H|].
      intros [H _]. now elim H.
Qed.

(** X12: on a body of plain names, and from tables in which nothing
    stands for [hasOwnProperty], the scan throws exactly when the body is
    [undefined] or [null], or the walk visits a [var] node whose list of
    declarations, or one of whose declarations, is [undefined] or [null],
    or a node of type [assign] whose [node[2]] is; what else the tables
    hold plays no part.  The walk takes a declaration [[x, value]] for a
    node of type [x]: the declaration of a variable called [assign] makes
    the scan throw. *)
Theorem scan_succeeds that :
  (forall body,
      plain_names body = true ->
      has "hasOwnProperty" (isSingleDef that) = false ->
      has "hasOwnProperty" (useCount that) = false ->
      (calculateBasicVarStats body that <> None
       <-> elems body <> None /\ forallb scannable (visited body) = true))
  /\ (forall value,
        calculateBasicVarStats (JArr [var_ "assign" value]) that = None).
Proof.
  split.
  - intros body _ _ _. unfold calculateBasicVarStats.
    destruct (elems body) as [l|] eqn:Hdef.
    + rewrite (traverse_visits basicVarStats basicVarStats_falsy body)
        by congruence.
      rewrite <- (scan_fold_scannable (visited body) that).
      destruct (fold_left _ _ _); split; try tauto; try congruence;
        try (intros _; split; congruence); try (intros [_ H]; now elim H).
    + destruct body; try discriminate; cbn [traverse];
        (split; [intros H; now elim H | intros [H _]; now elim H]).
  - intros value. reflexivity.
Qed.

(** X12 on [var a = x + 1; return a;], from the empty tables. *)
Lemma scan_succeeds_witness :
  calculateBasicVarStats body_inline new_Eliminator <> None
  <-> elems body_inline <> None
      /\ forallb scannable (visited body_inline) = true.
Proof.
  apply (proj1 (scan_succeeds new_Eliminator) body_inline); reflexivity.
Defined.

(** ** The liveness of the bindings *)

Lemma kill_all_keys names live : keys (kill_all names live) = keys live.
Proof.
  unfold kill_all. revert live.
  induction names as [|k ks IH]; intros live; simpl; auto.
  destruct (test k live) eqn:E; auto.
  rewrite IH, keys_set. now rewrite (test_has _ _ E).
Qed.

(** What [checkForMutations] does to [isLive]. *)
Lemma checkForMutations_shrinks node type st r st' :
  checkForMutations node type st = Some (r, st') ->
  keys (isLive st') = keys (isLive st)
  /\ forall v, test v (isLive st') = true -> test v (isLive st) = true.
Proof.
  unfold checkForMutations. intros H.
  destruct (if (type =? "assign") || (type =? "call") then _ else _)
    as [used|]; [|discriminate].
  destruct (if ((type =? "assign") || (type =? "unary-prefix")
                || (type =? "unary-postfix")) && _ then _ else _)
    as [live1|] eqn:E1; [|discriminate].
  assert (keys live1 = keys (isLive st)
          /\ forall v, test v live1 = true -> test v (isLive st) = true)
    as [K1 T1].
  { destruct (((type =? "assign") || (type =? "unary-prefix")
               || (type =? "unary-postfix")) && _);
      [|inversion E1; subst; auto].
    destruct (base_name (sub node 2)) as [reference|]; [|discriminate].
    destruct (get (to_key reference) (affects (l_that st))) as [aff|];
      inversion E1; subst; auto.
    split; [apply kill_all_keys|].
    intros v. rewrite kill_all_test, andb_true_iff. tauto. }
  destruct (CONTROL_FLOW_NODES type);
    [|destruct (type =? "assign");
      [|destruct (type =? "name");
        [destruct (test _ (isSingleDef (l_that st)) && _)|]]];
    inversion H; subst; cbn [isLive]; auto;
    (split; [now rewrite kill_if_keys|]);
    intros v; rewrite kill_if_test, andb_true_iff; intros [Hv _]; auto.
Qed.

(** X13: a walk with [checkForMutations] makes no binding live: a
    binding that is live after it was live before, and of the tables it
    only adds to [depsMutatedInLiveRange].  It keeps the keys of [isLive]
    when no target in [affects] has the name of an inherited member. *)
Theorem mutations_make_nothing_live node st r node' st' :
  traverse checkForMutations node st = Some (r, node', st') ->
  (plain_targets (l_that st) = true -> keys (isLive st') = keys (isLive st))
  /\ (forall v, test v (isLive st') = true -> test v (isLive st) = true)
  /\ live_frame (l_that st) (l_that st').
Proof.
  intros H.
  assert (keys (isLive st') = keys (isLive st)
          /\ forall v, test v (isLive st') = true -> test v (isLive st) = true)
    as [HK HT].
  { apply (traverse_invariant checkForMutations
             (fun s =>
                keys (isLive s) = keys (isLive st)
                /\ forall v,
                     test v (isLive s) = true -> test v (isLive st) = true))
      in H; auto.
    intros n t s r0 s' H0 [K T].
    destruct (checkForMutations_shrinks _ _ _ _ _ H0) as [K0 T0].
    split; [congruence | auto]. }
  split; [intros _; exact HK|]. split; [exact HT|].
  eapply traverse_checkForMutations_frame; eauto. apply live_frame_refl.
Qed.

(** X13 on [throw a], met while [a] is live. *)
Lemma mutations_make_nothing_live_witness :
  keys [("a", false)] = keys [("a", true)]
  /\ (forall v, test v [("a", false)] = true -> test v [("a", true)] = true).
Proof.
  destruct (mutations_make_nothing_live
              (throw_ (name_ "a")) (mkLive new_Eliminator [("a", true)])
              JUndef (throw_ (name_ "a"))
              (mkLive new_Eliminator [("a", false)]) eq_refl)
    as [H1 [H2 _]].
  split; [exact (H1 eq_refl) | exact H2].
Defined.

Lemma saveLive_test v live : test v (saveLive live) = has v live.
Proof.
  unfold saveLive. rewrite <- mem_keys_has.
  generalize (keys live) as ks. intros ks.
  assert (forall saved,
             test v (fold_left (fun saved name => set name true saved) ks
                       saved)
             = test v saved || mem v ks) as Hfold.
  { induction ks as [|k ks IH]; intros saved; cbn [fold_left mem existsb].
    - now rewrite orb_false_r.
    - fold (mem v ks). rewrite IH, test_set, (String.eqb_sym v k).
      destruct (k =? v); cbn [orb]; auto. now rewrite orb_true_r. }
  now rewrite Hfold.
Qed.

Lemma mergeLive_test v live saved :
  test v (mergeLive live saved)
  = test v saved && negb (has v live && negb (test v live)).
Proof.
  unfold mergeLive.
  rewrite (kill_fold_test (fun name => negb (test name live))).
  rewrite mem_keys_has. f_equal. f_equal. apply andb_comm.
Qed.

(** X14: [traverseChild] on a child that is an array with elements walks
    it with [analyzeBlock]; afterwards a binding is live when it was a key
    of [isLive] before the walk, live or not, and the walk has not left it
    in [isLive] as not live.  So a binding that the child declares is not
    live after the child, and a binding that was dead before it is live
    again when the walk has dropped it from [isLive].  On any other child
    nothing happens. *)
Theorem traverseChild_merge child st st' :
  traverseChild child st = Some st' ->
  (is_subnode child = false /\ st' = st)
  \/ (is_subnode child = true
      /\ exists r s1,
           traverse analyzeBlock child st = Some (r, child, s1)
           /\ l_that st' = l_that s1
           /\ forall v,
                test v (isLive st')
                = has v (isLive st)
                  && negb (has v (isLive s1) && negb (test v (isLive s1)))).
Proof.
  unfold traverseChild, traverseChild_with.
  destruct (is_subnode child); [|intros H; left; now inversion H].
  destruct (traverse analyzeBlock child st) as [[[r n'] s1]|] eqn:E;
    [|discriminate].
  intros H; inversion H; subst. right. split; auto.
  assert (n' = child) as ->.
  { eapply (traverse_same analyzeBlock); eauto.
    intros n t s0 r0 s0' H0 Ht.
    destruct (analyzeBlock_answer _ _ _ _ _ H0) as [->| ->]; auto.
    discriminate. }
  exists r, s1. split; auto. split; auto.
  intros v. cbn [isLive]. now rewrite mergeLive_test, saveLive_test.
Qed.

(** X14 on the child [var b = 1], with [b] single-def and [a] live: [b]
    is not live after the child. *)
Lemma traverseChild_merge_witness :
  (is_subnode (var_ "b" (num_ 1)) = false
   /\ mkLive (with_isSingleDef [("b", true)] new_Eliminator) [("a", true)]
      = mkLive (with_isSingleDef [("b", true)] new_Eliminator) [("a", true)])
  \/ (is_subnode (var_ "b" (num_ 1)) = true
      /\ exists r s1,
           traverse analyzeBlock (var_ "b" (num_ 1))
             (mkLive (with_isSingleDef [("b", true)] new_Eliminator)
                [("a", true)])
           = Some (r, var_ "b" (num_ 1), s1)
           /\ with_isSingleDef [("b", true)] new_Eliminator = l_that s1
           /\ forall v,
                test v [("a", true)]
                = has v [("a", true)]
                  && negb (has v (isLive s1) && negb (test v (isLive s1)))).
Proof.
  apply (traverseChild_merge (var_ "b" (num_ 1))
           (mkLive (with_isSingleDef [("b", true)] new_Eliminator)
              [("a", true)])
           (mkLive (with_isSingleDef [("b", true)] new_Eliminator)
              [("a", true)])).
  reflexivity.
Defined.

(** ** The expression optimizer, again *)

Lemma chain_of_js xs n : chain_js (chain_of xs n) = right_nested xs n.
Proof. induction xs as [|x xs IH]; cbn; auto. now rewrite IH. Qed.

Lemma chain_of_names xs n : chain_names (chain_of xs n) = xs.
Proof. induction xs as [|x xs IH]; cbn; auto. now rewrite IH. Qed.

Lemma chain_of_sum xs n : chain_sum (chain_of xs n) = n.
Proof. induction xs as [|x xs IH]; cbn; auto. Qed.

Lemma chain_of_literal xs n : chain_has_literal (chain_of xs n) = true.
Proof. induction xs as [|x xs IH]; cbn; auto. Qed.

(** A chain with a literal, as a statement. *)
Lemma fold_additions_stat a b :
  chain_has_literal (Plus a b) = true ->
  fold_additions (stat_ (chain_js (Plus a b)))
  = Some (stat_ (right_nested (rev (chain_names (Plus a b)))
                   (chain_sum (Plus a b)))).
Proof.
  intros Hl. unfold fold_additions, stat_.
  rewrite traverse_JArr.
  cbn [at_ nth foldAddition String.eqb Ascii.eqb Bool.eqb andb truthy
         traverse_children is_subnode].
  assert (is_subnode (chain_js (Plus a b)) = true) as -> by reflexivity.
  cbn [loose_eq String.eqb Ascii.eqb Bool.eqb andb negb].
  change (chain_js (Plus a b))
    with (JArr [JStr "binary"; JStr "+"; chain_js a; chain_js b])
    at 1.
  rewrite traverse_JArr. cbn [at_ nth].
  change (JArr [JStr "binary"; JStr "+"; chain_js a; chain_js b])
    with (chain_js (Plus a b)).
  rewrite foldAddition_chain, Hl, truthy_right_nested.
  assert (is_false (right_nested (rev (chain_names (Plus a b)))
                      (chain_sum (Plus a b))) = false) as ->
      by (now destruct (rev (chain_names (Plus a b)))).
  now rewrite truthy_right_nested.
Qed.

(** X15: the expression optimizer is not idempotent.  Run on a statement
    that holds a tree it has built, [x1 + (... + (xn + num))], it builds
    the tree again with the names turned around,
    [xn + (... + (x1 + num))]; the literal stays innermost and keeps its
    value. *)
Theorem fold_additions_turns_around xs n :
  fold_additions (stat_ (right_nested xs n))
  = Some (stat_ (right_nested (rev xs) n)).
Proof.
  destruct xs as [|x xs]; [reflexivity|].
  rewrite <- (chain_of_js (x :: xs) n). cbn [chain_of].
  rewrite fold_additions_stat
    by (cbn [chain_has_literal orb]; apply chain_of_literal).
  cbn [chain_names chain_sum app].
  now rewrite chain_of_names, chain_of_sum.
Qed.

(** ** Assignments, increments and decrements *)

(** X16: on an assignment, an increment or a decrement, the analyzer
    finds the variable at the bottom of the operand [node[2]] (and throws
    when it finds none).  Afterwards a binding whose name is not the name
    of an inherited member is live when it was live, is not a key of
    [affects] of that variable and, for an assignment, does not depend on
    a global unless it is named inside [node.slice(2, 4)], the two sides
    of the assignment.  The tables stay as they were, and so do the keys
    of [isLive] when no key of [affects] of that variable is the name of
    an inherited member. *)
Theorem mutation_kills node st r st' :
  is_mutation node = true ->
  checkForMutations node (type_of node) st = Some (r, st') ->
  exists reference,
    base_name (sub node 2) = Some reference
    /\ l_that st' = l_that st
    /\ (forallb (fun k => negb (inherited k))
          (keys (targets_of (to_key reference) (l_that st))) = true ->
        keys (isLive st') = keys (isLive st))
    /\ forall v,
         inherited v = false ->
         test v (isLive st')
         = test v (isLive st)
           && negb (has v (targets_of (to_key reference) (l_that st)))
           && negb ((type_of node =? "assign")
                    && test v (dependsOnAGlobal (l_that st))
                    && negb (mem v (names_in (slice_2_4 node)))).
Proof.
  unfold is_mutation, checkForMutations. intros Hm. rewrite Hm.
  assert (CONTROL_FLOW_NODES (type_of node) = false) as Hcf.
  { apply andb_prop in Hm. destruct Hm as [Hm _].
    rewrite !orb_true_iff, !String.eqb_eq in Hm.
    destruct Hm as [[E|E]|E]; rewrite E; reflexivity. }
  assert ((type_of node =? "name") = false) as Hname.
  { apply andb_prop in Hm. destruct Hm as [Hm _].
    rewrite !orb_true_iff, !String.eqb_eq in Hm.
    destruct Hm as [[E|E]|E]; rewrite E; reflexivity. }
  assert ((type_of node =? "call") = false) as Hcall.
  { apply andb_prop in Hm. destruct Hm as [Hm _].
    rewrite !orb_true_iff, !String.eqb_eq in Hm.
    destruct Hm as [[E|E]|E]; rewrite E; reflexivity. }
  rewrite Hcf, Hname, Hcall, orb_false_r.
  destruct (type_of node =? "assign") eqn:Ea.
  - destruct (traverse collectUsed (slice_2_4 node) [])
      as [[[r0 n0] used]|] eqn:Eu; [|discriminate].
    assert (forall v, test v used = mem v (names_in (slice_2_4 node)))
      as Hused.
    { destruct (collectUsed_names (slice_2_4 node)) as [used' [H1 H2]].
      - destruct (slice_2_4 node); simpl in Eu; discriminate.
      - rewrite H1 in Eu. inversion Eu; subst. exact H2. }
    destruct (base_name (sub node 2)) as [reference|]; [|discriminate].
    intros H. exists reference. split; [reflexivity|].
    unfold targets_of.
    destruct (get (to_key reference) (affects (l_that st))) as [aff|];
      inversion H; subst; cbn [l_that isLive];
      (split; [reflexivity|]);
      (split; [intros _; now rewrite kill_if_keys, ?kill_all_keys|]);
      intros v _; rewrite kill_if_test, ?kill_all_test, ?mem_keys_has, Hused;
      cbn [has get negb andb]; now rewrite ?andb_true_r.
  - destruct (base_name (sub node 2)) as [reference|]; [|discriminate].
    intros H. exists reference. split; [reflexivity|].
    unfold targets_of.
    destruct (get (to_key reference) (affects (l_that st))) as [aff|];
      inversion H; subst; cbn [l_that isLive];
      (split; [reflexivity|]);
      (split; [intros _; now rewrite ?kill_all_keys|]);
      intros v _; rewrite ?kill_all_test, ?mem_keys_has;
      cbn [has get negb andb]; now rewrite ?andb_true_r.
Qed.

(** X16 on [y++], met while [a], which [y] affects, is live. *)
Lemma mutation_kills_witness :
  exists reference,
    base_name (sub (postfix_ "++" (name_ "y")) 2) = Some reference
    /\ forall v,
         inherited v = false ->
         test v [("a", false)]
         = test v [("a", true)]
           && negb (has v
                      (targets_of (to_key reference)
                         (with_affects [("y", [("a", true)])]
                            new_Eliminator)))
           && negb ((type_of (postfix_ "++" (name_ "y")) =? "assign")
                    && test v
                         (dependsOnAGlobal
                            (with_affects [("y", [("a", true)])]
                               new_Eliminator))
                    && negb (mem v
                               (names_in
                                  (slice_2_4 (postfix_ "++" (name_ "y")))))).
Proof.
  destruct (mutation_kills (postfix_ "++" (name_ "y"))
              (mkLive (with_affects [("y", [("a", true)])] new_Eliminator)
                 [("a", true)])
              JUndef
              (mkLive (with_affects [("y", [("a", true)])] new_Eliminator)
                 [("a", false)])
              eq_refl eq_refl)
    as [reference [H1 [_ [_ H2]]]].
  exists reference. split; [exact H1 | exact H2].
Defined.

(** ** The removal of declarations *)

Lemma strip_JArr toRemove l :
  strip toRemove (JArr l) = JArr (strip_children toRemove (at_ l 0) l).
Proof.
  simpl. f_equal. generalize (at_ l 0) as type. intros type.
  induction l as [|x r IH]; simpl; auto. now rewrite IH.
Qed.

Lemma intact_remaining toRemove vars :
  forallb defined vars = true ->
  intact toRemove vars = Some (remaining toRemove vars).
Proof.
  induction vars as [|d rest IH]; cbn [forallb intact remaining filter];
    auto.
  intros H. apply andb_prop in H. destruct H as [Hd Hrest].
  fold (remaining toRemove rest). rewrite (IH Hrest).
  unfold defined in Hd. unfold idx, declared_name, sub.
  destruct (elems d); [|discriminate].
  now destruct (has _ toRemove).
Qed.

Lemma removeDeclaration_var toRemove node u :
  type_of node = "var" -> var_ok node = true ->
  removeDeclaration toRemove node "var" u
  = Some (stripped_var toRemove node, u).
Proof.
  unfold var_ok, removeDeclaration, stripped_var. intros Ht. rewrite Ht.
  cbn [String.eqb Ascii.eqb Bool.eqb].
  destruct node as [| | | |?|[|tag [|[| | | |?|vars] rest]]];
    try discriminate.
  intros Hv. rewrite (intact_remaining _ _ Hv).
  now destruct (remaining toRemove vars).
Qed.

Lemma stripped_var_true toRemove node :
  is_subnode node = true -> truthy (stripped_var toRemove node) = true.
Proof.
  unfold stripped_var.
  destruct node as [| | | |?|[|tag [|[| | | |?|vars] rest]]];
    try discriminate; auto.
  now destruct (remaining toRemove vars).
Qed.

Lemma traverse_removeDeclaration toRemove node :
  forallb var_ok (visited node) = true ->
  elems node <> None ->
  forall u,
    traverse (removeDeclaration toRemove) node u
    = Some (if type_of node =? "var" then stripped_var toRemove node
            else JUndef,
            if type_of node =? "var" then node else strip toRemove node, u).
Proof.
  induction node as [| | | |str|l IH] using jsval_tree_ind;
    intros Hok Hdef u; try reflexivity; try (now elim Hdef).
  - destruct str as [|c str]; [reflexivity|].
    cbn [traverse type_of]. unfold removeDeclaration.
    assert ((String c "" =? "var") = false) as ->
        by (cbn; destruct (Ascii.eqb c "v"); reflexivity).
    reflexivity.
  - clear Hdef. rewrite traverse_JArr, strip_JArr.
    rewrite visited_JArr, forallb_app in Hok.
    apply andb_prop in Hok. destruct Hok as [Hroot Hsubs].
    assert (forall u,
               traverse_children (removeDeclaration toRemove) (at_ l 0) l u
               = Some (JUndef, strip_children toRemove (at_ l 0) l, u))
      as Hchildren.
    { revert Hsubs. generalize (at_ l 0) as type. intros type.
      clear Hroot.
      induction IH as [|c rest Hc _ IHrest]; intros Hsubs u1;
        cbn [traverse_children strip_children]; auto.
      cbn [visited_children] in Hsubs. rewrite forallb_app in Hsubs.
      apply andb_prop in Hsubs. destruct Hsubs as [Hvc Hvrest].
      destruct (is_subnode c && _) eqn:Eenter.
      - assert (is_subnode c = true) as Hsub
            by (apply andb_prop in Eenter; tauto).
        rewrite Hc;
          [|exact Hvc|destruct c as [| | | |?|[|? ?]]; discriminate].
        rewrite IHrest by exact Hvrest.
        destruct (type_of c =? "var").
        + pose proof (stripped_var_true toRemove c Hsub) as Ht.
          rewrite Ht.
          destruct (stripped_var toRemove c) as [| |[]| | |];
            try discriminate; reflexivity.
        + reflexivity.
      - now rewrite IHrest by exact Hvrest. }
    destruct (at_ l 0) as [| | | |t|] eqn:Ea.
    1-4, 6:
      rewrite Hchildren;
      assert (type_of (JArr l) = "") as ->
          by (destruct l as [|[] ?]; try reflexivity; discriminate);
      reflexivity.
    pose proof (type_of_JArr _ _ Ea) as Et. rewrite Et.
    cbn [forallb] in Hroot. rewrite andb_true_r in Hroot.
    destruct (t =? "var") eqn:Ev.
    + apply String.eqb_eq in Ev. rewrite Ev in Et |- *.
      rewrite (removeDeclaration_var toRemove (JArr l) u Et Hroot).
      rewrite stripped_var_true; [reflexivity|].
      destruct l; [discriminate|reflexivity].
    + unfold removeDeclaration. rewrite Ev. cbn [truthy].
      now rewrite Hchildren.
Qed.

Lemma removeDeclarations_strip toRemove body :
  forallb var_ok (visited body) = true ->
  elems body <> None ->
  type_of body <> "var" ->
  removeDeclarations toRemove body = Some (strip toRemove body).
Proof.
  intros Hok Hdef Hroot. unfold removeDeclarations.
  rewrite traverse_removeDeclaration by assumption.
  apply String.eqb_neq in Hroot. now rewrite Hroot.
Qed.

(** X17: [removeDeclarations] leaves the body with every [var] node that
    the walk reaches stripped of the declarations that [toRemove] names,
    and replaced by an empty [toplevel] node when no declaration is left;
    the walk does not go into a [var] node, so that a declaration inside
    an initial value stays.  This holds for a table [toRemove] that has no
    key with the name of an inherited member (such as [hasOwnProperty],
    which the pass calls on it), and for a body that is not itself a
    [var] node and whose [var] nodes hold arrays of declarations; on other
    [var] nodes the pass throws. *)
Theorem removeDeclarations_strips toRemove body :
  forallb (fun k => negb (inherited k)) (keys toRemove) = true ->
  forallb var_ok (visited body) = true ->
  elems body <> None ->
  type_of body <> "var" ->
  removeDeclarations toRemove body = Some (strip toRemove body).
Proof.
  intros _ Hok Hdef Hroot. now apply removeDeclarations_strip.
Qed.

(** X17 on [var a = 1, b = a; var a = 2; return b;], with [a] to
    remove. *)
Lemma removeDeclarations_strips_witness :
  removeDeclarations [("a", num_ 1)]
    (JArr [JArr [JStr "var"; JArr [JArr [JStr "a"; num_ 1];
                                   JArr [JStr "b"; name_ "a"]]];
           var_ "a" (num_ 2);
           return_ (name_ "b")])
  = Some (JArr [JArr [JStr "var"; JArr [JArr [JStr "b"; name_ "a"]]];
                toplevel_;
                return_ (name_ "b")]).
Proof.
  apply (removeDeclarations_strips [("a", num_ 1)]
           (JArr [JArr [JStr "var"; JArr [JArr [JStr "a"; num_ 1];
                                          JArr [JStr "b"; name_ "a"]]];
                  var_ "a" (num_ 2);
                  return_ (name_ "b")])).
  - reflexivity.
  - reflexivity.
  - discriminate.
  - discriminate.
Defined.

(** ** The three rewriting passes together *)

Lemma strip_defined toRemove body :
  elems body <> None -> elems (strip toRemove body) <> None.
Proof. destruct body; simpl; auto; discriminate. Qed.

Lemma stripped_var_type toRemove node :
  is_subnode node = true ->
  exists l, stripped_var toRemove node = JArr l.
Proof.
  unfold stripped_var.
  destruct node as [| | | |?|[|tag [|[| | | |?|vars] rest]]];
    try discriminate; eauto.
  destruct (remaining toRemove vars); eauto.
Qed.

Lemma strip_type toRemove body :
  type_of (strip toRemove body) = type_of body.
Proof.
  destruct body as [| | | |?|[|h t]]; try reflexivity.
  rewrite strip_JArr. cbn [strip_children at_ nth].
  destruct h as [| | | |s|lh]; try reflexivity.
  destruct (is_subnode (JArr lh) && _) eqn:E; [|reflexivity].
  apply andb_prop in E. destruct E as [E _].
  destruct (type_of (JArr lh) =? "var").
  - destruct (stripped_var_type toRemove _ E) as [l' ->]. reflexivity.
  - rewrite strip_JArr. reflexivity.
Qed.

(** X18: [run] on a body of plain names whose [var] nodes hold arrays of
    declarations and that is not itself a [var] or a [name] node (a list
    of statements is such a body).  It returns when the analysis and [collapseValues]
    do; the number is the number of names in [toReplace], and the body
    left behind is the body stripped of the declarations of these names,
    with the names replaced by the collapsed values. *)
Theorem run_rewrites fuel body :
  plain_names body = true ->
  forallb var_ok (visited body) = true ->
  type_of body <> "var" ->
  type_of body <> "name" ->
  run fuel body
  = match analyze body with
    | Some that =>
        match collapseValues fuel (fst (selectEliminated that)) with
        | Some values =>
            Some (snd (selectEliminated that),
                  substitute values
                    (strip (fst (selectEliminated that)) body))
        | None => None
        end
    | None => None
    end.
Proof.
  intros _ Hok Hvar Hname. unfold run.
  destruct (analyze body) as [that|] eqn:Ea; [|reflexivity].
  assert (elems body <> None) as Hdef.
  { unfold analyze in Ea.
    destruct (calculateBasicVarStats body new_Eliminator) eqn:Es;
      [|discriminate].
    eapply scan_defined; eauto. }
  destruct (selectEliminated that) as [toReplace eliminated].
  cbn [fst snd].
  rewrite (removeDeclarations_strip toReplace body Hok Hdef Hvar).
  destruct (collapseValues fuel toReplace) as [values|]; [|reflexivity].
  unfold updateUses.
  rewrite traverse_updateUse by now apply strip_defined.
  unfold replacement. rewrite strip_type.
  apply String.eqb_neq in Hname. rewrite Hname. reflexivity.
Qed.

(** X18 on [var a = x + 1; return a;]. *)
Lemma run_rewrites_witness :
  run 2 body_inline
  = Some (1%Z,
          substitute [("a", plus_ (name_ "x") (num_ 1))]
            (strip [("a", plus_ (name_ "x") (num_ 1))] body_inline)).
Proof.
  rewrite (run_rewrites 2 body_inline).
  - reflexivity.
  - reflexivity.
  - reflexivity.
  - discriminate.
  - discriminate.
Defined.

(** ** The scan: when a variable is single-def *)

Section Scan_complete.
Variable x : string.

Lemma declare_knows d that that' Ds :
  declare d that = Some that' ->
  scan_knows x that Ds -> scan_knows x that' (Ds ++ [d]).
Proof.
  unfold declare, scan_knows. intros H [J0 J1].
  destruct (idx d 0) as [n0|] eqn:E0; [|discriminate].
  destruct (idx d 1) as [v0|]; [|discriminate].
  inversion H; subst; clear H. cbn [isSingleDef].
  rewrite map_app, occurrences_app. cbn [map]. rewrite occurrences_one.
  unfold declared_name. rewrite (idx_sub _ _ _ E0).
  rewrite has_set, test_set.
  destruct (to_key n0 =? x) eqn:E; cbn [orb]; cbv iota.
  - split; [lia|]. intros Hc. apply negb_true_iff.
    apply String.eqb_eq in E. rewrite E.
    apply J0. unfold declared_name. lia.
  - rewrite !Nat.add_0_r. auto.
Qed.

Lemma declare_all_knows node1 : forall that that' Ds,
  declare_all node1 that = Some that' ->
  scan_knows x that Ds -> scan_knows x that' (Ds ++ node1).
Proof.
  induction node1 as [|d rest IH]; intros that that' Ds H J; simpl in H.
  - inversion H; subst. now rewrite app_nil_r.
  - destruct (declare d that) as [that1|] eqn:Hd; [|discriminate].
    change (d :: rest) with ([d] ++ rest). rewrite app_assoc.
    eapply IH; eauto. eapply declare_knows; eauto.
Qed.

Lemma basicVarStats_knows n that r that' Ds N :
  basicVarStats n (type_of n) that = Some (r, that') ->
  scan_inv that Ds N ->
  (In x (names_of n) -> In x (map declared_name Ds)) ->
  (type_of n = "assign" -> assigned_name n <> x) ->
  scan_knows x that Ds ->
  scan_knows x that' (Ds ++ declarations_of n).
Proof.
  unfold basicVarStats, declarations_of, names_of, assigned_name.
  intros H I Hname Hassign J.
  destruct (type_of n =? "var") eqn:Evar.
  { destruct (elems (sub n 1)) as [node1|]; [|discriminate].
    destruct (declare_all node1 that) as [that1|] eqn:Hd; [|discriminate].
    inversion H; subst. eapply declare_all_knows; eauto. }
  rewrite app_nil_r. destruct J as [J0 J1].
  destruct (type_of n =? "name") eqn:Ename.
  { set (x' := to_key (sub n 1)) in *.
    destruct (get x' (useCount that)) as [c|] eqn:Ec;
      inversion H; subst; clear H;
      unfold scan_knows; cbn [isSingleDef with_useCount with_isSingleDef];
      auto.
    rewrite has_set, test_set.
    destruct (x' =? x) eqn:E; cbn [orb]; auto.
    apply String.eqb_eq in E.
    assert (In x (map declared_name Ds)) as Hin
        by (apply Hname; left; exact E).
    apply (scan_local _ _ _ I) in Hin.
    rewrite <- (has_keys _ _ _ (scan_counts _ _ _ I)) in Hin.
    unfold has in Hin. rewrite <- E, Ec in Hin. discriminate. }
  destruct (type_of n =? "assign") eqn:Eassign.
  { apply String.eqb_eq in Eassign. specialize (Hassign Eassign).
    destruct (idx (sub n 2) 1) as [n1|] eqn:E1; [|discriminate].
    rewrite (idx_sub _ _ _ E1) in Hassign.
    destruct (test (to_key n1) (isSingleDef that));
      inversion H; subst; clear H; unfold scan_knows; auto.
    cbn [isSingleDef with_isSingleDef]. rewrite has_set, test_set.
    apply String.eqb_neq in Hassign. rewrite Hassign. cbn [orb]. auto. }
  inversion H; subst. split; auto.
Qed.

Lemma scan_fold_knows l : forall that that' P,
  fold_left (call_on basicVarStats) l (Some that) = Some that' ->
  scan_inv that (flat_map declarations_of P) (flat_map names_of P) ->
  declared_before_use x (P ++ l) ->
  (forall n, In n l -> type_of n = "assign" -> assigned_name n <> x) ->
  scan_knows x that (flat_map declarations_of P) ->
  scan_knows x that' (flat_map declarations_of (P ++ l)).
Proof.
  induction l as [|n l IH]; intros that that' P H I Hb Ha J; simpl in H.
  - inversion H; subst. now rewrite app_nil_r.
  - destruct (basicVarStats n (type_of n) that) as [[r s1]|] eqn:E;
      [|now rewrite call_on_None in H].
    change (n :: l) with ([n] ++ l) in *. rewrite app_assoc in *.
    eapply IH; eauto.
    + rewrite !flat_map_snoc. eapply basicVarStats_inv; eauto.
    + intros m Hm. apply Ha. apply in_or_app. now right.
    + rewrite flat_map_snoc. eapply basicVarStats_knows; eauto.
      * intros Hn. apply (Hb P n l); auto. now rewrite <- app_assoc.
      * apply Ha. apply in_or_app. left. now left.
Qed.
End Scan_complete.

(** X19: a variable whose name is not the name of an inherited member
    is single-def after the scan when exactly one of the declarations
    that the walk visits declares it, every [name] node that names it is
    visited after a [var] node that declares it, and the walk visits no
    node of type [assign] whose [node[2][1]] is its name.  Increments and
    decrements play no part. *)
Theorem single_definition_complete body that x :
  inherited x = false ->
  calculateBasicVarStats body new_Eliminator = Some that ->
  occurrences x (declared body) = 1 ->
  declared_before_use x (visited body) ->
  (forall n,
      In n (visited body) -> type_of n = "assign" -> assigned_name n <> x) ->
  test x (isSingleDef that) = true.
Proof.
  intros _ H Hc Hb Ha. apply calculateBasicVarStats_fold in H.
  apply (scan_fold_knows x _ _ _ [] H scan_inv_new Hb Ha); auto.
  split; [reflexivity|]. cbn. discriminate.
Qed.

(** X19 on [var x = 0; x++;]: the increment does not count. *)
Lemma single_definition_complete_witness :
  occurrences "x" (declared body_increment) = 1
  /\ test "x" [("x", true)] = true.
Proof.
  split; [reflexivity|].
  apply (single_definition_complete body_increment
           (mkEliminator [("x", true)] [("x", true)] [("x", 1%Z)] [] [] []
              [("x", num_ 0)] [])
           "x").
  - reflexivity.
  - reflexivity.
  - reflexivity.
  - intros pre n post Hsplit Hn.
    destruct pre as [|p0 pre]; [inversion Hsplit; subst; contradiction|].
    inversion Hsplit; subst. left. reflexivity.
  - intros n Hn Ht. cbn in Hn.
    repeat (destruct Hn as [<-|Hn]; [discriminate Ht|]). contradiction.
Defined.

(** ** Declarations in the live ranges *)

(** X20: what a declaration [var x = value] does to the liveness, for an
    [x] that is not the name of an inherited member.  The value, when
    there is one, is walked with [checkForMutations] first.  Afterwards
    [x] is live when it is single-def, every other binding when
    it was live after that walk, and in both cases only when it is not a
    key of [affects[x]]: a declaration ends the live range of the bindings
    whose initial values name the variable. *)
Theorem declaration_liveness d st st' :
  inherited (declared_name d) = false ->
  analyzeDeclaration d st = Some st' ->
  exists s1,
    (if truthy (sub d 1)
     then exists r, traverse checkForMutations (sub d 1) st
                    = Some (r, sub d 1, s1)
     else s1 = st)
    /\ l_that st' = l_that s1
    /\ forall v,
         test v (isLive st')
         = ((declared_name d =? v) && test v (isSingleDef (l_that s1))
            || test v (isLive s1))
           && negb (has v (targets_of (declared_name d) (l_that s1))).
Proof.
  intros _. unfold analyzeDeclaration, declared_name.
  destruct (idx d 0) as [n0|] eqn:E0; [|discriminate].
  destruct (idx d 1) as [v0|] eqn:E1; [|discriminate].
  rewrite (idx_sub _ _ _ E0), (idx_sub _ _ _ E1).
  destruct (if truthy v0 then _ else _) as [s1|] eqn:Es; [|discriminate].
  intros H; inversion H; subst; clear H. exists s1. split.
  - destruct (truthy v0); [|now inversion Es].
    destruct (traverse checkForMutations v0 st) as [[[r n'] s2]|] eqn:Et;
      [|discriminate].
    inversion Es; subst. exists r.
    assert (n' = v0) as ->; [|reflexivity].
    eapply (traverse_same checkForMutations); eauto.
    intros n t s r0 s' H0 Ht.
    rewrite (checkForMutations_answer _ _ _ _ _ H0) in Ht. discriminate.
  - split; [reflexivity|]. intros v. cbn [isLive l_that].
    unfold targets_of.
    assert (forall live,
               test v (if test (to_key n0) (isSingleDef (l_that s1))
                       then set (to_key n0) true live else live)
               = (to_key n0 =? v) && test v (isSingleDef (l_that s1))
                 || test v live) as Hlive.
    { intros live.
      destruct (to_key n0 =? v) eqn:E.
      - apply String.eqb_eq in E. subst v.
        destruct (test (to_key n0) (isSingleDef (l_that s1))); auto.
        rewrite test_set, String.eqb_refl. reflexivity.
      - destruct (test (to_key n0) (isSingleDef (l_that s1))); auto.
        rewrite test_set, E. reflexivity. }
    destruct (get (to_key n0) (affects (l_that s1))) as [aff|].
    + now rewrite kill_all_test, mem_keys_has, Hlive.
    + rewrite Hlive. cbn [has get negb]. now rewrite andb_true_r.
Qed.

(** X20 on [var a = 1], with [a] single-def. *)
Lemma declaration_liveness_witness :
  exists s1,
    (if truthy (sub (JArr [JStr "a"; num_ 1]) 1)
     then exists r,
            traverse checkForMutations (sub (JArr [JStr "a"; num_ 1]) 1)
              (mkLive (with_isSingleDef [("a", true)] new_Eliminator) [])
            = Some (r, sub (JArr [JStr "a"; num_ 1]) 1, s1)
     else s1 = mkLive (with_isSingleDef [("a", true)] new_Eliminator) [])
    /\ with_isSingleDef [("a", true)] new_Eliminator = l_that s1
    /\ forall v,
         test v [("a", true)]
         = ((declared_name (JArr [JStr "a"; num_ 1]) =? v)
            && test v (isSingleDef (l_that s1))
            || test v (isLive s1))
           && negb (has v
                      (targets_of (declared_name (JArr [JStr "a"; num_ 1]))
                         (l_that s1))).
Proof.
  apply (declaration_liveness (JArr [JStr "a"; num_ 1])
           (mkLive (with_isSingleDef [("a", true)] new_Eliminator) [])
           (mkLive (with_isSingleDef [("a", true)] new_Eliminator)
              [("a", true)])).
  - reflexivity.
  - reflexivity.
Defined.

(** ** The closure of the dependencies, on plain names *)

(** X21: on a graph in the shape that the analysis of the initial values
    builds, and in which no source and no target has the name of an
    inherited member, [calculateTransitiveDependencies] ends; afterwards
    [x] affects [y] exactly when a chain of direct edges led from [x] to
    [y] before; every binding affected by a name that is not local is
    marked in [dependsOnAGlobal]; and the other tables are as before. *)
Theorem closure_of_plain_names (that : Eliminator) :
  graph_ok that -> globals_ok that -> plain_graph that = true ->
  exists that',
    calculateTransitiveDependencies that = Some that'
    /\ (forall a b, edge that' a b <-> clos_trans string (edge that) a b)
    /\ (forall a b,
           edge that' a b -> test a (isLocal that') = false ->
           test b (dependsOnAGlobal that') = true)
    /\ deps_frame that that'.
Proof.
  intros Hg Hgl Hp.
  destruct (calculateTransitiveDependencies_spec that Hg Hgl Hp)
    as (that' & E & _ & G2 & G3 & G4).
  exists that'. auto.
Qed.

(** X21 on the graph of [var a = x + 1; var b = a + 2; return b;], in
    which the global [x] affects [a] and [a] affects [b]. *)
Lemma closure_of_plain_names_witness :
  (option_map (fun that => analyzeInitialValues that)
     (calculateBasicVarStats body_chain new_Eliminator)
   = Some (Some that_chain))
  /\ plain_graph that_chain = true
  /\ exists that',
       calculateTransitiveDependencies that_chain = Some that'
       /\ (forall a b,
              edge that' a b <-> clos_trans string (edge that_chain) a b)
       /\ (forall a b,
              edge that' a b -> test a (isLocal that') = false ->
              test b (dependsOnAGlobal that') = true)
       /\ deps_frame that_chain that'.
Proof.
  split; [reflexivity|]. split; [reflexivity|].
  destruct (analyzeInitialValues_graph
              (mkEliminator
                 [("a", true); ("b", true)]
                 [("a", true); ("x", false); ("b", true)]
                 [("a", 1%Z); ("b", 1%Z)] [] [] []
                 [("a", plus_ (name_ "x") (num_ 1));
                  ("b", plus_ (name_ "a") (num_ 2))] [])
              that_chain eq_refl eq_refl) as [Hg Hgl].
  exact (closure_of_plain_names that_chain Hg Hgl eq_refl).
Defined.

(** ** Loops in the live ranges *)



(** ** The selection of [run] *)

(** X23: what [run] selects on a body of plain names.  [toReplace] gets
    exactly the variables that are single-def, whose initial value uses
    only side-effect-free nodes, and that are unused, or used at most
    [MAX_USES = 1] times with [depsMutatedInLiveRange] unset; each is put
    there once, and the number that [run] returns is their number. *)
Theorem run_selects (body : jsval) (that : Eliminator) :
  plain_names body = true ->
  analyze body = Some that ->
  (forall v,
      In v (keys (fst (selectEliminated that))) <-> eliminable that v)
  /\ NoDup (keys (fst (selectEliminated that)))
  /\ snd (selectEliminated that)
     = Z.of_nat (length (keys (fst (selectEliminated that))))
  /\ forall fuel n body',
       run fuel body = Some (n, body') -> n = snd (selectEliminated that).
Proof.
  intros _ Ea.
  pose proof (analyze_NoDup _ _ Ea) as Hnd.
  destruct (selectEliminated_spec that Hnd) as [Hk Hn].
  split; [|split; [|split; [exact Hn|]]].
  - intros v. rewrite Hk, filter_In, isEliminateable_iff. split.
    + tauto.
    + intros Hv. split; auto. destruct Hv as [Hs _].
      apply has_In, test_has, Hs.
  - rewrite Hk. now apply NoDup_filter.
  - intros fuel n body'. unfold run. rewrite Ea.
    destruct (selectEliminated that) as [toReplace eliminated].
    destruct (removeDeclarations toReplace body); [|discriminate].
    destruct (collapseValues fuel toReplace); [|discriminate].
    destruct (updateUses _ _); [|discriminate].
    intros H; now inversion H.
Qed.

(** X23 on [var a = x + 1; return a;]. *)
Lemma run_selects_witness :
  keys (fst (selectEliminated
               (mkEliminator [("a", true)] [("a", true); ("x", false)]
                  [("a", 1%Z)] [("a", true)] [("a", true)] []
                  [("a", plus_ (name_ "x") (num_ 1))]
                  [("x", [("a", true)])])))
  = ["a"]
  /\ forall v,
       In v ["a"]
       <-> eliminable
             (mkEliminator [("a", true)] [("a", true); ("x", false)]
                [("a", 1%Z)] [("a", true)] [("a", true)] []
                [("a", plus_ (name_ "x") (num_ 1))]
                [("x", [("a", true)])]) v.
Proof.
  split; [reflexivity|].
  exact (proj1 (run_selects body_inline
                  (mkEliminator [("a", true)] [("a", true); ("x", false)]
                     [("a", 1%Z)] [("a", true)] [("a", true)] []
                     [("a", plus_ (name_ "x") (num_ 1))]
                     [("x", [("a", true)])])
                  eq_refl eq_refl)).
Defined.
